(** * The issue bot: session collector, content validator, tracker adapter, listing

    A shallow embedding of the bot's JavaScript sources
    ([index.js], [utils/openai-utils.js], [utils/github-utils.js]) and the
    properties of its specification that are settled on it.

    Conventions of the embedding.
    - A JavaScript string is a [string]; one character stands for one UTF-16
      code unit, so [String.length] is the [.length] of the source.
    - [async] functions are computations of the monad [M] over the outside
      [World]: the chat gateway, the issue tracker, HTTP and the completion
      service answer through oracles the world carries, so a statement that
      quantifies over worlds quantifies over every behaviour of these services.
      A rejected promise / thrown exception is [Throw].
    - Every event handler runs to completion before the next event is
      delivered.
    - The callbacks that [Promise.all] runs at once go on in the order in
      which what they wait for settles, which the world decides; the gateway
      answers its requests in the order in which they are made. *)

From Stdlib Require Import List ZArith String Ascii Bool Lia Permutation Sorted Arith
  DecimalString.
Import ListNotations.
Local Open Scope string_scope.
Local Open Scope list_scope.

(* ===================================================================== *)
(** * Part I: the model                                                   *)
(* ===================================================================== *)

(** ** Values *)

Definition LF : string := String (ascii_of_nat 10) EmptyString.

(** [`${n}`] for a non-negative integer. *)
Definition string_of_nat (n : nat) : string := NilZero.string_of_uint (Nat.to_uint n).

(** [Array.prototype.join]. *)
Definition join (sep : string) (parts : list string) : string := String.concat sep parts.

(** An exception value: [name] is the class ([Error], [TypeError],
    [SyntaxError], [HttpError] of a client...), [message] its [.message]. *)
Record JsError := { name : string; message : string }.

Definition new_Error (msg : string) : JsError := {| name := "Error"; message := msg |}.

(** How a call ends. *)
Inductive completion (A : Type) : Type :=
| Return (value : A)
| Throw (error : JsError).
Arguments Return {A} value.
Arguments Throw {A} error.

(** A generated issue, as the validator delivers it (element of [IssueSchema]). *)
Record Issue := { title : string; body : string; labels : list string }.

(** The session's bundle: [const assets = { text: [], images: [] }], with the
    [generatedIssues] slot that preview mode adds. *)
Record Assets := {
  text : list string;
  images : list string;
  generatedIssues : option (list Issue)
}.

(** ** The issue tracker *)

(** Argument of [octokit.issues.create]. *)
Record IssueRequest := {
  owner : string;
  repo : string;
  req_title : string;
  req_body : string;
  req_labels : list string
}.

(** The [data] of the tracker's answer: what the bot reads of a created issue. *)
Record CreatedIssue := { number : nat; html_url : string; created_title : string }.

(** ** The chat gateway *)

Inductive ButtonStyle := Primary | Success | Danger | Link.

Record Button := { customId : string; label : string; style : ButtonStyle }.

Record EmbedField := { field_name : string; field_value : string; inline : bool }.

Record Embed := {
  embed_title : string;
  embed_description : option string;
  embed_fields : list EmbedField;
  embed_color : string
}.

(** Payload of [send] / [edit]; an absent key is [None]. [components] is a list
    of action rows. *)
Record Payload := {
  content : option string;
  embeds : option (list Embed);
  components : option (list (list Button))
}.

Definition plain (s : string) : Payload :=
  {| content := Some s; embeds := None; components := None |}.

(** A message the bot sent is named by the position of its [send] in the log. *)
Definition MessageId := nat.

Inductive ChatOp :=
| ChannelSend (p : Payload)
| MessageEdit (target : MessageId) (p : Payload)
| InteractionDeferUpdate
| ThreadSetArchived (archived : bool).

(** ** HTTP *)

(** [await fetch(url)]: the promise rejects, or resolves to a response whose
    body read ([arrayBuffer()]) may itself reject. *)
Record Response := {
  ok : bool;
  status : nat;
  content_type : string;          (* headers.get('content-type') as interpolated *)
  arrayBuffer : completion (list nat) (* the bytes *)
}.

(** ** The completion service *)

Inductive ContentPart :=
| TextPart (t : string)
| ImageUrlPart (url : string).

Record ChatMessage := { role : string; parts : list ContentPart }.

(** ** The world *)

Record World := {
  (* process.env *)
  GITHUB_REPO_OWNER : string;
  GITHUB_REPO_NAME : string;
  (* chat gateway: every send/edit requested so far, oldest first, and the
     gateway's answer to the n-th request ([None]: accepted) *)
  chat_log : list ChatOp;
  chat_answer : nat -> option JsError;
  (* tracker: every creation call made so far, the issues that exist, and the
     tracker's answer to the n-th call ([Throw]: the call is refused and
     creates nothing) *)
  tracker_calls : list IssueRequest;
  tracker_issues : list (IssueRequest * CreatedIssue);
  tracker_answer : nat -> IssueRequest -> completion CreatedIssue;
  (* HTTP: the answer to the request of a url, and the time that the request
     and the read of its body take *)
  http : string -> completion Response;
  settles_at : string -> nat;
  (* completion service: the chunks ([delta.content]) of the n-th stream, and
     how the stream ends *)
  llm_calls : list (list ChatMessage);
  llm_answer : nat -> list ChatMessage -> completion (list string * option JsError)
}.

Definition with_chat_log (w : World) (l : list ChatOp) : World :=
  {| GITHUB_REPO_OWNER := w.(GITHUB_REPO_OWNER); GITHUB_REPO_NAME := w.(GITHUB_REPO_NAME);
     chat_log := l; chat_answer := w.(chat_answer);
     tracker_calls := w.(tracker_calls); tracker_issues := w.(tracker_issues);
     tracker_answer := w.(tracker_answer);
     http := w.(http); settles_at := w.(settles_at);
     llm_calls := w.(llm_calls); llm_answer := w.(llm_answer) |}.

Definition with_tracker (w : World) (calls : list IssueRequest)
  (issues : list (IssueRequest * CreatedIssue)) : World :=
  {| GITHUB_REPO_OWNER := w.(GITHUB_REPO_OWNER); GITHUB_REPO_NAME := w.(GITHUB_REPO_NAME);
     chat_log := w.(chat_log); chat_answer := w.(chat_answer);
     tracker_calls := calls; tracker_issues := issues;
     tracker_answer := w.(tracker_answer);
     http := w.(http); settles_at := w.(settles_at);
     llm_calls := w.(llm_calls); llm_answer := w.(llm_answer) |}.

Definition with_llm_calls (w : World) (calls : list (list ChatMessage)) : World :=
  {| GITHUB_REPO_OWNER := w.(GITHUB_REPO_OWNER); GITHUB_REPO_NAME := w.(GITHUB_REPO_NAME);
     chat_log := w.(chat_log); chat_answer := w.(chat_answer);
     tracker_calls := w.(tracker_calls); tracker_issues := w.(tracker_issues);
     tracker_answer := w.(tracker_answer);
     http := w.(http); settles_at := w.(settles_at);
     llm_calls := calls; llm_answer := w.(llm_answer) |}.

(** ** The monad of asynchronous computations *)

(** A computation over a state [S] that returns or throws; the state reached
    is kept in both cases. *)
Definition Comp (S A : Type) : Type := S -> S * completion A.

(** The computations of the utility modules act on the outside world only. *)
Definition M (A : Type) : Type := Comp World A.

Definition ret {S A} (a : A) : Comp S A := fun s => (s, Return a).

Definition throw {S A} (e : JsError) : Comp S A := fun s => (s, Throw e).

Definition bind {S A B} (m : Comp S A) (k : A -> Comp S B) : Comp S B :=
  fun s => match m s with
           | (s', Return a) => k a s'
           | (s', Throw e) => (s', Throw e)
           end.

(** [try { m } catch (error) { h error }]. *)
Definition try_catch {S A} (m : Comp S A) (h : JsError -> Comp S A) : Comp S A :=
  fun s => match m s with
           | (s', Return a) => (s', Return a)
           | (s', Throw e) => h e s'
           end.

Notation "x <- m ;; k" := (bind m (fun x => k))
  (at level 61, m at next level, right associativity).
Notation "m ;;; k" := (bind m (fun _ => k))
  (at level 61, right associativity).

(** [for (const x of xs) { body x }], sequentially, stopping at the first throw. *)
Fixpoint for_of {S A} (xs : list A) (body : A -> Comp S unit) : Comp S unit :=
  match xs with
  | [] => ret tt
  | x :: rest => body x ;;; for_of rest body
  end.

(** *** Primitive effects *)

(** [await channel.send(p)] / [await message.edit(p)] / [thread.setArchived]:
    the request is logged; the gateway accepts it or the promise rejects. *)
Definition chat (op : ChatOp) : M MessageId :=
  fun w =>
    let n := List.length w.(chat_log) in
    let w' := with_chat_log w (w.(chat_log) ++ [op]) in
    match w.(chat_answer) n with
    | None => (w', Return n)
    | Some e => (w', Throw e)
    end.

Definition channel_send (p : Payload) : M MessageId := chat (ChannelSend p).

Definition message_edit (target : MessageId) (p : Payload) : M unit :=
  chat (MessageEdit target p) ;;; ret tt.

Definition thread_setArchived (archived : bool) : M unit :=
  chat (ThreadSetArchived archived) ;;; ret tt.

(** [await octokit.issues.create(req)]. *)
Definition octokit_issues_create (req : IssueRequest) : M CreatedIssue :=
  fun w =>
    let n := List.length w.(tracker_calls) in
    match w.(tracker_answer) n req with
    | Return data =>
        (with_tracker w (w.(tracker_calls) ++ [req]) (w.(tracker_issues) ++ [(req, data)]),
         Return data)
    | Throw e => (with_tracker w (w.(tracker_calls) ++ [req]) w.(tracker_issues), Throw e)
    end.

(** [await fetch(url)]. *)
Definition fetch (url : string) : M Response := fun w => (w, w.(http) url).

(* ===================================================================== *)
(** ** [Array.prototype.sort]                                             *)
(* ===================================================================== *)

(** The listing sorts with a comparator that is not a consistent comparison
    function (it answers [-1] for two backlog items in either order), so the
    language leaves the resulting order to the engine. The bot runs on
    Node.js; this is the sort of its engine (V8, [third_party/v8/builtins/
    array-sort.tq]): TimSort over a work array, with binary insertion for
    short runs and galloping merges. Indices are integers as in the engine
    ([Smi]); a loop is a recursion on a bound of its number of turns. *)

Section TimSort.

Local Open Scope Z_scope.

Variable A : Type.

(** [sortState.Compare]: the user's [comparefn], its answer as a number. *)
Variable Compare : A -> A -> Z.

(** A work array: a cell per index. *)
Definition FixedArray : Type := Z -> A.

Definition store (a : FixedArray) (i : Z) (x : A) : FixedArray :=
  fun j => if j =? i then x else a j.

(** [Copy(source, srcPos, target, dstPos, length)]: overlapping ranges are
    copied from the safe end, so every cell receives the old content. *)
Definition Copy (source : FixedArray) (srcPos : Z) (target : FixedArray)
  (dstPos length : Z) : FixedArray :=
  fun j => if (dstPos <=? j) && (j <? dstPos + length)
           then source (srcPos + (j - dstPos)) else target j.

(** [ReverseRange(array, from, to)]: the cells of [from, to) in reverse. *)
Definition ReverseRange (a : FixedArray) (from to : Z) : FixedArray :=
  fun j => if (from <=? j) && (j <? to) then a (from + (to - 1 - j)) else a j.

Definition kMinGallopWins : Z := 7.

Record SortState := {
  workArray : FixedArray;
  pendingRuns : list (Z * Z);     (* (base, length), bottom of the stack first *)
  minGallop : Z
}.

Definition GetPendingRunBase (runs : list (Z * Z)) (i : Z) : Z :=
  fst (nth (Z.to_nat i) runs (0, 0)).

Definition GetPendingRunLength (runs : list (Z * Z)) (i : Z) : Z :=
  snd (nth (Z.to_nat i) runs (0, 0)).

Definition GetPendingRunsSize (runs : list (Z * Z)) : Z := Z.of_nat (List.length runs).

(** *** Runs *)

(** The loop of [CountAndMakeRun]: how far the run that starts the range
    extends. *)
Fixpoint count_run (fuel : nat) (work : FixedArray) (isDescending : bool)
  (idx high : Z) (previousElement : A) (runLength : Z) : Z :=
  match fuel with
  | O => runLength
  | S fuel' =>
      if idx <? high then
        let currentElement := work idx in
        let order := Compare currentElement previousElement in
        if (if isDescending then 0 <=? order else order <? 0) then runLength
        else count_run fuel' work isDescending (idx + 1) high currentElement (runLength + 1)
      else runLength
  end.

Definition CountAndMakeRun (work : FixedArray) (lowArg high : Z) : FixedArray * Z :=
  let low := lowArg + 1 in
  if low =? high then (work, 1)
  else
    let elementLow := work low in
    let elementHigh := work (low - 1) in
    let order := Compare elementLow elementHigh in
    let isDescending := order <? 0 in
    let runLength :=
      count_run (Z.to_nat (high - low)) work isDescending (low + 1) high elementLow 2 in
    if isDescending
    then (ReverseRange work lowArg (lowArg + runLength), runLength)
    else (work, runLength).

(** The binary search shared by the insertion sort and the gallops:
    [while (lastOfs < offset) { m = lastOfs + ((offset - lastOfs) >> 1);
    if (goRight m) lastOfs = m + 1; else offset = m; }], then [offset]. *)
Fixpoint binary_search (fuel : nat) (goRight : Z -> bool) (lastOfs offset : Z) : Z :=
  match fuel with
  | O => offset
  | S fuel' =>
      if lastOfs <? offset then
        let m := lastOfs + Z.shiftr (offset - lastOfs) 1 in
        if goRight m then binary_search fuel' goRight (m + 1) offset
        else binary_search fuel' goRight lastOfs m
      else offset
  end.

(** The loop of [BinaryInsertionSort] over [start]. *)
Fixpoint insertion_loop (fuel : nat) (work : FixedArray) (low start high : Z) : FixedArray :=
  match fuel with
  | O => work
  | S fuel' =>
      if start <? high then
        let pivot := work start in
        let left :=
          binary_search (Z.to_nat (start - low))
            (fun mid => negb (Compare pivot (work mid) <? 0)) low start in
        let work' := store (Copy work left work (left + 1) (start - left)) left pivot in
        insertion_loop fuel' work' low (start + 1) high
      else work
  end.

Definition BinaryInsertionSort (work : FixedArray) (low startArg high : Z) : FixedArray :=
  let start := if low =? startArg then startArg + 1 else startArg in
  insertion_loop (Z.to_nat (high - start)) work low start high.

(** [while (n >= 64) { r = r | (n & 1); n = n >> 1; }] *)
Fixpoint min_run_loop (fuel : nat) (n r : Z) : Z * Z :=
  match fuel with
  | O => (n, r)
  | S fuel' =>
      if 64 <=? n then min_run_loop fuel' (Z.shiftr n 1) (Z.lor r (Z.land n 1))
      else (n, r)
  end.

Definition ComputeMinRunLength (nArg : Z) : Z :=
  let '(n, r) := min_run_loop (Z.to_nat nArg) nArg 0 in n + r.

(** *** Galloping *)

(** The exponential search of both gallops:
    [while (offset < maxOfs) { if (!continue offset) break;
    lastOfs = offset; offset = (offset << 1) + 1;
    if (offset <= 0) offset = maxOfs; }] *)
Fixpoint gallop_loop (fuel : nat) (continue : Z -> bool) (maxOfs lastOfs offset : Z)
  : Z * Z :=
  match fuel with
  | O => (lastOfs, offset)
  | S fuel' =>
      if offset <? maxOfs then
        if continue offset then
          let offset' := Z.shiftl offset 1 + 1 in
          gallop_loop fuel' continue maxOfs offset (if offset' <=? 0 then maxOfs else offset')
        else (lastOfs, offset)
      else (lastOfs, offset)
  end.

(** [GallopLeft(array, key, base, length, hint)] *)
Definition GallopLeft (array : FixedArray) (key : A) (base length hint : Z) : Z :=
  let baseHintElement := array (base + hint) in
  let order := Compare baseHintElement key in
  let '(lastOfs, offset) :=
    if order <? 0 then
      let maxOfs := length - hint in
      let '(lastOfs, offset) :=
        gallop_loop (Z.to_nat maxOfs)
          (fun offset => Compare (array (base + hint + offset)) key <? 0) maxOfs 0 1 in
      let offset := if maxOfs <? offset then maxOfs else offset in
      (lastOfs + hint, offset + hint)
    else
      let maxOfs := hint + 1 in
      let '(lastOfs, offset) :=
        gallop_loop (Z.to_nat maxOfs)
          (fun offset => negb (Compare (array (base + hint - offset)) key <? 0)) maxOfs 0 1 in
      let offset := if maxOfs <? offset then maxOfs else offset in
      let tmp := lastOfs in
      (hint - offset, hint - tmp) in
  binary_search (Z.to_nat length)
    (fun m => Compare (array (base + m)) key <? 0) (lastOfs + 1) offset.

(** [GallopRight(array, key, base, length, hint)] *)
Definition GallopRight (array : FixedArray) (key : A) (base length hint : Z) : Z :=
  let baseHintElement := array (base + hint) in
  let order := Compare key baseHintElement in
  let '(lastOfs, offset) :=
    if order <? 0 then
      let maxOfs := hint + 1 in
      let '(lastOfs, offset) :=
        gallop_loop (Z.to_nat maxOfs)
          (fun offset => Compare key (array (base + hint - offset)) <? 0) maxOfs 0 1 in
      let offset := if maxOfs <? offset then maxOfs else offset in
      let tmp := lastOfs in
      (hint - offset, hint - tmp)
    else
      let maxOfs := length - hint in
      let '(lastOfs, offset) :=
        gallop_loop (Z.to_nat maxOfs)
          (fun offset => negb (Compare key (array (base + hint + offset)) <? 0)) maxOfs 0 1 in
      let offset := if maxOfs <? offset then maxOfs else offset in
      (lastOfs + hint, offset + hint) in
  binary_search (Z.to_nat length)
    (fun m => negb (Compare key (array (base + m)) <? 0)) (lastOfs + 1) offset.

(** *** Merging *)

(** The variables of [MergeLow] / [MergeHigh]. [cursor] is [cursorB] in
    [MergeLow] and [cursorA] in [MergeHigh]. *)
Record Merge := {
  m_work : FixedArray;
  m_temp : FixedArray;
  dest : Z;
  cursorTemp : Z;
  cursor : Z;
  lengthA : Z;
  lengthB : Z;
  m_minGallop : Z
}.

(** Where the merge loop stands: in the one-at-a-time loop, about to test the
    condition of the galloping loop, or at one of the exit labels. *)
Inductive MergeMode :=
| OneAtATime (nofWinsA nofWinsB : Z)
| Galloping (nofWinsA nofWinsB : Z) (firstIteration : bool).

Inductive MergeLabel := Succeed | CopyRest.

(** One turn of the loops of [MergeLow]: the next mode, or the label reached. *)
Definition MergeLow_turn (s : Merge) (mode : MergeMode) : Merge * (MergeMode + MergeLabel) :=
  match mode with
  | OneAtATime nofWinsA nofWinsB =>
      let order := Compare (s.(m_work) s.(cursor)) (s.(m_temp) s.(cursorTemp)) in
      if order <? 0 then
        let s' := {| m_work := store s.(m_work) s.(dest) (s.(m_work) s.(cursor));
                     m_temp := s.(m_temp); dest := s.(dest) + 1;
                     cursorTemp := s.(cursorTemp); cursor := s.(cursor) + 1;
                     lengthA := s.(lengthA); lengthB := s.(lengthB) - 1;
                     m_minGallop := s.(m_minGallop) |} in
        let nofWinsB' := nofWinsB + 1 in
        if s'.(lengthB) =? 0 then (s', inr Succeed)
        else if s.(m_minGallop) <=? nofWinsB' then
          ({| m_work := s'.(m_work); m_temp := s'.(m_temp); dest := s'.(dest);
              cursorTemp := s'.(cursorTemp); cursor := s'.(cursor);
              lengthA := s'.(lengthA); lengthB := s'.(lengthB);
              m_minGallop := s.(m_minGallop) + 1 |}, inl (Galloping 0 nofWinsB' true))
        else (s', inl (OneAtATime 0 nofWinsB'))
      else
        let s' := {| m_work := store s.(m_work) s.(dest) (s.(m_temp) s.(cursorTemp));
                     m_temp := s.(m_temp); dest := s.(dest) + 1;
                     cursorTemp := s.(cursorTemp) + 1; cursor := s.(cursor);
                     lengthA := s.(lengthA) - 1; lengthB := s.(lengthB);
                     m_minGallop := s.(m_minGallop) |} in
        let nofWinsA' := nofWinsA + 1 in
        if s'.(lengthA) =? 1 then (s', inr CopyRest)
        else if s.(m_minGallop) <=? nofWinsA' then
          ({| m_work := s'.(m_work); m_temp := s'.(m_temp); dest := s'.(dest);
              cursorTemp := s'.(cursorTemp); cursor := s'.(cursor);
              lengthA := s'.(lengthA); lengthB := s'.(lengthB);
              m_minGallop := s.(m_minGallop) + 1 |}, inl (Galloping nofWinsA' 0 true))
        else (s', inl (OneAtATime nofWinsA' 0))
  | Galloping nofWinsA nofWinsB firstIteration =>
      if negb ((kMinGallopWins <=? nofWinsA) || (kMinGallopWins <=? nofWinsB) || firstIteration)
      then
        ({| m_work := s.(m_work); m_temp := s.(m_temp); dest := s.(dest);
            cursorTemp := s.(cursorTemp); cursor := s.(cursor);
            lengthA := s.(lengthA); lengthB := s.(lengthB);
            m_minGallop := s.(m_minGallop) + 1 |}, inl (OneAtATime 0 0))
      else
        let minGallop' := Z.max 1 (s.(m_minGallop) - 1) in
        let nofWinsA' :=
          GallopRight s.(m_temp) (s.(m_work) s.(cursor)) s.(cursorTemp) s.(lengthA) 0 in
        let s1 :=
          if 0 <? nofWinsA' then
            {| m_work := Copy s.(m_temp) s.(cursorTemp) s.(m_work) s.(dest) nofWinsA';
               m_temp := s.(m_temp); dest := s.(dest) + nofWinsA';
               cursorTemp := s.(cursorTemp) + nofWinsA'; cursor := s.(cursor);
               lengthA := s.(lengthA) - nofWinsA'; lengthB := s.(lengthB);
               m_minGallop := minGallop' |}
          else
            {| m_work := s.(m_work); m_temp := s.(m_temp); dest := s.(dest);
               cursorTemp := s.(cursorTemp); cursor := s.(cursor);
               lengthA := s.(lengthA); lengthB := s.(lengthB);
               m_minGallop := minGallop' |} in
        if (0 <? nofWinsA') && (s1.(lengthA) =? 1) then (s1, inr CopyRest)
        else if (0 <? nofWinsA') && (s1.(lengthA) =? 0) then (s1, inr Succeed)
        else
          let s2 := {| m_work := store s1.(m_work) s1.(dest) (s1.(m_work) s1.(cursor));
                       m_temp := s1.(m_temp); dest := s1.(dest) + 1;
                       cursorTemp := s1.(cursorTemp); cursor := s1.(cursor) + 1;
                       lengthA := s1.(lengthA); lengthB := s1.(lengthB) - 1;
                       m_minGallop := minGallop' |} in
          if s2.(lengthB) =? 0 then (s2, inr Succeed)
          else
            let nofWinsB' :=
              GallopLeft s2.(m_work) (s2.(m_temp) s2.(cursorTemp)) s2.(cursor) s2.(lengthB) 0 in
            let s3 :=
              if 0 <? nofWinsB' then
                {| m_work := Copy s2.(m_work) s2.(cursor) s2.(m_work) s2.(dest) nofWinsB';
                   m_temp := s2.(m_temp); dest := s2.(dest) + nofWinsB';
                   cursorTemp := s2.(cursorTemp); cursor := s2.(cursor) + nofWinsB';
                   lengthA := s2.(lengthA); lengthB := s2.(lengthB) - nofWinsB';
                   m_minGallop := minGallop' |}
              else s2 in
            if (0 <? nofWinsB') && (s3.(lengthB) =? 0) then (s3, inr Succeed)
            else
              let s4 := {| m_work := store s3.(m_work) s3.(dest) (s3.(m_temp) s3.(cursorTemp));
                           m_temp := s3.(m_temp); dest := s3.(dest) + 1;
                           cursorTemp := s3.(cursorTemp) + 1; cursor := s3.(cursor);
                           lengthA := s3.(lengthA) - 1; lengthB := s3.(lengthB);
                           m_minGallop := minGallop' |} in
              if s4.(lengthA) =? 1 then (s4, inr CopyRest)
              else (s4, inl (Galloping nofWinsA' nofWinsB' false))
  end.

(** Turns until a label is reached. *)
Fixpoint merge_loop (turn : Merge -> MergeMode -> Merge * (MergeMode + MergeLabel))
  (fuel : nat) (s : Merge) (mode : MergeMode) : Merge * MergeLabel :=
  match fuel with
  | O => (s, Succeed)
  | S fuel' =>
      match turn s mode with
      | (s', inl mode') => merge_loop turn fuel' s' mode'
      | (s', inr label) => (s', label)
      end
  end.

(** [MergeLow(baseA, lengthA, baseB, lengthB)]: the work array and
    [minGallop] it leaves. *)
Definition MergeLow (work : FixedArray) (minGallop0 : Z) (baseA lengthAArg baseB lengthBArg : Z)
  : FixedArray * Z :=
  let tempArray := Copy work baseA work 0 lengthAArg in
  let s0 := {| m_work := store work baseA (work baseB);
               m_temp := tempArray; dest := baseA + 1; cursorTemp := 0;
               cursor := baseB + 1; lengthA := lengthAArg; lengthB := lengthBArg - 1;
               m_minGallop := minGallop0 |} in
  let '(s, label) :=
    if s0.(lengthB) =? 0 then (s0, Succeed)
    else if s0.(lengthA) =? 1 then (s0, CopyRest)
    else merge_loop MergeLow_turn (Z.to_nat (2 * (lengthAArg + lengthBArg) + 2))
                    s0 (OneAtATime 0 0) in
  match label with
  | Succeed =>
      (if 0 <? s.(lengthA)
       then Copy s.(m_temp) s.(cursorTemp) s.(m_work) s.(dest) s.(lengthA)
       else s.(m_work),
       s.(m_minGallop))
  | CopyRest =>
      (store (Copy s.(m_work) s.(cursor) s.(m_work) s.(dest) s.(lengthB))
             (s.(dest) + s.(lengthB)) (s.(m_temp) s.(cursorTemp)),
       s.(m_minGallop))
  end.

(** One turn of the loops of [MergeHigh], which merges from the right end. *)
Definition MergeHigh_turn (baseA : Z) (s : Merge) (mode : MergeMode)
  : Merge * (MergeMode + MergeLabel) :=
  match mode with
  | OneAtATime nofWinsA nofWinsB =>
      let order := Compare (s.(m_temp) s.(cursorTemp)) (s.(m_work) s.(cursor)) in
      if order <? 0 then
        let s' := {| m_work := store s.(m_work) s.(dest) (s.(m_work) s.(cursor));
                     m_temp := s.(m_temp); dest := s.(dest) - 1;
                     cursorTemp := s.(cursorTemp); cursor := s.(cursor) - 1;
                     lengthA := s.(lengthA) - 1; lengthB := s.(lengthB);
                     m_minGallop := s.(m_minGallop) |} in
        let nofWinsA' := nofWinsA + 1 in
        if s'.(lengthA) =? 0 then (s', inr Succeed)
        else if s.(m_minGallop) <=? nofWinsA' then
          ({| m_work := s'.(m_work); m_temp := s'.(m_temp); dest := s'.(dest);
              cursorTemp := s'.(cursorTemp); cursor := s'.(cursor);
              lengthA := s'.(lengthA); lengthB := s'.(lengthB);
              m_minGallop := s.(m_minGallop) + 1 |}, inl (Galloping nofWinsA' 0 true))
        else (s', inl (OneAtATime nofWinsA' 0))
      else
        let s' := {| m_work := store s.(m_work) s.(dest) (s.(m_temp) s.(cursorTemp));
                     m_temp := s.(m_temp); dest := s.(dest) - 1;
                     cursorTemp := s.(cursorTemp) - 1; cursor := s.(cursor);
                     lengthA := s.(lengthA); lengthB := s.(lengthB) - 1;
                     m_minGallop := s.(m_minGallop) |} in
        let nofWinsB' := nofWinsB + 1 in
        if s'.(lengthB) =? 1 then (s', inr CopyRest)
        else if s.(m_minGallop) <=? nofWinsB' then
          ({| m_work := s'.(m_work); m_temp := s'.(m_temp); dest := s'.(dest);
              cursorTemp := s'.(cursorTemp); cursor := s'.(cursor);
              lengthA := s'.(lengthA); lengthB := s'.(lengthB);
              m_minGallop := s.(m_minGallop) + 1 |}, inl (Galloping 0 nofWinsB' true))
        else (s', inl (OneAtATime 0 nofWinsB'))
  | Galloping nofWinsA nofWinsB firstIteration =>
      if negb ((kMinGallopWins <=? nofWinsA) || (kMinGallopWins <=? nofWinsB) || firstIteration)
      then
        ({| m_work := s.(m_work); m_temp := s.(m_temp); dest := s.(dest);
            cursorTemp := s.(cursorTemp); cursor := s.(cursor);
            lengthA := s.(lengthA); lengthB := s.(lengthB);
            m_minGallop := s.(m_minGallop) + 1 |}, inl (OneAtATime 0 0))
      else
        let minGallop' := Z.max 1 (s.(m_minGallop) - 1) in
        let k := GallopRight s.(m_work) (s.(m_temp) s.(cursorTemp)) baseA s.(lengthA)
                   (s.(lengthA) - 1) in
        let nofWinsA' := s.(lengthA) - k in
        let s1 :=
          if 0 <? nofWinsA' then
            {| m_work := Copy s.(m_work) (s.(cursor) - nofWinsA' + 1) s.(m_work)
                           (s.(dest) - nofWinsA' + 1) nofWinsA';
               m_temp := s.(m_temp); dest := s.(dest) - nofWinsA';
               cursorTemp := s.(cursorTemp); cursor := s.(cursor) - nofWinsA';
               lengthA := s.(lengthA) - nofWinsA'; lengthB := s.(lengthB);
               m_minGallop := minGallop' |}
          else
            {| m_work := s.(m_work); m_temp := s.(m_temp); dest := s.(dest);
               cursorTemp := s.(cursorTemp); cursor := s.(cursor);
               lengthA := s.(lengthA); lengthB := s.(lengthB);
               m_minGallop := minGallop' |} in
        if (0 <? nofWinsA') && (s1.(lengthA) =? 0) then (s1, inr Succeed)
        else
          let s2 := {| m_work := store s1.(m_work) s1.(dest) (s1.(m_temp) s1.(cursorTemp));
                       m_temp := s1.(m_temp); dest := s1.(dest) - 1;
                       cursorTemp := s1.(cursorTemp) - 1; cursor := s1.(cursor);
                       lengthA := s1.(lengthA); lengthB := s1.(lengthB) - 1;
                       m_minGallop := minGallop' |} in
          if s2.(lengthB) =? 1 then (s2, inr CopyRest)
          else
            let k' := GallopLeft s2.(m_temp) (s2.(m_work) s2.(cursor)) 0 s2.(lengthB)
                        (s2.(lengthB) - 1) in
            let nofWinsB' := s2.(lengthB) - k' in
            let s3 :=
              if 0 <? nofWinsB' then
                {| m_work := Copy s2.(m_temp) (s2.(cursorTemp) - nofWinsB' + 1) s2.(m_work)
                               (s2.(dest) - nofWinsB' + 1) nofWinsB';
                   m_temp := s2.(m_temp); dest := s2.(dest) - nofWinsB';
                   cursorTemp := s2.(cursorTemp) - nofWinsB'; cursor := s2.(cursor);
                   lengthA := s2.(lengthA); lengthB := s2.(lengthB) - nofWinsB';
                   m_minGallop := minGallop' |}
              else s2 in
            if (0 <? nofWinsB') && (s3.(lengthB) =? 1) then (s3, inr CopyRest)
            else if (0 <? nofWinsB') && (s3.(lengthB) =? 0) then (s3, inr Succeed)
            else
              let s4 := {| m_work := store s3.(m_work) s3.(dest) (s3.(m_work) s3.(cursor));
                           m_temp := s3.(m_temp); dest := s3.(dest) - 1;
                           cursorTemp := s3.(cursorTemp); cursor := s3.(cursor) - 1;
                           lengthA := s3.(lengthA) - 1; lengthB := s3.(lengthB);
                           m_minGallop := minGallop' |} in
              if s4.(lengthA) =? 0 then (s4, inr Succeed)
              else (s4, inl (Galloping nofWinsA' nofWinsB' false))
  end.

(** [MergeHigh(baseA, lengthA, baseB, lengthB)] *)
Definition MergeHigh (work : FixedArray) (minGallop0 : Z) (baseA lengthAArg baseB lengthBArg : Z)
  : FixedArray * Z :=
  let tempArray := Copy work baseB work 0 lengthBArg in
  let dest0 := baseB + lengthBArg - 1 in
  let cursorA0 := baseA + lengthAArg - 1 in
  let s0 := {| m_work := store work dest0 (work cursorA0);
               m_temp := tempArray; dest := dest0 - 1; cursorTemp := lengthBArg - 1;
               cursor := cursorA0 - 1; lengthA := lengthAArg - 1; lengthB := lengthBArg;
               m_minGallop := minGallop0 |} in
  let '(s, label) :=
    if s0.(lengthA) =? 0 then (s0, Succeed)
    else if s0.(lengthB) =? 1 then (s0, CopyRest)
    else merge_loop (MergeHigh_turn baseA) (Z.to_nat (2 * (lengthAArg + lengthBArg) + 2))
                    s0 (OneAtATime 0 0) in
  match label with
  | Succeed =>
      (if 0 <? s.(lengthB)
       then Copy s.(m_temp) 0 s.(m_work) (s.(dest) - (s.(lengthB) - 1)) s.(lengthB)
       else s.(m_work),
       s.(m_minGallop))
  | CopyRest =>
      let dest' := s.(dest) - s.(lengthA) in
      let cursorA' := s.(cursor) - s.(lengthA) in
      (store (Copy s.(m_work) (cursorA' + 1) s.(m_work) (dest' + 1) s.(lengthA))
             dest' (s.(m_temp) s.(cursorTemp)),
       s.(m_minGallop))
  end.

(** [MergeAt(i)]: merges the runs [i] and [i + 1] of the stack. *)
Definition MergeAt (st : SortState) (i : Z) : SortState :=
  let runs := st.(pendingRuns) in
  let work := st.(workArray) in
  let baseA := GetPendingRunBase runs i in
  let lengthA := GetPendingRunLength runs i in
  let baseB := GetPendingRunBase runs (i + 1) in
  let lengthB := GetPendingRunLength runs (i + 1) in
  let runs' := firstn (Z.to_nat i) runs ++ [(baseA, lengthA + lengthB)]
               ++ skipn (Z.to_nat (i + 2)) runs in
  let keyRight := work baseB in
  let k := GallopRight work keyRight baseA lengthA 0 in
  let baseA' := baseA + k in
  let lengthA' := lengthA - k in
  if lengthA' =? 0
  then {| workArray := work; pendingRuns := runs'; minGallop := st.(minGallop) |}
  else
    let keyLeft := work (baseA' + lengthA' - 1) in
    let lengthB' := GallopLeft work keyLeft baseB lengthB (lengthB - 1) in
    if lengthB' =? 0
    then {| workArray := work; pendingRuns := runs'; minGallop := st.(minGallop) |}
    else
      let '(work', minGallop') :=
        if lengthA' <=? lengthB'
        then MergeLow work st.(minGallop) baseA' lengthA' baseB lengthB'
        else MergeHigh work st.(minGallop) baseA' lengthA' baseB lengthB' in
      {| workArray := work'; pendingRuns := runs'; minGallop := minGallop' |}.

Definition RunInvariantEstablished (runs : list (Z * Z)) (n : Z) : bool :=
  if n <? 2 then true
  else
    let lengthN := GetPendingRunLength runs n in
    let lengthNM := GetPendingRunLength runs (n - 1) in
    let lengthNMM := GetPendingRunLength runs (n - 2) in
    lengthNM + lengthN <? lengthNMM.

(** [MergeCollapse] *)
Fixpoint MergeCollapse (fuel : nat) (st : SortState) : SortState :=
  match fuel with
  | O => st
  | S fuel' =>
      let runs := st.(pendingRuns) in
      if 1 <? GetPendingRunsSize runs then
        let n := GetPendingRunsSize runs - 2 in
        if negb (RunInvariantEstablished runs (n + 1)) ||
           negb (RunInvariantEstablished runs n)
        then
          let n' := if GetPendingRunLength runs (n - 1) <? GetPendingRunLength runs (n + 1)
                    then n - 1 else n in
          MergeCollapse fuel' (MergeAt st n')
        else if GetPendingRunLength runs n <=? GetPendingRunLength runs (n + 1)
        then MergeCollapse fuel' (MergeAt st n)
        else st
      else st
  end.

(** [MergeForceCollapse] *)
Fixpoint MergeForceCollapse (fuel : nat) (st : SortState) : SortState :=
  match fuel with
  | O => st
  | S fuel' =>
      let runs := st.(pendingRuns) in
      if 1 <? GetPendingRunsSize runs then
        let n := GetPendingRunsSize runs - 2 in
        let n' := if (0 <? n) &&
                     (GetPendingRunLength runs (n - 1) <? GetPendingRunLength runs (n + 1))
                  then n - 1 else n in
        MergeForceCollapse fuel' (MergeAt st n')
      else st
  end.

(** The loop of [ArrayTimSortImpl] over the runs. *)
Fixpoint runs_loop (fuel : nat) (st : SortState) (minRunLength low remaining : Z) : SortState :=
  match fuel with
  | O => st
  | S fuel' =>
      if remaining =? 0 then st
      else
        let '(work1, counted) := CountAndMakeRun st.(workArray) low (low + remaining) in
        let '(work2, currentRunLength) :=
          if counted <? minRunLength then
            let forcedRunLength := Z.min minRunLength remaining in
            (BinaryInsertionSort work1 low (low + counted) (low + forcedRunLength),
             forcedRunLength)
          else (work1, counted) in
        let pushed := {| workArray := work2;
                         pendingRuns := st.(pendingRuns) ++ [(low, currentRunLength)];
                         minGallop := st.(minGallop) |} in
        let collapsed := MergeCollapse (List.length pushed.(pendingRuns)) pushed in
        runs_loop fuel' collapsed minRunLength
                  (low + currentRunLength) (remaining - currentRunLength)
  end.

(** [ArrayTimSortImpl(context, sortState, length)] *)
Definition ArrayTimSortImpl (work : FixedArray) (length : Z) : FixedArray :=
  if length <? 2 then work
  else
    let minRunLength := ComputeMinRunLength length in
    let st0 := {| workArray := work; pendingRuns := []; minGallop := kMinGallopWins |} in
    let st := runs_loop (Z.to_nat length) st0 minRunLength 0 length in
    (MergeForceCollapse (List.length st.(pendingRuns)) st).(workArray).

(** [array.sort(comparefn)] on an array without holes or [undefined]: the
    elements go to the work array, are sorted there and written back. *)
Definition Array_sort (l : list A) : list A :=
  match l with
  | [] => []
  | d :: _ =>
      let sorted := ArrayTimSortImpl (fun i => nth (Z.to_nat i) l d) (Z.of_nat (List.length l)) in
      map (fun i => sorted (Z.of_nat i)) (seq 0%nat (List.length l))
  end.

End TimSort.

Arguments store {A} a i x.
Arguments Copy {A} source srcPos target dstPos length.
Arguments ReverseRange {A} a from to.
Arguments workArray {A} s.
Arguments pendingRuns {A} s.
Arguments minGallop {A} s.
Arguments Build_SortState {A} workArray pendingRuns minGallop.
Arguments m_work {A} m.
Arguments m_temp {A} m.
Arguments dest {A} m.
Arguments cursorTemp {A} m.
Arguments cursor {A} m.
Arguments lengthA {A} m.
Arguments lengthB {A} m.
Arguments m_minGallop {A} m.
Arguments Build_Merge {A} m_work m_temp dest cursorTemp cursor lengthA lengthB m_minGallop.
Arguments count_run {A} Compare fuel work isDescending idx high previousElement runLength.
Arguments CountAndMakeRun {A} Compare work lowArg high.
Arguments insertion_loop {A} Compare fuel work low start high.
Arguments BinaryInsertionSort {A} Compare work low startArg high.
Arguments GallopLeft {A} Compare array key base length hint.
Arguments GallopRight {A} Compare array key base length hint.
Arguments MergeLow_turn {A} Compare s mode.
Arguments MergeHigh_turn {A} Compare baseA s mode.
Arguments merge_loop {A} turn fuel s mode.
Arguments MergeLow {A} Compare work minGallop0 baseA lengthAArg baseB lengthBArg.
Arguments MergeHigh {A} Compare work minGallop0 baseA lengthAArg baseB lengthBArg.
Arguments MergeAt {A} Compare st i.
Arguments MergeCollapse {A} Compare fuel st.
Arguments MergeForceCollapse {A} Compare fuel st.
Arguments runs_loop {A} Compare fuel st minRunLength low remaining.
Arguments ArrayTimSortImpl {A} Compare work length.
Arguments Array_sort {A} Compare l.
(* ===================================================================== *)
(** ** utils/github-utils.js                                              *)
(* ===================================================================== *)

(** [assets.images.map(url => `![image](${url})`).join('\n')] *)
Definition image_links (imgs : list string) : string :=
  join LF (map (fun url => "![image](" ++ url ++ ")")%string imgs).

(** The argument object of the creation call for [issue]. *)
Definition issue_request (w : World) (issue : Issue) (assets : Assets) : IssueRequest :=
  {| owner := w.(GITHUB_REPO_OWNER);
     repo := w.(GITHUB_REPO_NAME);
     req_title := issue.(title);
     req_body := (issue.(body) ++ LF ++ LF ++ image_links assets.(images))%string;
     req_labels := issue.(labels) |}.

(** The loop of [createIssues]: [createdIssues] is the accumulator array. *)
Fixpoint createIssues_from (issues : list Issue) (assets : Assets)
  (createdIssues : list CreatedIssue) : M (list CreatedIssue) :=
  match issues with
  | [] => ret createdIssues
  | issue :: rest =>
      data <- try_catch
                (fun w => octokit_issues_create (issue_request w issue assets) w)
                (fun error => throw error) ;;
      createIssues_from rest assets (createdIssues ++ [data])
  end.

Definition createIssues (issues : list Issue) (assets : Assets) : M (list CreatedIssue) :=
  createIssues_from issues assets [].


(** *** Listing *)

(** A value that is a string, [null] or [undefined]: what [x?.name] and the
    nullable fields of the tracker's answers evaluate to. *)
Inductive Maybe :=
| undefined
| null
| str (s : string).

(** [a === b] *)
Definition strict_eq (a b : Maybe) : bool :=
  match a, b with
  | undefined, undefined => true
  | null, null => true
  | str s, str t => String.eqb s t
  | _, _ => false
  end.

(** [ToBoolean] *)
Definition truthy (a : Maybe) : bool :=
  match a with
  | str s => negb (String.eqb s "")
  | _ => false
  end.

(** An option of the single-select status field. *)
Record StatusOption := { option_id : string; option_name : string }.

Record StatusField := { field_name_ : string; options : list StatusOption }.

(** [fieldValueByName(name: "Status")] of an item: both fields are nullable
    strings ([None] is [null]). *)
Record FieldValue := { fv_name : option string; fv_optionId : option string }.

Record IssueContent := {
  content_number : nat;
  content_title : string;
  content_url : string;
  content_body : option string;
  content_assignees : list string
}.

(** An item of the project board that wraps an issue ([fieldValueByName] is
    [null] for an item without status). *)
Record ProjectItem := {
  item_id : string;
  fieldValueByName : option FieldValue;
  item_content : IssueContent
}.

Definition of_nullable (s : option string) : Maybe :=
  match s with Some s' => str s' | None => null end.

(** [item.fieldValueByName?.name] *)
Definition status_name (item : ProjectItem) : Maybe :=
  match item.(fieldValueByName) with
  | Some fv => of_nullable fv.(fv_name)
  | None => undefined
  end.

(** [item.fieldValueByName?.optionId] *)
Definition status_optionId (item : ProjectItem) : Maybe :=
  match item.(fieldValueByName) with
  | Some fv => of_nullable fv.(fv_optionId)
  | None => undefined
  end.

(** [option?.name] and [option?.id] for the result of [find]. *)
Definition option_name_of (o : option StatusOption) : Maybe :=
  match o with Some o' => str o'.(option_name) | None => undefined end.

Definition option_id_of (o : option StatusOption) : Maybe :=
  match o with Some o' => str o'.(option_id) | None => undefined end.

Definition find_option (name0 : string) (statusField : StatusField) : option StatusOption :=
  find (fun o => String.eqb o.(option_name) name0) statusField.(options).

(** The predicate of the [filter] call. *)
Definition keep_item (doneOption : option StatusOption) (item : ProjectItem) : bool :=
  let status := status_name item in
  truthy status && negb (strict_eq status (option_name_of doneOption)).

(** The comparator of the [sort] call. *)
Definition backlog_first (backlogOption : option StatusOption) (a b : ProjectItem) : Z :=
  if strict_eq (status_optionId a) (option_id_of backlogOption) then (-1)%Z
  else if strict_eq (status_optionId b) (option_id_of backlogOption) then 1%Z
  else 0%Z.

Definition processProjectItems (items : list ProjectItem) (statusField : StatusField)
  : list ProjectItem :=
  let backlogOption := find_option "Backlog" statusField in
  let doneOption := find_option "Done" statusField in
  Array_sort (backlog_first backlogOption) (filter (keep_item doneOption) items).
(* ===================================================================== *)
(** ** utils/openai-utils.js                                              *)
(* ===================================================================== *)

(** *** JSON values and the platform's builtins *)

#[local] Set Warnings "-register-all".

(** A value as [JSON.parse] builds it. [JNumber] carries the binary64 pattern
    of the number; nothing below inspects it. [JObject] lists the own
    properties. *)
Inductive json :=
| JNull
| JBool (b : bool)
| JNumber (bits : N)
| JString (s : string)
| JArray (items : list json)
| JObject (members : list (string * json)).

(** [obj[key]] on the own properties: the last binding of [key] (the one a
    parser that meets a duplicate key keeps); [None] is [undefined]. *)
Fixpoint lookup (key : string) (members : list (string * json)) : option json :=
  match members with
  | [] => None
  | (k, v) :: rest =>
      match lookup key rest with
      | Some v' => Some v'
      | None => if String.eqb k key then Some v else None
      end
  end.

(** [v[key]] for a key that no prototype defines ([issues], [title], [body],
    [labels]): a [TypeError] on [null], [undefined] on a primitive or an array. *)
Definition get_property (v : json) (key : string) : completion (option json) :=
  match v with
  | JNull =>
      Throw {| name := "TypeError";
               message := "Cannot read properties of null (reading '" ++ key ++ "')" |}
  | JObject members => Return (lookup key members)
  | _ => Return None
  end.

(** [Buffer.from(bytes).toString('base64')]: the standard alphabet, padded. *)
Definition base64_alphabet : string :=
  "ABCDEFGHIJKLMNOPQRSTUVWXYZabcdefghijklmnopqrstuvwxyz0123456789+/".

Definition base64_digit (n : nat) : string :=
  match String.get n base64_alphabet with
  | Some c => String c EmptyString
  | None => EmptyString
  end.

Fixpoint base64 (bytes : list nat) : string :=
  match bytes with
  | [] => ""
  | [a] =>
      base64_digit (a / 4) ++ base64_digit (a mod 4 * 16) ++ "=="
  | [a; b] =>
      base64_digit (a / 4) ++ base64_digit (a mod 4 * 16 + b / 16)
      ++ base64_digit (b mod 16 * 4) ++ "="
  | a :: b :: c :: rest =>
      base64_digit (a / 4) ++ base64_digit (a mod 4 * 16 + b / 16)
      ++ base64_digit (b mod 16 * 4 + c / 64) ++ base64_digit (c mod 64)
      ++ base64 rest
  end%string.

(** *** [IssueSchema] (zod) *)

Inductive PathSegment := Index (i : nat) | Key (k : string).

Inductive ZodIssueCode :=
| invalid_type (expected received : string)
| too_small (minimum : nat)
| too_big (maximum : nat).

Record ZodIssue := {
  issue_code : ZodIssueCode;
  issue_path : list PathSegment;
  issue_message : string
}.

(** Outcome of parsing one value against one schema. *)
Inductive Validation (A : Type) : Type :=
| Valid (data : A)
| Invalid (errors : list ZodIssue).
Arguments Valid {A} data.
Arguments Invalid {A} errors.

Definition errors_of {A} (v : Validation A) : list ZodIssue :=
  match v with Valid _ => [] | Invalid errors => errors end.

(** zod's name for the type of a value. *)
Definition parsedType (v : option json) : string :=
  match v with
  | None => "undefined"
  | Some JNull => "null"
  | Some (JBool _) => "boolean"
  | Some (JNumber _) => "number"
  | Some (JString _) => "string"
  | Some (JArray _) => "array"
  | Some (JObject _) => "object"
  end.

Definition invalid_type_issue (expected : string) (v : option json)
  (path : list PathSegment) : ZodIssue :=
  {| issue_code := invalid_type expected (parsedType v);
     issue_path := path;
     issue_message :=
       match v with
       | None => "Required"
       | Some _ => "Expected " ++ expected ++ ", received " ++ parsedType v
       end |}.

Definition too_small_issue (minimum : nat) (path : list PathSegment) : ZodIssue :=
  {| issue_code := too_small minimum;
     issue_path := path;
     issue_message :=
       "String must contain at least " ++ string_of_nat minimum ++ " character(s)" |}.

Definition too_big_issue (maximum : nat) (path : list PathSegment) : ZodIssue :=
  {| issue_code := too_big maximum;
     issue_path := path;
     issue_message :=
       "String must contain at most " ++ string_of_nat maximum ++ " character(s)" |}.

(** [z.string().min(minimum)], with [.max(maximum)] when given: a value that
    is no string is refused at once; on a string every check runs. *)
Definition parse_string (minimum : nat) (maximum : option nat)
  (path : list PathSegment) (v : option json) : Validation string :=
  match v with
  | Some (JString s) =>
      let small := if (String.length s <? minimum)%nat then [too_small_issue minimum path] else [] in
      let big := match maximum with
                 | Some m => if (m <? String.length s)%nat then [too_big_issue m path] else []
                 | None => []
                 end in
      match small ++ big with
      | [] => Valid s
      | errors => Invalid errors
      end
  | _ => Invalid [invalid_type_issue "string" v path]
  end.

(** The elements of a [z.array(element)], from index [i] on: every element is
    parsed, and the issues of all of them are gathered in order. *)
Fixpoint parse_elements {A} (element : list PathSegment -> option json -> Validation A)
  (path : list PathSegment) (i : nat) (items : list json) : Validation (list A) :=
  match items with
  | [] => Valid []
  | item :: rest =>
      let head := element (path ++ [Index i]) (Some item) in
      let tail := parse_elements element path (S i) rest in
      match head, tail with
      | Valid x, Valid xs => Valid (x :: xs)
      | _, _ => Invalid (errors_of head ++ errors_of tail)
      end
  end.

(** [z.array(element)]. *)
Definition parse_array {A} (element : list PathSegment -> option json -> Validation A)
  (path : list PathSegment) (v : option json) : Validation (list A) :=
  match v with
  | Some (JArray items) => parse_elements element path 0 items
  | _ => Invalid [invalid_type_issue "array" v path]
  end.

(** [z.array(z.string().min(2).max(20)).default([])]: the default stands in
    for [undefined] only. *)
Definition parse_labels (path : list PathSegment) (v : option json) : Validation (list string) :=
  match v with
  | None => Valid []
  | Some _ => parse_array (parse_string 2 (Some 20)) path v
  end.

(** [z.object({ title, body, labels })]: the keys of the shape are parsed in
    order, unknown keys are dropped. *)
Definition parse_issue (path : list PathSegment) (v : option json) : Validation Issue :=
  match v with
  | Some (JObject members) =>
      let t := parse_string 10 None (path ++ [Key "title"]) (lookup "title" members) in
      let b := parse_string 100 None (path ++ [Key "body"]) (lookup "body" members) in
      let l := parse_labels (path ++ [Key "labels"]) (lookup "labels" members) in
      match t, b, l with
      | Valid t', Valid b', Valid l' => Valid {| title := t'; body := b'; labels := l' |}
      | _, _, _ => Invalid (errors_of t ++ errors_of b ++ errors_of l)
      end
  | _ => Invalid [invalid_type_issue "object" v path]
  end.

(** [IssueSchema.safeParse(input)]: [Valid data] is [{ success: true, data }],
    [Invalid errors] is [{ success: false, error }] with [error.errors = errors]. *)
Definition IssueSchema_safeParse (input : option json) : Validation (list Issue) :=
  parse_array parse_issue [] input.

Section Platform.

(** [JSON.parse] on a string: the value, or the [SyntaxError] it throws. *)
Variable JSON_parse : string -> completion json.

(** The system instruction of [buildMessages]: a fixed text that embeds
    [JSON.stringify] of the templates and of the schema's shape. *)
Variable system_instruction : string.

(** *** [validateAIResponse] *)

(** [`${e.path}`]: the segments joined by commas. *)
Definition path_to_string (path : list PathSegment) : string :=
  join "," (map (fun seg => match seg with
                            | Index i => string_of_nat i
                            | Key k => k
                            end) path).

Definition validation_error (errors : list ZodIssue) : JsError :=
  new_Error ("Validation failed: " ++
             join ", " (map (fun e => path_to_string e.(issue_path) ++ ": " ++ e.(issue_message))%string
                            errors)).

Definition validateAIResponse (content : string) : completion (list Issue) :=
  match JSON_parse content with
  | Throw e => Throw e
  | Return rawData =>
      match get_property rawData "issues" with
      | Throw e => Throw e
      | Return issues =>
          match IssueSchema_safeParse issues with
          | Invalid errors => Throw (validation_error errors)
          | Valid data => Return data
          end
      end
  end.

(** *** Images *)

Definition fetchImageAsBase64 (url : string) : M string :=
  response <- fetch url ;;
  if negb response.(ok)
  then throw (new_Error ("HTTP " ++ string_of_nat response.(status)))
  else
    buffer <- (fun w => (w, response.(arrayBuffer))) ;;
    ret ("data:" ++ response.(content_type) ++ ";base64," ++ base64 buffer)%string.

(** The callback that [processImages] maps over the references: [None] is the
    [null] of a skipped image. *)
Definition processImage (url : string) : M (option ContentPart) :=
  try_catch
    (dataUrl <- fetchImageAsBase64 url ;;
     ret (Some (ImageUrlPart dataUrl)))
    (fun error =>
       channel_send (plain ("⚠️ Skipping image: " ++ error.(message))) ;;;
       ret None).

(** [Promise.all(xs.map(f))] for an [async] callback [f] that first awaits
    a request. [xs.map] starts every callback, in list order, and each stops
    at its request; the callback of [x] goes on when its request has
    settled, at the time [when x], those that settle together in list order. *)
Fixpoint settle_insert {A} (when : A -> nat) (x : nat * A) (queue : list (nat * A))
  : list (nat * A) :=
  match queue with
  | [] => [x]
  | y :: rest =>
      if (when (snd x) <=? when (snd y))%nat
      then x :: queue
      else y :: settle_insert when x rest
  end.

(** The callbacks, each with its index in [xs], in the order in which they
    go on. *)
Definition settle_order {A} (when : A -> nat) (xs : list A) : list (nat * A) :=
  fold_right (settle_insert when) [] (combine (seq 0 (List.length xs)) xs).

(** Every callback of the queue runs, whatever the others do; each leaves
    how it ended. *)
Fixpoint run_callbacks {A B} (f : A -> M B) (queue : list (nat * A))
  : World -> World * list (nat * completion B) :=
  match queue with
  | [] => fun w => (w, [])
  | (i, x) :: rest =>
      fun w =>
        let (w1, outcome) := f x w in
        let (w2, outcomes) := run_callbacks f rest w1 in
        (w2, (i, outcome) :: outcomes)
  end.

(** The rejection that comes first in time, if any. *)
Fixpoint first_rejection {B} (outcomes : list (nat * completion B)) : option JsError :=
  match outcomes with
  | [] => None
  | (_, Throw e) :: _ => Some e
  | (_, Return _) :: rest => first_rejection rest
  end.

(** How the callback of index [i] ended. *)
Fixpoint outcome_of {B} (i : nat) (outcomes : list (nat * completion B))
  : option (completion B) :=
  match outcomes with
  | [] => None
  | (j, outcome) :: rest => if (j =? i)%nat then Some outcome else outcome_of i rest
  end.

(** The values of the callbacks, in the order of [xs]. *)
Definition fulfilled {B} (n : nat) (outcomes : list (nat * completion B)) : list B :=
  flat_map (fun i => match outcome_of i outcomes with
                     | Some (Return y) => [y]
                     | _ => []
                     end) (seq 0 n).

(** The promise of [Promise.all] rejects with the first rejection, or
    resolves to the values in list order; the world is the one that the
    callbacks leave when all of them have ended. *)
Definition Promise_all_map {A B} (when : World -> A -> nat) (f : A -> M B) (xs : list A)
  : M (list B) :=
  fun w =>
    let (w', outcomes) := run_callbacks f (settle_order (when w) xs) w in
    (w', match first_rejection outcomes with
         | Some e => Throw e
         | None => Return (fulfilled (List.length xs) outcomes)
         end).

(** [results.filter(Boolean)] *)
Fixpoint filter_Boolean {A} (results : list (option A)) : list A :=
  match results with
  | [] => []
  | Some x :: rest => x :: filter_Boolean rest
  | None :: rest => filter_Boolean rest
  end.

Definition processImages (images : list string) : M (list ContentPart) :=
  results <- Promise_all_map settles_at processImage images ;;
  ret (filter_Boolean results).

(** *** Generation *)

Definition buildMessages (text : list string) (imageContents : list ContentPart)
  : list ChatMessage :=
  [ {| role := "system"; parts := [TextPart system_instruction] |};
    {| role := "user"; parts := TextPart (join (LF ++ LF) text) :: imageContents |} ].

(** [s.slice(-n)] *)
Definition slice_last (n : nat) (s : string) : string :=
  substring (String.length s - n) n s.

Definition json_block (s : string) : string :=
  ("```json" ++ LF ++ slice_last 1950 s ++ LF ++ "```")%string.

Definition updateStatusMessage (content : string) (message : MessageId) : M unit :=
  if (String.length content mod 15 =? 0)%nat
  then message_edit message (plain ("🔄 Generating content..." ++ LF ++ json_block content))
  else ret tt.

(** The [for await] loop over the chunks of the stream. *)
Fixpoint consume_stream (chunks : list string) (contentBuffer : string)
  (statusMessage : MessageId) : M string :=
  match chunks with
  | [] => ret contentBuffer
  | chunk :: rest =>
      let contentBuffer' := (contentBuffer ++ chunk)%string in
      updateStatusMessage contentBuffer' statusMessage ;;;
      consume_stream rest contentBuffer' statusMessage
  end.

Definition handleAIStream (stream : list string * option JsError) : M (list Issue) :=
  statusMessage <- channel_send (plain "Starting generation...") ;;
  try_catch
    (contentBuffer <- consume_stream (fst stream) "" statusMessage ;;
     match snd stream with Some e => throw e | None => ret tt end ;;;
     message_edit statusMessage
       (plain ("✅ Generation complete!" ++ LF ++ json_block contentBuffer)) ;;;
     (fun w => (w, validateAIResponse contentBuffer)))
    (fun error =>
       message_edit statusMessage (plain "❌ Generation failed!") ;;;
       throw error).

(** [await openai.chat.completions.create({ ..., messages, stream: true })] *)
Definition openai_chat_completions_create (messages : list ChatMessage)
  : M (list string * option JsError) :=
  fun w =>
    let n := List.length w.(llm_calls) in
    (with_llm_calls w (w.(llm_calls) ++ [messages]), w.(llm_answer) n messages).

Definition generateIssueContent (assets : Assets) : M (list Issue) :=
  try_catch
    (imageContents <- processImages assets.(images) ;;
     let messages := buildMessages assets.(text) imageContents in
     stream <- openai_chat_completions_create messages ;;
     handleAIStream stream)
    (fun error => throw error).
(* ===================================================================== *)
(** ** index.js: the [create-issue] session                               *)
(* ===================================================================== *)

(** *** Inbound data *)

Record User := { user_id : string; user_bot : bool; user_tag : string }.

Record Attachment := { att_url : string; att_name : string }.

Record Message := {
  author : User;
  msg_content : string;
  attachments : list Attachment
}.

(** *** The session: the variables the handlers of one invocation close over *)

(** What the [end] handler of the message collector sets up in preview mode. *)
Record Review := {
  review_issues : list Issue;     (* [const generatedIssues] of the handler *)
  previewEmbeds : list Embed;
  previewMessage : MessageId;
  buttonCollector_ended : bool;
  editCollectors : nat            (* edit collectors still waiting for their one message *)
}.

Record Session := {
  invoker : User;                 (* [interaction.user] *)
  wantsPreview : bool;
  isDM : bool;
  assets : Assets;
  collector_ended : bool;         (* the message collector of line 105 *)
  review : option Review
}.

Definition Bot : Type := (Session * World)%type.

Definition with_assets (s : Session) (a : Assets) : Session :=
  {| invoker := s.(invoker); wantsPreview := s.(wantsPreview); isDM := s.(isDM);
     assets := a; collector_ended := s.(collector_ended); review := s.(review) |}.

Definition with_collector_ended (s : Session) (b : bool) : Session :=
  {| invoker := s.(invoker); wantsPreview := s.(wantsPreview); isDM := s.(isDM);
     assets := s.(assets); collector_ended := b; review := s.(review) |}.

Definition with_review (s : Session) (r : option Review) : Session :=
  {| invoker := s.(invoker); wantsPreview := s.(wantsPreview); isDM := s.(isDM);
     assets := s.(assets); collector_ended := s.(collector_ended); review := r |}.

(** The session as line 110 leaves it: an open collector, an empty bundle. *)
Definition new_session (user : User) (preview dm : bool) : Session :=
  {| invoker := user; wantsPreview := preview; isDM := dm;
     assets := {| text := []; images := []; generatedIssues := None |};
     collector_ended := false; review := None |}.

(** *** Lifting *)

Definition lift {A} (m : M A) : Comp Bot A :=
  fun b => let '(w', r) := m (snd b) in ((fst b, w'), r).

Definition get_session : Comp Bot Session := fun b => (b, Return (fst b)).

Definition modify_session (f : Session -> Session) : Comp Bot unit :=
  fun b => ((f (fst b), snd b), Return tt).

(** [assets.images.push(url)] and [assets.text.push(s)] *)
Definition push_image (url : string) : Comp Bot unit :=
  modify_session (fun s =>
    with_assets s {| text := s.(assets).(text);
                     images := s.(assets).(images) ++ [url];
                     generatedIssues := s.(assets).(generatedIssues) |}).

Definition push_text (t : string) : Comp Bot unit :=
  modify_session (fun s =>
    with_assets s {| text := s.(assets).(text) ++ [t];
                     images := s.(assets).(images);
                     generatedIssues := s.(assets).(generatedIssues) |}).

Definition set_generatedIssues (issues : list Issue) : Comp Bot unit :=
  modify_session (fun s =>
    with_assets s {| text := s.(assets).(text);
                     images := s.(assets).(images);
                     generatedIssues := Some issues |}).

Definition modify_review (f : Review -> Review) : Comp Bot unit :=
  modify_session (fun s => with_review s (option_map f s.(review))).

(** A promise nobody awaits, and an [async] listener: what it throws reaches
    no caller. *)
Definition detached {A} (m : Comp Bot A) : Comp Bot unit :=
  fun b => (fst (m b), Return tt).

(** [String.prototype.toLowerCase] on the code units below 256. *)
Definition toLowerCase_unit (c : ascii) : ascii :=
  let n := nat_of_ascii c in
  if ((65 <=? n) && (n <=? 90) ||
      (192 <=? n) && (n <=? 222) && negb (n =? 215))%nat%bool
  then ascii_of_nat (n + 32) else c.

Fixpoint toLowerCase (s : string) : string :=
  match s with
  | EmptyString => EmptyString
  | String c rest => String (toLowerCase_unit c) (toLowerCase rest)
  end.

(** *** Rendering *)

(** The embed that reports the created issues. *)
Definition successEmbed (createdIssues : list CreatedIssue) : Embed :=
  {| embed_title := "✅ Created " ++ string_of_nat (List.length createdIssues) ++ " Issues";
     embed_description := None;
     embed_fields :=
       map (fun issue =>
              {| field_name := issue.(created_title);
                 field_value := ("[View Issue #" ++ string_of_nat issue.(number) ++ "]("
                                 ++ issue.(html_url) ++ ")")%string;
                 inline := true |}) createdIssues;
     embed_color := "#00FF00" |}.

(** [issues.map((issue, index) => new EmbedBuilder()...)] from [index] on. *)
Fixpoint previewEmbeds_from (index : nat) (issues : list Issue) : list Embed :=
  match issues with
  | [] => []
  | issue :: rest =>
      {| embed_title := "Issue #" ++ string_of_nat (index + 1) ++ ": " ++ issue.(title);
         embed_description := Some (substring 0 200 issue.(body) ++ "...")%string;
         embed_fields :=
           [ {| field_name := "Labels";
                field_value := (let joined := join ", " issue.(labels) in
                                if String.eqb joined "" then "None" else joined);
                inline := true |};
             {| field_name := "Length";
                field_value := (string_of_nat (String.length issue.(body)) ++ " characters")%string;
                inline := true |} ];
         embed_color := "#FFA500" |}
      :: previewEmbeds_from (S index) rest
  end.

(** [const buttons] (lines 175-188): built, and used by no statement. *)
Definition buttons : list Button :=
  [ {| customId := "confirm"; label := "✅ Confirm"; style := Success |};
    {| customId := "edit"; label := "✏️ Edit"; style := Primary |};
    {| customId := "cancel"; label := "❌ Cancel"; style := Danger |} ].

(** [const row] (lines 202-211 and 289-298): the action row that is sent. *)
Definition row (issues : list Issue) : list Button :=
  [ {| customId := "confirm_issues";
       label := "Create " ++ string_of_nat (List.length issues) ++ " Issues";
       style := Success |};
    {| customId := "cancel_issues"; label := "Cancel"; style := Danger |} ].

(** *** The review window (preview mode) *)

(** [buttonCollector.on('end', ...)]: the edit is not awaited. *)
Definition buttonCollector_on_end : Comp Bot unit :=
  s <- get_session ;;
  match s.(review) with
  | Some r =>
      detached (lift (message_edit r.(previewMessage)
                        {| content := None; embeds := None; components := Some [] |}))
  | None => ret tt
  end.

(** [buttonCollector.stop()] (also what its timer does): once. *)
Definition buttonCollector_stop : Comp Bot unit :=
  s <- get_session ;;
  match s.(review) with
  | Some r =>
      if r.(buttonCollector_ended) then ret tt
      else
        modify_review (fun r =>
          {| review_issues := r.(review_issues); previewEmbeds := r.(previewEmbeds);
             previewMessage := r.(previewMessage); buttonCollector_ended := true;
             editCollectors := r.(editCollectors) |}) ;;;
        buttonCollector_on_end
  | None => ret tt
  end.

(** The success report shared by both commit paths. *)
Definition report_created (createdIssues : list CreatedIssue) : Comp Bot unit :=
  s <- get_session ;;
  lift (channel_send {| content := Some "Issues successfully created:";
                        embeds := Some [successEmbed createdIssues];
                        components := None |}) ;;;
  if negb s.(isDM) then lift (thread_setArchived true) else ret tt.

(** [buttonCollector.on('collect', async buttonInteraction => ...)] *)
Definition buttonCollector_on_collect (pressed : string) : Comp Bot unit :=
  lift (chat InteractionDeferUpdate) ;;;
  try_catch
    (s <- get_session ;;
     match s.(review) with
     | None => ret tt
     | Some r =>
         if String.eqb pressed "confirm_issues" then
           buttonCollector_stop ;;;
           createdIssues <- lift (createIssues r.(review_issues) s.(assets)) ;;
           report_created createdIssues
         else if String.eqb pressed "edit" then
           lift (channel_send
                   {| content := Some "What changes would you like? (Describe your edits)";
                      embeds := None; components := Some [] |}) ;;;
           modify_review (fun r =>
             {| review_issues := r.(review_issues); previewEmbeds := r.(previewEmbeds);
                previewMessage := r.(previewMessage);
                buttonCollector_ended := r.(buttonCollector_ended);
                editCollectors := S r.(editCollectors) |})
         else if String.eqb pressed "cancel_issues" then
           buttonCollector_stop ;;;
           lift (channel_send (plain "❌ Issue creation canceled")) ;;;
           if negb s.(isDM) then lift (thread_setArchived true) else ret tt
         else ret tt
     end)
    (fun error =>
       lift (channel_send (plain ("❌ Error: " ++ error.(message)))) ;;; ret tt).

(** [editCollector.on('collect', async editMsg => ...)] *)
Definition editCollector_on_collect (editMsg : Message) : Comp Bot unit :=
  push_text ("USER EDIT REQUEST: " ++ editMsg.(msg_content)) ;;;
  lift (channel_send (plain "🔄 Regenerating issues with your feedback...")) ;;;
  s <- get_session ;;
  regenerated <- lift (generateIssueContent s.(assets)) ;;
  set_generatedIssues regenerated ;;;
  modify_review (fun r =>
    {| review_issues := r.(review_issues);
       previewEmbeds := previewEmbeds_from 0 regenerated;
       previewMessage := r.(previewMessage);
       buttonCollector_ended := r.(buttonCollector_ended);
       editCollectors := r.(editCollectors) |}) ;;;
  match s.(review) with
  | Some r =>
      lift (message_edit r.(previewMessage)
              {| content := Some "**Updated Preview**";
                 embeds := Some (previewEmbeds_from 0 regenerated);
                 components := Some [row regenerated] |})
  | None => ret tt
  end.

(** *** The collection window *)

(** [collector.on('end', async () => ...)] *)
Definition collector_on_end : Comp Bot unit :=
  s <- get_session ;;
  generated <- lift (generateIssueContent s.(assets)) ;;
  if negb s.(wantsPreview) then
    createdIssues <- lift (createIssues generated s.(assets)) ;;
    report_created createdIssues
  else
    set_generatedIssues generated ;;;
    let embeds0 := previewEmbeds_from 0 generated in
    sent <- lift (channel_send {| content := Some "**Review these issues**";
                                  embeds := Some embeds0;
                                  components := Some [row generated] |}) ;;
    modify_session (fun s =>
      with_review s (Some {| review_issues := generated; previewEmbeds := embeds0;
                             previewMessage := sent; buttonCollector_ended := false;
                             editCollectors := 0 |})).

(** [collector.stop()] (also what its timer does): once; the [end] listener is
    [async], so what it throws reaches no caller. *)
Definition collector_stop : Comp Bot unit :=
  s <- get_session ;;
  if s.(collector_ended) then ret tt
  else
    modify_session (fun s => with_collector_ended s true) ;;;
    detached collector_on_end.

(** The body of the loop over [msg.attachments]. *)
Definition collect_attachment (attachment : Attachment) : Comp Bot unit :=
  try_catch
    (push_image attachment.(att_url) ;;;
     lift (channel_send (plain ("✅ Added image: " ++ attachment.(att_name)))) ;;;
     ret tt)
    (fun error =>
       lift (channel_send
               (plain ("❌ Failed to process attachment: " ++ attachment.(att_name)))) ;;;
       ret tt).

(** [collector.on('collect', async msg => ...)] *)
Definition collector_on_collect (msg : Message) : Comp Bot unit :=
  if msg.(author).(user_bot) then ret tt
  else if String.eqb (toLowerCase msg.(msg_content)) "!done" then collector_stop
  else
    (if (0 <? List.length msg.(attachments))%nat
     then for_of msg.(attachments) collect_attachment
     else ret tt) ;;;
    if negb (String.eqb msg.(msg_content) "")
    then
      push_text msg.(msg_content) ;;;
      lift (channel_send (plain ("✅ Added text: " ++ LF ++ msg.(msg_content)))) ;;;
      ret tt
    else ret tt.

(** The [filter] options of the three collectors. *)
Definition collector_filter (m : Message) : bool := negb m.(author).(user_bot).

Definition buttonCollector_filter (s : Session) (user : User) : bool :=
  String.eqb user.(user_id) s.(invoker).(user_id).

Definition editCollector_filter (s : Session) (m : Message) : bool :=
  String.eqb m.(author).(user_id) s.(invoker).(user_id).

(** *** Events *)

Inductive Event :=
| MessageCreate (m : Message)              (* a message arrives in the channel *)
| ButtonPress (user : User) (pressed : string)  (* a press on the preview message *)
| CollectionWindowExpired                  (* [time: 600_000] *)
| ReviewWindowExpired                      (* [time: 300_000] *)
| EditWindowExpired.                       (* [time: 120_000] of the oldest edit collector *)

(** [n] edit collectors receive the message; each has [max: 1]. Their
    listeners are run in turn, each to its end; where two or more are pending
    at once the source lets them overlap at their awaits. *)
Fixpoint editCollectors_collect (n : nat) (m : Message) : Comp Bot unit :=
  match n with
  | O => ret tt
  | S n' => detached (editCollector_on_collect m) ;;; editCollectors_collect n' m
  end.

Definition clear_editCollectors (keep : nat) : Comp Bot unit :=
  modify_review (fun r =>
    {| review_issues := r.(review_issues); previewEmbeds := r.(previewEmbeds);
       previewMessage := r.(previewMessage);
       buttonCollector_ended := r.(buttonCollector_ended);
       editCollectors := keep |}).

(** What the gateway client does with one event: every collector that is
    still running, and whose filter lets the event through, emits [collect]. *)
Definition dispatch (ev : Event) : Comp Bot unit :=
  s <- get_session ;;
  match ev with
  | MessageCreate m =>
      (if negb s.(collector_ended) && collector_filter m
       then detached (collector_on_collect m) else ret tt) ;;;
      match s.(review) with
      | Some r =>
          if editCollector_filter s m
          then clear_editCollectors 0 ;;; editCollectors_collect r.(editCollectors) m
          else ret tt
      | None => ret tt
      end
  | ButtonPress user pressed =>
      match s.(review) with
      | Some r =>
          if negb r.(buttonCollector_ended) && buttonCollector_filter s user
          then detached (buttonCollector_on_collect pressed) else ret tt
      | None => ret tt
      end
  | CollectionWindowExpired => collector_stop
  | ReviewWindowExpired => buttonCollector_stop
  | EditWindowExpired =>
      match s.(review) with
      | Some r => clear_editCollectors (Nat.pred r.(editCollectors))
      | None => ret tt
      end
  end.

Definition step (b : Bot) (ev : Event) : Bot := fst (dispatch ev b).

(** The bot after a sequence of events. *)
Definition run (b : Bot) (evs : list Event) : Bot := fold_left step evs b.

(* ===================================================================== *)
(** ** utils/github-utils.js: the project board                           *)
(* ===================================================================== *)

(** The board is read through three GraphQL queries. Their answers have the
    shape that the queries ask for, nullable where the code reckons with
    [null]; the board is taken to hold issues only (for a pull request or a
    draft the fragment [... on Issue] would select nothing). *)

(** [parseInt(x, radix)]: the binary64 pattern of the result; nothing below
    inspects it. *)
Variable parseInt : Maybe -> nat -> N.

(** [String.prototype.trim] on the code units below 256. *)
Definition is_white_space (c : ascii) : bool :=
  let n := nat_of_ascii c in
  ((9 <=? n) && (n <=? 13) || (n =? 32) || (n =? 160))%nat.

Fixpoint trim_start (s : string) : string :=
  match s with
  | EmptyString => EmptyString
  | String c rest => if is_white_space c then trim_start rest else s
  end.

Fixpoint trim_end (s : string) : string :=
  match s with
  | EmptyString => EmptyString
  | String c rest =>
      match trim_end rest with
      | EmptyString => if is_white_space c then EmptyString else String c EmptyString
      | rest' => String c rest'
      end
  end.

Definition trim (s : string) : string := trim_end (trim_start s).

(** The argument of [octokit.graphql]: the query, with its variables. *)
Inductive GraphqlRequest :=
| getProjectNode (owner : string) (projectNumber : N)
| getStatusField_query (projectId : Maybe)
| getProjectItems_query (projectId : Maybe).

(** [organization(login) { projectV2(number) { id } }] *)
Record ProjectV2 := { project_id : string }.
Record Organization := { projectV2 : option ProjectV2 }.
Record ProjectNodeData := { organization : option Organization }.

(** [node(id: $projectId)]: [null], a node that is no project (the fragment
    [... on ProjectV2] selects nothing of it), or the project with the
    [nodes] of the connection that the query reads. *)
Inductive Node (A : Type) : Type :=
| NullNode
| OtherNode
| ProjectNode (nodes : list A).
Arguments NullNode {A}.
Arguments OtherNode {A}.
Arguments ProjectNode {A} nodes.

(** A node of [fields]: [null], a field of another kind (the fragment
    [... on ProjectV2SingleSelectField] selects nothing of it), or a
    single-select field. *)
Inductive FieldNode :=
| NullField
| OtherField
| SingleSelectField (field : StatusField).

(** A node of [items]: its [content] is [null] when the item wraps nothing
    that the token may read. *)
Record ItemNode := {
  node_id : string;
  node_fieldValueByName : option FieldValue;
  node_content : option IssueContent
}.

(** ** index.js: what the [list-issues] command replies *)

Record ListEmbed := {
  le_title : option string;
  le_color : string;
  le_footer_text : string;
  le_footer_iconURL : string;
  le_timestamp : Z;
  le_fields : list EmbedField
}.

Record LinkButton := { link_label : string; link_url : string; link_style : ButtonStyle }.

(** Payload of [interaction.reply]; an absent key is [None]. *)
Record Reply := {
  reply_content : string;
  reply_embeds : option (list ListEmbed);
  reply_components : option (list (list LinkButton));
  reply_ephemeral : option bool
}.

(** The error that [EmbedBuilder.addFields] throws for a field that it
    refuses. *)
Variable addFields_error : ListEmbed -> EmbedField -> JsError.

(** ** The world of the listing *)

Record Board := {
  (* process.env *)
  env_GITHUB_REPO_OWNER : string;
  env_GITHUB_PROJECT_NUMBER : Maybe;
  (* the GraphQL endpoint: every request made so far, oldest first, and its
     answer to the n-th request *)
  graphql_calls : list GraphqlRequest;
  getProjectNode_answer : nat -> GraphqlRequest -> completion ProjectNodeData;
  getStatusField_answer : nat -> GraphqlRequest -> completion (Node FieldNode);
  getProjectItems_answer : nat -> GraphqlRequest -> completion (Node ItemNode);
  (* the interaction: every reply requested so far, and the gateway's answer
     to the n-th ([None]: accepted) *)
  replies : list Reply;
  reply_answer : nat -> option JsError;
  (* Date.now(): how often it was read, and what the n-th reading gives *)
  clock_reads : nat;
  clock : nat -> Z
}.

Definition with_graphql_calls (d : Board) (calls : list GraphqlRequest) : Board :=
  {| env_GITHUB_REPO_OWNER := d.(env_GITHUB_REPO_OWNER);
     env_GITHUB_PROJECT_NUMBER := d.(env_GITHUB_PROJECT_NUMBER);
     graphql_calls := calls;
     getProjectNode_answer := d.(getProjectNode_answer);
     getStatusField_answer := d.(getStatusField_answer);
     getProjectItems_answer := d.(getProjectItems_answer);
     replies := d.(replies); reply_answer := d.(reply_answer);
     clock_reads := d.(clock_reads); clock := d.(clock) |}.

Definition with_replies (d : Board) (sent : list Reply) : Board :=
  {| env_GITHUB_REPO_OWNER := d.(env_GITHUB_REPO_OWNER);
     env_GITHUB_PROJECT_NUMBER := d.(env_GITHUB_PROJECT_NUMBER);
     graphql_calls := d.(graphql_calls);
     getProjectNode_answer := d.(getProjectNode_answer);
     getStatusField_answer := d.(getStatusField_answer);
     getProjectItems_answer := d.(getProjectItems_answer);
     replies := sent; reply_answer := d.(reply_answer);
     clock_reads := d.(clock_reads); clock := d.(clock) |}.

Definition with_clock_reads (d : Board) (n : nat) : Board :=
  {| env_GITHUB_REPO_OWNER := d.(env_GITHUB_REPO_OWNER);
     env_GITHUB_PROJECT_NUMBER := d.(env_GITHUB_PROJECT_NUMBER);
     graphql_calls := d.(graphql_calls);
     getProjectNode_answer := d.(getProjectNode_answer);
     getStatusField_answer := d.(getStatusField_answer);
     getProjectItems_answer := d.(getProjectItems_answer);
     replies := d.(replies); reply_answer := d.(reply_answer);
     clock_reads := n; clock := d.(clock) |}.

(** [await octokit.graphql(req)], answered by [answer]. *)
Definition octokit_graphql {A} (req : GraphqlRequest)
  (answer : Board -> nat -> GraphqlRequest -> completion A) : Comp Board A :=
  fun d =>
    (with_graphql_calls d (d.(graphql_calls) ++ [req]),
     answer d (List.length d.(graphql_calls)) req).

(** [await interaction.reply(p)] *)
Definition interaction_reply (p : Reply) : Comp Board unit :=
  fun d =>
    (with_replies d (d.(replies) ++ [p]),
     match d.(reply_answer) (List.length d.(replies)) with
     | None => Return tt
     | Some e => Throw e
     end).

(** [Date.now()] *)
Definition Date_now : Comp Board Z :=
  fun d => (with_clock_reads d (S d.(clock_reads)), Return (d.(clock) d.(clock_reads))).

(** The [TypeError] of a property read on [null] or [undefined]. *)
Definition cannot_read (what key : string) : JsError :=
  {| name := "TypeError";
     message := "Cannot read properties of " ++ what ++ " (reading '" ++ key ++ "')" |}.

(** *** The queries *)

(** [response.organization?.projectV2?.id] *)
Definition projectV2_id (response : ProjectNodeData) : Maybe :=
  match response.(organization) with
  | Some org =>
      match org.(projectV2) with
      | Some project => str project.(project_id)
      | None => undefined
      end
  | None => undefined
  end.

Definition getProjectDetails : Comp Board Maybe :=
  fun d =>
    let variables_projectNumber := parseInt d.(env_GITHUB_PROJECT_NUMBER) 10 in
    let variables_owner := trim d.(env_GITHUB_REPO_OWNER) in
    try_catch
      (response <- octokit_graphql (getProjectNode variables_owner variables_projectNumber)
                     getProjectNode_answer ;;
       ret (projectV2_id response))
      (fun error => throw error)
      d.

(** [response.node.<connection>.nodes] *)
Definition connection_nodes {A} (connection : string) (response : Node A)
  : completion (list A) :=
  match response with
  | NullNode => Throw (cannot_read "null" connection)
  | OtherNode => Throw (cannot_read "undefined" "nodes")
  | ProjectNode nodes => Return nodes
  end.

(** [f => f?.name === 'Status'] *)
Definition named_Status (f : FieldNode) : bool :=
  match f with
  | SingleSelectField field => String.eqb field.(field_name_) "Status"
  | _ => false
  end.

Definition getStatusField (projectId : Maybe) : Comp Board (option FieldNode) :=
  try_catch
    (response <- octokit_graphql (getStatusField_query projectId) getStatusField_answer ;;
     nodes <- (fun d => (d, connection_nodes "fields" response)) ;;
     ret (find named_Status nodes))
    (fun error => throw error).

(** [nodes.filter(item => item.content)]: the items that are left have a
    content. *)
Fixpoint with_content (nodes : list ItemNode) : list ProjectItem :=
  match nodes with
  | [] => []
  | node :: rest =>
      match node.(node_content) with
      | Some issue =>
          {| item_id := node.(node_id);
             fieldValueByName := node.(node_fieldValueByName);
             item_content := issue |} :: with_content rest
      | None => with_content rest
      end
  end.

Definition getProjectItems (projectId : Maybe) : Comp Board (list ProjectItem) :=
  try_catch
    (response <- octokit_graphql (getProjectItems_query projectId) getProjectItems_answer ;;
     nodes <- (fun d => (d, connection_nodes "items" response)) ;;
     ret (with_content nodes))
    (fun error => throw error).

(** The call [processProjectItems(items, statusField)] on what
    [getStatusField] returned: [statusField.options] is read first. *)
Definition processProjectItems_of (items : list ProjectItem) (statusField : option FieldNode)
  : completion (list ProjectItem) :=
  match statusField with
  | Some (SingleSelectField field) => Return (processProjectItems items field)
  | Some NullField => Throw (cannot_read "null" "options")
  | Some OtherField => Throw (cannot_read "undefined" "find")
  | None => Throw (cannot_read "undefined" "options")
  end.

Definition listOpenIssues : Comp Board (list ProjectItem) :=
  try_catch
    (projectId <- getProjectDetails ;;
     statusField <- getStatusField projectId ;;
     items <- getProjectItems projectId ;;
     (fun d => (d, processProjectItems_of items statusField)))
    (fun error => throw error).

(* ===================================================================== *)
(** ** index.js: the [list-issues] command                                *)
(* ===================================================================== *)

(** [s || fallback] on strings. *)
Definition or_else (s fallback : string) : string :=
  if String.eqb s "" then fallback else s.

(** [`${x}`] *)
Definition to_template (x : Maybe) : string :=
  match x with
  | undefined => "undefined"
  | null => "null"
  | str s => s
  end.

(** [item.fieldValueByName?.name || 'No status'] *)
Definition shown_status (item : ProjectItem) : string :=
  match status_name item with
  | str s => or_else s "No status"
  | _ => "No status"
  end.

(** [issue.body?.slice(0, 100) + (issue.body?.length > 100 ? '...' : '')
    || 'No description'] *)
Definition bodyPreview (issue : IssueContent) : string :=
  match issue.(content_body) with
  | Some b =>
      or_else (substring 0 100 b ++ (if (100 <? String.length b)%nat then "..." else ""))
              "No description"
  | None => "undefined"
  end.

(** The field that the loop adds for [item]. *)
Definition issue_field (item : ProjectItem) : EmbedField :=
  let issue := item.(item_content) in
  let status := shown_status item in
  let assignees := or_else (join ", " issue.(content_assignees)) "Unassigned" in
  let fieldValue :=
    ("[#" ++ string_of_nat issue.(content_number) ++ "](" ++ issue.(content_url) ++ ")")%string in
  {| field_name :=
       (substring 0 50 issue.(content_title)
        ++ (if (50 <? String.length issue.(content_title))%nat then "..." else ""))%string;
     field_value :=
       (fieldValue ++ LF ++ "**Status:** " ++ status ++ LF
        ++ "**Assignee:** " ++ assignees ++ LF
        ++ "**Description:** " ++ bodyPreview issue)%string;
     inline := false |}.

(** [new EmbedBuilder()...setColor('#7289DA').setFooter(...).setTimestamp()],
    with [setTitle] for the first embed. *)
Definition new_list_embed (title0 : option string) : Comp Board ListEmbed :=
  now <- Date_now ;;
  ret {| le_title := title0;
         le_color := "#7289DA";
         le_footer_text := "GitHub Issues";
         le_footer_iconURL := "https://github.githubassets.com/favicons/favicon.png";
         le_timestamp := now;
         le_fields := [] |}.

(** [embed.addFields(field)]: the builder refuses a field with an empty name
    or value, a name above 256 or a value above 1024 code units, and a 26th
    field. *)
Definition addFields (embed : ListEmbed) (field : EmbedField) : completion ListEmbed :=
  let n := String.length field.(field_name) in
  let v := String.length field.(field_value) in
  if ((25 <? List.length embed.(le_fields) + 1) || (n <? 1) || (256 <? n)
      || (v <? 1) || (1024 <? v))%nat
  then Throw (addFields_error embed field)
  else Return {| le_title := embed.(le_title); le_color := embed.(le_color);
                 le_footer_text := embed.(le_footer_text);
                 le_footer_iconURL := embed.(le_footer_iconURL);
                 le_timestamp := embed.(le_timestamp);
                 le_fields := embed.(le_fields) ++ [field] |}.

(** [sortedItems.forEach((item, index) => ...)] from [index] on, with the
    variables [issueEmbeds] and [currentEmbed] that it updates; [total] is
    [sortedItems.length]. *)
Fixpoint forEach_item (items : list ProjectItem) (index total : nat)
  (issueEmbeds : list ListEmbed) (currentEmbed : ListEmbed)
  : Comp Board (list ListEmbed * ListEmbed) :=
  match items with
  | [] => ret (issueEmbeds, currentEmbed)
  | item :: rest =>
      currentEmbed' <- (fun d => (d, addFields currentEmbed (issue_field item))) ;;
      if (((index + 1) mod 4 =? 0) && negb (index =? total - 1))%nat
      then
        fresh <- new_list_embed None ;;
        forEach_item rest (S index) total (issueEmbeds ++ [currentEmbed']) fresh
      else forEach_item rest (S index) total issueEmbeds currentEmbed'
  end.

(** The handler of [interactionCreate] for the command [list-issues]. *)
Definition list_issues : Comp Board unit :=
  try_catch
    (sortedItems <- listOpenIssues ;;
     let total := List.length sortedItems in
     first <- new_list_embed (Some ("📝 Open Issues (" ++ string_of_nat total ++ ")")%string) ;;
     built <- forEach_item sortedItems 0 total [] first ;;
     let issueEmbeds := fst built ++ [snd built] in
     fun d =>
       interaction_reply
         {| reply_content := "**Issues in Project** (" ++ string_of_nat total ++ " total)";
            reply_embeds := Some issueEmbeds;
            reply_components :=
              Some [[ {| link_label := "View Project Board";
                         link_url := "https://github.com/orgs/" ++ d.(env_GITHUB_REPO_OWNER)
                                     ++ "/projects/"
                                     ++ to_template d.(env_GITHUB_PROJECT_NUMBER)
                                     ++ "/views/1";
                         link_style := Link |} ]];
            reply_ephemeral := None |}
         d)
    (fun error =>
       interaction_reply
         {| reply_content := "❌ Error: " ++ error.(message);
            reply_embeds := None; reply_components := None;
            reply_ephemeral := Some true |}).

(* ===================================================================== *)
(** * Part II: properties                                                 *)
(* ===================================================================== *)


(** ** The sort under a comparator that only looks at its first argument *)

(** The comparator of the listing answers a negative number exactly when its
    first argument is a backlog item. For every comparator of that kind the
    engine's sort moves the marked elements to the front, in reverse input
    order, and leaves the others in input order. *)

Section MarkedFirst.

Local Open Scope Z_scope.

Context {A : Type}.
Variable Compare : A -> A -> Z.
Variable marked : A -> bool.
Hypothesis Compare_marked : forall x y, (Compare x y <? 0) = marked x.

Definition unmarked (x : A) : bool := negb (marked x).

(** The order the sort produces. *)
Definition marked_first (l : list A) : list A :=
  rev (filter marked l) ++ filter unmarked l.

(** The cells [lo, lo + n) of an array. *)
Definition seg (a : FixedArray A) (lo : Z) (n : nat) : list A :=
  map (fun k => a (lo + Z.of_nat k)) (seq 0 n).

Lemma seg_length a lo n : List.length (seg a lo n) = n.
Proof. unfold seg. rewrite length_map, length_seq. reflexivity. Qed.

Lemma seg_ext a b lo lo' n :
  (forall k, 0 <= k < Z.of_nat n -> a (lo + k) = b (lo' + k)) ->
  seg a lo n = seg b lo' n.
Proof.
  intros H. unfold seg. apply map_ext_in. intros k Hk. apply in_seq in Hk.
  apply H. lia.
Qed.

Lemma seq_add_map (n s m : nat) : seq (n + s) m = map (Nat.add n) (seq s m).
Proof.
  revert s. induction m as [|m IH]; intros s; [reflexivity|].
  cbn [seq map]. f_equal. rewrite <- IH. f_equal. lia.
Qed.

Lemma seg_app a lo n m :
  seg a lo (n + m) = seg a lo n ++ seg a (lo + Z.of_nat n) m.
Proof.
  unfold seg. rewrite seq_app, map_app. f_equal. cbn [Nat.add].
  rewrite <- (Nat.add_0_r n) at 1. rewrite seq_add_map, map_map.
  apply map_ext. intros k. f_equal. lia.
Qed.

Lemma seg_S a lo n : seg a lo (S n) = a lo :: seg a (lo + 1) n.
Proof.
  change (S n) with (1 + n)%nat. rewrite seg_app. cbn. f_equal. f_equal. lia.
Qed.

Lemma seg_snoc a lo n : seg a lo (S n) = seg a lo n ++ [a (lo + Z.of_nat n)].
Proof.
  replace (S n) with (n + 1)%nat by lia. rewrite seg_app. cbn. do 3 f_equal. lia.
Qed.

Lemma nth_seg a lo n k d :
  (k < n)%nat -> nth k (seg a lo n) d = a (lo + Z.of_nat k).
Proof.
  intros Hk. unfold seg.
  rewrite (nth_indep _ d (a (lo + Z.of_nat 0))) by (rewrite length_map, length_seq; exact Hk).
  rewrite (map_nth (fun k => a (lo + Z.of_nat k))). rewrite seq_nth by exact Hk. reflexivity.
Qed.

(** *** The target order *)

Lemma marked_first_snoc_marked l x :
  marked x = true -> marked_first (l ++ [x]) = x :: marked_first l.
Proof.
  intros Hx. unfold marked_first, unmarked. rewrite !filter_app. cbn [filter].
  rewrite Hx. cbn [negb]. rewrite rev_app_distr, app_nil_r. reflexivity.
Qed.

Lemma marked_first_snoc_unmarked l x :
  marked x = false -> marked_first (l ++ [x]) = marked_first l ++ [x].
Proof.
  intros Hx. unfold marked_first, unmarked. rewrite !filter_app. cbn [filter].
  rewrite Hx. cbn [negb]. rewrite app_nil_r, app_assoc. reflexivity.
Qed.

Lemma marked_first_app l1 l2 :
  marked_first (l1 ++ l2) =
  rev (filter marked l2) ++ marked_first l1 ++ filter unmarked l2.
Proof.
  unfold marked_first. rewrite !filter_app, rev_app_distr, <- !app_assoc. reflexivity.
Qed.

Lemma filter_all_true (f : A -> bool) l :
  Forall (fun x => f x = true) l -> filter f l = l.
Proof.
  induction 1 as [|x l Hx _ IH]; [reflexivity|]. cbn. rewrite Hx, IH. reflexivity.
Qed.

Lemma filter_all_false (f : A -> bool) l :
  Forall (fun x => f x = false) l -> filter f l = [].
Proof.
  induction 1 as [|x l Hx _ IH]; [reflexivity|]. cbn. rewrite Hx, IH. reflexivity.
Qed.

(** A first element followed by marked elements only: the sort reverses it. *)
Lemma marked_first_then_marked x l :
  Forall (fun y => marked y = true) l -> marked_first (x :: l) = rev (x :: l).
Proof.
  intros Hl. unfold marked_first, unmarked. cbn [filter rev].
  assert (Hun : filter (fun y => negb (marked y)) l = []).
  { apply filter_all_false. eapply Forall_impl; [|exact Hl].
    cbn. intros y ->. reflexivity. }
  rewrite Hun, (filter_all_true marked l Hl).
  destruct (marked x); cbn [negb rev]; rewrite ?app_nil_r; reflexivity.
Qed.

(** A first element followed by unmarked elements only is in order. *)
Lemma marked_first_then_unmarked x l :
  Forall (fun y => marked y = false) l -> marked_first (x :: l) = x :: l.
Proof.
  intros Hl. unfold marked_first, unmarked. cbn [filter rev].
  assert (Hun : filter (fun y => negb (marked y)) l = l).
  { apply filter_all_true. eapply Forall_impl; [|exact Hl].
    cbn. intros y ->. reflexivity. }
  rewrite Hun, (filter_all_false marked l Hl).
  destruct (marked x); reflexivity.
Qed.

(** *** Searches *)

Lemma shiftr_1 z : Z.shiftr z 1 = z / 2.
Proof. rewrite Z.shiftr_div_pow2 by lia. reflexivity. Qed.

Lemma shiftl_1 z : Z.shiftl z 1 = 2 * z.
Proof. rewrite Z.shiftl_mul_pow2 by lia. change (2 ^ 1) with 2. lia. Qed.

(** On a range where [goRight] holds up to [t] and fails from [t] on, the
    binary search ends at [t]. *)
Lemma binary_search_partition (goRight : Z -> bool) (t : Z) :
  forall (fuel : nat) (lo hi : Z),
    lo <= t <= hi ->
    (forall m, lo <= m < t -> goRight m = true) ->
    (forall m, t <= m < hi -> goRight m = false) ->
    (Z.to_nat (hi - lo) <= fuel)%nat ->
    binary_search fuel goRight lo hi = t.
Proof.
  induction fuel as [|fuel IH]; intros lo hi Ht Htrue Hfalse Hfuel.
  - cbn. lia.
  - cbn [binary_search]. destruct (lo <? hi) eqn:Hlt.
    + apply Z.ltb_lt in Hlt. rewrite shiftr_1.
      assert (Hm : lo <= lo + (hi - lo) / 2 < hi).
      { pose proof (Z.div_pos (hi - lo) 2). pose proof (Z.div_lt_upper_bound (hi - lo) 2 (hi - lo)).
        lia. }
      set (m := lo + (hi - lo) / 2) in *.
      destruct (goRight m) eqn:Hgo.
      * assert (m < t).
        { destruct (Z.lt_ge_cases m t) as [Hlt'|Hge]; [exact Hlt'|].
          rewrite Hfalse in Hgo by lia. discriminate. }
        apply IH; [lia| intros; apply Htrue; lia | exact Hfalse | lia].
      * assert (t <= m).
        { destruct (Z.lt_ge_cases m t) as [Hlt'|Hge]; [|exact Hge].
          rewrite Htrue in Hgo by lia. discriminate. }
        apply IH; [lia| exact Htrue | intros; apply Hfalse; lia | lia].
    + apply Z.ltb_ge in Hlt. lia.
Qed.

(** What the exponential search leaves: the last offset at which the test
    held, and the offset at which it failed or the bound was passed. *)
Lemma gallop_loop_spec (continue : Z -> bool) (maxOfs : Z) :
  forall (fuel : nat) (lastOfs offset : Z),
    0 <= lastOfs < offset ->
    lastOfs < maxOfs ->
    (Z.to_nat (maxOfs - offset) <= fuel)%nat ->
    forall lastOfs' offset',
      gallop_loop fuel continue maxOfs lastOfs offset = (lastOfs', offset') ->
      lastOfs <= lastOfs' < offset' /\ lastOfs' < maxOfs /\
      (lastOfs' = lastOfs \/ continue lastOfs' = true) /\
      (maxOfs <= offset' \/ (offset' < maxOfs /\ continue offset' = false)).
Proof.
  induction fuel as [|fuel IH]; intros lastOfs offset Hlo Hmax Hfuel lastOfs' offset' Hrun.
  - cbn in Hrun. injection Hrun as <- <-. repeat split; try lia; try (left; reflexivity).
  - cbn [gallop_loop] in Hrun. destruct (offset <? maxOfs) eqn:Hlt.
    + apply Z.ltb_lt in Hlt. destruct (continue offset) eqn:Hc.
      * rewrite shiftl_1 in Hrun.
        destruct (2 * offset + 1 <=? 0) eqn:Hov; [apply Z.leb_le in Hov; lia|].
        apply IH in Hrun; [|lia|lia|lia].
        destruct Hrun as (H1 & H2 & H3 & H4).
        split; [lia|]. split; [lia|]. split; [|exact H4].
        destruct H3 as [-> | H3]; right; [exact Hc|exact H3].
      * injection Hrun as <- <-. split; [lia|]. split; [lia|].
        split; [left; reflexivity|]. right. split; [lia|exact Hc].
    + apply Z.ltb_ge in Hlt. injection Hrun as <- <-.
      split; [lia|]. split; [lia|]. split; [left; reflexivity|]. left. lia.
Qed.

(** A marked key belongs before every element. *)
Lemma GallopRight_marked (array : FixedArray A) (key : A) (base length hint : Z) :
  marked key = true -> 0 <= hint < length ->
  GallopRight Compare array key base length hint = 0.
Proof.
  intros Hkey Hhint. unfold GallopRight. rewrite Compare_marked, Hkey.
  destruct (gallop_loop _ _ (hint + 1) 0 1) as [lastOfs offset] eqn:Hloop.
  apply gallop_loop_spec in Hloop; [|lia|lia|lia].
  destruct Hloop as (H1 & H2 & _ & H4).
  destruct H4 as [H4 | [_ H4]]; [|rewrite Compare_marked, Hkey in H4; discriminate].
  replace (if hint + 1 <? offset then hint + 1 else offset) with (hint + 1)
    by (destruct (hint + 1 <? offset) eqn:E; [reflexivity|apply Z.ltb_ge in E; lia]).
  apply binary_search_partition; try lia.
  intros m _. rewrite Compare_marked, Hkey. reflexivity.
Qed.

(** An unmarked key belongs behind every element. *)
Lemma GallopRight_unmarked (array : FixedArray A) (key : A) (base length hint : Z) :
  marked key = false -> 0 <= hint < length ->
  GallopRight Compare array key base length hint = length.
Proof.
  intros Hkey Hhint. unfold GallopRight. rewrite Compare_marked, Hkey.
  destruct (gallop_loop _ _ (length - hint) 0 1) as [lastOfs offset] eqn:Hloop.
  apply gallop_loop_spec in Hloop; [|lia|lia|lia].
  destruct Hloop as (H1 & H2 & _ & H4).
  destruct H4 as [H4 | [_ H4]]; [|rewrite Compare_marked, Hkey in H4; discriminate].
  replace (if length - hint <? offset then length - hint else offset) with (length - hint)
    by (destruct (length - hint <? offset) eqn:E; [reflexivity|apply Z.ltb_ge in E; lia]).
  apply binary_search_partition; try lia.
  intros m _. rewrite Compare_marked, Hkey. reflexivity.
Qed.

(** On a range whose marked elements come first, [t] of them, the left
    gallop finds [t], whatever the key and the hint. *)
Lemma GallopLeft_partition (array : FixedArray A) (key : A) (base length hint t : Z) :
  0 <= hint < length -> 0 <= t <= length ->
  (forall m, 0 <= m < t -> marked (array (base + m)) = true) ->
  (forall m, t <= m < length -> marked (array (base + m)) = false) ->
  GallopLeft Compare array key base length hint = t.
Proof.
  intros Hhint Ht Htrue Hfalse. unfold GallopLeft. rewrite Compare_marked.
  destruct (marked (array (base + hint))) eqn:Hh.
  - assert (hint < t).
    { destruct (Z.lt_ge_cases hint t) as [Hlt|Hge]; [exact Hlt|].
      rewrite Hfalse in Hh by lia. discriminate. }
    destruct (gallop_loop _ _ (length - hint) 0 1) as [lastOfs offset] eqn:Hloop.
    apply gallop_loop_spec in Hloop; [|lia|lia|lia].
    destruct Hloop as (H1 & H2 & H3 & H4).
    assert (Hlast : marked (array (base + (hint + lastOfs))) = true).
    { destruct H3 as [-> | H3]; [rewrite Z.add_0_r; exact Hh|].
      rewrite Compare_marked in H3.
      replace (base + (hint + lastOfs)) with (base + hint + lastOfs) by lia. exact H3. }
    assert (hint + lastOfs < t).
    { destruct (Z.lt_ge_cases (hint + lastOfs) t) as [Hlt|Hge]; [exact Hlt|].
      rewrite Hfalse in Hlast by lia. discriminate. }
    apply binary_search_partition.
    + destruct H4 as [H4 | [H4 H5]].
      * replace (if length - hint <? offset then length - hint else offset) with (length - hint)
          by (destruct (length - hint <? offset) eqn:E; [reflexivity|apply Z.ltb_ge in E; lia]).
        lia.
      * replace (if length - hint <? offset then length - hint else offset) with offset
          by (destruct (length - hint <? offset) eqn:E; [apply Z.ltb_lt in E; lia|reflexivity]).
        rewrite Compare_marked in H5.
        destruct (Z.lt_ge_cases (hint + offset) t) as [Hlt|Hge]; [|lia].
        rewrite <- Z.add_assoc, Htrue in H5 by lia. discriminate.
    + intros m Hm. rewrite Compare_marked. apply Htrue. lia.
    + intros m Hm. rewrite Compare_marked. apply Hfalse.
      destruct (length - hint <? offset) eqn:E; [|apply Z.ltb_ge in E]; lia.
    + destruct (length - hint <? offset) eqn:E; [|apply Z.ltb_ge in E]; lia.
  - assert (t <= hint).
    { destruct (Z.lt_ge_cases hint t) as [Hlt|Hge]; [|exact Hge].
      rewrite Htrue in Hh by lia. discriminate. }
    destruct (gallop_loop _ _ (hint + 1) 0 1) as [lastOfs offset] eqn:Hloop.
    apply gallop_loop_spec in Hloop; [|lia|lia|lia].
    destruct Hloop as (H1 & H2 & H3 & H4).
    assert (Hlast : marked (array (base + (hint - lastOfs))) = false).
    { destruct H3 as [-> | H3]; [rewrite Z.sub_0_r; exact Hh|].
      rewrite Compare_marked in H3. apply negb_true_iff in H3.
      replace (base + (hint - lastOfs)) with (base + hint - lastOfs) by lia. exact H3. }
    assert (t <= hint - lastOfs).
    { destruct (Z.lt_ge_cases (hint - lastOfs) t) as [Hlt|Hge]; [|exact Hge].
      rewrite Htrue in Hlast by lia. discriminate. }
    apply binary_search_partition.
    + destruct H4 as [H4 | [H4 H5]].
      * replace (if hint + 1 <? offset then hint + 1 else offset) with (hint + 1)
          by (destruct (hint + 1 <? offset) eqn:E; [reflexivity|apply Z.ltb_ge in E; lia]).
        lia.
      * replace (if hint + 1 <? offset then hint + 1 else offset) with offset
          by (destruct (hint + 1 <? offset) eqn:E; [apply Z.ltb_lt in E; lia|reflexivity]).
        rewrite Compare_marked in H5. apply negb_false_iff in H5.
        destruct (Z.lt_ge_cases (hint - offset) t) as [Hlt|Hge]; [lia|].
        replace (base + hint - offset) with (base + (hint - offset)) in H5 by lia.
        rewrite Hfalse in H5 by lia. discriminate.
    + intros m Hm. rewrite Compare_marked. apply Htrue.
      destruct (hint + 1 <? offset) eqn:E; [|apply Z.ltb_ge in E]; lia.
    + intros m Hm. rewrite Compare_marked. apply Hfalse. lia.
    + destruct (hint + 1 <? offset) eqn:E; [|apply Z.ltb_ge in E]; lia.
Qed.

(** *** Runs *)

Lemma Forall_seg (P : A -> Prop) a lo n :
  (forall j, lo <= j < lo + Z.of_nat n -> P (a j)) -> Forall P (seg a lo n).
Proof.
  intros H. apply Forall_forall. intros x Hx. unfold seg in Hx.
  apply in_map_iff in Hx. destruct Hx as (k & <- & Hk). apply in_seq in Hk.
  apply H. lia.
Qed.

Lemma seg_ReverseRange a lo n :
  seg (ReverseRange a lo (lo + Z.of_nat n)) lo n = rev (seg a lo n).
Proof.
  destruct n as [|n']; [reflexivity|]. set (n := S n') in *.
  apply (nth_ext _ _ (a lo) (a lo)).
  - rewrite length_rev, !seg_length. reflexivity.
  - intros k Hk. rewrite seg_length in Hk.
    rewrite rev_nth by (rewrite seg_length; exact Hk).
    rewrite seg_length, !nth_seg by lia.
    unfold ReverseRange.
    replace ((lo <=? lo + Z.of_nat k) && (lo + Z.of_nat k <? lo + Z.of_nat n)) with true
      by (symmetry; apply andb_true_iff; split; [apply Z.leb_le|apply Z.ltb_lt]; lia).
    f_equal. lia.
Qed.

Lemma leb_0_Compare x y : (0 <=? Compare x y) = negb (marked x).
Proof. rewrite Z.leb_antisym, Compare_marked. reflexivity. Qed.

(** The run counted by [count_run] extends over elements that are all marked
    ([d = true]) or all unmarked ([d = false]). *)
Lemma count_run_spec (work : FixedArray A) (d : bool) (lowArg high : Z) :
  forall (fuel : nat) (idx : Z) (prev : A) (runLength : Z),
    idx = lowArg + runLength -> idx <= high ->
    (forall j, lowArg + 1 <= j < idx -> marked (work j) = d) ->
    let r := count_run Compare fuel work d idx high prev runLength in
    runLength <= r /\ lowArg + r <= high /\
    (forall j, lowArg + 1 <= j < lowArg + r -> marked (work j) = d).
Proof.
  induction fuel as [|fuel IH]; intros idx prev runLength Hidx Hhigh Hall; cbn [count_run].
  - cbn. split; [lia|]. split; [lia|]. intros j Hj. apply Hall. lia.
  - destruct (idx <? high) eqn:Hlt.
    + apply Z.ltb_lt in Hlt. rewrite leb_0_Compare, Compare_marked.
      destruct (if d then negb (marked (work idx)) else marked (work idx)) eqn:Hbreak.
      * cbn. split; [lia|]. split; [lia|]. intros j Hj. apply Hall. lia.
      * specialize (IH (idx + 1) (work idx) (runLength + 1)).
        cbn zeta in IH. destruct IH as (H1 & H2 & H3); [lia|lia| |].
        -- intros j Hj. destruct (Z.eq_dec j idx) as [->|Hne]; [|apply Hall; lia].
           destruct d, (marked (work idx)); cbn in Hbreak; congruence.
        -- cbn zeta. split; [lia|]. split; [exact H2|exact H3].
    + cbn. split; [lia|]. split; [lia|]. intros j Hj. apply Hall. lia.
Qed.

Lemma CountAndMakeRun_spec (work : FixedArray A) (lowArg high : Z) :
  lowArg < high ->
  forall w' r, CountAndMakeRun Compare work lowArg high = (w', r) ->
    1 <= r <= high - lowArg /\
    seg w' lowArg (Z.to_nat r) = marked_first (seg work lowArg (Z.to_nat r)) /\
    (forall j, j < lowArg \/ lowArg + r <= j -> w' j = work j).
Proof.
  intros Hlow w' r Hrun. unfold CountAndMakeRun in Hrun.
  destruct (lowArg + 1 =? high) eqn:Hone.
  - injection Hrun as <- <-. split; [lia|]. split; [|reflexivity].
    change (Z.to_nat 1) with 1%nat. cbn [seg seq map].
    unfold marked_first, unmarked. cbn [filter].
    destruct (marked (work (lowArg + Z.of_nat 0))); reflexivity.
  - apply Z.eqb_neq in Hone. rewrite Compare_marked in Hrun.
    set (d := marked (work (lowArg + 1))) in *.
    pose proof (count_run_spec work d lowArg high
                  (Z.to_nat (high - (lowArg + 1))) (lowArg + 1 + 1) (work (lowArg + 1)) 2)
      as Hcount.
    cbn zeta in Hcount.
    set (n := count_run _ _ _ _ _ _ _ _) in *.
    destruct Hcount as (H1 & H2 & H3); [lia|lia| |].
    { intros j Hj. replace j with (lowArg + 1) by lia. reflexivity. }
    assert (Hseg : seg work lowArg (Z.to_nat n) =
                   work lowArg :: seg work (lowArg + 1) (Z.to_nat (n - 1))).
    { replace (Z.to_nat n) with (S (Z.to_nat (n - 1))) by lia. apply seg_S. }
    assert (Hall : Forall (fun y => marked y = d) (seg work (lowArg + 1) (Z.to_nat (n - 1)))).
    { apply Forall_seg. intros j Hj. apply H3. lia. }
    destruct d eqn:Hd.
    + injection Hrun as <- <-. split; [lia|]. split.
      * replace (lowArg + n) with (lowArg + Z.of_nat (Z.to_nat n)) by lia.
        rewrite seg_ReverseRange, Hseg. symmetry. apply marked_first_then_marked. exact Hall.
      * intros j Hj. unfold ReverseRange.
        destruct ((lowArg <=? j) && (j <? lowArg + n)) eqn:E; [|reflexivity].
        apply andb_true_iff in E. destruct E as [E1 E2].
        apply Z.leb_le in E1. apply Z.ltb_lt in E2. lia.
    + injection Hrun as <- <-. split; [lia|]. split; [|reflexivity].
      rewrite Hseg. symmetry. apply marked_first_then_unmarked. exact Hall.
Qed.

(** One insertion: a marked pivot goes to the front of the sorted part, an
    unmarked one stays behind it. *)
Lemma insertion_point (work : FixedArray A) (pivot : A) (low start : Z) :
  low <= start ->
  binary_search (Z.to_nat (start - low))
    (fun mid => negb (Compare pivot (work mid) <? 0)) low start
  = if marked pivot then low else start.
Proof.
  intros Hle. destruct (marked pivot) eqn:Hp.
  - apply binary_search_partition; try lia.
    intros m _. rewrite Compare_marked, Hp. reflexivity.
  - apply binary_search_partition; try lia.
    intros m _. rewrite Compare_marked, Hp. reflexivity.
Qed.

Lemma insertion_loop_spec (w0 : FixedArray A) (low high : Z) :
  forall (fuel : nat) (work : FixedArray A) (start : Z),
    low <= start <= high ->
    (Z.to_nat (high - start) <= fuel)%nat ->
    seg work low (Z.to_nat (start - low)) = marked_first (seg w0 low (Z.to_nat (start - low))) ->
    (forall j, start <= j -> work j = w0 j) ->
    let work' := insertion_loop Compare fuel work low start high in
    seg work' low (Z.to_nat (high - low)) = marked_first (seg w0 low (Z.to_nat (high - low))) /\
    (forall j, j < low \/ high <= j -> work' j = work j).
Proof.
  induction fuel as [|fuel IH]; intros work start Hstart Hfuel Hsorted Hrest; cbn [insertion_loop].
  - cbn zeta. replace high with start by lia. split; [exact Hsorted|reflexivity].
  - destruct (start <? high) eqn:Hlt.
    + apply Z.ltb_lt in Hlt. rewrite insertion_point by lia.
      set (pivot := work start).
      set (left := if marked pivot then low else start).
      set (work1 := store (Copy work left work (left + 1) (start - left)) left pivot).
      assert (Hstep : seg work1 low (Z.to_nat (start + 1 - low)) =
                      marked_first (seg w0 low (Z.to_nat (start + 1 - low)))).
      { replace (Z.to_nat (start + 1 - low)) with (S (Z.to_nat (start - low))) by lia.
        rewrite (seg_snoc w0).
        replace (low + Z.of_nat (Z.to_nat (start - low))) with start by lia.
        rewrite <- (Hrest start) by lia. fold pivot.
        destruct (marked pivot) eqn:Hp; subst left.
        - rewrite marked_first_snoc_marked by exact Hp.
          rewrite <- Hsorted, seg_S. f_equal.
          + unfold work1, store. rewrite Z.eqb_refl. reflexivity.
          + apply seg_ext. intros k Hk. unfold work1, store, Copy.
            destruct (low + 1 + k =? low) eqn:E; [apply Z.eqb_eq in E; lia|].
            replace ((low + 1 <=? low + 1 + k) && (low + 1 + k <? low + 1 + (start - low)))
              with true
              by (symmetry; apply andb_true_iff; split; [apply Z.leb_le|apply Z.ltb_lt]; lia).
            f_equal. lia.
        - rewrite marked_first_snoc_unmarked by exact Hp.
          rewrite <- Hsorted, seg_snoc. f_equal.
          + apply seg_ext. intros k Hk. unfold work1, store, Copy.
            destruct (low + k =? start) eqn:E; [apply Z.eqb_eq in E; lia|].
            destruct ((start + 1 <=? low + k) && (low + k <? start + 1 + (start - start))) eqn:E2;
              [|reflexivity].
            apply andb_true_iff in E2. destruct E2 as [E2 E3].
            apply Z.leb_le in E2. apply Z.ltb_lt in E3. lia.
          + f_equal. unfold work1, store.
            replace (low + Z.of_nat (Z.to_nat (start - low))) with start by lia.
            rewrite Z.eqb_refl. reflexivity. }
      assert (Hout : forall j, j < low \/ start + 1 <= j -> work1 j = work j).
      { intros j Hj. unfold work1, store, Copy.
        assert (Hleft : low <= left <= start) by (subst left; destruct (marked pivot); lia).
        destruct (j =? left) eqn:E; [apply Z.eqb_eq in E; lia|].
        destruct ((left + 1 <=? j) && (j <? left + 1 + (start - left))) eqn:E2; [|reflexivity].
        apply andb_true_iff in E2. destruct E2 as [E2 E3].
        apply Z.leb_le in E2. apply Z.ltb_lt in E3. lia. }
      specialize (IH work1 (start + 1)). cbn zeta in IH.
      destruct IH as [IH1 IH2]; [lia|lia|exact Hstep| |].
      * intros j Hj. rewrite Hout by lia. apply Hrest. lia.
      * cbn zeta. split; [exact IH1|].
        intros j Hj. rewrite IH2 by lia. apply Hout. lia.
    + apply Z.ltb_ge in Hlt. cbn zeta. replace high with start by lia.
      split; [exact Hsorted|reflexivity].
Qed.

(** *** Merges *)

Ltac zbool :=
  repeat match goal with
  | H : (_ && _)%bool = true |- _ => apply andb_true_iff in H; destruct H
  | H : (_ && _)%bool = false |- _ => apply andb_false_iff in H; destruct H
  | H : (_ || _)%bool = false |- _ => apply orb_false_iff in H; destruct H
  | H : (_ <=? _) = true |- _ => apply Z.leb_le in H
  | H : (_ <=? _) = false |- _ => apply Z.leb_gt in H
  | H : (_ <? _) = true |- _ => apply Z.ltb_lt in H
  | H : (_ <? _) = false |- _ => apply Z.ltb_ge in H
  | H : (_ =? _) = true |- _ => apply Z.eqb_eq in H
  | H : (_ =? _) = false |- _ => apply Z.eqb_neq in H
  end.

Ltac case_if :=
  match goal with
  | |- context [if ?c then _ else _] => let E := fresh "E" in destruct c eqn:E
  end.

(** Cell by cell: both sides read the same cell of the same array. *)
Ltac cells := repeat case_if; zbool; try lia; try (f_equal; lia); try reflexivity.

(** The merge of a run [A] with a run [B] of [t] marked elements that follows
    it: the marked elements move in front of [A]. *)
Definition rotated (w : FixedArray A) (baseA lenA t : Z) : FixedArray A :=
  fun j => if (baseA <=? j) && (j <? baseA + t) then w (j + lenA)
           else if (baseA + t <=? j) && (j <? baseA + t + lenA) then w (j - t)
           else w j.

Section MergeLowProof.

Variable w : FixedArray A.
Variables baseA lenA t : Z.
Hypothesis lenA_pos : 1 <= lenA.
Hypothesis t_pos : 1 <= t.
Hypothesis B_marked :
  forall j, baseA + lenA <= j < baseA + lenA + t -> marked (w j) = true.

(** After [c] elements of [B] have been moved. *)
Definition low_inv (c : Z) (s : Merge A) : Prop :=
  (forall i, 0 <= i < lenA -> m_temp s i = w (baseA + i)) /\
  cursorTemp s = 0 /\ lengthA s = lenA /\
  dest s = baseA + c /\ cursor s = baseA + lenA + c /\ lengthB s = t - c /\
  (forall j, m_work s j =
             if (baseA <=? j) && (j <? baseA + c) then w (j + lenA) else w j).

Definition low_measure (c : Z) (mode : MergeMode) : Z :=
  2 * (t - c) + match mode with Galloping _ _ _ => 1 | OneAtATime _ _ => 0 end.

Lemma MergeLow_turn_spec (c : Z) (s : Merge A) (mode : MergeMode) :
  low_inv c s -> 1 <= c < t ->
  match MergeLow_turn Compare s mode with
  | (s', inl mode') =>
      exists c', low_inv c' s' /\ 1 <= c' < t /\ low_measure c' mode' < low_measure c mode
  | (s', inr label) => label = Succeed /\ low_inv t s'
  end.
Proof.
  intros (Htemp & Hct & Hla & Hdest & Hcur & Hlb & Hwork) Hc.
  destruct s as [mw mt d ct cb la lb mg]. cbn in Htemp, Hct, Hla, Hdest, Hcur, Hlb, Hwork.
  subst ct la d cb lb.
  assert (Hkey : marked (mw (baseA + lenA + c)) = true).
  { rewrite Hwork. case_if; zbool; try lia. apply B_marked. lia. }
  assert (Hstore : forall j, store mw (baseA + c) (mw (baseA + lenA + c)) j =
                             if (baseA <=? j) && (j <? baseA + (c + 1)) then w (j + lenA) else w j).
  { intros j. unfold store. rewrite !Hwork. cells. }
  assert (Hnext : forall mg' : Z,
             t - c - 1 <> 0 ->
             low_inv (c + 1)
               (Build_Merge (store mw (baseA + c) (mw (baseA + lenA + c))) mt
                  (baseA + c + 1) 0 (baseA + lenA + c + 1) lenA (t - c - 1) mg')).
  { intros mg' _. unfold low_inv. cbn [m_work m_temp dest cursorTemp cursor lengthA lengthB].
    repeat split; try lia; assumption. }
  assert (Hdone : forall mg' : Z,
             t - c - 1 = 0 ->
             low_inv t
               (Build_Merge (store mw (baseA + c) (mw (baseA + lenA + c))) mt
                  (baseA + c + 1) 0 (baseA + lenA + c + 1) lenA (t - c - 1) mg')).
  { intros mg' Hlast. unfold low_inv. cbn [m_work m_temp dest cursorTemp cursor lengthA lengthB].
    repeat split; try lia; try assumption.
    intros j. rewrite Hstore. replace (c + 1) with t by lia. reflexivity. }
  destruct mode as [nA nB | nA nB first]; unfold MergeLow_turn;
    cbn [m_work m_temp dest cursorTemp cursor lengthA lengthB m_minGallop].
  - rewrite Compare_marked, Hkey.
    destruct (t - c - 1 =? 0) eqn:Hlast; zbool.
    + split; [reflexivity|]. apply Hdone. exact Hlast.
    + destruct (mg <=? nB + 1).
      * exists (c + 1). split; [apply Hnext; exact Hlast|].
        split; [lia|]. unfold low_measure. lia.
      * exists (c + 1). split; [apply Hnext; exact Hlast|].
        split; [lia|]. unfold low_measure. lia.
  - destruct (negb ((kMinGallopWins <=? nA) || (kMinGallopWins <=? nB) || first)).
    + exists c. split; [|split; [lia|unfold low_measure; lia]].
      unfold low_inv. cbn [m_work m_temp dest cursorTemp cursor lengthA lengthB].
      repeat split; try lia; assumption.
    + rewrite GallopRight_marked by (try exact Hkey; lia).
      change (0 <? 0) with false.
      cbn [andb m_work m_temp dest cursorTemp cursor lengthA lengthB m_minGallop].
      destruct (t - c - 1 =? 0) eqn:Hlast; zbool.
      * split; [reflexivity|]. apply Hdone. exact Hlast.
      * rewrite (GallopLeft_partition _ _ _ _ _ (t - c - 1)); try lia.
        2:{ intros m Hm. rewrite Hstore. case_if; zbool; try lia. apply B_marked. lia. }
        replace (0 <? t - c - 1) with true by (symmetry; apply Z.ltb_lt; lia).
        cbn [andb m_work m_temp dest cursorTemp cursor lengthA lengthB m_minGallop].
        replace (t - c - 1 - (t - c - 1) =? 0) with true by (symmetry; apply Z.eqb_eq; lia).
        split; [reflexivity|]. unfold low_inv.
        cbn [m_work m_temp dest cursorTemp cursor lengthA lengthB].
        repeat split; try lia; try assumption.
        intros j. unfold Copy. rewrite !Hstore. cells.
Qed.

Lemma MergeLow_loop_spec :
  forall (fuel : nat) (c : Z) (s : Merge A) (mode : MergeMode),
    low_inv c s -> 1 <= c < t ->
    low_measure c mode < Z.of_nat fuel ->
    exists s', merge_loop (MergeLow_turn Compare) fuel s mode = (s', Succeed) /\ low_inv t s'.
Proof.
  induction fuel as [|fuel IH]; intros c s mode Hinv Hc Hfuel.
  - unfold low_measure in Hfuel. destruct mode; lia.
  - cbn [merge_loop]. pose proof (MergeLow_turn_spec c s mode Hinv Hc) as Hturn.
    destruct (MergeLow_turn Compare s mode) as [s' [mode'|label]].
    + destruct Hturn as (c' & Hinv' & Hc' & Hless).
      apply (IH c' s' mode' Hinv' Hc'). lia.
    + destruct Hturn as [-> Hinv']. exists s'. split; [reflexivity|exact Hinv'].
Qed.

Lemma MergeLow_spec (mg : Z) :
  forall j, fst (MergeLow Compare w mg baseA lenA (baseA + lenA) t) j
            = rotated w baseA lenA t j.
Proof.
  intros j. unfold MergeLow.
  cbn [m_work m_temp dest cursorTemp cursor lengthA lengthB m_minGallop].
  destruct (t - 1 =? 0) eqn:Ht1; zbool.
  - cbn [fst m_work m_temp dest cursorTemp cursor lengthA lengthB m_minGallop].
    replace (0 <? lenA) with true by (symmetry; apply Z.ltb_lt; lia).
    unfold rotated, Copy, store. cells.
  - destruct (lenA =? 1) eqn:Hl1; zbool.
    + cbn [fst m_work m_temp dest cursorTemp cursor lengthA lengthB m_minGallop].
      unfold rotated, Copy, store. cells.
    + set (s0 := Build_Merge _ _ _ _ _ _ _ _).
      destruct (MergeLow_loop_spec (Z.to_nat (2 * (lenA + t) + 2)) 1 s0 (OneAtATime 0 0))
        as (s' & Hloop & Hinv).
      * unfold low_inv, s0. cbn. repeat split; try lia.
        -- intros i Hi. unfold Copy. cells.
        -- intros j'. unfold store. cells.
      * lia.
      * unfold low_measure. lia.
      * rewrite Hloop. destruct Hinv as (Htemp & Hct & Hla & Hdest & Hcur & Hlb & Hwork).
        cbn [fst]. rewrite Hla, Hct, Hdest.
        replace (0 <? lenA) with true by (symmetry; apply Z.ltb_lt; lia).
        unfold rotated, Copy. rewrite Hwork.
        repeat case_if; zbool; try lia; try reflexivity.
        rewrite Htemp by lia. f_equal. lia.
Qed.

End MergeLowProof.

Section MergeHighProof.

Variable w : FixedArray A.
Variables baseA lenA t : Z.
Hypothesis lenA_pos : 1 <= lenA.
Hypothesis t_pos : 1 <= t.
Hypothesis B_marked :
  forall j, baseA + lenA <= j < baseA + lenA + t -> marked (w j) = true.

(** After [c] elements of [A] have been moved to the right end. *)
Definition high_inv (c : Z) (s : Merge A) : Prop :=
  (forall i, 0 <= i < t -> m_temp s i = w (baseA + lenA + i)) /\
  cursorTemp s = t - 1 /\ lengthB s = t /\
  dest s = baseA + lenA + t - 1 - c /\ cursor s = baseA + lenA - 1 - c /\
  lengthA s = lenA - c /\
  (forall j, m_work s j =
             if (baseA + lenA + t - c <=? j) && (j <? baseA + lenA + t)
             then w (j - t) else w j).

Definition high_measure (c : Z) (mode : MergeMode) : Z :=
  2 * (lenA - c) + match mode with Galloping _ _ _ => 1 | OneAtATime _ _ => 0 end.

Lemma MergeHigh_turn_spec (c : Z) (s : Merge A) (mode : MergeMode) :
  high_inv c s -> 1 <= c < lenA ->
  match MergeHigh_turn Compare baseA s mode with
  | (s', inl mode') =>
      exists c', high_inv c' s' /\ 1 <= c' < lenA /\
                 high_measure c' mode' < high_measure c mode
  | (s', inr label) => label = Succeed /\ high_inv lenA s'
  end.
Proof.
  intros (Htemp & Hct & Hlb & Hdest & Hcur & Hla & Hwork) Hc.
  destruct s as [mw mt d ct ca la lb mg]. cbn in Htemp, Hct, Hla, Hdest, Hcur, Hlb, Hwork.
  subst ct la d ca lb.
  assert (Hkey : marked (mt (t - 1)) = true).
  { rewrite Htemp by lia. apply B_marked. lia. }
  assert (Hstore : forall j,
             store mw (baseA + lenA + t - 1 - c) (mw (baseA + lenA - 1 - c)) j =
             if (baseA + lenA + t - (c + 1) <=? j) && (j <? baseA + lenA + t)
             then w (j - t) else w j).
  { intros j. unfold store. rewrite !Hwork. cells. }
  assert (Hnext : forall mg' : Z,
             high_inv (c + 1)
               (Build_Merge (store mw (baseA + lenA + t - 1 - c) (mw (baseA + lenA - 1 - c))) mt
                  (baseA + lenA + t - 1 - c - 1) (t - 1) (baseA + lenA - 1 - c - 1)
                  (lenA - c - 1) t mg')).
  { intros mg'. unfold high_inv. cbn [m_work m_temp dest cursorTemp cursor lengthA lengthB].
    repeat split; try lia; assumption. }
  destruct mode as [nA nB | nA nB first]; unfold MergeHigh_turn;
    cbn [m_work m_temp dest cursorTemp cursor lengthA lengthB m_minGallop].
  - rewrite Compare_marked, Hkey.
    destruct (lenA - c - 1 =? 0) eqn:Hlast; zbool.
    + split; [reflexivity|]. replace lenA with (c + 1) at 1 by lia. apply Hnext.
    + destruct (mg <=? nA + 1).
      * exists (c + 1). split; [apply Hnext|]. split; [lia|]. unfold high_measure. lia.
      * exists (c + 1). split; [apply Hnext|]. split; [lia|]. unfold high_measure. lia.
  - destruct (negb ((kMinGallopWins <=? nA) || (kMinGallopWins <=? nB) || first)).
    + exists c. split; [|split; [lia|unfold high_measure; lia]].
      unfold high_inv. cbn [m_work m_temp dest cursorTemp cursor lengthA lengthB].
      repeat split; try lia; assumption.
    + rewrite GallopRight_marked by (try exact Hkey; lia).
      replace (0 <? lenA - c - 0) with true by (symmetry; apply Z.ltb_lt; lia).
      cbn [andb m_work m_temp dest cursorTemp cursor lengthA lengthB m_minGallop].
      replace (lenA - c - (lenA - c - 0) =? 0) with true by (symmetry; apply Z.eqb_eq; lia).
      split; [reflexivity|]. unfold high_inv.
      cbn [m_work m_temp dest cursorTemp cursor lengthA lengthB].
      repeat split; try lia; try assumption.
      intros j. unfold Copy. rewrite !Hwork. cells.
Qed.

Lemma MergeHigh_loop_spec :
  forall (fuel : nat) (c : Z) (s : Merge A) (mode : MergeMode),
    high_inv c s -> 1 <= c < lenA ->
    high_measure c mode < Z.of_nat fuel ->
    exists s', merge_loop (MergeHigh_turn Compare baseA) fuel s mode = (s', Succeed) /\
               high_inv lenA s'.
Proof.
  induction fuel as [|fuel IH]; intros c s mode Hinv Hc Hfuel.
  - unfold high_measure in Hfuel. destruct mode; lia.
  - cbn [merge_loop]. pose proof (MergeHigh_turn_spec c s mode Hinv Hc) as Hturn.
    destruct (MergeHigh_turn Compare baseA s mode) as [s' [mode'|label]].
    + destruct Hturn as (c' & Hinv' & Hc' & Hless).
      apply (IH c' s' mode' Hinv' Hc'). lia.
    + destruct Hturn as [-> Hinv']. exists s'. split; [reflexivity|exact Hinv'].
Qed.

Lemma MergeHigh_spec (mg : Z) :
  forall j, fst (MergeHigh Compare w mg baseA lenA (baseA + lenA) t) j
            = rotated w baseA lenA t j.
Proof.
  intros j. unfold MergeHigh.
  cbn [m_work m_temp dest cursorTemp cursor lengthA lengthB m_minGallop].
  destruct (lenA - 1 =? 0) eqn:Hl1; zbool.
  - cbn [fst m_work m_temp dest cursorTemp cursor lengthA lengthB m_minGallop].
    replace (0 <? t) with true by (symmetry; apply Z.ltb_lt; lia).
    unfold rotated, Copy, store. cells.
  - destruct (t =? 1) eqn:Ht1; zbool.
    + cbn [fst m_work m_temp dest cursorTemp cursor lengthA lengthB m_minGallop].
      unfold rotated, Copy, store. cells.
    + set (s0 := Build_Merge _ _ _ _ _ _ _ _).
      destruct (MergeHigh_loop_spec (Z.to_nat (2 * (lenA + t) + 2)) 1 s0 (OneAtATime 0 0))
        as (s' & Hloop & Hinv).
      * unfold high_inv, s0. cbn [m_work m_temp dest cursorTemp cursor lengthA lengthB].
        repeat split; try lia.
        -- intros i Hi. unfold Copy. cells.
        -- intros j'. unfold store. cells.
      * lia.
      * unfold high_measure. lia.
      * rewrite Hloop. destruct Hinv as (Htemp & Hct & Hlb & Hdest & Hcur & Hla & Hwork).
        cbn [fst]. rewrite Hlb, Hdest.
        replace (0 <? t) with true by (symmetry; apply Z.ltb_lt; lia).
        unfold rotated, Copy. rewrite Hwork.
        repeat case_if; zbool; try lia; try reflexivity.
        rewrite Htemp by lia. f_equal. lia.
Qed.

End MergeHighProof.

(** *** Merging two sorted runs *)

Lemma app_inv_length (l1 l2 l3 l4 : list A) :
  List.length l1 = List.length l3 -> l1 ++ l2 = l3 ++ l4 -> l1 = l3 /\ l2 = l4.
Proof.
  revert l3. induction l1 as [|x l1 IH]; intros [|y l3] Hlen Heq; try discriminate.
  - split; [reflexivity|exact Heq].
  - cbn in Hlen, Heq. injection Heq as -> Heq. injection Hlen as Hlen.
    destruct (IH l3 Hlen Heq) as [-> ->]. split; reflexivity.
Qed.

Lemma Forall_marked_filter l : Forall (fun x => marked x = true) (rev (filter marked l)).
Proof.
  apply Forall_rev. apply Forall_forall. intros x Hx. apply filter_In in Hx. apply Hx.
Qed.

Lemma Forall_unmarked_filter l : Forall (fun x => marked x = false) (filter unmarked l).
Proof.
  apply Forall_forall. intros x Hx. apply filter_In in Hx. destruct Hx as [_ Hx].
  unfold unmarked in Hx. apply negb_true_iff in Hx. exact Hx.
Qed.

(** A sorted run: [t] marked elements, then the unmarked ones. *)
Lemma sorted_run_partition (w : FixedArray A) (base : Z) (n : nat) (l : list A) :
  seg w base n = marked_first l ->
  exists t : nat,
    (t <= n)%nat /\
    seg w base t = rev (filter marked l) /\
    seg w (base + Z.of_nat t) (n - t) = filter unmarked l /\
    (forall m, 0 <= m < Z.of_nat t -> marked (w (base + m)) = true) /\
    (forall m, Z.of_nat t <= m < Z.of_nat n -> marked (w (base + m)) = false).
Proof.
  intros Hseg. set (t := List.length (rev (filter marked l))).
  assert (Hlen : (t + List.length (filter unmarked l) = n)%nat).
  { apply (f_equal (@List.length A)) in Hseg. rewrite seg_length in Hseg.
    unfold marked_first in Hseg. rewrite length_app in Hseg. unfold t. lia. }
  exists t. split; [lia|].
  replace n with (t + (n - t))%nat in Hseg by lia. rewrite seg_app in Hseg.
  unfold marked_first in Hseg.
  apply app_inv_length in Hseg; [|rewrite seg_length; reflexivity].
  destruct Hseg as [H1 H2]. split; [exact H1|]. split; [exact H2|]. split.
  - intros m Hm. pose proof (Forall_marked_filter l) as Hall. rewrite <- H1 in Hall.
    rewrite Forall_forall in Hall. apply Hall. unfold seg. apply in_map_iff.
    exists (Z.to_nat m). split; [f_equal; lia|apply in_seq; lia].
  - intros m Hm. pose proof (Forall_unmarked_filter l) as Hall. rewrite <- H2 in Hall.
    rewrite Forall_forall in Hall. apply Hall. unfold seg. apply in_map_iff.
    exists (Z.to_nat (m - Z.of_nat t)). split; [f_equal; lia|apply in_seq; lia].
Qed.

(** The array that [MergeAt] leaves when the second run has [t] marked
    elements in front. *)
Lemma MergeAt_workArray (st : SortState A) (i baseA lenA lenB t : Z) :
  GetPendingRunBase (pendingRuns st) i = baseA ->
  GetPendingRunLength (pendingRuns st) i = lenA ->
  GetPendingRunBase (pendingRuns st) (i + 1) = baseA + lenA ->
  GetPendingRunLength (pendingRuns st) (i + 1) = lenB ->
  1 <= lenA -> 1 <= lenB -> 0 <= t <= lenB ->
  (forall m, 0 <= m < t -> marked (workArray st (baseA + lenA + m)) = true) ->
  (forall m, t <= m < lenB -> marked (workArray st (baseA + lenA + m)) = false) ->
  forall j, workArray (MergeAt Compare st i) j = rotated (workArray st) baseA lenA t j.
Proof.
  intros HbA HlA HbB HlB HlenA HlenB Ht Htrue Hfalse j.
  unfold MergeAt. rewrite HbA, HlA, HbB, HlB.
  destruct (Z.eq_dec t 0) as [->|Hne].
  - rewrite GallopRight_unmarked; [|rewrite <- (Z.add_0_r (baseA + lenA)); apply Hfalse; lia|lia].
    replace (lenA - lenA =? 0) with true by (symmetry; apply Z.eqb_eq; lia).
    cbn [workArray]. unfold rotated. cells.
  - rewrite GallopRight_marked; [|rewrite <- (Z.add_0_r (baseA + lenA)); apply Htrue; lia|lia].
    rewrite Z.add_0_r, Z.sub_0_r.
    replace (lenA =? 0) with false by (symmetry; apply Z.eqb_neq; lia).
    rewrite (GallopLeft_partition _ _ _ _ _ t); try lia; try assumption.
    replace (t =? 0) with false by (symmetry; apply Z.eqb_neq; lia).
    assert (HB : forall j', baseA + lenA <= j' < baseA + lenA + t ->
                            marked (workArray st j') = true).
    { intros j' Hj'. replace j' with (baseA + lenA + (j' - (baseA + lenA))) by lia.
      apply Htrue. lia. }
    destruct (lenA <=? t).
    + pose proof (MergeLow_spec (workArray st) baseA lenA t HlenA ltac:(lia) HB
                    (minGallop st) j) as Hlow.
      destruct (MergeLow _ _ _ _ _ _ _) as [work' mg']. exact Hlow.
    + pose proof (MergeHigh_spec (workArray st) baseA lenA t HlenA ltac:(lia) HB
                    (minGallop st) j) as Hhigh.
      destruct (MergeHigh _ _ _ _ _ _ _) as [work' mg']. exact Hhigh.
Qed.

Lemma MergeAt_pendingRuns (st : SortState A) (i : Z) :
  pendingRuns (MergeAt Compare st i) =
  firstn (Z.to_nat i) (pendingRuns st)
  ++ [(GetPendingRunBase (pendingRuns st) i,
       GetPendingRunLength (pendingRuns st) i + GetPendingRunLength (pendingRuns st) (i + 1))]
  ++ skipn (Z.to_nat (i + 2)) (pendingRuns st).
Proof.
  unfold MergeAt.
  destruct (_ =? 0); [reflexivity|].
  destruct (_ =? 0); [reflexivity|].
  destruct (_ <=? _).
  - destruct (MergeLow _ _ _ _ _ _ _). reflexivity.
  - destruct (MergeHigh _ _ _ _ _ _ _). reflexivity.
Qed.

(** *** The stack of pending runs *)

(** The runs of the stack are adjacent, cover [[first, last)], and each holds
    the target order of the cells it covers in the original array [w0]. *)
Inductive chain (w0 w : FixedArray A) : list (Z * Z) -> Z -> Z -> Prop :=
| chain_nil : forall first, chain w0 w [] first first
| chain_cons : forall base len rest last,
    1 <= len ->
    seg w base (Z.to_nat len) = marked_first (seg w0 base (Z.to_nat len)) ->
    chain w0 w rest (base + len) last ->
    chain w0 w ((base, len) :: rest) base last.

Lemma chain_cons_inv w0 w base len rest first last :
  chain w0 w ((base, len) :: rest) first last ->
  first = base /\ 1 <= len /\
  seg w base (Z.to_nat len) = marked_first (seg w0 base (Z.to_nat len)) /\
  chain w0 w rest (base + len) last.
Proof. intros H. inversion H; subst. repeat split; assumption. Qed.

Lemma chain_le w0 w runs first last : chain w0 w runs first last -> first <= last.
Proof. induction 1; lia. Qed.

Lemma chain_ext w0 w w' runs first last :
  chain w0 w runs first last ->
  (forall j, first <= j < last -> w' j = w j) ->
  chain w0 w' runs first last.
Proof.
  induction 1 as [|base len rest last Hlen Hseg Hrest IH]; intros Hsame.
  - constructor.
  - pose proof (chain_le _ _ _ _ _ Hrest). constructor; [exact Hlen| |].
    + rewrite <- Hseg. apply seg_ext. intros k Hk. apply Hsame. lia.
    + apply IH. intros j Hj. apply Hsame. lia.
Qed.

Lemma chain_app w0 w r1 r2 first last :
  chain w0 w (r1 ++ r2) first last <->
  exists mid, chain w0 w r1 first mid /\ chain w0 w r2 mid last.
Proof.
  split.
  - revert first. induction r1 as [|[b l] r1 IH]; intros first H.
    + exists first. split; [constructor|exact H].
    + cbn in H. apply chain_cons_inv in H. destruct H as (-> & Hl & Hseg & Hrest).
      destruct (IH _ Hrest) as (mid & H1 & H2).
      exists mid. split; [constructor; assumption|exact H2].
  - intros (mid & H1 & H2). induction H1; [exact H2|].
    cbn. constructor; auto.
Qed.

(** Two adjacent runs of the chain, merged in place. *)
Lemma chain_merge w0 w w' bA lA lB t :
  1 <= lA -> 1 <= lB ->
  seg w bA (Z.to_nat lA) = marked_first (seg w0 bA (Z.to_nat lA)) ->
  seg w (bA + lA) (Z.to_nat lB) = marked_first (seg w0 (bA + lA) (Z.to_nat lB)) ->
  (t <= Z.to_nat lB)%nat ->
  seg w (bA + lA) t = rev (filter marked (seg w0 (bA + lA) (Z.to_nat lB))) ->
  seg w (bA + lA + Z.of_nat t) (Z.to_nat lB - t)
    = filter unmarked (seg w0 (bA + lA) (Z.to_nat lB)) ->
  (forall j, w' j = rotated w bA lA (Z.of_nat t) j) ->
  seg w' bA (Z.to_nat (lA + lB)) = marked_first (seg w0 bA (Z.to_nat (lA + lB))).
Proof.
  intros HlA HlB HA HB Ht HB1 HB2 Hw'.
  replace (Z.to_nat (lA + lB)) with (Z.to_nat lA + Z.to_nat lB)%nat by lia.
  rewrite (seg_app w0), marked_first_app.
  replace (bA + Z.of_nat (Z.to_nat lA)) with (bA + lA) by lia.
  rewrite <- HA, <- HB1, <- HB2.
  replace (Z.to_nat lA + Z.to_nat lB)%nat with (t + (Z.to_nat lA + (Z.to_nat lB - t)))%nat
    by lia.
  rewrite !seg_app. f_equal; [|f_equal].
  - apply seg_ext. intros k Hk. rewrite Hw'. unfold rotated. cells.
  - apply seg_ext. intros k Hk. rewrite Hw'. unfold rotated. cells.
  - apply seg_ext. intros k Hk. rewrite Hw'. unfold rotated. cells.
Qed.

Lemma split_two (l : list (Z * Z)) (n : nat) :
  (n + 2 <= List.length l)%nat ->
  exists r1 a b r2, l = r1 ++ a :: b :: r2 /\ List.length r1 = n.
Proof.
  intros Hn. rewrite <- (firstn_skipn n l).
  destruct (skipn n l) as [|a [|b r2]] eqn:Hskip.
  - apply (f_equal (@List.length _)) in Hskip. rewrite length_skipn in Hskip. cbn in Hskip. lia.
  - apply (f_equal (@List.length _)) in Hskip. rewrite length_skipn in Hskip. cbn in Hskip. lia.
  - exists (firstn n l), a, b, r2. split; [reflexivity|].
    rewrite length_firstn. lia.
Qed.

Lemma firstn_length_app (r1 r2 : list (Z * Z)) : firstn (List.length r1) (r1 ++ r2) = r1.
Proof. induction r1 as [|x r1 IH]; [destruct r2; reflexivity|]. cbn. rewrite IH. reflexivity. Qed.

Lemma skipn_length_app (r1 r2 : list (Z * Z)) (k : nat) :
  skipn (List.length r1 + k) (r1 ++ r2) = skipn k r2.
Proof. induction r1 as [|x r1 IH]; [reflexivity|]. cbn. exact IH. Qed.

Lemma nth_length_app (r1 r2 : list (Z * Z)) (k : nat) d :
  nth (List.length r1 + k) (r1 ++ r2) d = nth k r2 d.
Proof. induction r1 as [|x r1 IH]; [reflexivity|]. cbn. exact IH. Qed.

(** [MergeAt] keeps the chain and takes one run off the stack. *)
Lemma MergeAt_chain (w0 : FixedArray A) (st : SortState A) (i first last : Z) :
  0 <= i ->
  (Z.to_nat i + 2 <= List.length (pendingRuns st))%nat ->
  chain w0 (workArray st) (pendingRuns st) first last ->
  chain w0 (workArray (MergeAt Compare st i)) (pendingRuns (MergeAt Compare st i)) first last /\
  S (List.length (pendingRuns (MergeAt Compare st i))) = List.length (pendingRuns st) /\
  (forall j, j < first \/ last <= j -> workArray (MergeAt Compare st i) j = workArray st j).
Proof.
  intros Hi Hsize Hchain.
  destruct (split_two _ _ Hsize) as (r1 & [bA lA] & [bB lB] & r2 & Hruns & Hr1).
  assert (Hnth0 : nth (Z.to_nat i) (pendingRuns st) (0, 0) = (bA, lA)).
  { rewrite Hruns, <- Hr1, <- (Nat.add_0_r (List.length r1)), nth_length_app. reflexivity. }
  assert (Hnth1 : nth (Z.to_nat (i + 1)) (pendingRuns st) (0, 0) = (bB, lB)).
  { replace (Z.to_nat (i + 1)) with (List.length r1 + 1)%nat by lia.
    rewrite Hruns, nth_length_app. reflexivity. }
  rewrite Hruns in Hchain. apply chain_app in Hchain.
  destruct Hchain as (mid & Hc1 & Hc2).
  apply chain_cons_inv in Hc2. destruct Hc2 as (-> & HlA & HsegA & HcB).
  apply chain_cons_inv in HcB. destruct HcB as (<- & HlB & HsegB & Hc3).
  destruct (sorted_run_partition _ _ _ _ HsegB) as (t & Ht & HB1 & HB2 & Htrue & Hfalse).
  pose proof (chain_le _ _ _ _ _ Hc1) as Hle1.
  pose proof (chain_le _ _ _ _ _ Hc3) as Hle3.
  assert (Hw' : forall j, workArray (MergeAt Compare st i) j
                          = rotated (workArray st) bA lA (Z.of_nat t) j).
  { apply (MergeAt_workArray st i bA lA lB (Z.of_nat t)); try lia.
    - unfold GetPendingRunBase. rewrite Hnth0. reflexivity.
    - unfold GetPendingRunLength. rewrite Hnth0. reflexivity.
    - unfold GetPendingRunBase. rewrite Hnth1. reflexivity.
    - unfold GetPendingRunLength. rewrite Hnth1. reflexivity.
    - exact Htrue.
    - intros m Hm. apply Hfalse. lia. }
  assert (Hruns' : pendingRuns (MergeAt Compare st i) = r1 ++ [(bA, lA + lB)] ++ r2).
  { rewrite MergeAt_pendingRuns. unfold GetPendingRunBase, GetPendingRunLength.
    rewrite Hnth0, Hnth1. cbn [fst snd]. rewrite Hruns.
    replace (Z.to_nat i) with (List.length r1) by lia.
    replace (Z.to_nat (i + 2)) with (List.length r1 + 2)%nat by lia.
    rewrite firstn_length_app, skipn_length_app. reflexivity. }
  split; [|split].
  - rewrite Hruns'. apply chain_app. exists bA. split.
    + apply (chain_ext _ _ _ _ _ _ Hc1). intros j Hj. rewrite Hw'. unfold rotated. cells.
    + cbn [app]. constructor; [lia| |].
      * apply (chain_merge w0 (workArray st) _ bA lA lB t); assumption.
      * replace (bA + (lA + lB)) with (bA + lA + lB) by lia.
        apply (chain_ext _ _ _ _ _ _ Hc3). intros j Hj. rewrite Hw'. unfold rotated. cells.
  - rewrite Hruns', Hruns, !length_app. cbn [List.length]. lia.
  - intros j Hj. rewrite Hw'. unfold rotated. cells.
Qed.

(** Both collapses keep the chain and the cells outside of it. *)
Lemma MergeCollapse_chain (w0 : FixedArray A) (first last : Z) :
  forall (fuel : nat) (st : SortState A),
    chain w0 (workArray st) (pendingRuns st) first last ->
    chain w0 (workArray (MergeCollapse Compare fuel st))
          (pendingRuns (MergeCollapse Compare fuel st)) first last /\
    (forall j, j < first \/ last <= j ->
               workArray (MergeCollapse Compare fuel st) j = workArray st j).
Proof.
  induction fuel as [|fuel IH]; intros st Hchain; cbn [MergeCollapse].
  - split; [exact Hchain|reflexivity].
  - unfold GetPendingRunsSize.
    destruct (1 <? Z.of_nat (List.length (pendingRuns st))) eqn:Hsize;
      [|split; [exact Hchain|reflexivity]].
    zbool. set (n := Z.of_nat (List.length (pendingRuns st)) - 2).
    assert (Hmerge : forall i, 0 <= i <= n ->
              chain w0 (workArray (MergeCollapse Compare fuel (MergeAt Compare st i)))
                (pendingRuns (MergeCollapse Compare fuel (MergeAt Compare st i))) first last /\
              (forall j, j < first \/ last <= j ->
                 workArray (MergeCollapse Compare fuel (MergeAt Compare st i)) j
                 = workArray st j)).
    { intros i Hi. destruct (MergeAt_chain w0 st i first last) as (H1 & _ & H3);
        [lia|unfold n in Hi; lia|exact Hchain|].
      destruct (IH _ H1) as [H4 H5]. split; [exact H4|].
      intros j Hj. rewrite H5 by exact Hj. apply H3. exact Hj. }
    destruct (negb (RunInvariantEstablished (pendingRuns st) (n + 1))
              || negb (RunInvariantEstablished (pendingRuns st) n)) eqn:Hinv.
    + assert (1 <= n).
      { unfold RunInvariantEstablished in Hinv.
        destruct (n + 1 <? 2) eqn:E1; zbool; [|lia].
        destruct (n <? 2) eqn:E2; zbool; [discriminate|lia]. }
      destruct (_ <? _); apply Hmerge; lia.
    + destruct (_ <=? _); [apply Hmerge; unfold n; lia|].
      split; [exact Hchain|reflexivity].
Qed.

Lemma MergeForceCollapse_chain (w0 : FixedArray A) (first last : Z) :
  forall (fuel : nat) (st : SortState A),
    chain w0 (workArray st) (pendingRuns st) first last ->
    (List.length (pendingRuns st) <= fuel)%nat ->
    chain w0 (workArray (MergeForceCollapse Compare fuel st))
          (pendingRuns (MergeForceCollapse Compare fuel st)) first last /\
    (List.length (pendingRuns (MergeForceCollapse Compare fuel st)) <= 1)%nat.
Proof.
  induction fuel as [|fuel IH]; intros st Hchain Hfuel; cbn [MergeForceCollapse].
  - split; [exact Hchain|lia].
  - unfold GetPendingRunsSize.
    destruct (1 <? Z.of_nat (List.length (pendingRuns st))) eqn:Hsize; zbool;
      [|split; [exact Hchain|lia]].
    set (n := Z.of_nat (List.length (pendingRuns st)) - 2).
    assert (Hmerge : forall i, 0 <= i <= n ->
              chain w0 (workArray (MergeForceCollapse Compare fuel (MergeAt Compare st i)))
                (pendingRuns (MergeForceCollapse Compare fuel (MergeAt Compare st i)))
                first last /\
              (List.length (pendingRuns (MergeForceCollapse Compare fuel
                                           (MergeAt Compare st i))) <= 1)%nat).
    { intros i Hi. destruct (MergeAt_chain w0 st i first last) as (H1 & H2 & _);
        [lia|unfold n in Hi; lia|exact Hchain|].
      apply IH; [exact H1|lia]. }
    destruct ((0 <? n) && _) eqn:Hn; zbool; apply Hmerge; unfold n in *; lia.
Qed.

(** *** The whole sort *)

Lemma runs_loop_chain (w0 : FixedArray A) (minRunLength n : Z) :
  forall (fuel : nat) (st : SortState A) (low remaining : Z),
    0 <= low -> 0 <= remaining -> low + remaining = n ->
    (Z.to_nat remaining <= fuel)%nat ->
    chain w0 (workArray st) (pendingRuns st) 0 low ->
    (forall j, low <= j -> workArray st j = w0 j) ->
    chain w0 (workArray (runs_loop Compare fuel st minRunLength low remaining))
          (pendingRuns (runs_loop Compare fuel st minRunLength low remaining)) 0 n.
Proof.
  induction fuel as [|fuel IH]; intros st low remaining Hlow Hrem Hn Hfuel Hchain Hrest;
    cbn [runs_loop].
  - replace n with low by lia. exact Hchain.
  - destruct (remaining =? 0) eqn:Hzero; zbool.
    + replace n with low by lia. exact Hchain.
    + destruct (CountAndMakeRun Compare (workArray st) low (low + remaining))
        as [work1 counted] eqn:Hcount.
      apply CountAndMakeRun_spec in Hcount; [|lia].
      destruct Hcount as (Hcounted & Hseg1 & Hout1).
      assert (Hseg1' : seg work1 low (Z.to_nat counted)
                       = marked_first (seg w0 low (Z.to_nat counted))).
      { rewrite Hseg1. f_equal. apply seg_ext. intros k Hk. apply Hrest. lia. }
      (* the run that is pushed *)
      assert (Hrun : exists work2 cur,
                 (if counted <? minRunLength
                  then (BinaryInsertionSort Compare work1 low (low + counted)
                          (low + Z.min minRunLength remaining),
                        Z.min minRunLength remaining)
                  else (work1, counted)) = (work2, cur) /\
                 1 <= cur <= remaining /\
                 seg work2 low (Z.to_nat cur) = marked_first (seg w0 low (Z.to_nat cur)) /\
                 (forall j, j < low \/ low + cur <= j -> work2 j = workArray st j)).
      { destruct (counted <? minRunLength) eqn:Hshort; zbool.
        - do 2 eexists. split; [reflexivity|]. split; [lia|].
          unfold BinaryInsertionSort.
          replace (low =? low + counted) with false by (symmetry; apply Z.eqb_neq; lia).
          pose proof (insertion_loop_spec w0 low (low + Z.min minRunLength remaining)
                        (Z.to_nat (low + Z.min minRunLength remaining - (low + counted)))
                        work1 (low + counted)) as Hins.
          cbn zeta in Hins. destruct Hins as [Hins1 Hins2].
          + lia.
          + lia.
          + replace (low + counted - low) with counted by lia. exact Hseg1'.
          + intros j Hj. rewrite Hout1 by lia. apply Hrest. lia.
          + split.
            * replace (low + Z.min minRunLength remaining - low)
                with (Z.min minRunLength remaining) in Hins1 by lia.
              exact Hins1.
            * intros j Hj. rewrite Hins2 by lia. apply Hout1. lia.
        - do 2 eexists. split; [reflexivity|]. split; [lia|]. split; [exact Hseg1'|].
          intros j Hj. apply Hout1. lia. }
      destruct Hrun as (work2 & cur & -> & Hcur & Hseg2 & Hout2).
      set (pushed := Build_SortState work2 (pendingRuns st ++ [(low, cur)]) (minGallop st)).
      assert (Hpushed : chain w0 (workArray pushed) (pendingRuns pushed) 0 (low + cur)).
      { unfold pushed. cbn [workArray pendingRuns]. apply chain_app. exists low. split.
        - apply (chain_ext _ _ _ _ _ _ Hchain). intros j Hj. apply Hout2. lia.
        - constructor; [lia|exact Hseg2|constructor]. }
      destruct (MergeCollapse_chain w0 0 (low + cur)
                  (List.length (pendingRuns pushed)) pushed Hpushed) as [Hcol1 Hcol2].
      apply IH; try lia; [exact Hcol1|].
      intros j Hj. rewrite Hcol2 by lia. unfold pushed. cbn [workArray].
      rewrite Hout2 by lia. apply Hrest. lia.
Qed.

Lemma ArrayTimSortImpl_spec (w : FixedArray A) (n : nat) :
  seg (ArrayTimSortImpl Compare w (Z.of_nat n)) 0 n = marked_first (seg w 0 n).
Proof.
  unfold ArrayTimSortImpl. destruct (Z.of_nat n <? 2) eqn:Hsmall; zbool.
  - destruct n as [|[|n]]; try lia.
    + reflexivity.
    + cbn [seg seq map]. unfold marked_first, unmarked. cbn [filter].
      destruct (marked (w (0 + Z.of_nat 0))); reflexivity.
  - set (st0 := Build_SortState w [] kMinGallopWins).
    pose proof (runs_loop_chain w (ComputeMinRunLength (Z.of_nat n)) (Z.of_nat n)
                  (Z.to_nat (Z.of_nat n)) st0 0 (Z.of_nat n)) as Hloop.
    set (st := runs_loop _ _ _ _ _ _) in *.
    assert (Hchain : chain w (workArray st) (pendingRuns st) 0 (Z.of_nat n)).
    { apply Hloop; try lia; [constructor|reflexivity]. }
    destruct (MergeForceCollapse_chain w 0 (Z.of_nat n) (List.length (pendingRuns st)) st
                Hchain (le_n _)) as [Hfinal Hone].
    destruct (pendingRuns (MergeForceCollapse Compare _ st)) as [|[b l] [|r rest]].
    + pose proof (chain_le _ _ _ _ _ Hfinal). inversion Hfinal. lia.
    + apply chain_cons_inv in Hfinal. destruct Hfinal as (<- & Hl & Hseg & Hnil).
      inversion Hnil; subst.
      replace (Z.to_nat l) with n in Hseg by lia. exact Hseg.
    + cbn in Hone. lia.
Qed.

Lemma seg_of_list (l : list A) (d : A) :
  seg (fun i => nth (Z.to_nat i) l d) 0 (List.length l) = l.
Proof.
  apply (nth_ext _ _ d d); [apply seg_length|].
  intros k Hk. rewrite seg_length in Hk. rewrite nth_seg by exact Hk.
  f_equal. lia.
Qed.

(** The sort of the engine, under a comparator that is negative exactly on a
    marked first argument: the marked elements in reverse input order, then
    the unmarked elements in input order. *)
Lemma Array_sort_marked_first (l : list A) :
  Array_sort Compare l = marked_first l.
Proof.
  destruct l as [|d l']; [reflexivity|]. unfold Array_sort.
  set (l := d :: l').
  rewrite <- (seg_of_list l d) at 2. rewrite <- ArrayTimSortImpl_spec.
  unfold seg. apply map_ext. intros k. reflexivity.
Qed.

End MarkedFirst.
(** ** Committing a batch ([createIssues]) *)

(** The requests of a batch, in input order. *)
Definition batch_requests (w : World) (issues : list Issue) (assets : Assets) : list IssueRequest :=
  map (fun issue => issue_request w issue assets) issues.

Lemma issue_request_with_tracker w calls created issue assets :
  issue_request (with_tracker w calls created) issue assets = issue_request w issue assets.
Proof. reflexivity. Qed.

(** One turn of the loop whose creation call is answered with [data]. *)
Lemma createIssues_from_step_ok issue rest assets acc w data :
  tracker_answer w (List.length (tracker_calls w)) (issue_request w issue assets) = Return data ->
  createIssues_from (issue :: rest) assets acc w =
  createIssues_from rest assets (acc ++ [data])
    (with_tracker w (tracker_calls w ++ [issue_request w issue assets])
                    (tracker_issues w ++ [(issue_request w issue assets, data)])).
Proof.
  intros Hans. cbn [createIssues_from]. unfold bind, try_catch, octokit_issues_create.
  rewrite Hans. reflexivity.
Qed.

(** One turn of the loop whose creation call fails: the loop is left at once. *)
Lemma createIssues_from_step_fail issue rest assets acc w err :
  tracker_answer w (List.length (tracker_calls w)) (issue_request w issue assets) = Throw err ->
  createIssues_from (issue :: rest) assets acc w =
  (with_tracker w (tracker_calls w ++ [issue_request w issue assets]) (tracker_issues w),
   Throw err).
Proof.
  intros Hans. cbn [createIssues_from]. unfold bind, try_catch, octokit_issues_create, throw.
  rewrite Hans. reflexivity.
Qed.

Lemma createIssues_from_first_failure :
  forall (issues : list Issue) (assets : Assets) (acc : list CreatedIssue) (w : World)
         (k : nat) (failing : Issue) (err : JsError),
    nth_error issues k = Some failing ->
    (forall j issue, j < k -> nth_error issues j = Some issue ->
       exists data, tracker_answer w (List.length (tracker_calls w) + j)
                      (issue_request w issue assets) = Return data) ->
    tracker_answer w (List.length (tracker_calls w) + k) (issue_request w failing assets)
      = Throw err ->
    exists w',
      createIssues_from issues assets acc w = (w', Throw err) /\
      tracker_calls w' = tracker_calls w ++ batch_requests w (firstn (S k) issues) assets /\
      map fst (tracker_issues w') =
        map fst (tracker_issues w) ++ batch_requests w (firstn k issues) assets.
Proof.
  induction issues as [|issue rest IH]; intros assets acc w k failing err Hk Hok Hfail.
  - destruct k; discriminate.
  - destruct k as [|k].
    + cbn in Hk. injection Hk as ->. rewrite Nat.add_0_r in Hfail.
      eexists. split; [apply createIssues_from_step_fail, Hfail|].
      cbn. rewrite app_nil_r. split; reflexivity.
    + cbn in Hk.
      destruct (Hok 0 issue) as [data Hdata]; [lia|reflexivity|].
      rewrite Nat.add_0_r in Hdata.
      rewrite (createIssues_from_step_ok _ _ _ _ _ _ Hdata).
      set (w1 := with_tracker w _ _).
      assert (Hlen : List.length (tracker_calls w1) = S (List.length (tracker_calls w))).
      { unfold w1. cbn. rewrite length_app. cbn. lia. }
      destruct (IH assets (acc ++ [data]) w1 k failing err Hk) as (w' & Hrun & Hcalls & Hiss).
      * intros j issue' Hj Hnth. destruct (Hok (S j) issue') as [d Hd]; [lia|exact Hnth|].
        exists d. rewrite Hlen. unfold w1. rewrite issue_request_with_tracker.
        cbn [tracker_answer with_tracker]. rewrite <- Hd. f_equal. lia.
      * rewrite Hlen. unfold w1. rewrite issue_request_with_tracker.
        cbn [tracker_answer with_tracker]. rewrite <- Hfail. f_equal. lia.
      * exists w'. split; [exact Hrun|]. split.
        -- rewrite Hcalls. unfold w1. cbn [tracker_calls with_tracker].
           rewrite <- app_assoc. reflexivity.
        -- rewrite Hiss. unfold w1. cbn [tracker_issues with_tracker].
           rewrite map_app, <- app_assoc. reflexivity.
Qed.

(** C5. The batch is committed in input order, one creation call per issue.
    If the call for the issue at (0-based) position [k] is the first to fail
    with [err], then [createIssues] throws [err]; the calls made are exactly
    those for the issues at positions [0..k], in order (nothing after the
    failing one is attempted); and the tracker holds exactly [k] more issues
    than before, those at positions [0..k-1] (nothing is rolled back). *)
Theorem createIssues_first_failure :
  forall (w : World) (issues : list Issue) (assets : Assets)
         (k : nat) (failing : Issue) (err : JsError),
    nth_error issues k = Some failing ->
    (forall j issue, j < k -> nth_error issues j = Some issue ->
       exists data, tracker_answer w (List.length (tracker_calls w) + j)
                      (issue_request w issue assets) = Return data) ->
    tracker_answer w (List.length (tracker_calls w) + k) (issue_request w failing assets)
      = Throw err ->
    exists w',
      createIssues issues assets w = (w', Throw err) /\
      tracker_calls w' = tracker_calls w ++ batch_requests w (firstn (S k) issues) assets /\
      map fst (tracker_issues w') =
        map fst (tracker_issues w) ++ batch_requests w (firstn k issues) assets /\
      List.length (tracker_issues w') = List.length (tracker_issues w) + k.
Proof.
  intros w issues assets k failing err Hk Hok Hfail.
  destruct (createIssues_from_first_failure issues assets [] w k failing err Hk Hok Hfail)
    as (w' & Hrun & Hcalls & Hiss).
  exists w'. repeat split; try assumption.
  apply (f_equal (@List.length _)) in Hiss.
  rewrite length_app, !length_map in Hiss. unfold batch_requests in Hiss.
  rewrite Hiss, length_map, length_firstn.
  assert (k < List.length issues) by (apply nth_error_Some; congruence). lia.
Qed.

(** What a run of the loop leaves in the tracker: the requests of a prefix of
    the batch, each paired with the tracker's answer; the whole batch when the
    run returns. *)
Lemma createIssues_from_created :
  forall (issues : list Issue) (assets : Assets) (acc : list CreatedIssue)
         (w w' : World) (r : completion (list CreatedIssue)),
    createIssues_from issues assets acc w = (w', r) ->
    exists (n : nat) (datas : list CreatedIssue),
      List.length datas = n /\ n <= List.length issues /\
      tracker_issues w' =
        tracker_issues w ++ combine (batch_requests w (firstn n issues) assets) datas /\
      (forall created, r = Return created ->
         created = acc ++ datas /\ n = List.length issues).
Proof.
  induction issues as [|issue rest IH]; intros assets acc w w' r Hrun.
  - cbn in Hrun. injection Hrun as <- <-. exists 0, []. cbn.
    rewrite !app_nil_r. split; [reflexivity|]. split; [lia|]. split; [reflexivity|].
    intros created [= <-]. split; reflexivity.
  - destruct (tracker_answer w (List.length (tracker_calls w)) (issue_request w issue assets))
      as [data|err] eqn:Hans.
    + rewrite (createIssues_from_step_ok _ _ _ _ _ _ Hans) in Hrun.
      apply IH in Hrun. destruct Hrun as (n & datas & Hlen & Hle & Hiss & Hret).
      exists (S n), (data :: datas). cbn [List.length firstn].
      split; [lia|]. split; [lia|]. split.
      * rewrite Hiss. cbn [tracker_issues with_tracker batch_requests map combine].
        rewrite <- app_assoc. reflexivity.
      * intros created Hcreated. destruct (Hret created Hcreated) as [-> ->].
        rewrite <- app_assoc. split; reflexivity.
    + rewrite (createIssues_from_step_fail _ _ _ _ _ _ Hans) in Hrun.
      injection Hrun as <- <-. exists 0, []. cbn. rewrite app_nil_r.
      split; [reflexivity|]. split; [lia|]. split; [reflexivity|].
      intros created Hcreated. discriminate Hcreated.
Qed.

(** C10. When a batch is committed ([createIssues] returns), the tracker holds
    one new issue per generated issue, in input order, and the body of each is
    the generated body, an empty line, and one markdown image link per image
    reference of the session's bundle, in collection order: the same suffix
    [image_links (images assets)] for every issue of the batch. *)
Theorem createIssues_appends_every_image_to_every_issue :
  forall (w w' : World) (issues : list Issue) (assets : Assets) (created : list CreatedIssue),
    createIssues issues assets w = (w', Return created) ->
    exists new : list (IssueRequest * CreatedIssue),
      tracker_issues w' = tracker_issues w ++ new /\
      map snd new = created /\
      Forall2 (fun (issue : Issue) (entry : IssueRequest * CreatedIssue) =>
                 req_title (fst entry) = title issue /\
                 req_labels (fst entry) = labels issue /\
                 req_body (fst entry) =
                   (body issue ++ LF ++ LF ++
                    join LF (map (fun url => "![image](" ++ url ++ ")") (images assets)))%string)
              issues new.
Proof.
  intros w w' issues assets created Hrun.
  destruct (createIssues_from_created _ _ _ _ _ _ Hrun) as (n & datas & Hlen & _ & Hiss & Hret).
  destruct (Hret created eq_refl) as [Hcreated Hn]. cbn in Hcreated. subst created.
  rewrite Hn in Hlen, Hiss. rewrite firstn_all in Hiss.
  exists (combine (batch_requests w issues assets) datas). split; [exact Hiss|].
  clear Hiss Hret Hrun Hn n. revert datas Hlen.
  induction issues as [|issue rest IH]; intros [|d datas] Hlen; try discriminate.
  - split; constructor.
  - cbn in Hlen. injection Hlen as Hlen. destruct (IH datas Hlen) as [Hsnd Hall].
    split.
    + cbn. f_equal. exact Hsnd.
    + constructor; [|exact Hall]. cbn. repeat split; reflexivity.
Qed.

(** ** The listing ([processProjectItems]) *)

(** The item's status is the Backlog option, as the comparator decides it:
    its option id is the id of the option named [Backlog]. *)
Definition is_backlog (statusField : StatusField) (item : ProjectItem) : bool :=
  strict_eq (status_optionId item) (option_id_of (find_option "Backlog" statusField)).

(** The items that pass the filter, in input order. *)
Definition kept_items (items : list ProjectItem) (statusField : StatusField)
  : list ProjectItem :=
  filter (keep_item (find_option "Done" statusField)) items.

Lemma backlog_first_negative statusField a b :
  (backlog_first (find_option "Backlog" statusField) a b <? 0)%Z = is_backlog statusField a.
Proof.
  unfold backlog_first, is_backlog.
  destruct (strict_eq (status_optionId a) _); [reflexivity|].
  destruct (strict_eq (status_optionId b) _); reflexivity.
Qed.

(** The listing in closed form: the backlog items of the kept ones, last in
    input first, then the other kept items in input order. *)
Lemma processProjectItems_closed_form items statusField :
  processProjectItems items statusField =
  rev (filter (is_backlog statusField) (kept_items items statusField))
  ++ filter (fun item => negb (is_backlog statusField item)) (kept_items items statusField).
Proof.
  unfold processProjectItems.
  rewrite (Array_sort_marked_first _ (is_backlog statusField)
             (backlog_first_negative statusField)).
  reflexivity.
Qed.

Lemma processProjectItems_Permutation items statusField :
  Permutation (processProjectItems items statusField) (kept_items items statusField).
Proof.
  rewrite processProjectItems_closed_form.
  set (kept := kept_items items statusField). clearbody kept.
  induction kept as [|x kept IH]; [constructor|].
  cbn [filter]. destruct (is_backlog statusField x); cbn [negb rev].
  - rewrite <- app_assoc. cbn [app].
    apply Permutation_sym, Permutation_cons_app, Permutation_sym. exact IH.
  - apply Permutation_sym, Permutation_cons_app, Permutation_sym. exact IH.
Qed.

Lemma truthy_spec (a : Maybe) : truthy a = true <-> exists s, a = str s /\ s <> "".
Proof.
  destruct a as [| |s]; cbn.
  - split; [discriminate|intros (s & H & _); discriminate].
  - split; [discriminate|intros (s & H & _); discriminate].
  - rewrite negb_true_iff, String.eqb_neq. split.
    + intros H. exists s. split; [reflexivity|exact H].
    + intros (s' & [= <-] & H). exact H.
Qed.

(** C1, as the code has it. An item is in the listing exactly when it is an
    input item whose status name is a non-empty string other than the name of
    the [Done] option; so an item whose status is the [Done] option's name is
    excluded, and so is an item without a status value. Every kept item is
    retained once: the listing is a permutation of the kept items. *)
Theorem listing_keeps_items_with_a_status_other_than_done :
  forall (items : list ProjectItem) (statusField : StatusField),
    (forall item,
        In item (processProjectItems items statusField) <->
        In item items /\
        exists s, status_name item = str s /\ s <> "" /\
                  forall doneOption, find_option "Done" statusField = Some doneOption ->
                                     s <> option_name doneOption) /\
    (forall item, fieldValueByName item = None ->
                  ~ In item (processProjectItems items statusField)) /\
    Permutation (processProjectItems items statusField)
                (filter (keep_item (find_option "Done" statusField)) items).
Proof.
  intros items statusField.
  assert (Hin : forall item,
             In item (processProjectItems items statusField) <->
             In item items /\ keep_item (find_option "Done" statusField) item = true).
  { intros item. rewrite <- filter_In. split; apply Permutation_in.
    - apply processProjectItems_Permutation.
    - apply Permutation_sym, processProjectItems_Permutation. }
  assert (Hkeep : forall item,
             keep_item (find_option "Done" statusField) item = true <->
             exists s, status_name item = str s /\ s <> "" /\
                       forall doneOption, find_option "Done" statusField = Some doneOption ->
                                          s <> option_name doneOption).
  { intros item. unfold keep_item. rewrite andb_true_iff, truthy_spec, negb_true_iff. split.
    - intros [(s & Hs & Hne) Hdone]. exists s. split; [exact Hs|]. split; [exact Hne|].
      intros doneOption Hfind. rewrite Hs, Hfind in Hdone. cbn in Hdone.
      apply String.eqb_neq. exact Hdone.
    - intros (s & Hs & Hne & Hdone). split; [exists s; split; assumption|].
      rewrite Hs. destruct (find_option "Done" statusField) as [doneOption|]; cbn.
      + apply String.eqb_neq. apply Hdone. reflexivity.
      + reflexivity. }
  split; [|split].
  - intros item. rewrite Hin, Hkeep. reflexivity.
  - intros item Hnone Habs. apply Hin in Habs. destruct Habs as [_ Habs].
    apply Hkeep in Habs. destruct Habs as (s & Hs & _).
    unfold status_name in Hs. rewrite Hnone in Hs. discriminate.
  - apply processProjectItems_Permutation.
Qed.


(** ** The content validator ([IssueSchema], [validateAIResponse]) *)

(** A candidate violates the schema when [IssueSchema]'s element refuses it. *)
Definition violates_schema (item : json) : Prop :=
  exists errors, parse_issue [] (Some item) = Invalid errors.

Definition is_valid {A} (v : Validation A) : bool :=
  match v with Valid _ => true | Invalid _ => false end.

(** A parser never fails without saying why. *)
Lemma parse_string_errors minimum maximum path v errors :
  parse_string minimum maximum path v = Invalid errors -> errors <> [].
Proof.
  unfold parse_string. destruct v as [[| | |s| |]|]; try (intros [= <-]; discriminate).
  destruct (_ ++ _) eqn:Happ; [discriminate|]. intros [= <-]. discriminate.
Qed.

(** Whether a value is accepted does not depend on where it stands. *)
Lemma parse_string_path minimum maximum path path' v :
  is_valid (parse_string minimum maximum path v)
  = is_valid (parse_string minimum maximum path' v).
Proof.
  unfold parse_string. destruct v as [[| | |s| |]|]; try reflexivity.
  destruct (String.length s <? minimum)%nat, maximum as [m|];
    try destruct (m <? String.length s)%nat; reflexivity.
Qed.

Section Elements.

Context {A : Type} (element : list PathSegment -> option json -> Validation A).

Hypothesis element_errors :
  forall path v errors, element path v = Invalid errors -> errors <> [].

Lemma parse_elements_errors path i items errors :
  parse_elements element path i items = Invalid errors -> errors <> [].
Proof.
  revert i errors. induction items as [|item rest IH]; intros i errors; cbn.
  - discriminate.
  - destruct (element (path ++ [Index i]) (Some item)) as [x|ex] eqn:Hx;
      destruct (parse_elements element path (S i) rest) as [xs|exs] eqn:Hxs;
      try discriminate; intros [= <-]; cbn.
    + eapply IH; eassumption.
    + rewrite app_nil_r. eapply element_errors; eassumption.
    + intros Happ. apply app_eq_nil in Happ. destruct Happ as [-> _].
      eapply element_errors; [eassumption|reflexivity].
Qed.

(** One refused element refuses the array. *)
Lemma parse_elements_refuses path i items k item :
  nth_error items k = Some item ->
  is_valid (element (path ++ [Index (i + k)]) (Some item)) = false ->
  is_valid (parse_elements element path i items) = false.
Proof.
  revert i k. induction items as [|x rest IH]; intros i k Hk Hbad.
  - destruct k; discriminate.
  - cbn. destruct k as [|k].
    + cbn in Hk. injection Hk as ->. rewrite Nat.add_0_r in Hbad.
      destruct (element (path ++ [Index i]) (Some item)); [discriminate|].
      destruct (parse_elements element path (S i) rest); reflexivity.
    + cbn in Hk. specialize (IH (S i) k Hk).
      replace (S i + k) with (i + S k) in IH by lia. specialize (IH Hbad).
      destruct (parse_elements element path (S i) rest); [discriminate|].
      destruct (element (path ++ [Index i]) (Some x)); reflexivity.
Qed.

Hypothesis element_path :
  forall path path' v, is_valid (element path v) = is_valid (element path' v).

Lemma parse_elements_path path path' i i' items :
  is_valid (parse_elements element path i items)
  = is_valid (parse_elements element path' i' items).
Proof.
  revert i i'. induction items as [|item rest IH]; intros i i'; cbn; [reflexivity|].
  specialize (IH (S i) (S i')).
  specialize (element_path (path ++ [Index i]) (path' ++ [Index i']) (Some item)).
  destruct (element (path ++ [Index i]) (Some item)),
           (element (path' ++ [Index i']) (Some item)),
           (parse_elements element path (S i) rest),
           (parse_elements element path' (S i') rest);
    cbn in *; congruence.
Qed.

End Elements.

Lemma parse_labels_errors path v errors :
  parse_labels path v = Invalid errors -> errors <> [].
Proof.
  unfold parse_labels, parse_array.
  destruct v as [[| | | |items|]|]; try (intros [= <-]; discriminate).
  apply parse_elements_errors. intros p v e. apply parse_string_errors.
Qed.

Lemma parse_labels_path path path' v :
  is_valid (parse_labels path v) = is_valid (parse_labels path' v).
Proof.
  unfold parse_labels, parse_array. destruct v as [[| | | |items|]|]; try reflexivity.
  apply parse_elements_path. intros p p' v. apply parse_string_path.
Qed.

Lemma parse_issue_errors path v errors :
  parse_issue path v = Invalid errors -> errors <> [].
Proof.
  unfold parse_issue. destruct v as [[| | | | |members]|]; try (intros [= <-]; discriminate).
  destruct (parse_string 10 None _ _) as [t|et] eqn:Ht;
    destruct (parse_string 100 None _ _) as [b|eb] eqn:Hb;
    destruct (parse_labels _ _) as [l|el] eqn:Hl;
    try discriminate; intros [= <-]; cbn; intros Happ;
    repeat (apply app_eq_nil in Happ; destruct Happ as [? Happ]); subst;
    try (eapply parse_string_errors; [eassumption|reflexivity]);
    try (eapply parse_labels_errors; [eassumption|reflexivity]).
Qed.

Lemma parse_issue_path path path' v :
  is_valid (parse_issue path v) = is_valid (parse_issue path' v).
Proof.
  unfold parse_issue. destruct v as [[| | | | |members]|]; try reflexivity.
  pose proof (parse_string_path 10 None (path ++ [Key "title"]) (path' ++ [Key "title"])
                (lookup "title" members)) as Ht.
  pose proof (parse_string_path 100 None (path ++ [Key "body"]) (path' ++ [Key "body"])
                (lookup "body" members)) as Hb.
  pose proof (parse_labels_path (path ++ [Key "labels"]) (path' ++ [Key "labels"])
                (lookup "labels" members)) as Hl.
  destruct (parse_string 10 None (path ++ _) _), (parse_string 10 None (path' ++ _) _),
           (parse_string 100 None (path ++ _) _), (parse_string 100 None (path' ++ _) _),
           (parse_labels (path ++ _) _), (parse_labels (path' ++ _) _);
    cbn in *; congruence.
Qed.

(** A title below ten characters is a violation, whatever else the candidate
    holds. *)
Lemma short_title_violates_schema (members : list (string * json)) (s : string) :
  lookup "title" members = Some (JString s) ->
  String.length s < 10 ->
  violates_schema (JObject members).
Proof.
  intros Htitle Hlen. unfold violates_schema, parse_issue. rewrite Htitle.
  unfold parse_string at 1.
  apply Nat.ltb_lt in Hlen. rewrite Hlen. cbn [app].
  destruct (parse_string 100 None _ _), (parse_labels _ _); eexists; reflexivity.
Qed.

(** C4. If the [issues] array of the parsed completion holds at least one
    candidate that violates the schema, [validateAIResponse] throws one error,
    built from a non-empty list of schema issues, and so returns no issue at
    all: no part of the batch is accepted. *)
Theorem validateAIResponse_rejects_whole_batch :
  forall (content : string) (rawData : json) (items : list json) (k : nat) (item : json),
    JSON_parse content = Return rawData ->
    get_property rawData "issues" = Return (Some (JArray items)) ->
    nth_error items k = Some item ->
    violates_schema item ->
    exists errors : list ZodIssue,
      errors <> [] /\
      IssueSchema_safeParse (Some (JArray items)) = Invalid errors /\
      validateAIResponse content = Throw (validation_error errors) /\
      (forall data, validateAIResponse content <> Return data).
Proof.
  intros content rawData items k item Hparse Hissues Hk [errs Hbad].
  assert (Hinvalid : is_valid (IssueSchema_safeParse (Some (JArray items))) = false).
  { unfold IssueSchema_safeParse, parse_array.
    apply (parse_elements_refuses parse_issue [] 0 items k item Hk).
    rewrite (parse_issue_path _ [] (Some item)), Hbad. reflexivity. }
  destruct (IssueSchema_safeParse (Some (JArray items))) as [data|errors] eqn:Hsafe;
    [discriminate|].
  exists errors. split.
  - unfold IssueSchema_safeParse, parse_array in Hsafe.
    eapply parse_elements_errors; [|exact Hsafe].
    intros p v e. apply parse_issue_errors.
  - assert (Hthrow : validateAIResponse content = Throw (validation_error errors)).
    { unfold validateAIResponse. rewrite Hparse, Hissues, Hsafe. reflexivity. }
    split; [reflexivity|]. split; [exact Hthrow|].
    intros data. rewrite Hthrow. discriminate.
Qed.

(** *** Idempotence *)

(** The validated issue as the JavaScript value it is: the plain object that
    zod builds, keys in the order of the shape. *)
Definition issue_to_json (issue : Issue) : json :=
  JObject [ ("title", JString issue.(title));
            ("body", JString issue.(body));
            ("labels", JArray (map JString issue.(labels))) ].

(** The validated batch under the [issues] key, as a second run reads it. *)
Definition revalidation_input (data : list Issue) : json :=
  JObject [ ("issues", JArray (map issue_to_json data)) ].

(** An accepted string is returned as it is, and is accepted anywhere. *)
Lemma parse_string_valid minimum maximum path path' v s :
  parse_string minimum maximum path v = Valid s ->
  v = Some (JString s) /\
  parse_string minimum maximum path' (Some (JString s)) = Valid s.
Proof.
  unfold parse_string. destruct v as [[| | |s0| |]|]; try discriminate.
  destruct (String.length s0 <? minimum)%nat eqn:Hmin; [discriminate|].
  destruct maximum as [m|].
  - destruct (m <? String.length s0)%nat eqn:Hmax; [discriminate|].
    intros [= <-]. rewrite Hmin, Hmax. split; reflexivity.
  - intros [= <-]. rewrite Hmin. split; reflexivity.
Qed.

Lemma parse_label_elements_valid path path' i i' items ls :
  parse_elements (parse_string 2 (Some 20)) path i items = Valid ls ->
  parse_elements (parse_string 2 (Some 20)) path' i' (map JString ls) = Valid ls.
Proof.
  revert i i' ls. induction items as [|item rest IH]; intros i i' ls; cbn [parse_elements].
  - intros [= <-]. reflexivity.
  - destruct (parse_string 2 (Some 20) (path ++ [Index i]) (Some item)) as [x|] eqn:Hx;
      [|destruct (parse_elements _ path (S i) rest); discriminate].
    destruct (parse_elements _ path (S i) rest) as [xs|] eqn:Hxs; [|discriminate].
    cbv beta iota. intros [= <-]. cbn [map parse_elements].
    destruct (parse_string_valid _ _ _ (path' ++ [Index i']) _ _ Hx) as [_ ->].
    rewrite (IH (S i) (S i') xs Hxs). reflexivity.
Qed.

Lemma parse_labels_valid path path' v ls :
  parse_labels path v = Valid ls ->
  parse_labels path' (Some (JArray (map JString ls))) = Valid ls.
Proof.
  unfold parse_labels, parse_array. destruct v as [[| | | |items|]|]; try discriminate.
  - apply parse_label_elements_valid.
  - intros [= <-]. reflexivity.
Qed.

(** A validated issue, read again, is accepted and comes out unchanged. *)
Lemma parse_issue_valid path path' v issue :
  parse_issue path v = Valid issue ->
  parse_issue path' (Some (issue_to_json issue)) = Valid issue.
Proof.
  unfold parse_issue at 1. destruct v as [[| | | | |members]|]; try discriminate.
  destruct (parse_string 10 None _ _) as [t|] eqn:Ht;
    [|destruct (parse_string 100 None _ _), (parse_labels _ _); discriminate].
  destruct (parse_string 100 None _ _) as [b|] eqn:Hb;
    [|destruct (parse_labels _ _); discriminate].
  destruct (parse_labels _ _) as [l|] eqn:Hl; [|discriminate].
  cbv beta iota. intros [= <-]. unfold parse_issue, issue_to_json. cbn [lookup String.eqb Ascii.eqb Bool.eqb title body labels].
  destruct (parse_string_valid _ _ _ (path' ++ [Key "title"]) _ _ Ht) as [_ ->].
  destruct (parse_string_valid _ _ _ (path' ++ [Key "body"]) _ _ Hb) as [_ ->].
  rewrite (parse_labels_valid _ (path' ++ [Key "labels"]) _ _ Hl). reflexivity.
Qed.

Lemma parse_issue_elements_valid path path' i i' items data :
  parse_elements parse_issue path i items = Valid data ->
  parse_elements parse_issue path' i' (map issue_to_json data) = Valid data.
Proof.
  revert i i' data. induction items as [|item rest IH]; intros i i' data; cbn [parse_elements].
  - intros [= <-]. reflexivity.
  - destruct (parse_issue (path ++ [Index i]) (Some item)) as [x|] eqn:Hx;
      [|destruct (parse_elements _ path (S i) rest); discriminate].
    destruct (parse_elements _ path (S i) rest) as [xs|] eqn:Hxs; [|discriminate].
    cbv beta iota. intros [= <-]. cbn [map parse_elements].
    rewrite (parse_issue_valid _ (path' ++ [Index i']) _ _ Hx).
    rewrite (IH (S i) (S i') xs Hxs). reflexivity.
Qed.

(** The schema accepts what it delivered, unchanged. *)
Lemma IssueSchema_safeParse_idempotent input data :
  IssueSchema_safeParse input = Valid data ->
  IssueSchema_safeParse (Some (JArray (map issue_to_json data))) = Valid data.
Proof.
  unfold IssueSchema_safeParse, parse_array.
  destruct input as [[| | | |items|]|]; try discriminate.
  apply parse_issue_elements_valid.
Qed.

(** C9. The validator is idempotent: when it accepts a raw text and returns
    [data], the schema accepts [data] itself and returns it unchanged, and so
    does the validator on every text that parses to [data] under the [issues]
    key (its own output, serialised). *)
Theorem validateAIResponse_idempotent :
  forall (content : string) (data : list Issue),
    validateAIResponse content = Return data ->
    IssueSchema_safeParse (Some (JArray (map issue_to_json data))) = Valid data /\
    (forall content',
        JSON_parse content' = Return (revalidation_input data) ->
        validateAIResponse content' = Return data).
Proof.
  intros content data Hrun. unfold validateAIResponse in Hrun.
  destruct (JSON_parse content) as [rawData|]; [|discriminate].
  destruct (get_property rawData "issues") as [issues|]; [|discriminate].
  destruct (IssueSchema_safeParse issues) as [data0|] eqn:Hsafe; [|discriminate].
  injection Hrun as ->.
  pose proof (IssueSchema_safeParse_idempotent _ _ Hsafe) as Hagain.
  split; [exact Hagain|].
  intros content' Hparse. unfold validateAIResponse. rewrite Hparse.
  replace (get_property (revalidation_input data) "issues")
    with (Return (Some (JArray (map issue_to_json data)))) by reflexivity.
  rewrite Hagain. reflexivity.
Qed.

(** ** Images ([processImages]) *)

(** *** What the HTTP service answers *)

(** The fetch of a reference succeeds when its request is answered with a
    success status and the body can be read. The image then goes to the
    completion service as a data URL, of the content type of the answer and
    of the bytes of the body in base64. *)
Definition fetch_succeeds (w : World) (url : string) : option string :=
  match http w url with
  | Return response =>
      if ok response
      then match arrayBuffer response with
           | Return bytes =>
               Some ("data:" ++ content_type response ++ ";base64," ++ base64 bytes)%string
           | Throw _ => None
           end
      else None
  | Throw _ => None
  end.

(** Why the fetch of a reference does not succeed: the request is rejected,
    the status is no success, or the body cannot be read. *)
Definition fetch_failure (w : World) (url : string) : option string :=
  match http w url with
  | Return response =>
      if ok response
      then match arrayBuffer response with
           | Return _ => None
           | Throw error => Some (message error)
           end
      else Some ("HTTP " ++ string_of_nat (status response))%string
  | Throw error => Some (message error)
  end.

(** The references whose fetch succeeds, as the parts sent to the completion
    service, in the order of [images]. *)
Definition fetched_images (w : World) (images : list string) : list ContentPart :=
  flat_map (fun url => match fetch_succeeds w url with
                       | Some dataUrl => [ImageUrlPart dataUrl]
                       | None => []
                       end) images.

(** The warning for each reference of [images] whose fetch does not succeed,
    in the order of [images]. *)
Definition skip_warnings (w : World) (images : list string) : list ChatOp :=
  flat_map (fun url => match fetch_failure w url with
                       | Some reason => [ChannelSend (plain ("⚠️ Skipping image: " ++ reason))]
                       | None => []
                       end) images.

(** *** What the code does with them *)

(** How [fetchImageAsBase64] ends. *)
Definition image_data (w : World) (url : string) : completion string :=
  snd (fetchImageAsBase64 url w).

(** The value of the callback of one reference. *)
Definition image_result (w : World) (url : string) : option ContentPart :=
  option_map ImageUrlPart (fetch_succeeds w url).

Lemma with_chat_log_id w : with_chat_log w (chat_log w) = w.
Proof. destruct w. reflexivity. Qed.

Lemma with_chat_log_twice w l l' : with_chat_log (with_chat_log w l) l' = with_chat_log w l'.
Proof. reflexivity. Qed.

Lemma fetchImageAsBase64_pure url w :
  fetchImageAsBase64 url w = (w, image_data w url).
Proof.
  unfold image_data, fetchImageAsBase64, fetch, bind, throw, ret. cbn.
  destruct (http w url) as [response|e]; [|reflexivity].
  destruct (ok response); cbn; [|reflexivity].
  destruct (arrayBuffer response); reflexivity.
Qed.

Lemma image_data_with_chat_log w l url :
  image_data (with_chat_log w l) url = image_data w url.
Proof.
  unfold image_data. rewrite !fetchImageAsBase64_pure.
  unfold image_data, fetchImageAsBase64, fetch, bind. cbn.
  destruct (http w url) as [response|e]; [|reflexivity].
  destruct (ok response); cbn; [|reflexivity].
  destruct (arrayBuffer response); reflexivity.
Qed.

(** [fetchImageAsBase64] returns the data URL of a fetch that succeeds, and
    throws an error that says why for one that does not. *)
Lemma image_data_fetched w url dataUrl :
  fetch_succeeds w url = Some dataUrl -> image_data w url = Return dataUrl.
Proof.
  unfold fetch_succeeds, image_data, fetchImageAsBase64, fetch, bind, throw, ret. cbn.
  destruct (http w url) as [response|e]; [|discriminate].
  destruct (ok response); cbn; [|discriminate].
  destruct (arrayBuffer response); [|discriminate].
  intros H. injection H as <-. reflexivity.
Qed.

Lemma image_data_failed w url :
  fetch_succeeds w url = None ->
  exists error, image_data w url = Throw error /\ fetch_failure w url = Some (message error).
Proof.
  unfold fetch_succeeds, fetch_failure, image_data, fetchImageAsBase64, fetch, bind, throw, ret.
  cbn. destruct (http w url) as [response|e].
  - destruct (ok response); cbn.
    + destruct (arrayBuffer response) as [bytes|e]; [discriminate|].
      intros _. exists e. split; reflexivity.
    + intros _. eexists. split; reflexivity.
  - intros _. exists e. split; reflexivity.
Qed.

Lemma fetch_failure_fetched w url dataUrl :
  fetch_succeeds w url = Some dataUrl -> fetch_failure w url = None.
Proof.
  unfold fetch_succeeds, fetch_failure. destruct (http w url) as [response|e]; [|discriminate].
  destruct (ok response); [|discriminate].
  destruct (arrayBuffer response); [reflexivity|discriminate].
Qed.

Lemma processImage_fetched url w dataUrl :
  fetch_succeeds w url = Some dataUrl ->
  processImage url w = (w, Return (Some (ImageUrlPart dataUrl))).
Proof.
  intros Hdata. unfold processImage, try_catch, bind.
  rewrite fetchImageAsBase64_pure, (image_data_fetched w url dataUrl Hdata). reflexivity.
Qed.

Lemma processImage_skipped url w :
  fetch_succeeds w url = None ->
  chat_answer w (List.length (chat_log w)) = None ->
  processImage url w =
  (with_chat_log w (chat_log w ++ skip_warnings w [url]), Return None).
Proof.
  intros Hdata Hchat. destruct (image_data_failed w url Hdata) as (error & Hthrow & Hwhy).
  unfold processImage, try_catch, bind.
  rewrite fetchImageAsBase64_pure, Hthrow. unfold channel_send, chat.
  rewrite Hchat. unfold skip_warnings. cbn [flat_map]. rewrite Hwhy, app_nil_r. reflexivity.
Qed.

Lemma skip_warnings_cons w url rest :
  skip_warnings w (url :: rest) = skip_warnings w [url] ++ skip_warnings w rest.
Proof. unfold skip_warnings. cbn [flat_map]. rewrite app_nil_r. reflexivity. Qed.

Lemma skip_warnings_fetched w url dataUrl :
  fetch_succeeds w url = Some dataUrl -> skip_warnings w [url] = [].
Proof.
  intros Hdata. unfold skip_warnings. cbn [flat_map].
  rewrite (fetch_failure_fetched w url dataUrl Hdata). reflexivity.
Qed.

Lemma skip_warnings_failed w url :
  fetch_succeeds w url = None -> List.length (skip_warnings w [url]) = 1.
Proof.
  intros Hdata. destruct (image_data_failed w url Hdata) as (error & _ & Hwhy).
  unfold skip_warnings. cbn [flat_map]. rewrite Hwhy. reflexivity.
Qed.

Lemma filter_Boolean_image_results w images :
  filter_Boolean (map (image_result w) images) = fetched_images w images.
Proof.
  induction images as [|url rest IH]; [reflexivity|].
  unfold fetched_images, image_result in *. cbn [map flat_map].
  destruct (fetch_succeeds w url); cbn [option_map filter_Boolean app]; rewrite IH; reflexivity.
Qed.

(** *** The order in which the callbacks go on *)

Section Settle.

Context {A : Type} (when : A -> nat).

Lemma settle_insert_Permutation (x : nat * A) (queue : list (nat * A)) :
  Permutation (settle_insert when x queue) (x :: queue).
Proof.
  induction queue as [|y rest IH]; cbn [settle_insert]; [reflexivity|].
  destruct (when (snd x) <=? when (snd y))%nat; [reflexivity|].
  rewrite IH. apply perm_swap.
Qed.

Lemma settle_order_Permutation (xs : list A) :
  Permutation (settle_order when xs) (combine (seq 0 (List.length xs)) xs).
Proof.
  unfold settle_order. induction (combine (seq 0 (List.length xs)) xs) as [|x rest IH];
    cbn [fold_right]; [reflexivity|].
  rewrite settle_insert_Permutation, IH. reflexivity.
Qed.

Definition settles_before (x y : nat * A) : Prop := when (snd x) <= when (snd y).

Lemma settle_insert_sorted (x : nat * A) (queue : list (nat * A)) :
  StronglySorted settles_before queue ->
  StronglySorted settles_before (settle_insert when x queue).
Proof.
  induction queue as [|y rest IH]; intros Hsorted; cbn [settle_insert].
  - constructor; constructor.
  - apply StronglySorted_inv in Hsorted. destruct Hsorted as [Hrest Hy].
    destruct (when (snd x) <=? when (snd y))%nat eqn:Hle.
    + apply Nat.leb_le in Hle. constructor; [constructor; assumption|].
      constructor; [exact Hle|].
      apply Forall_forall. intros z Hz.
      pose proof (proj1 (Forall_forall _ _) Hy z Hz) as Hyz.
      unfold settles_before in *. lia.
    + apply Nat.leb_gt in Hle. constructor; [apply IH, Hrest|].
      apply (Permutation_Forall (Permutation_sym (settle_insert_Permutation x rest))).
      constructor; [unfold settles_before; lia|exact Hy].
Qed.

Lemma settle_order_sorted (xs : list A) :
  StronglySorted settles_before (settle_order when xs).
Proof.
  unfold settle_order. induction (combine (seq 0 (List.length xs)) xs) as [|x rest IH];
    cbn [fold_right]; [constructor|].
  apply settle_insert_sorted, IH.
Qed.

Lemma map_fst_combine_seq (xs : list A) (start : nat) :
  map fst (combine (seq start (List.length xs)) xs) = seq start (List.length xs).
Proof.
  revert start. induction xs as [|x rest IH]; intros start; [reflexivity|].
  cbn. rewrite IH. reflexivity.
Qed.

Lemma map_snd_combine_seq (xs : list A) (start : nat) :
  map snd (combine (seq start (List.length xs)) xs) = xs.
Proof.
  revert start. induction xs as [|x rest IH]; intros start; [reflexivity|].
  cbn. rewrite IH. reflexivity.
Qed.

Lemma In_combine_seq (xs : list A) (start i : nat) (x : A) :
  nth_error xs i = Some x -> In (start + i, x) (combine (seq start (List.length xs)) xs).
Proof.
  revert start i. induction xs as [|y rest IH]; intros start [|i] Hnth; cbn in *;
    try discriminate.
  - injection Hnth as <-. left. f_equal. lia.
  - right. replace (start + S i) with (S start + i) by lia. apply IH, Hnth.
Qed.

(** The references in the order in which their callbacks go on: those of
    [xs], no later one before an earlier one. *)
Lemma settled_Permutation (xs : list A) :
  Permutation (map snd (settle_order when xs)) xs.
Proof.
  rewrite (Permutation_map snd (settle_order_Permutation xs)), map_snd_combine_seq.
  reflexivity.
Qed.

Lemma settled_sorted (xs : list A) :
  StronglySorted (fun x y => when x <= when y) (map snd (settle_order when xs)).
Proof.
  pose proof (settle_order_sorted xs) as Hsorted.
  induction Hsorted as [|x queue _ IH Hx]; cbn [map]; constructor; [exact IH|].
  apply Forall_map. exact Hx.
Qed.

End Settle.

(** *** The values that [Promise.all] resolves to *)

Section Fulfilled.

Context {A B : Type} (g : A -> B).

Definition returning (ix : nat * A) : nat * completion B := (fst ix, Return (g (snd ix))).

Lemma first_rejection_returning (queue : list (nat * A)) :
  first_rejection (map returning queue) = None.
Proof. induction queue as [|[i x] rest IH]; [reflexivity|exact IH]. Qed.

Lemma outcome_of_returning (queue : list (nat * A)) (i : nat) (x : A) :
  NoDup (map fst queue) -> In (i, x) queue ->
  outcome_of i (map returning queue) = Some (Return (g x)).
Proof.
  induction queue as [|[j y] rest IH]; intros Hnodup Hin; [contradiction|].
  cbn [map fst] in Hnodup. apply NoDup_cons_iff in Hnodup. destruct Hnodup as [Hj Hrest].
  cbn [map returning outcome_of fst snd]. destruct (j =? i)%nat eqn:Hji.
  - apply Nat.eqb_eq in Hji. subst j. destruct Hin as [Heq|Hin].
    + injection Heq as <-. reflexivity.
    + exfalso. apply Hj. apply (in_map fst) in Hin. exact Hin.
  - apply Nat.eqb_neq in Hji. destruct Hin as [Heq|Hin].
    + injection Heq as Heq _. contradiction.
    + apply IH; assumption.
Qed.

Lemma flat_map_seq_nth (F : nat -> list B) (xs : list A) (start : nat) :
  (forall i x, nth_error xs i = Some x -> F (start + i) = [g x]) ->
  flat_map F (seq start (List.length xs)) = map g xs.
Proof.
  revert start. induction xs as [|x rest IH]; intros start HF; [reflexivity|].
  cbn [List.length seq flat_map map].
  rewrite <- (Nat.add_0_r start) at 1. rewrite (HF 0 x eq_refl). cbn [app]. f_equal.
  apply IH. intros i y Hnth. replace (S start + i) with (start + S i) by lia.
  apply HF. exact Hnth.
Qed.

Lemma fulfilled_returning (xs : list A) (queue : list (nat * A)) :
  Permutation queue (combine (seq 0 (List.length xs)) xs) ->
  fulfilled (List.length xs) (map returning queue) = map g xs.
Proof.
  intros Hperm. unfold fulfilled. apply flat_map_seq_nth. intros i x Hnth.
  cbv beta. change (0 + i) with i.
  rewrite (outcome_of_returning queue i x); [reflexivity| |].
  - apply (Permutation_NoDup (Permutation_map fst (Permutation_sym Hperm))).
    rewrite map_fst_combine_seq. apply seq_NoDup.
  - apply (Permutation_in _ (Permutation_sym Hperm)).
    apply (In_combine_seq xs 0 i x Hnth).
Qed.

End Fulfilled.

Lemma fulfilled_length {B} (n : nat) (outcomes : list (nat * completion B)) :
  List.length (fulfilled n outcomes) <= n.
Proof.
  unfold fulfilled. generalize 0 as start.
  induction n as [|n IH]; intros start; [apply Nat.le_refl|].
  cbn [seq flat_map]. rewrite length_app. specialize (IH (S start)).
  destruct (outcome_of start outcomes) as [[y|e]|]; cbn [List.length]; lia.
Qed.

(** *** The callbacks of [processImages] before a chat that accepts the warnings *)

Lemma run_callbacks_processImage :
  forall (queue : list (nat * string)) (w : World),
    (forall j, j < List.length (skip_warnings w (map snd queue)) ->
               chat_answer w (List.length (chat_log w) + j) = None) ->
    run_callbacks processImage queue w =
    (with_chat_log w (chat_log w ++ skip_warnings w (map snd queue)),
     map (returning (image_result w)) queue).
Proof.
  intros queue. induction queue as [|[i url] rest IH]; intros w Hchat.
  - cbn. rewrite app_nil_r, with_chat_log_id. reflexivity.
  - cbn [run_callbacks map snd] in Hchat |- *. rewrite skip_warnings_cons in Hchat |- *.
    destruct (fetch_succeeds w url) as [dataUrl|] eqn:Hdata.
    + rewrite (processImage_fetched url w dataUrl Hdata).
      rewrite (skip_warnings_fetched w url dataUrl Hdata) in Hchat |- *.
      cbn [app] in Hchat |- *. rewrite (IH w Hchat).
      unfold returning at 2, image_result. cbn [fst snd]. rewrite Hdata. reflexivity.
    + pose proof (skip_warnings_failed w url Hdata) as Hone.
      rewrite (processImage_skipped url w Hdata).
      2:{ rewrite <- (Hchat 0); [f_equal; lia|rewrite length_app; lia]. }
      set (w1 := with_chat_log w _).
      assert (IH1 := IH w1).
      change (skip_warnings w1 (map snd rest)) with (skip_warnings w (map snd rest)) in IH1.
      change (map (returning (image_result w1)) rest)
        with (map (returning (image_result w)) rest) in IH1.
      rewrite IH1.
      * unfold w1. rewrite with_chat_log_twice. cbn [chat_log with_chat_log].
        rewrite <- app_assoc.
        unfold returning at 2, image_result. cbn [fst snd]. rewrite Hdata. reflexivity.
      * intros j Hj. unfold w1. cbn [chat_answer chat_log with_chat_log].
        rewrite length_app, Hone.
        rewrite <- (Hchat (S j)); [f_equal; lia|rewrite length_app; lia].
Qed.

Lemma skip_warnings_Permutation w (images images' : list string) :
  Permutation images images' ->
  Permutation (skip_warnings w images) (skip_warnings w images').
Proof. intros Hperm. unfold skip_warnings. apply Permutation_flat_map, Hperm. Qed.

(** [processImages] before a chat that accepts the warnings. *)
Lemma processImages_accepted (images : list string) (w : World) :
  (forall j, j < List.length (skip_warnings w images) ->
             chat_answer w (List.length (chat_log w) + j) = None) ->
  processImages images w =
  (with_chat_log w
     (chat_log w ++ skip_warnings w (map snd (settle_order (settles_at w) images))),
   Return (fetched_images w images)).
Proof.
  intros Hchat. unfold processImages, bind, Promise_all_map.
  rewrite run_callbacks_processImage.
  - rewrite first_rejection_returning.
    rewrite (fulfilled_returning (image_result w) images _
               (settle_order_Permutation (settles_at w) images)).
    unfold ret. rewrite filter_Boolean_image_results. reflexivity.
  - intros j Hj. apply Hchat.
    rewrite <- (Permutation_length
                  (skip_warnings_Permutation w _ _ (settled_Permutation (settles_at w) images))).
    exact Hj.
Qed.

(** The steps of [handleAIStream] talk to the chat only. *)
Lemma chat_llm_calls op w : llm_calls (fst (chat op w)) = llm_calls w.
Proof. unfold chat. destruct (chat_answer w _); reflexivity. Qed.

Lemma message_edit_llm_calls target p w :
  llm_calls (fst (message_edit target p w)) = llm_calls w.
Proof.
  unfold message_edit, bind. pose proof (chat_llm_calls (MessageEdit target p) w) as H.
  destruct (chat (MessageEdit target p) w) as [w' [n|e]]; exact H.
Qed.

Lemma consume_stream_llm_calls chunks buffer statusMessage w :
  llm_calls (fst (consume_stream chunks buffer statusMessage w)) = llm_calls w.
Proof.
  revert buffer w. induction chunks as [|chunk rest IH]; intros buffer w; [reflexivity|].
  cbn [consume_stream]. unfold bind, updateStatusMessage.
  destruct (String.length (buffer ++ chunk) mod 15 =? 0)%nat.
  - pose proof (message_edit_llm_calls statusMessage
                  (plain ("🔄 Generating content..." ++ LF ++ json_block (buffer ++ chunk))) w) as H.
    destruct (message_edit _ _ w) as [w' [[]|e]]; cbn in H |- *.
    + rewrite IH. exact H.
    + exact H.
  - cbn. apply IH.
Qed.

Lemma handleAIStream_llm_calls stream w :
  llm_calls (fst (handleAIStream stream w)) = llm_calls w.
Proof.
  unfold handleAIStream, bind, channel_send.
  pose proof (chat_llm_calls (ChannelSend (plain "Starting generation...")) w) as H0.
  destruct (chat _ w) as [w0 [statusMessage|e]]; [|exact H0].
  cbn in H0. rewrite <- H0. unfold try_catch.
  pose proof (consume_stream_llm_calls (fst stream) "" statusMessage w0) as H1.
  destruct (consume_stream _ _ _ w0) as [w1 [buffer|e]]; cbn in H1.
  - rewrite <- H1. destruct (snd stream) as [e|].
    + cbn. unfold bind.
      pose proof (message_edit_llm_calls statusMessage (plain "❌ Generation failed!") w1) as H2.
      destruct (message_edit _ _ w1) as [w2 [[]|e2]]; exact H2.
    + cbn.
      pose proof (message_edit_llm_calls statusMessage
                    (plain ("✅ Generation complete!" ++ LF ++ json_block buffer)) w1) as H2.
      destruct (message_edit _ _ w1) as [w2 [[]|e2]]; cbn in H2 |- *.
      * destruct (validateAIResponse buffer); cbn; [exact H2|].
        unfold bind.
        pose proof (message_edit_llm_calls statusMessage (plain "❌ Generation failed!") w2) as H3.
        destruct (message_edit _ _ w2) as [w3 [[]|e3]]; cbn in H3 |- *; congruence.
      * unfold bind.
        pose proof (message_edit_llm_calls statusMessage (plain "❌ Generation failed!") w2) as H3.
        destruct (message_edit _ _ w2) as [w3 [[]|e3]]; cbn in H3 |- *; congruence.
  - rewrite <- H1. unfold bind.
    pose proof (message_edit_llm_calls statusMessage (plain "❌ Generation failed!") w1) as H2.
    destruct (message_edit _ _ w1) as [w2 [[]|e2]]; exact H2.
Qed.

(** C6. Provided the chat accepts the warnings, [processImages] returns,
    whatever the fetches do: its result is exactly the images whose fetch
    succeeds, as data URLs and in input order, and one warning has been sent
    for each reference whose fetch does not succeed, in the order in which
    the fetches settle. Generation then goes on: [generateIssueContent]
    submits one request to the completion service, made of the system
    instruction, of the text and of these images. *)
Theorem processImages_drops_failed_images :
  forall (w : World) (assets : Assets),
    (forall j, j < List.length (skip_warnings w assets.(images)) ->
               chat_answer w (List.length (chat_log w) + j) = None) ->
    (exists (w1 : World) (settled : list string),
        processImages assets.(images) w = (w1, Return (fetched_images w assets.(images))) /\
        Permutation settled assets.(images) /\
        StronglySorted (fun url url' => settles_at w url <= settles_at w url') settled /\
        chat_log w1 = chat_log w ++ skip_warnings w settled) /\
    (exists w2 r,
        generateIssueContent assets w = (w2, r) /\
        llm_calls w2 =
          llm_calls w
          ++ [[ {| role := "system"; parts := [TextPart system_instruction] |};
                {| role := "user";
                   parts := TextPart (join (LF ++ LF) assets.(text))
                            :: fetched_images w assets.(images) |} ]]).
Proof.
  intros w assets Hchat.
  pose proof (processImages_accepted assets.(images) w Hchat) as Himages.
  split.
  - eexists. exists (map snd (settle_order (settles_at w) assets.(images))).
    split; [exact Himages|]. split; [apply settled_Permutation|].
    split; [apply settled_sorted|]. reflexivity.
  - unfold generateIssueContent, try_catch, bind at 1. rewrite Himages.
    unfold bind at 1, openai_chat_completions_create, buildMessages.
    set (w1 := with_chat_log w _).
    set (messages := [_; _]).
    destruct (llm_answer w1 (List.length (llm_calls w1)) messages) as [stream|e] eqn:Hllm.
    + pose proof (handleAIStream_llm_calls stream
                    (with_llm_calls w1 (llm_calls w1 ++ [messages]))) as Hstream.
      destruct (handleAIStream stream _) as [w2 [data|e]]; cbn in Hstream;
        do 2 eexists; (split; [reflexivity|]); exact Hstream.
    + do 2 eexists. split; [reflexivity|]. reflexivity.
Qed.

(** ** The collection window *)

(** Unfolds the plumbing of the monad. *)
Ltac comp_simpl :=
  cbv beta iota zeta delta
    [bind ret throw try_catch lift detached get_session modify_session modify_review fst snd].

(** The session is in its [OPEN] state: the message collector runs, and the
    review has not been set up. *)
Definition OPEN (s : Session) : Prop :=
  collector_ended s = false /\ review s = None.

(** A message written by a bot never reaches the [collect] listener, which
    would return at once anyway. *)
Lemma bot_message_ignored (b : Bot) (msg : Message) :
  OPEN (fst b) -> user_bot (author msg) = true -> step b (MessageCreate msg) = b.
Proof.
  intros [Hopen Hrev] Hbot. destruct b as [s w]. cbn in Hopen, Hrev.
  unfold step, dispatch, bind, get_session, collector_filter. cbn.
  rewrite Hopen, Hrev, Hbot. reflexivity.
Qed.

(** The [collect] listener reads of the author nothing but the [bot] flag. *)
Lemma collector_on_collect_author (msg msg' : Message) :
  user_bot (author msg) = user_bot (author msg') ->
  msg_content msg = msg_content msg' ->
  attachments msg = attachments msg' ->
  collector_on_collect msg = collector_on_collect msg'.
Proof.
  intros Hbot Hcontent Hatt. unfold collector_on_collect.
  rewrite Hbot, Hcontent, Hatt. reflexivity.
Qed.

(** C2, as the code has it. During an [OPEN] collection window a message
    written by a bot leaves the session (its bundle included) and the world
    unchanged; among messages that no bot wrote the window does not look at
    the author: the same content and attachments have the same effect
    whoever sends them, the initiating user or anybody else. *)
Theorem collection_window_ignores_bots_only :
  forall (b : Bot),
    OPEN (fst b) ->
    (forall msg, user_bot (author msg) = true -> step b (MessageCreate msg) = b) /\
    (forall msg msg',
        user_bot (author msg) = false -> user_bot (author msg') = false ->
        msg_content msg = msg_content msg' ->
        attachments msg = attachments msg' ->
        step b (MessageCreate msg) = step b (MessageCreate msg')).
Proof.
  intros b Hopen. split.
  - intros msg Hbot. apply bot_message_ignored; assumption.
  - intros msg msg' Hbot Hbot' Hcontent Hatt. destruct Hopen as [Hended Hrev].
    destruct b as [s w]. cbn in Hended, Hrev.
    unfold step, dispatch, bind, get_session, collector_filter. cbn.
    rewrite Hended, Hrev, Hbot, Hbot'. cbn.
    rewrite (collector_on_collect_author msg msg') by congruence.
    reflexivity.
Qed.

(** ** The review window *)

Lemma row_customIds (issues : list Issue) :
  map customId (row issues) = ["confirm_issues"; "cancel_issues"].
Proof. reflexivity. Qed.

(** What the review step presents, in every world: when the collection window
    of a preview-mode session ends and generation succeeds, the review message is sent with one action
    row of exactly two buttons, [confirm_issues] and [cancel_issues]: no
    [edit] decision is presented (the three-button row [buttons] is built and
    never sent). *)
Theorem review_presents_two_buttons :
  forall (b b' : Bot) (generated : list Issue) (w1 : World),
    wantsPreview (fst b) = true ->
    generateIssueContent (assets (fst b)) (snd b) = (w1, Return generated) ->
    collector_on_end b = (b', Return tt) ->
    exists p : Payload,
      chat_log (snd b') = chat_log w1 ++ [ChannelSend p] /\
      option_map (map (map customId)) (components p)
        = Some [["confirm_issues"; "cancel_issues"]] /\
      (forall r, review (fst b') = Some r ->
                 review_issues r = generated /\ buttonCollector_ended r = false).
Proof.
  intros [s w] b' generated w1 Hpreview Hgen Hend. cbn in Hpreview, Hgen.
  unfold collector_on_end, bind, get_session, lift in Hend. cbn in Hend.
  rewrite Hgen, Hpreview in Hend. cbn in Hend.
  unfold channel_send, chat in Hend. cbn in Hend.
  destruct (chat_answer w1 (List.length (chat_log w1))) as [e|] eqn:Hans; [discriminate|].
  injection Hend as <-. cbn. eexists. split; [reflexivity|]. split; [reflexivity|].
  intros r [= <-]. split; reflexivity.
Qed.

(** The state in which a review window waits for its first decision. *)
Definition REVIEWING (s : Session) (r : Review) : Prop :=
  collector_ended s = true /\ review s = Some r /\
  buttonCollector_ended r = false /\ editCollectors r = 0.

(** Every review window starts in that state: it is what the [end] listener of
    the collection window leaves when it returns in preview mode. *)
Lemma review_starts_REVIEWING (b b' : Bot) :
  collector_ended (fst b) = true ->
  wantsPreview (fst b) = true ->
  collector_on_end b = (b', Return tt) ->
  exists r, REVIEWING (fst b') r.
Proof.
  intros Hended Hpreview Hend. destruct b as [s w]. cbn in Hended, Hpreview.
  unfold collector_on_end, bind, get_session, lift in Hend. cbn in Hend.
  destruct (generateIssueContent (assets s) w) as [w1 [generated|e]]; [|discriminate].
  rewrite Hpreview in Hend. cbn in Hend. unfold channel_send, chat in Hend. cbn in Hend.
  destruct (chat_answer w1 (List.length (chat_log w1))); [discriminate|].
  injection Hend as <-. eexists. unfold REVIEWING. cbn.
  repeat split; try reflexivity. exact Hended.
Qed.

(** Events other than a press by the invoking user and the expiry of the
    review window. *)
Definition no_decision (s : Session) (ev : Event) : Prop :=
  match ev with
  | ButtonPress user _ => user_id user <> user_id (invoker s)
  | ReviewWindowExpired => False
  | _ => True
  end.

Lemma no_decision_step (b : Bot) (r : Review) (ev : Event) :
  REVIEWING (fst b) r -> no_decision (fst b) ev -> step b ev = b.
Proof.
  intros (Hended & Hrev & Hbtn & Hedit) Hev.
  destruct b as [s w]. destruct s as [inv prev dm a ended rv].
  destruct r as [ri pe pm be ec]. cbn in *. subst ended rv be ec.
  destruct ev as [m|user pressed| | |]; cbn in Hev.
  - unfold step, dispatch, bind, get_session. cbn.
    destruct (editCollector_filter _ m); reflexivity.
  - unfold step, dispatch, bind, get_session, buttonCollector_filter. cbn.
    apply String.eqb_neq in Hev. rewrite Hev. reflexivity.
  - reflexivity.
  - contradiction.
  - reflexivity.
Qed.

Lemma no_decision_run (b : Bot) (r : Review) (evs : list Event) :
  REVIEWING (fst b) r -> Forall (no_decision (fst b)) evs -> run b evs = b.
Proof.
  intros Hrev Hall. induction Hall as [|ev evs Hev _ IH]; [reflexivity|].
  unfold run in *. cbn. rewrite (no_decision_step b r ev Hrev Hev). exact IH.
Qed.

(** The state of a review window that is closed. *)
Definition REVIEW_CLOSED (s : Session) : Prop :=
  collector_ended s = true /\
  exists r, review s = Some r /\ buttonCollector_ended r = true /\ editCollectors r = 0.

(** Once the window is closed no event has any effect: no collector is left
    to receive it. *)
Lemma closed_step (b : Bot) (ev : Event) : REVIEW_CLOSED (fst b) -> step b ev = b.
Proof.
  intros (Hended & r & Hr & Hbtn & Hedit).
  destruct b as [s w]. destruct s as [inv prev dm a ended rv].
  destruct r as [ri pe pm be ec]. cbn in *. subst ended rv be ec.
  destruct ev as [m|user pressed| | |].
  - unfold step, dispatch, bind, get_session. cbn.
    destruct (editCollector_filter _ m); reflexivity.
  - reflexivity.
  - reflexivity.
  - reflexivity.
  - reflexivity.
Qed.

Lemma closed_run (b : Bot) (evs : list Event) : REVIEW_CLOSED (fst b) -> run b evs = b.
Proof.
  intros Hclosed. induction evs as [|ev evs IH]; [reflexivity|].
  unfold run in *. cbn. rewrite (closed_step b ev Hclosed). exact IH.
Qed.

(** The expiry of a waiting review window: the buttons are taken off the
    review message, the window is closed, and nothing else happens. *)
Lemma review_expiry_step (b : Bot) (r : Review) :
  REVIEWING (fst b) r ->
  REVIEW_CLOSED (fst (step b ReviewWindowExpired)) /\
  tracker_calls (snd (step b ReviewWindowExpired)) = tracker_calls (snd b) /\
  tracker_issues (snd (step b ReviewWindowExpired)) = tracker_issues (snd b) /\
  chat_log (snd (step b ReviewWindowExpired)) =
    chat_log (snd b) ++
    [MessageEdit (previewMessage r)
       {| content := None; embeds := None; components := Some [] |}].
Proof.
  intros (Hended & Hr & Hbtn & Hedit).
  destruct b as [s w]. destruct s as [inv prev dm a ended rv].
  destruct r as [ri pe pm be ec]. cbn in *. subst ended rv be ec.
  unfold step, dispatch, buttonCollector_stop, buttonCollector_on_end, message_edit, chat.
  comp_simpl. cbn.
  destruct (chat_answer w (List.length (chat_log w))); cbn;
    (split; [split; [reflexivity|eexists; repeat split; reflexivity]|]);
    repeat split; reflexivity.
Qed.

(** C7. From a review window that waits for its decision, any sequence of
    events without a press by the invoking user, followed by the expiry of
    the window, leaves the tracker as it was: no creation call is made and no
    issue exists that did not before. What the bot does at the expiry is to
    ask for the buttons of the review message to be removed
    ([components: []]); the window is closed, and whatever events come
    [later], presses of the invoking user included, the tracker stays
    untouched: the session never commits. *)
Theorem review_expiry_never_commits :
  forall (b : Bot) (r : Review) (evs later : list Event),
    REVIEWING (fst b) r ->
    Forall (no_decision (fst b)) evs ->
    chat_log (snd (run b (evs ++ [ReviewWindowExpired]))) =
      chat_log (snd b) ++
      [MessageEdit (previewMessage r)
         {| content := None; embeds := None; components := Some [] |}] /\
    option_map buttonCollector_ended (review (fst (run b (evs ++ [ReviewWindowExpired]))))
      = Some true /\
    tracker_calls (snd (run b (evs ++ [ReviewWindowExpired] ++ later)))
      = tracker_calls (snd b) /\
    tracker_issues (snd (run b (evs ++ [ReviewWindowExpired] ++ later)))
      = tracker_issues (snd b).
Proof.
  intros b r evs later Hrev Hall.
  assert (Hrun : forall rest, run b (evs ++ rest) = run b rest).
  { intros rest. unfold run. rewrite fold_left_app. fold (run b evs).
    rewrite (no_decision_run b r evs Hrev Hall). reflexivity. }
  destruct (review_expiry_step b r Hrev) as (Hclosed & Hcalls & Hissues & Hlog).
  rewrite !Hrun.
  assert (Hlater : run b ([ReviewWindowExpired] ++ later) = step b ReviewWindowExpired).
  { unfold run. cbn [app fold_left]. fold (run (step b ReviewWindowExpired) later).
    apply closed_run. exact Hclosed. }
  rewrite Hlater. change (run b [ReviewWindowExpired]) with (step b ReviewWindowExpired).
  split; [exact Hlog|]. split; [|split; assumption].
  destruct Hclosed as (_ & r' & Hr' & Hbtn' & _). rewrite Hr'. cbn. rewrite Hbtn'. reflexivity.
Qed.

(** ** Guarantees *)

(** A guarantee that a computation gives of the state it runs in: a reflexive
    and transitive relation between the state before and the state after. *)
Record Guarantee (S : Type) := {
  holds :> S -> S -> Prop;
  holds_refl : forall s, holds s s;
  holds_trans : forall s1 s2 s3, holds s1 s2 -> holds s2 s3 -> holds s1 s3
}.
Arguments holds {S} _ _ _.
Arguments holds_refl {S} _ _.
Arguments holds_trans {S} _ _ _ _ _ _.

(** [m] respects [R]: however it ends, by a return or by a throw. *)
Definition respects {S A} (R : Guarantee S) (m : Comp S A) : Prop :=
  forall s, R s (fst (m s)).

Lemma respects_ret {S A} (R : Guarantee S) (a : A) : respects R (ret a).
Proof. intros s. apply holds_refl. Qed.

Lemma respects_throw {S A} (R : Guarantee S) (e : JsError) : respects R (@throw S A e).
Proof. intros s. apply holds_refl. Qed.

Lemma respects_pure {S A} (R : Guarantee S) (f : S -> completion A) :
  respects R (fun s => (s, f s)).
Proof. intros s. apply holds_refl. Qed.

Lemma respects_bind {S A B} (R : Guarantee S) (m : Comp S A) (k : A -> Comp S B) :
  respects R m -> (forall a, respects R (k a)) -> respects R (bind m k).
Proof.
  intros Hm Hk s. unfold bind. specialize (Hm s).
  destruct (m s) as [s' [a|e]]; cbn in *; [|exact Hm].
  eapply holds_trans; [exact Hm|apply Hk].
Qed.

Lemma respects_try_catch {S A} (R : Guarantee S) (m : Comp S A) (h : JsError -> Comp S A) :
  respects R m -> (forall e, respects R (h e)) -> respects R (try_catch m h).
Proof.
  intros Hm Hh s. unfold try_catch. specialize (Hm s).
  destruct (m s) as [s' [a|e]]; cbn in *; [exact Hm|].
  eapply holds_trans; [exact Hm|apply Hh].
Qed.

Lemma respects_if {S A} (R : Guarantee S) (c : bool) (m1 m2 : Comp S A) :
  respects R m1 -> respects R m2 -> respects R (if c then m1 else m2).
Proof. destruct c; auto. Qed.

Lemma respects_for_of {S A} (R : Guarantee S) (xs : list A) (body : A -> Comp S unit) :
  (forall x, respects R (body x)) -> respects R (for_of xs body).
Proof.
  intros Hbody. induction xs as [|x xs IH]; cbn [for_of].
  - apply respects_ret.
  - apply respects_bind; [apply Hbody|intros _; exact IH].
Qed.

Lemma respects_run_callbacks {A B} (R : Guarantee World) (f : A -> M B)
  (queue : list (nat * A)) :
  (forall x, respects R (f x)) -> forall w, R w (fst (run_callbacks f queue w)).
Proof.
  intros Hf. induction queue as [|[i x] rest IH]; intros w; [apply holds_refl|].
  cbn [run_callbacks]. specialize (Hf x w). destruct (f x w) as [w1 outcome]. cbn in Hf.
  specialize (IH w1). destruct (run_callbacks f rest w1) as [w2 outcomes]. cbn in IH |- *.
  eapply holds_trans; eassumption.
Qed.

Lemma respects_Promise_all_map {A B} (R : Guarantee World) (when : World -> A -> nat)
  (f : A -> M B) (xs : list A) :
  (forall x, respects R (f x)) -> respects R (Promise_all_map when f xs).
Proof.
  intros Hf w. unfold Promise_all_map.
  pose proof (respects_run_callbacks R f (settle_order (when w) xs) Hf w) as H.
  destruct (run_callbacks f (settle_order (when w) xs) w) as [w' outcomes]. exact H.
Qed.

(** Both guarantees at once. *)
Definition both {S} (R1 R2 : Guarantee S) : Guarantee S.
Proof.
  refine {| holds := fun s s' => R1 s s' /\ R2 s s' |}.
  - intros s. split; apply holds_refl.
  - intros s1 s2 s3 [H1 H2] [H3 H4]. split; eapply holds_trans; eassumption.
Defined.

Lemma respects_both {S A} (R1 R2 : Guarantee S) (m : Comp S A) :
  respects R1 m -> respects R2 m -> respects (both R1 R2) m.
Proof. intros H1 H2 s. split; [apply H1|apply H2]. Qed.

(** *** Guarantees of the bot: of its session, of the world *)

Definition of_session (R : Guarantee Session) : Guarantee Bot.
Proof.
  refine {| holds := fun b b' => R (fst b) (fst b') |}.
  - intros b. apply holds_refl.
  - intros b1 b2 b3. apply holds_trans.
Defined.

Definition of_world (R : Guarantee World) : Guarantee Bot.
Proof.
  refine {| holds := fun b b' => R (snd b) (snd b') |}.
  - intros b. apply holds_refl.
  - intros b1 b2 b3. apply holds_trans.
Defined.

Lemma respects_get_session (R : Guarantee Bot) : respects R get_session.
Proof. intros b. apply holds_refl. Qed.

Lemma respects_detached {A} (R : Guarantee Bot) (m : Comp Bot A) :
  respects R m -> respects R (detached m).
Proof. intros Hm b. apply Hm. Qed.

(** What acts on the world leaves the session alone, and the other way round. *)
Lemma respects_lift_of_session {A} (R : Guarantee Session) (m : M A) :
  respects (of_session R) (lift m).
Proof. intros [s w]. unfold lift. cbn. destruct (m w). apply holds_refl. Qed.

Lemma respects_lift_of_world {A} (R : Guarantee World) (m : M A) :
  respects R m -> respects (of_world R) (lift m).
Proof.
  intros Hm [s w]. unfold lift. cbn. specialize (Hm w). destruct (m w). exact Hm.
Qed.

Lemma respects_modify_session_of_session (R : Guarantee Session) (f : Session -> Session) :
  (forall s, R s (f s)) -> respects (of_session R) (modify_session f).
Proof. intros Hf b. apply Hf. Qed.

Lemma respects_modify_session_of_world (R : Guarantee World) (f : Session -> Session) :
  respects (of_world R) (modify_session f).
Proof. intros b. exact (holds_refl R (snd b)). Qed.

Lemma of_world_push_image (R : Guarantee World) url : respects (of_world R) (push_image url).
Proof. apply respects_modify_session_of_world. Qed.

Lemma of_world_push_text (R : Guarantee World) t : respects (of_world R) (push_text t).
Proof. apply respects_modify_session_of_world. Qed.

Lemma of_world_set_generatedIssues (R : Guarantee World) issues :
  respects (of_world R) (set_generatedIssues issues).
Proof. apply respects_modify_session_of_world. Qed.

Lemma of_world_modify_review (R : Guarantee World) f : respects (of_world R) (modify_review f).
Proof. apply respects_modify_session_of_world. Qed.

Create HintDb respects.

#[local] Hint Resolve of_world_push_image of_world_push_text of_world_set_generatedIssues
  of_world_modify_review : respects.

#[local] Hint Resolve respects_ret respects_throw respects_pure respects_get_session
  respects_detached respects_lift_of_session respects_lift_of_world
  respects_modify_session_of_world : respects.

(** Walks through a computation: binds, handlers, loops, branches. *)
Ltac respects_step :=
  first
    [ progress intros
    | solve [auto with respects]
    | apply respects_bind
    | apply respects_try_catch
    | apply respects_for_of
    | apply respects_Promise_all_map
    | apply respects_if
    | apply respects_both
    | match goal with
      | |- respects _ (match ?x with _ => _ end) => destruct x
      | |- respects _ (let '(_, _) := ?x in _) => destruct x
      end ].

Ltac respects_tac := repeat respects_step.

(** ** Reachable sessions *)

(** What every listener but those of the collection window guarantees: the
    collection window stays as it is, and no review appears. *)
Definition quiet : Guarantee Session.
Proof.
  refine {| holds := fun s s' =>
              collector_ended s' = collector_ended s /\
              (review s = None -> review s' = None) |}.
  - intros s. split; auto.
  - intros s1 s2 s3 [H1 H2] [H3 H4]. split; [congruence|auto].
Defined.

(** What the [end] listener of the collection window guarantees: a window
    that has ended stays ended. *)
Definition ended_stays : Guarantee Session.
Proof.
  refine {| holds := fun s s' => collector_ended s = true -> collector_ended s' = true |}.
  - intros s H. exact H.
  - intros s1 s2 s3 H1 H2 H. auto.
Defined.

(** What every listener guarantees: a collection window that has ended stays
    ended, and as long as it has not ended no review appears. *)
Definition orderly : Guarantee Session.
Proof.
  refine {| holds := fun s s' =>
              (collector_ended s = true -> collector_ended s' = true) /\
              (collector_ended s' = false -> review s = None -> review s' = None) |}.
  - intros s. split; auto.
  - intros s1 s2 s3 [H1 H2] [H3 H4]. split; [auto|].
    intros Hopen Hnone. apply H4; [exact Hopen|]. apply H2; [|exact Hnone].
    destruct (collector_ended s2); [|reflexivity].
    rewrite H3 in Hopen; [discriminate|reflexivity].
Defined.

Lemma respects_quiet_ended_stays {A} (m : Comp Bot A) :
  respects (of_session quiet) m -> respects (of_session ended_stays) m.
Proof. intros H b Hended. destruct (H b) as [Hsame _]. cbn in *. congruence. Qed.

Lemma respects_quiet_orderly {A} (m : Comp Bot A) :
  respects (of_session quiet) m -> respects (of_session orderly) m.
Proof.
  intros H b. destruct (H b) as [Hsame Hnone]. split.
  - intros Hended. rewrite Hsame. exact Hended.
  - intros _. exact Hnone.
Qed.

(** The session updates of the listeners. *)
Lemma quiet_with_assets s a : quiet s (with_assets s a).
Proof. split; auto. Qed.

Lemma quiet_map_review s (f : Review -> Review) :
  quiet s (with_review s (option_map f (review s))).
Proof. split; [reflexivity|]. cbn. intros ->. reflexivity. Qed.

Lemma quiet_push_image url : respects (of_session quiet) (push_image url).
Proof. apply respects_modify_session_of_session. intros s. apply quiet_with_assets. Qed.

Lemma quiet_push_text t : respects (of_session quiet) (push_text t).
Proof. apply respects_modify_session_of_session. intros s. apply quiet_with_assets. Qed.

Lemma quiet_set_generatedIssues issues :
  respects (of_session quiet) (set_generatedIssues issues).
Proof. apply respects_modify_session_of_session. intros s. apply quiet_with_assets. Qed.

Lemma quiet_modify_review f : respects (of_session quiet) (modify_review f).
Proof. apply respects_modify_session_of_session. intros s. apply quiet_map_review. Qed.

#[local] Hint Resolve quiet_push_image quiet_push_text quiet_set_generatedIssues
  quiet_modify_review : respects.

Lemma quiet_buttonCollector_stop : respects (of_session quiet) buttonCollector_stop.
Proof. unfold buttonCollector_stop, buttonCollector_on_end. respects_tac. Qed.

Lemma quiet_report_created created : respects (of_session quiet) (report_created created).
Proof. unfold report_created. respects_tac. Qed.

#[local] Hint Resolve quiet_buttonCollector_stop quiet_report_created : respects.

Lemma quiet_buttonCollector_on_collect pressed :
  respects (of_session quiet) (buttonCollector_on_collect pressed).
Proof. unfold buttonCollector_on_collect. respects_tac. Qed.

Lemma quiet_editCollector_on_collect m :
  respects (of_session quiet) (editCollector_on_collect m).
Proof. unfold editCollector_on_collect. respects_tac. Qed.

Lemma quiet_clear_editCollectors keep : respects (of_session quiet) (clear_editCollectors keep).
Proof. unfold clear_editCollectors. respects_tac. Qed.

Lemma quiet_collect_attachment a : respects (of_session quiet) (collect_attachment a).
Proof. unfold collect_attachment. respects_tac. Qed.

#[local] Hint Resolve quiet_buttonCollector_on_collect quiet_editCollector_on_collect
  quiet_clear_editCollectors quiet_collect_attachment : respects.

Lemma quiet_editCollectors_collect n m :
  respects (of_session quiet) (editCollectors_collect n m).
Proof. induction n as [|n IH]; cbn [editCollectors_collect]; respects_tac. Qed.

#[local] Hint Resolve quiet_editCollectors_collect : respects.

(** The part of the [collect] listener of the collection window that handles
    an ordinary message. *)
Definition collect_content (msg : Message) : Comp Bot unit :=
  (if (0 <? List.length (attachments msg))%nat
   then for_of (attachments msg) collect_attachment else ret tt) ;;;
  (if negb (String.eqb (msg_content msg) "")
   then push_text (msg_content msg) ;;;
        lift (channel_send (plain ("✅ Added text: " ++ LF ++ msg_content msg))) ;;;
        ret tt
   else ret tt).

Lemma collector_on_collect_content (msg : Message) :
  user_bot (author msg) = false ->
  String.eqb (toLowerCase (msg_content msg)) "!done" = false ->
  collector_on_collect msg = collect_content msg.
Proof. intros Hbot Hdone. unfold collector_on_collect. rewrite Hbot, Hdone. reflexivity. Qed.

Lemma quiet_collect_content (msg : Message) : respects (of_session quiet) (collect_content msg).
Proof. unfold collect_content. respects_tac. Qed.

(** The [end] listener of the collection window sets the review up and leaves
    the window ended. *)
Lemma ended_stays_collector_on_end : respects (of_session ended_stays) collector_on_end.
Proof.
  unfold collector_on_end.
  apply respects_bind; [apply respects_get_session|]. intros s.
  apply respects_bind; [apply respects_lift_of_session|]. intros generated.
  apply respects_if.
  - apply respects_quiet_ended_stays. respects_tac.
  - apply respects_bind; [apply respects_quiet_ended_stays; auto with respects|].
    intros _. apply respects_bind; [apply respects_lift_of_session|]. intros sent.
    apply respects_modify_session_of_session. intros s' H. exact H.
Qed.

Lemma collector_stop_ends (b : Bot) : collector_ended (fst (fst (collector_stop b))) = true.
Proof.
  destruct b as [s w]. unfold collector_stop.
  cbv beta iota zeta delta [bind get_session modify_session detached ret fst snd].
  destruct (collector_ended s) eqn:Hended; [exact Hended|].
  apply (ended_stays_collector_on_end (with_collector_ended s true, w)). reflexivity.
Qed.

Lemma orderly_collector_stop : respects (of_session orderly) collector_stop.
Proof.
  intros b. pose proof (collector_stop_ends b) as Hends. split.
  - intros _. exact Hends.
  - intros Hopen. change (collector_ended (fst (fst (collector_stop b))) = false) in Hopen.
    rewrite Hends in Hopen. discriminate.
Qed.

Lemma orderly_collector_on_collect m : respects (of_session orderly) (collector_on_collect m).
Proof.
  unfold collector_on_collect. apply respects_if; [apply respects_ret|].
  apply respects_if; [apply orderly_collector_stop|].
  apply respects_quiet_orderly, quiet_collect_content.
Qed.

Lemma orderly_dispatch (ev : Event) : respects (of_session orderly) (dispatch ev).
Proof.
  unfold dispatch. apply respects_bind; [apply respects_get_session|]. intros s.
  destruct ev as [m|user pressed| | |].
  - apply respects_bind.
    + apply respects_if; [|apply respects_ret].
      apply respects_detached, orderly_collector_on_collect.
    + intros _. apply respects_quiet_orderly. respects_tac.
  - apply respects_quiet_orderly. respects_tac.
  - apply orderly_collector_stop.
  - apply respects_quiet_orderly, quiet_buttonCollector_stop.
  - apply respects_quiet_orderly. respects_tac.
Qed.

(** In every session that is reached, the review exists only once the
    collection window has ended. *)
Definition review_after_collection (s : Session) : Prop :=
  collector_ended s = false -> review s = None.

Lemma step_review_after_collection (b : Bot) (ev : Event) :
  review_after_collection (fst b) -> review_after_collection (fst (step b ev)).
Proof.
  intros Hinv Hopen. destruct (orderly_dispatch ev b) as [Hstays Hnone].
  apply Hnone; [exact Hopen|]. apply Hinv.
  destruct (collector_ended (fst b)); [|reflexivity].
  unfold step in Hopen. rewrite Hstays in Hopen; [discriminate|reflexivity].
Qed.

Lemma run_review_after_collection (evs : list Event) :
  forall b, review_after_collection (fst b) -> review_after_collection (fst (run b evs)).
Proof.
  induction evs as [|ev evs IH]; intros b Hb; [exact Hb|].
  unfold run in *. cbn [fold_left]. apply IH, step_review_after_collection, Hb.
Qed.

(** Every session that a sequence of events reaches from a new one, and
    whose collection window has not ended, is [OPEN]. *)
Lemma reached_session_is_OPEN (user : User) (preview dm : bool) (w : World)
  (evs : list Event) :
  collector_ended (fst (run (new_session user preview dm, w) evs)) = false ->
  OPEN (fst (run (new_session user preview dm, w) evs)).
Proof.
  intros Hopen. split; [exact Hopen|].
  apply (run_review_after_collection evs (new_session user preview dm, w)); [|exact Hopen].
  intros _. reflexivity.
Qed.

(** ** What the validator accepts *)

(** The bounds that [IssueSchema] sets. *)
Definition label_conforms (l : string) : Prop :=
  2 <= String.length l /\ String.length l <= 20.

Definition conforms (issue : Issue) : Prop :=
  10 <= String.length (title issue) /\
  100 <= String.length (body issue) /\
  Forall label_conforms (labels issue).

(** The candidate [item] carries [issue]: it is an object whose [title] and
    [body] are the strings of [issue], and whose [labels] are the strings of
    [issue] in an array, or are absent when [issue] has no label. Whatever
    other keys the object has does not matter. *)
Definition carries (item : json) (issue : Issue) : Prop :=
  exists members,
    item = JObject members /\
    lookup "title" members = Some (JString (title issue)) /\
    lookup "body" members = Some (JString (body issue)) /\
    (lookup "labels" members = Some (JArray (map JString (labels issue))) \/
     lookup "labels" members = None /\ labels issue = []).

Lemma parse_string_spec minimum maximum path v s :
  parse_string minimum maximum path v = Valid s <->
  v = Some (JString s) /\ minimum <= String.length s /\
  match maximum with Some m => String.length s <= m | None => True end.
Proof.
  unfold parse_string. split.
  - destruct v as [[| | |s0| |]|]; try discriminate.
    destruct (String.length s0 <? minimum)%nat eqn:Hmin; [discriminate|].
    apply Nat.ltb_ge in Hmin. destruct maximum as [m|].
    + destruct (m <? String.length s0)%nat eqn:Hmax; [discriminate|].
      apply Nat.ltb_ge in Hmax. intros [= <-]. auto.
    + intros [= <-]. auto.
  - intros (-> & Hmin & Hmax). apply Nat.ltb_ge in Hmin. rewrite Hmin.
    destruct maximum as [m|]; [|reflexivity].
    apply Nat.ltb_ge in Hmax. rewrite Hmax. reflexivity.
Qed.

Lemma parse_label_elements_spec path i items ls :
  parse_elements (parse_string 2 (Some 20)) path i items = Valid ls <->
  items = map JString ls /\ Forall label_conforms ls.
Proof.
  revert i ls. induction items as [|item rest IH]; intros i ls; cbn [parse_elements].
  - split.
    + intros [= <-]. split; [reflexivity|constructor].
    + intros [Hitems _]. destruct ls; [reflexivity|discriminate].
  - destruct (parse_string 2 (Some 20) (path ++ [Index i]) (Some item)) as [x|ex] eqn:Hx.
    + apply parse_string_spec in Hx. destruct Hx as ([= ->] & Hmin & Hmax).
      destruct (parse_elements _ path (S i) rest) as [xs|exs] eqn:Hxs.
      * apply IH in Hxs. destruct Hxs as [-> Hall]. split.
        -- intros [= <-]. split; [reflexivity|]. constructor; [split; assumption|exact Hall].
        -- intros [Hitems _]. destruct ls as [|l ls]; [discriminate|].
           cbn in Hitems. injection Hitems as -> Hrest.
           apply (f_equal (map (fun v => match v with JString t => t | _ => "" end))) in Hrest.
           rewrite !map_map, !map_id in Hrest. subst. reflexivity.
      * split; [discriminate|]. intros [Hitems Hall]. exfalso.
        destruct ls as [|l ls]; [discriminate|]. cbn in Hitems. injection Hitems as _ ->.
        inversion Hall; subst.
        assert (Hok : parse_elements (parse_string 2 (Some 20)) path (S i) (map JString ls)
                      = Valid ls) by (apply IH; auto).
        congruence.
    + split; [destruct (parse_elements _ path (S i) rest); discriminate|].
      intros [Hitems Hall]. exfalso.
      destruct ls as [|l ls]; [discriminate|]. cbn in Hitems. injection Hitems as -> _.
      inversion Hall as [|? ? [Hmin Hmax] _]; subst.
      assert (Hok : parse_string 2 (Some 20) (path ++ [Index i]) (Some (JString l)) = Valid l)
        by (apply parse_string_spec; auto).
      congruence.
Qed.

Lemma parse_labels_spec path v ls :
  parse_labels path v = Valid ls <->
  (v = Some (JArray (map JString ls)) \/ v = None /\ ls = []) /\ Forall label_conforms ls.
Proof.
  unfold parse_labels, parse_array. split.
  - destruct v as [[| | | |items|]|]; try discriminate.
    + intros H. apply parse_label_elements_spec in H. destruct H as [-> Hall]. auto.
    + intros [= <-]. split; [auto|constructor].
  - intros [[->|[-> ->]] Hall]; [|reflexivity].
    apply parse_label_elements_spec. auto.
Qed.

Lemma parse_issue_spec path v issue :
  parse_issue path v = Valid issue <->
  exists item, v = Some item /\ carries item issue /\ conforms issue.
Proof.
  unfold parse_issue, carries, conforms. split.
  - destruct v as [[| | | | |members]|]; try discriminate.
    destruct (parse_string 10 None _ _) as [t|] eqn:Ht;
      [|destruct (parse_string 100 None _ _), (parse_labels _ _); discriminate].
    destruct (parse_string 100 None _ _) as [b|] eqn:Hb;
      [|destruct (parse_labels _ _); discriminate].
    destruct (parse_labels _ _) as [l|] eqn:Hl; [|discriminate].
    cbv beta iota. intros [= <-]. cbn [title body labels].
    apply parse_string_spec in Ht, Hb. apply parse_labels_spec in Hl.
    destruct Ht as (Ht & Htmin & _), Hb as (Hb & Hbmin & _), Hl as (Hl & Hall).
    exists (JObject members). split; [reflexivity|]. split; [|auto].
    exists members. auto.
  - intros (item & -> & (members & -> & Ht & Hb & Hl) & Htmin & Hbmin & Hall).
    assert (Ht' : parse_string 10 None (path ++ [Key "title"]) (lookup "title" members)
                  = Valid (title issue)) by (apply parse_string_spec; auto).
    assert (Hb' : parse_string 100 None (path ++ [Key "body"]) (lookup "body" members)
                  = Valid (body issue)) by (apply parse_string_spec; auto).
    assert (Hl' : parse_labels (path ++ [Key "labels"]) (lookup "labels" members)
                  = Valid (labels issue)) by (apply parse_labels_spec; auto).
    rewrite Ht', Hb', Hl'. destruct issue; reflexivity.
Qed.

Lemma parse_issue_elements_spec path i items data :
  parse_elements parse_issue path i items = Valid data <->
  Forall2 (fun item issue => carries item issue /\ conforms issue) items data.
Proof.
  revert i data. induction items as [|item rest IH]; intros i data; cbn [parse_elements].
  - split.
    + intros [= <-]. constructor.
    + intros H. inversion H. reflexivity.
  - destruct (parse_issue (path ++ [Index i]) (Some item)) as [x|ex] eqn:Hx.
    + pose proof Hx as Hx'. apply parse_issue_spec in Hx'.
      destruct Hx' as (item' & [= <-] & Hcarries & Hconforms).
      destruct (parse_elements _ path (S i) rest) as [xs|exs] eqn:Hxs.
      * split.
        -- intros [= <-]. apply IH in Hxs. constructor; auto.
        -- intros H. inversion H as [|? y ? ys [Hc Hf] Hrest]; subst.
           assert (Hy : parse_issue (path ++ [Index i]) (Some item) = Valid y)
             by (apply parse_issue_spec; eauto).
           assert (Hys : parse_elements parse_issue path (S i) rest = Valid ys)
             by (apply IH; exact Hrest).
           congruence.
      * split; [discriminate|]. intros H. exfalso.
        inversion H as [|? y ? ys _ Hrest]; subst.
        assert (Hys : parse_elements parse_issue path (S i) rest = Valid ys)
          by (apply IH; exact Hrest).
        congruence.
    + split; [destruct (parse_elements _ path (S i) rest); discriminate|].
      intros H. exfalso. inversion H as [|? y ? ys [Hc Hf] _]; subst.
      assert (Hy : parse_issue (path ++ [Index i]) (Some item) = Valid y)
        by (apply parse_issue_spec; eauto).
      congruence.
Qed.

(** X1. What the validator returns was in the completion, and conforms: the
    completion parses to an object whose [issues] key holds an array, the
    array has one candidate per returned issue, in order, each candidate
    carries the title, the body and the labels of its issue, and every issue
    is within the bounds of the schema. Nothing is returned that the
    completion did not hold, and nothing that is out of bounds. *)
Theorem validateAIResponse_returns_conforming_issues :
  forall (content : string) (data : list Issue),
    validateAIResponse content = Return data ->
    exists (members : list (string * json)) (items : list json),
      JSON_parse content = Return (JObject members) /\
      lookup "issues" members = Some (JArray items) /\
      Forall2 (fun item issue => carries item issue /\ conforms issue) items data.
Proof.
  intros content data Hrun. unfold validateAIResponse in Hrun.
  destruct (JSON_parse content) as [rawData|]; [|discriminate].
  destruct (get_property rawData "issues") as [issues|] eqn:Hget; [|discriminate].
  destruct (IssueSchema_safeParse issues) as [data0|] eqn:Hsafe; [|discriminate].
  injection Hrun as ->.
  unfold IssueSchema_safeParse, parse_array in Hsafe.
  destruct issues as [[| | | |items|]|]; try discriminate.
  apply parse_issue_elements_spec in Hsafe.
  destruct rawData as [| | | | |members]; try discriminate.
  cbn in Hget. injection Hget as Hget.
  exists members, items. auto.
Qed.

(** X2. The validator accepts every completion that conforms: if the
    completion parses to an object whose [issues] array holds, in order, one
    candidate for each issue of [data], and every issue is within the bounds
    of the schema, the validator returns [data]. Keys that the schema does
    not name are dropped without complaint, and absent labels are the empty
    list. *)
Theorem validateAIResponse_accepts_conforming_issues :
  forall (content : string) (members : list (string * json)) (items : list json)
         (data : list Issue),
    JSON_parse content = Return (JObject members) ->
    lookup "issues" members = Some (JArray items) ->
    Forall2 (fun item issue => carries item issue /\ conforms issue) items data ->
    validateAIResponse content = Return data.
Proof.
  intros content members items data Hparse Hissues Hall.
  unfold validateAIResponse. rewrite Hparse. cbn [get_property]. rewrite Hissues.
  unfold IssueSchema_safeParse, parse_array.
  apply (parse_issue_elements_spec [] 0) in Hall. rewrite Hall. reflexivity.
Qed.

(** ** What the validator refuses, and how *)

(** The parsed completion has no [issues]: it is a primitive or an array, or
    an object without that key. *)
Definition lacks_issues (rawData : json) : Prop :=
  match rawData with
  | JNull => False
  | JObject members => lookup "issues" members = None
  | _ => True
  end.

(** X3. Without an array under [issues] the validator always throws. For a
    completion that parses: to [null], the read of [issues] throws a
    [TypeError]; to a primitive, to an array (a bare array of issues
    included) or to an object without the key, the error says
    [Validation failed: : Required]; to an object whose [issues] is no
    array, it says what was expected and what was received. *)
Theorem validateAIResponse_requires_an_array_of_issues :
  forall (content : string) (rawData : json),
    JSON_parse content = Return rawData ->
    (forall items, get_property rawData "issues" <> Return (Some (JArray items))) ->
    exists e,
      validateAIResponse content = Throw e /\
      (rawData = JNull -> name e = "TypeError") /\
      (lacks_issues rawData -> e = new_Error "Validation failed: : Required") /\
      (forall v, get_property rawData "issues" = Return (Some v) ->
                 e = new_Error ("Validation failed: : Expected array, received "
                                ++ parsedType (Some v))).
Proof.
  intros content rawData Hparse Hnone. unfold validateAIResponse. rewrite Hparse.
  destruct (get_property rawData "issues") as [[v|]|e] eqn:Hget.
  - assert (Hrefused : IssueSchema_safeParse (Some v)
                       = Invalid [invalid_type_issue "array" (Some v) []]).
    { destruct v; try reflexivity. exfalso. eapply Hnone. reflexivity. }
    rewrite Hrefused. eexists. split; [reflexivity|]. split; [|split].
    + intros ->. discriminate.
    + intros Hlacks. destruct rawData; cbn in Hget, Hlacks; congruence.
    + intros v' [= <-]. destruct v; reflexivity.
  - eexists. split; [reflexivity|]. split; [|split].
    + intros ->. discriminate.
    + reflexivity.
    + discriminate.
  - eexists. split; [reflexivity|]. split; [|split].
    + intros ->. cbn in Hget. injection Hget as <-. reflexivity.
    + intros Hlacks. destruct rawData; cbn in Hget, Hlacks; try discriminate. contradiction.
    + discriminate.
Qed.

(** The errors of an array are those of its elements, in order. *)
Lemma errors_of_parse_elements {A} (element : list PathSegment -> option json -> Validation A)
  path i item rest :
  errors_of (parse_elements element path i (item :: rest)) =
  errors_of (element (path ++ [Index i]) (Some item))
  ++ errors_of (parse_elements element path (S i) rest).
Proof.
  cbn [parse_elements].
  destruct (element (path ++ [Index i]) (Some item)),
           (parse_elements element path (S i) rest); reflexivity.
Qed.

Lemma In_errors_of_parse_elements {A}
  (element : list PathSegment -> option json -> Validation A) path items :
  forall i e,
    In e (errors_of (parse_elements element path i items)) <->
    exists k item, nth_error items k = Some item /\
                   In e (errors_of (element (path ++ [Index (i + k)]) (Some item))).
Proof.
  induction items as [|item rest IH]; intros i e.
  - cbn. split; [contradiction|]. intros ([|k] & item & Hk & _); discriminate.
  - rewrite errors_of_parse_elements, in_app_iff, IH. split.
    + intros [Hhead|(k & item' & Hk & Hin)].
      * exists 0, item. rewrite Nat.add_0_r. auto.
      * exists (S k), item'. replace (i + S k) with (S i + k) by lia. auto.
    + intros ([|k] & item' & Hk & Hin).
      * cbn in Hk. injection Hk as <-. rewrite Nat.add_0_r in Hin. auto.
      * right. exists k, item'. replace (S i + k) with (i + S k) by lia. auto.
Qed.

(** Every error of a parser points into the value it was given. *)
Definition points_under (path : list PathSegment) (e : ZodIssue) : Prop :=
  exists rest, issue_path e = path ++ rest.

Lemma parse_string_points minimum maximum path v e :
  In e (errors_of (parse_string minimum maximum path v)) -> points_under path e.
Proof.
  unfold parse_string. intros Hin. exists []. rewrite app_nil_r.
  destruct v as [[| | |s| |]|]; try (destruct Hin as [<-|[]]; reflexivity).
  destruct (String.length s <? minimum)%nat, maximum as [m|];
    try destruct (m <? String.length s)%nat; cbn in Hin;
    repeat (destruct Hin as [<-|Hin]; [reflexivity|]); contradiction.
Qed.

Lemma parse_labels_points path v e :
  In e (errors_of (parse_labels path v)) -> points_under path e.
Proof.
  unfold parse_labels, parse_array.
  destruct v as [[| | | |items|]|]; cbn [errors_of];
    try (intros [<-|[]]; exists []; rewrite app_nil_r; reflexivity); [|intros []].
  intros Hin. apply In_errors_of_parse_elements in Hin.
  destruct Hin as (k & item & _ & Hin). apply parse_string_points in Hin.
  destruct Hin as [rest Hrest]. exists (Index (0 + k) :: rest).
  rewrite Hrest, <- app_assoc. reflexivity.
Qed.

Lemma parse_issue_points path v e :
  In e (errors_of (parse_issue path v)) -> points_under path e.
Proof.
  unfold parse_issue.
  destruct v as [[| | | | |members]|]; cbn [errors_of];
    try (intros [<-|[]]; exists []; rewrite app_nil_r; reflexivity).
  intros Hin.
  assert (Hall : In e (errors_of (parse_string 10 None (path ++ [Key "title"])
                                    (lookup "title" members))
                       ++ errors_of (parse_string 100 None (path ++ [Key "body"])
                                       (lookup "body" members))
                       ++ errors_of (parse_labels (path ++ [Key "labels"])
                                       (lookup "labels" members)))).
  { destruct (parse_string 10 None _ _), (parse_string 100 None _ _), (parse_labels _ _);
      cbn [errors_of] in Hin |- *; try exact Hin; contradiction. }
  clear Hin. rewrite !in_app_iff in Hall.
  destruct Hall as [Hin|[Hin|Hin]];
    [apply parse_string_points in Hin|apply parse_string_points in Hin
    |apply parse_labels_points in Hin];
    destruct Hin as [rest Hrest]; eexists; rewrite Hrest, <- app_assoc; reflexivity.
Qed.

Lemma violates_schema_at path item :
  violates_schema item <-> is_valid (parse_issue path (Some item)) = false.
Proof.
  unfold violates_schema. rewrite (parse_issue_path path [] (Some item)). split.
  - intros [errors ->]. reflexivity.
  - destruct (parse_issue [] (Some item)); [discriminate|]. eauto.
Qed.

(** X4. The error of a refused batch names the candidates that violate the
    schema, all of them and no other. When the [issues] array holds a
    violating candidate, the thrown error is built from a list of schema
    issues in which every violating candidate has at least one entry, whose
    path starts with its index, and every entry starts with the index of a
    violating candidate: the validator goes through the whole array and
    blames no candidate that conforms. *)
Theorem validation_errors_name_the_violating_candidates :
  forall (content : string) (members : list (string * json)) (items : list json),
    JSON_parse content = Return (JObject members) ->
    lookup "issues" members = Some (JArray items) ->
    (exists k item, nth_error items k = Some item /\ violates_schema item) ->
    exists errors,
      validateAIResponse content = Throw (validation_error errors) /\
      (forall k item, nth_error items k = Some item -> violates_schema item ->
         exists e, In e errors /\ hd_error (issue_path e) = Some (Index k)) /\
      (forall e, In e errors ->
         exists k item, hd_error (issue_path e) = Some (Index k) /\
                        nth_error items k = Some item /\ violates_schema item).
Proof.
  intros content members items Hparse Hissues (k0 & item0 & Hk0 & Hbad0).
  unfold validateAIResponse. rewrite Hparse. cbn [get_property]. rewrite Hissues.
  unfold IssueSchema_safeParse, parse_array.
  assert (Hin : forall e, In e (errors_of (parse_elements parse_issue [] 0 items)) <->
                  exists k item, nth_error items k = Some item /\
                                 In e (errors_of (parse_issue [Index k] (Some item)))).
  { intros e. apply (In_errors_of_parse_elements parse_issue [] items 0 e). }
  assert (Hinvalid : is_valid (parse_elements parse_issue [] 0 items) = false).
  { apply (parse_elements_refuses parse_issue [] 0 items k0 item0 Hk0).
    apply violates_schema_at, Hbad0. }
  destruct (parse_elements parse_issue [] 0 items) as [data|errors]; [discriminate|].
  cbn [errors_of] in Hin. exists errors. split; [reflexivity|]. split.
  - intros k item Hk Hbad. apply (violates_schema_at [Index k]) in Hbad.
    destruct (parse_issue [Index k] (Some item)) as [x|errs] eqn:Hitem; [discriminate|].
    destruct errs as [|e errs]; [exfalso; eapply parse_issue_errors; eauto|].
    exists e. split.
    + apply Hin. exists k, item. rewrite Hitem. cbn. auto.
    + destruct (parse_issue_points [Index k] (Some item) e) as [rest Hrest];
        [rewrite Hitem; cbn; auto|].
      rewrite Hrest. reflexivity.
  - intros e He. apply Hin in He. destruct He as (k & item & Hk & He).
    exists k, item. split; [|split; [exact Hk|]].
    + destruct (parse_issue_points [Index k] (Some item) e He) as [rest Hrest].
      rewrite Hrest. reflexivity.
    + apply (violates_schema_at [Index k]).
      destruct (parse_issue [Index k] (Some item)); [contradiction|reflexivity].
Qed.

(** ** What the computations leave alone *)

(** The tracker is as it was. *)
Definition same_tracker : Guarantee World.
Proof.
  refine {| holds := fun w w' =>
              tracker_calls w' = tracker_calls w /\ tracker_issues w' = tracker_issues w |}.
  - intros w. split; reflexivity.
  - intros w1 w2 w3 [H1 H2] [H3 H4]. split; congruence.
Defined.

(** No request has been made to the completion service. *)
Definition same_llm_calls : Guarantee World.
Proof.
  refine {| holds := fun w w' => llm_calls w' = llm_calls w |}.
  - intros w. reflexivity.
  - intros w1 w2 w3 H1 H2. congruence.
Defined.

(** Nothing has been said on the chat. *)
Definition same_chat_log : Guarantee World.
Proof.
  refine {| holds := fun w w' => chat_log w' = chat_log w |}.
  - intros w. reflexivity.
  - intros w1 w2 w3 H1 H2. congruence.
Defined.

(** The services answer as they did, and the environment is the same: no
    computation changes how the outside behaves. *)
Definition same_services : Guarantee World.
Proof.
  refine {| holds := fun w w' =>
              chat_answer w' = chat_answer w /\ tracker_answer w' = tracker_answer w /\
              http w' = http w /\ llm_answer w' = llm_answer w /\
              GITHUB_REPO_OWNER w' = GITHUB_REPO_OWNER w /\
              GITHUB_REPO_NAME w' = GITHUB_REPO_NAME w |}.
  - intros w. repeat split; reflexivity.
  - intros w1 w2 w3 (H1 & H2 & H3 & H4 & H5 & H6) (H1' & H2' & H3' & H4' & H5' & H6').
    repeat split; congruence.
Defined.

(** The logs only grow: what was requested stays on record. *)
Definition logs_grow : Guarantee World.
Proof.
  refine {| holds := fun w w' =>
              (exists ops, chat_log w' = chat_log w ++ ops) /\
              (exists calls, tracker_calls w' = tracker_calls w ++ calls) /\
              (exists issues, tracker_issues w' = tracker_issues w ++ issues) /\
              (exists calls, llm_calls w' = llm_calls w ++ calls) |}.
  - intros w. repeat split; exists []; rewrite app_nil_r; reflexivity.
  - intros w1 w2 w3 ([a Ha] & [b Hb] & [c Hc] & [d Hd]) ([a' Ha'] & [b' Hb'] & [c' Hc'] & [d' Hd']).
    repeat split; eexists; rewrite ?Ha', ?Hb', ?Hc', ?Hd', ?Ha, ?Hb, ?Hc, ?Hd, <- app_assoc;
      reflexivity.
Defined.

(** *** The primitive effects *)

Lemma chat_same_tracker op : respects same_tracker (chat op).
Proof. intros w. unfold chat. destruct (chat_answer w _); split; reflexivity. Qed.

Lemma chat_same_llm_calls op : respects same_llm_calls (chat op).
Proof. intros w. unfold chat. destruct (chat_answer w _); reflexivity. Qed.

Lemma chat_same_services op : respects same_services (chat op).
Proof. intros w. unfold chat. destruct (chat_answer w _); repeat split; reflexivity. Qed.

Lemma chat_logs_grow op : respects logs_grow (chat op).
Proof.
  intros w. unfold chat.
  destruct (chat_answer w _); (split; [exists [op]; reflexivity|]);
    repeat split; exists []; rewrite app_nil_r; reflexivity.
Qed.

Lemma octokit_issues_create_same_llm_calls req :
  respects same_llm_calls (octokit_issues_create req).
Proof. intros w. unfold octokit_issues_create. destruct (tracker_answer w _ _); reflexivity. Qed.

Lemma octokit_issues_create_same_chat_log req :
  respects same_chat_log (octokit_issues_create req).
Proof. intros w. unfold octokit_issues_create. destruct (tracker_answer w _ _); reflexivity. Qed.

Lemma octokit_issues_create_same_services req :
  respects same_services (octokit_issues_create req).
Proof.
  intros w. unfold octokit_issues_create.
  destruct (tracker_answer w _ _); repeat split; reflexivity.
Qed.

Lemma octokit_issues_create_logs_grow req : respects logs_grow (octokit_issues_create req).
Proof.
  intros w. unfold octokit_issues_create.
  destruct (tracker_answer w _ _) as [data|e]; cbn.
  - split; [exists []; rewrite app_nil_r; reflexivity|].
    split; [exists [req]; reflexivity|].
    split; [exists [(req, data)]; reflexivity|].
    exists []; rewrite app_nil_r; reflexivity.
  - split; [exists []; rewrite app_nil_r; reflexivity|].
    split; [exists [req]; reflexivity|].
    split; exists []; rewrite app_nil_r; reflexivity.
Qed.

Lemma openai_chat_completions_create_same_tracker messages :
  respects same_tracker (openai_chat_completions_create messages).
Proof. intros w. split; reflexivity. Qed.

Lemma openai_chat_completions_create_same_chat_log messages :
  respects same_chat_log (openai_chat_completions_create messages).
Proof. intros w. reflexivity. Qed.

Lemma openai_chat_completions_create_same_services messages :
  respects same_services (openai_chat_completions_create messages).
Proof. intros w. repeat split; reflexivity. Qed.

Lemma openai_chat_completions_create_logs_grow messages :
  respects logs_grow (openai_chat_completions_create messages).
Proof.
  intros w. cbn.
  split; [exists []; rewrite app_nil_r; reflexivity|].
  split; [exists []; rewrite app_nil_r; reflexivity|].
  split; [exists []; rewrite app_nil_r; reflexivity|].
  exists [messages]; reflexivity.
Qed.

#[local] Hint Resolve chat_same_tracker chat_same_llm_calls chat_same_services chat_logs_grow
  octokit_issues_create_same_llm_calls octokit_issues_create_same_chat_log
  octokit_issues_create_same_services octokit_issues_create_logs_grow
  openai_chat_completions_create_same_tracker openai_chat_completions_create_same_chat_log
  openai_chat_completions_create_same_services openai_chat_completions_create_logs_grow
  : respects.

Lemma respects_fetch (R : Guarantee World) url : respects R (fetch url).
Proof. intros w. apply holds_refl. Qed.

#[local] Hint Resolve respects_fetch : respects.

(** *** The computations that only talk on the chat *)

Section Talk.

Variable R : Guarantee World.
Hypothesis R_chat : forall op, respects R (chat op).

#[local] Hint Resolve R_chat : respects.

Lemma respects_channel_send p : respects R (channel_send p).
Proof. apply R_chat. Qed.

Lemma respects_message_edit target p : respects R (message_edit target p).
Proof. unfold message_edit. respects_tac. Qed.

Lemma respects_thread_setArchived archived : respects R (thread_setArchived archived).
Proof. unfold thread_setArchived. respects_tac. Qed.

#[local] Hint Resolve respects_channel_send respects_message_edit respects_thread_setArchived
  : respects.

Lemma respects_fetchImageAsBase64 url : respects R (fetchImageAsBase64 url).
Proof. unfold fetchImageAsBase64. respects_tac. Qed.

#[local] Hint Resolve respects_fetchImageAsBase64 : respects.

Lemma respects_processImages imgs : respects R (processImages imgs).
Proof. unfold processImages, processImage. respects_tac. Qed.

Lemma respects_consume_stream chunks buffer statusMessage :
  respects R (consume_stream chunks buffer statusMessage).
Proof.
  revert buffer. induction chunks as [|chunk rest IH]; intros buffer; cbn [consume_stream];
    unfold updateStatusMessage; respects_tac.
Qed.

#[local] Hint Resolve respects_consume_stream : respects.

Lemma respects_handleAIStream stream : respects R (handleAIStream stream).
Proof. unfold handleAIStream. respects_tac. Qed.

End Talk.

#[local] Hint Resolve respects_channel_send respects_message_edit respects_thread_setArchived
  respects_processImages respects_handleAIStream : respects.

(** *** Generation: the chat and the completion service *)

Lemma respects_generateIssueContent (R : Guarantee World) (a : Assets) :
  (forall op, respects R (chat op)) ->
  (forall messages, respects R (openai_chat_completions_create messages)) ->
  respects R (generateIssueContent a).
Proof. intros R_chat R_llm. unfold generateIssueContent. respects_tac. Qed.

(** *** Committing: the tracker *)

Lemma respects_createIssues_from (R : Guarantee World) issues (a : Assets) acc :
  (forall req, respects R (octokit_issues_create req)) ->
  respects R (createIssues_from issues a acc).
Proof.
  intros R_tracker. revert acc.
  induction issues as [|issue rest IH]; intros acc; cbn [createIssues_from]; respects_tac.
  intros w. apply R_tracker.
Qed.

Lemma respects_createIssues (R : Guarantee World) issues (a : Assets) :
  (forall req, respects R (octokit_issues_create req)) ->
  respects R (createIssues issues a).
Proof. apply respects_createIssues_from. Qed.

#[local] Hint Resolve respects_generateIssueContent respects_createIssues : respects.

(** ** What the listeners leave alone *)

(** Reasons about a computation at the state it runs in. *)
Ltac at_state :=
  lazymatch goal with
  | |- holds ?R ?b (fst (?m ?b)) => refine ((_ : respects R m) b)
  end.

(** *** Of the world *)

Section Handlers.

Variable R : Guarantee World.
Hypothesis R_chat : forall op, respects R (chat op).

#[local] Hint Resolve R_chat : respects.

Lemma of_world_collect_content msg : respects (of_world R) (collect_content msg).
Proof. unfold collect_content, collect_attachment. respects_tac. Qed.

Lemma of_world_buttonCollector_stop : respects (of_world R) buttonCollector_stop.
Proof. unfold buttonCollector_stop, buttonCollector_on_end. respects_tac. Qed.

Lemma of_world_clear_editCollectors keep : respects (of_world R) (clear_editCollectors keep).
Proof. unfold clear_editCollectors. respects_tac. Qed.

Lemma of_world_report_created created : respects (of_world R) (report_created created).
Proof. unfold report_created. respects_tac. Qed.

#[local] Hint Resolve of_world_collect_content of_world_buttonCollector_stop
  of_world_clear_editCollectors of_world_report_created : respects.

(** A press that is no confirmation. *)
Lemma of_world_buttonCollector_on_collect_other pressed :
  pressed <> "confirm_issues" ->
  respects (of_world R) (buttonCollector_on_collect pressed).
Proof.
  intros Hother. apply String.eqb_neq in Hother.
  unfold buttonCollector_on_collect. rewrite Hother. respects_tac.
Qed.

Hypothesis R_llm : forall messages, respects R (openai_chat_completions_create messages).

#[local] Hint Resolve R_llm : respects.

Lemma of_world_editCollector_on_collect m :
  respects (of_world R) (editCollector_on_collect m).
Proof.
  unfold editCollector_on_collect. respects_tac.
Qed.

#[local] Hint Resolve of_world_editCollector_on_collect : respects.

Lemma of_world_editCollectors_collect n m :
  respects (of_world R) (editCollectors_collect n m).
Proof. induction n as [|n IH]; cbn [editCollectors_collect]; respects_tac. Qed.

#[local] Hint Resolve of_world_editCollectors_collect : respects.

(** The review side of the dispatcher, for a message. *)
Lemma of_world_review_message (s : Session) (m : Message) :
  respects (of_world R)
    (match review s with
     | Some r =>
         if editCollector_filter s m
         then clear_editCollectors 0 ;;; editCollectors_collect (editCollectors r) m
         else ret tt
     | None => ret tt
     end).
Proof. respects_tac. Qed.

(** The end of the collection window in preview mode. *)
Lemma of_world_collector_on_end_preview (b : Bot) :
  wantsPreview (fst b) = true -> of_world R b (fst (collector_on_end b)).
Proof.
  intros Hpreview. destruct b as [s w]. cbn [fst] in Hpreview.
  unfold collector_on_end. unfold bind at 1, get_session. cbv beta iota. cbn [fst].
  rewrite Hpreview. cbn [negb]. at_state. respects_tac.
Qed.

Lemma of_world_collector_stop_preview (b : Bot) :
  wantsPreview (fst b) = true -> of_world R b (fst (collector_stop b)).
Proof.
  intros Hpreview. destruct b as [s w]. cbn [fst] in Hpreview. unfold collector_stop.
  cbv beta iota zeta delta [bind get_session modify_session detached ret fst snd].
  destruct (collector_ended s); [apply (holds_refl (of_world R))|].
  apply (of_world_collector_on_end_preview (with_collector_ended s true, w)). exact Hpreview.
Qed.

Lemma of_world_collector_on_collect_preview (msg : Message) (b : Bot) :
  wantsPreview (fst b) = true -> of_world R b (fst (collector_on_collect msg b)).
Proof.
  intros Hpreview. unfold collector_on_collect. fold (collect_content msg).
  destruct (user_bot (author msg)); [apply (holds_refl (of_world R))|].
  destruct (String.eqb (toLowerCase (msg_content msg)) "!done").
  - apply of_world_collector_stop_preview, Hpreview.
  - apply of_world_collect_content.
Qed.

Hypothesis R_tracker : forall req, respects R (octokit_issues_create req).

#[local] Hint Resolve R_tracker : respects.

Lemma of_world_buttonCollector_on_collect pressed :
  respects (of_world R) (buttonCollector_on_collect pressed).
Proof. unfold buttonCollector_on_collect. respects_tac. Qed.

Lemma of_world_collector_on_end : respects (of_world R) collector_on_end.
Proof. unfold collector_on_end. respects_tac. Qed.

#[local] Hint Resolve of_world_buttonCollector_on_collect of_world_collector_on_end : respects.

Lemma of_world_collector_stop : respects (of_world R) collector_stop.
Proof. unfold collector_stop. respects_tac. Qed.

#[local] Hint Resolve of_world_collector_stop : respects.

Lemma of_world_collector_on_collect msg : respects (of_world R) (collector_on_collect msg).
Proof.
  unfold collector_on_collect. fold (collect_content msg). respects_tac.
Qed.

#[local] Hint Resolve of_world_collector_on_collect : respects.

Lemma of_world_dispatch ev : respects (of_world R) (dispatch ev).
Proof. unfold dispatch. respects_tac. Qed.

End Handlers.

#[local] Hint Resolve of_world_collect_content of_world_buttonCollector_stop
  of_world_clear_editCollectors of_world_report_created of_world_editCollector_on_collect
  of_world_editCollectors_collect of_world_review_message : respects.

(** *** Of the session *)

(** The embeds that the listeners build are data, as in Part I: the theorems
    below speak of the bundle, of the collectors and of the calls to the
    services, none of them of what a builder would refuse. *)

(** Unfolds the listeners down to their effects. *)
Ltac unfold_listeners :=
  unfold dispatch, collector_on_collect, collector_stop, collector_on_end, collect_content,
    collect_attachment, buttonCollector_on_collect, buttonCollector_stop,
    buttonCollector_on_end, editCollector_on_collect, clear_editCollectors, report_created,
    push_image, push_text, set_generatedIssues, modify_review.

(** What every listener guarantees of the bundle and of the setup of the
    session: who invoked it, in which mode and where never changes, and the
    text fragments and the image references are only ever appended to. *)
Definition bundle_grows : Guarantee Session.
Proof.
  refine {| holds := fun s s' =>
              invoker s' = invoker s /\ wantsPreview s' = wantsPreview s /\
              isDM s' = isDM s /\
              (exists t, text (assets s') = text (assets s) ++ t) /\
              (exists i, images (assets s') = images (assets s) ++ i) |}.
  - intros s. repeat split; exists []; rewrite app_nil_r; reflexivity.
  - intros s1 s2 s3 (H1 & H2 & H3 & [t Ht] & [i Hi]) (H1' & H2' & H3' & [t' Ht'] & [i' Hi']).
    split; [congruence|]. split; [congruence|]. split; [congruence|].
    split; eexists; rewrite ?Ht', ?Hi', ?Ht, ?Hi, <- app_assoc; reflexivity.
Defined.

Lemma bundle_grows_update (f : Session -> Session) :
  (forall s, invoker (f s) = invoker s) ->
  (forall s, wantsPreview (f s) = wantsPreview s) ->
  (forall s, isDM (f s) = isDM s) ->
  (forall s, exists t, text (assets (f s)) = text (assets s) ++ t) ->
  (forall s, exists i, images (assets (f s)) = images (assets s) ++ i) ->
  respects (of_session bundle_grows) (modify_session f).
Proof.
  intros H1 H2 H3 H4 H5. apply respects_modify_session_of_session.
  intros s. repeat split; auto.
Qed.

Ltac bundle_update :=
  apply bundle_grows_update; intros ?; cbn;
  first [ reflexivity
        | exists []; rewrite app_nil_r; reflexivity
        | eexists; reflexivity ].

#[local] Hint Extern 1 (respects (of_session bundle_grows) (modify_session _)) =>
  bundle_update : respects.

Lemma bundle_grows_editCollectors_collect n m :
  respects (of_session bundle_grows) (editCollectors_collect n m).
Proof.
  induction n as [|n IH]; cbn [editCollectors_collect]; [apply respects_ret|].
  unfold_listeners. respects_tac.
Qed.

#[local] Hint Resolve bundle_grows_editCollectors_collect : respects.

Lemma bundle_grows_dispatch ev : respects (of_session bundle_grows) (dispatch ev).
Proof. unfold_listeners. respects_tac. Qed.

Lemma run_respects (R : Guarantee Bot) (evs : list Event) :
  (forall ev, respects R (dispatch ev)) -> forall b, R b (run b evs).
Proof.
  intros Hstep. induction evs as [|ev evs IH]; intros b; [apply holds_refl|].
  unfold run in *. cbn [fold_left]. eapply holds_trans; [apply (Hstep ev b)|apply IH].
Qed.

(** X5. Whatever happens in a session, nothing that was collected is lost or
    reordered: after any sequence of events the text fragments of the bundle
    are those of before followed by new ones, and so are the image
    references. *)
Theorem bundle_is_only_appended_to :
  forall (b : Bot) (evs : list Event),
    (exists new_text, text (assets (fst (run b evs))) = text (assets (fst b)) ++ new_text) /\
    (exists new_images,
        images (assets (fst (run b evs))) = images (assets (fst b)) ++ new_images).
Proof.
  intros b evs.
  destruct (run_respects (of_session bundle_grows) evs bundle_grows_dispatch b)
    as (_ & _ & _ & Htext & Himages).
  split; assumption.
Qed.

(** *** The end of the collection window *)

(** The session is as it was but for the slot of the generated issues and
    for the review. *)
Definition same_bundle : Guarantee Session.
Proof.
  refine {| holds := fun s s' =>
              text (assets s') = text (assets s) /\ images (assets s') = images (assets s) |}.
  - intros s. split; reflexivity.
  - intros s1 s2 s3 [H1 H2] [H3 H4]. split; congruence.
Defined.

(** The session is as it was. *)
Definition same_session : Guarantee Session.
Proof.
  refine {| holds := fun s s' => s' = s |}.
  - intros s. reflexivity.
  - intros s1 s2 s3 H1 H2. congruence.
Defined.

Lemma same_bundle_collector_stop : respects (of_session same_bundle) collector_stop.
Proof.
  unfold_listeners. respects_tac;
    apply respects_modify_session_of_session; intros ?; split; reflexivity.
Qed.

(** The events that end the collection window of a session: its timer, and a
    message that says [!done], in whatever letter case, written by anyone who
    is no bot. *)
Definition says_done (msg : Message) : Prop :=
  user_bot (author msg) = false /\ toLowerCase (msg_content msg) = "!done".

Definition ends_collection (ev : Event) : Prop :=
  ev = CollectionWindowExpired \/ exists msg, ev = MessageCreate msg /\ says_done msg.

Lemma step_ends_collection (b : Bot) (ev : Event) :
  OPEN (fst b) -> ends_collection ev -> step b ev = fst (collector_stop b).
Proof.
  intros [Hopen Hrev] Hev. destruct b as [s w]. cbn [fst] in Hopen, Hrev.
  destruct Hev as [->|(msg & -> & Hbot & Hdone)].
  - reflexivity.
  - unfold step, dispatch. unfold bind at 1, get_session. cbv beta iota. cbn [fst].
    rewrite Hopen, Hrev. unfold collector_filter, collector_on_collect.
    rewrite Hbot, Hdone. cbn [negb andb String.eqb Ascii.eqb Bool.eqb].
    unfold bind, detached, ret. destruct (collector_stop (s, w)). reflexivity.
Qed.

Lemma collector_stop_OPEN (s : Session) (w : World) :
  collector_ended s = false ->
  fst (collector_stop (s, w)) = fst (collector_on_end (with_collector_ended s true, w)).
Proof.
  intros Hopen. unfold collector_stop.
  cbv beta iota zeta delta [bind get_session modify_session detached ret fst snd].
  rewrite Hopen. reflexivity.
Qed.

(** Once the collection window has ended without leaving a review, no
    collector is left: no event has any effect. *)
Lemma inert_step (b : Bot) (ev : Event) :
  collector_ended (fst b) = true -> review (fst b) = None -> step b ev = b.
Proof.
  intros Hended Hrev. destruct b as [s w]. cbn [fst] in Hended, Hrev.
  unfold step, dispatch. unfold bind at 1, get_session. cbv beta iota. cbn [fst].
  destruct ev as [m|user pressed| | |]; rewrite ?Hrev.
  - rewrite Hended. reflexivity.
  - reflexivity.
  - unfold collector_stop, bind, get_session. cbn [fst]. rewrite Hended. reflexivity.
  - unfold buttonCollector_stop, bind, get_session. cbn [fst]. rewrite Hrev. reflexivity.
  - reflexivity.
Qed.

Lemma inert_run (b : Bot) (evs : list Event) :
  collector_ended (fst b) = true -> review (fst b) = None -> run b evs = b.
Proof.
  intros Hended Hrev. induction evs as [|ev evs IH]; [reflexivity|].
  unfold run in *. cbn [fold_left]. rewrite (inert_step b ev Hended Hrev). exact IH.
Qed.

(** X6. [!done] ends the collection in whatever letter case it is written,
    and nothing of the message that says it is collected: whatever the bot
    does at the end of the window, the text fragments and the image
    references of the bundle are those of before, the attachments of the
    [!done] message are not among them. *)
Theorem done_ends_the_collection_in_any_case :
  forall (b : Bot) (msg : Message),
    OPEN (fst b) ->
    user_bot (author msg) = false ->
    toLowerCase (msg_content msg) = "!done" ->
    collector_ended (fst (step b (MessageCreate msg))) = true /\
    text (assets (fst (step b (MessageCreate msg)))) = text (assets (fst b)) /\
    images (assets (fst (step b (MessageCreate msg)))) = images (assets (fst b)).
Proof.
  intros b msg Hopen Hbot Hdone.
  rewrite (step_ends_collection b (MessageCreate msg) Hopen)
    by (right; exists msg; repeat split; assumption).
  split; [apply collector_stop_ends|]. apply (same_bundle_collector_stop b).
Qed.

(** Without preview the end of the window leaves no trace in the session but
    that the window has ended. *)
Lemma direct_end_session (s : Session) (w : World) (ev : Event) :
  OPEN s -> wantsPreview s = false -> ends_collection ev ->
  fst (step (s, w) ev) = with_collector_ended s true.
Proof.
  intros Hopen Hdirect Hev.
  rewrite (step_ends_collection (s, w) ev Hopen Hev).
  rewrite (collector_stop_OPEN s w (proj1 Hopen)).
  unfold collector_on_end. unfold bind at 1, get_session. cbv beta iota. cbn [fst].
  change (wantsPreview (with_collector_ended s true)) with (wantsPreview s).
  rewrite Hdirect. cbn [negb].
  match goal with
  | |- fst (fst (?m ?b)) = _ => refine ((_ : respects (of_session same_session) m) b)
  end.
  respects_tac.
Qed.

(** X7. A session without preview ends with its collection window. When the
    window ends, by its timer or by [!done], the bot generates and commits;
    the session itself records nothing but that the window has ended, and
    whatever comes later (more messages, a second [!done], presses, timers)
    is ignored: the state after any later events is the state after the end
    of the window. *)
Theorem session_without_preview_ends_with_its_collection :
  forall (s : Session) (w : World) (ev : Event) (later : list Event),
    OPEN s ->
    wantsPreview s = false ->
    ends_collection ev ->
    fst (step (s, w) ev) = with_collector_ended s true /\
    run (s, w) (ev :: later) = step (s, w) ev.
Proof.
  intros s w ev later Hopen Hdirect Hev.
  pose proof (direct_end_session s w ev Hopen Hdirect Hev) as Hsession.
  split; [exact Hsession|].
  unfold run. cbn [fold_left]. apply inert_run; rewrite Hsession; [reflexivity|].
  apply (proj2 Hopen).
Qed.

(** X8. A generation that fails ends the session, silently. If
    [generateIssueContent] throws when the collection window ends, in either
    mode, nothing is created in the tracker and no review is opened; the
    world is left as the generation left it (the listener that threw is
    [async]: nobody is told by the session), the session records only that
    the window has ended, and no later event has any effect. *)
Theorem failed_generation_ends_the_session :
  forall (s : Session) (w w1 : World) (e : JsError) (ev : Event) (later : list Event),
    OPEN s ->
    ends_collection ev ->
    generateIssueContent (assets s) w = (w1, Throw e) ->
    run (s, w) (ev :: later) = (with_collector_ended s true, w1) /\
    tracker_calls w1 = tracker_calls w /\
    tracker_issues w1 = tracker_issues w.
Proof.
  intros s w w1 e ev later Hopen Hev Hgen.
  assert (Hstep : step (s, w) ev = (with_collector_ended s true, w1)).
  { rewrite (step_ends_collection (s, w) ev Hopen Hev).
    rewrite (collector_stop_OPEN s w (proj1 Hopen)).
    unfold collector_on_end. unfold bind at 1, get_session. cbv beta iota. cbn [fst].
    unfold bind, lift. cbn [fst snd assets with_collector_ended].
    rewrite Hgen. reflexivity. }
  split.
  - unfold run. cbn [fold_left]. rewrite Hstep. apply inert_run; [reflexivity|].
    apply (proj2 Hopen).
  - pose proof (respects_generateIssueContent same_tracker (assets s)
                  chat_same_tracker openai_chat_completions_create_same_tracker w) as H.
    rewrite Hgen in H. exact H.
Qed.

(** *** Collecting *)

(** A chat that accepts every request. *)
Definition accepting (w : World) : Prop := forall n, chat_answer w n = None.

Lemma chat_accepting (op : ChatOp) (w : World) :
  accepting w ->
  chat op w = (with_chat_log w (chat_log w ++ [op]), Return (List.length (chat_log w))).
Proof. intros Hchat. unfold chat. rewrite Hchat. reflexivity. Qed.

Lemma accepting_with_chat_log (w : World) (log : list ChatOp) :
  accepting w -> accepting (with_chat_log w log).
Proof. intros Hchat n. apply Hchat. Qed.

(** The acknowledgements of the collection window. *)
Definition added_image (a : Attachment) : ChatOp :=
  ChannelSend (plain ("✅ Added image: " ++ att_name a)).

Definition added_text (t : string) : ChatOp :=
  ChannelSend (plain ("✅ Added text: " ++ LF ++ t)).

Definition failed_attachment (a : Attachment) : ChatOp :=
  ChannelSend (plain ("❌ Failed to process attachment: " ++ att_name a)).

Lemma for_of_collect_attachment (atts : list Attachment) :
  forall (s : Session) (w : World),
    accepting w ->
    exists s' w',
      for_of atts collect_attachment (s, w) = ((s', w'), Return tt) /\
      images (assets s') = images (assets s) ++ map att_url atts /\
      text (assets s') = text (assets s) /\
      chat_log w' = chat_log w ++ map added_image atts /\
      accepting w'.
Proof.
  induction atts as [|a rest IH]; intros s w Hchat.
  - exists s, w. cbn. rewrite !app_nil_r. auto.
  - cbn [for_of]. unfold bind at 1. unfold collect_attachment at 1.
    unfold try_catch, push_image, channel_send. comp_simpl.
    rewrite (chat_accepting _ w Hchat). cbv beta iota.
    match goal with
    | |- exists s' w', for_of rest collect_attachment (?s1, ?w1) = _ /\ _ =>
        destruct (IH s1 w1) as (s' & w' & Hrun & Himages & Htext & Hlog & Hchat');
        [apply accepting_with_chat_log, Hchat|]
    end.
    exists s', w'. split; [exact Hrun|]. cbn in Himages, Htext, Hlog.
    rewrite Himages, Htext, Hlog, <- !app_assoc. auto.
Qed.

(** X9. What the collection window collects. While the window is open and
    the chat accepts the acknowledgements, a message of anyone who is no bot,
    other than [!done], adds the URL of each of its attachments to the image
    references, in order, then its text (unless empty) to the text fragments;
    each addition is acknowledged on the chat, in the same order; the window
    stays open, and neither the completion service nor the tracker is
    called. *)
Theorem open_window_collects_attachments_then_text :
  forall (b : Bot) (msg : Message),
    OPEN (fst b) ->
    accepting (snd b) ->
    user_bot (author msg) = false ->
    toLowerCase (msg_content msg) <> "!done" ->
    let b' := step b (MessageCreate msg) in
    let new_text := if String.eqb (msg_content msg) "" then [] else [msg_content msg] in
    OPEN (fst b') /\
    images (assets (fst b')) = images (assets (fst b)) ++ map att_url (attachments msg) /\
    text (assets (fst b')) = text (assets (fst b)) ++ new_text /\
    chat_log (snd b') =
      chat_log (snd b) ++ map added_image (attachments msg) ++ map added_text new_text /\
    llm_calls (snd b') = llm_calls (snd b) /\
    tracker_calls (snd b') = tracker_calls (snd b).
Proof.
  intros [s w] msg [Hopen Hrev] Hchat Hbot Hdone. cbn [fst snd] in *.
  apply String.eqb_neq in Hdone.
  assert (Hstep : step (s, w) (MessageCreate msg) = fst (collect_content msg (s, w))).
  { unfold step, dispatch. unfold bind at 1, get_session. cbv beta iota. cbn [fst].
    rewrite Hopen, Hrev. unfold collector_filter. rewrite Hbot. cbn [negb andb].
    rewrite (collector_on_collect_content msg Hbot Hdone).
    unfold bind, detached, ret. destruct (collect_content msg (s, w)). reflexivity. }
  cbv zeta. rewrite Hstep.
  split; [|split; [|split; [|split; [|split]]]].
  - destruct (quiet_collect_content msg (s, w)) as [Hended Hnone]. cbn in Hended, Hnone.
    split; [congruence|auto].
  - unfold collect_content. unfold bind at 1.
    destruct (for_of_collect_attachment (attachments msg) s w Hchat)
      as (s1 & w1 & Hrun & Himages & Htext & Hlog & Hchat1).
    assert (Hloop : (if (0 <? List.length (attachments msg))%nat
                     then for_of (attachments msg) collect_attachment else ret tt) (s, w)
                    = ((s1, w1), Return tt)).
    { destruct (attachments msg); [|exact Hrun]. exact Hrun. }
    rewrite Hloop. rewrite <- Himages.
    destruct (String.eqb (msg_content msg) ""); cbn [negb]; [reflexivity|].
    unfold push_text, channel_send. comp_simpl. destruct (chat _ w1) as [w2 [n|e]]; reflexivity.
  - unfold collect_content. unfold bind at 1.
    destruct (for_of_collect_attachment (attachments msg) s w Hchat)
      as (s1 & w1 & Hrun & Himages & Htext & Hlog & Hchat1).
    assert (Hloop : (if (0 <? List.length (attachments msg))%nat
                     then for_of (attachments msg) collect_attachment else ret tt) (s, w)
                    = ((s1, w1), Return tt)).
    { destruct (attachments msg); [|exact Hrun]. exact Hrun. }
    rewrite Hloop. rewrite <- Htext.
    destruct (String.eqb (msg_content msg) ""); cbn [negb].
    + cbn. rewrite app_nil_r. reflexivity.
    + unfold push_text, channel_send. comp_simpl. destruct (chat _ w1) as [w2 [n|e]]; reflexivity.
  - unfold collect_content. unfold bind at 1.
    destruct (for_of_collect_attachment (attachments msg) s w Hchat)
      as (s1 & w1 & Hrun & Himages & Htext & Hlog & Hchat1).
    assert (Hloop : (if (0 <? List.length (attachments msg))%nat
                     then for_of (attachments msg) collect_attachment else ret tt) (s, w)
                    = ((s1, w1), Return tt)).
    { destruct (attachments msg); [|exact Hrun]. exact Hrun. }
    rewrite Hloop.
    destruct (String.eqb (msg_content msg) ""); cbn [negb map].
    + cbn. rewrite Hlog, app_nil_r. reflexivity.
    + unfold push_text, channel_send. comp_simpl.
      rewrite (chat_accepting _ w1 Hchat1). cbn. rewrite Hlog, <- app_assoc. reflexivity.
  - apply (of_world_collect_content same_llm_calls chat_same_llm_calls msg (s, w)).
  - apply (of_world_collect_content same_tracker chat_same_tracker msg (s, w)).
Qed.

(** X10. An attachment whose acknowledgement cannot be sent stays in the
    bundle. The loop over the attachments records the URL before it
    acknowledges it; when the chat rejects the acknowledgement, the URL is
    already among the image references, and what the bot sends next is that
    it failed to process the attachment. *)
Theorem unacknowledged_attachment_stays_in_the_bundle :
  forall (s : Session) (w : World) (a : Attachment) (e : JsError),
    chat_answer w (List.length (chat_log w)) = Some e ->
    let b' := fst (collect_attachment a (s, w)) in
    images (assets (fst b')) = images (assets s) ++ [att_url a] /\
    chat_log (snd b') = chat_log w ++ [added_image a; failed_attachment a].
Proof.
  intros s w a e Hrejected. unfold collect_attachment, try_catch, push_image, channel_send.
  comp_simpl. unfold chat. rewrite Hrejected. cbv beta iota zeta.
  cbn [chat_log chat_answer with_chat_log].
  match goal with
  | |- context [chat_answer w ?n] => destruct (chat_answer w n)
  end; cbn; rewrite <- app_assoc; split; reflexivity.
Qed.

(** ** When the tracker is called *)

Lemma bind_at {S A B} (R : Guarantee S) (m : Comp S A) (k : A -> Comp S B) (s : S) :
  R s (fst (m s)) -> (forall a, respects R (k a)) -> R s (fst (bind m k s)).
Proof.
  intros Hm Hk. unfold bind. destruct (m s) as [s' [a|e]]; cbn in *; [|exact Hm].
  eapply holds_trans; [exact Hm|apply Hk].
Qed.

(** A confirmation: a press of the button [confirm_issues] by the invoking
    user. *)
Definition confirmation (s : Session) (ev : Event) : Prop :=
  match ev with
  | ButtonPress user pressed =>
      user_id user = user_id (invoker s) /\ pressed = "confirm_issues"
  | _ => False
  end.

Lemma preview_step_same_tracker (b : Bot) (ev : Event) :
  wantsPreview (fst b) = true ->
  ~ confirmation (fst b) ev ->
  same_tracker (snd b) (snd (step b ev)).
Proof.
  intros Hpreview Hev. destruct b as [s w]. cbn [fst snd] in *.
  change (of_world same_tracker (s, w) (step (s, w) ev)).
  unfold step, dispatch. unfold bind at 1, get_session. cbv beta iota. cbn [fst].
  destruct ev as [m|user pressed| | |].
  - apply bind_at.
    + destruct (negb (collector_ended s) && collector_filter m);
        [|apply (holds_refl (of_world same_tracker))].
      apply (of_world_collector_on_collect_preview same_tracker chat_same_tracker
               openai_chat_completions_create_same_tracker m (s, w) Hpreview).
    + intros _. apply of_world_review_message.
      * apply chat_same_tracker.
      * apply openai_chat_completions_create_same_tracker.
  - destruct (review s) as [r|]; [|apply (holds_refl (of_world same_tracker))].
    unfold buttonCollector_filter.
    destruct (String.eqb (user_id user) (user_id (invoker s))) eqn:Huser;
      [|rewrite andb_false_r; apply (holds_refl (of_world same_tracker))].
    destruct (negb (buttonCollector_ended r));
      [|apply (holds_refl (of_world same_tracker))].
    apply String.eqb_eq in Huser. cbn [andb].
    apply (of_world_buttonCollector_on_collect_other same_tracker chat_same_tracker pressed).
    intros ->. apply Hev. split; [exact Huser|reflexivity].
  - apply (of_world_collector_stop_preview same_tracker chat_same_tracker
             openai_chat_completions_create_same_tracker (s, w) Hpreview).
  - apply of_world_buttonCollector_stop, chat_same_tracker.
  - destruct (review s) as [r|]; [|apply (holds_refl (of_world same_tracker))].
    apply of_world_clear_editCollectors.
Qed.

(** X11. In preview mode nothing is created without a confirmation. From any
    state of a session with preview, events of any kind and in any order
    (messages, the end of the collection window, edit requests, presses of
    other users, presses of [cancel_issues], timers), as long as none is a
    press of [confirm_issues] by the invoking user, leave the tracker as it
    was: no creation call, no new issue. *)
Theorem preview_creates_nothing_without_confirmation :
  forall (b : Bot) (evs : list Event),
    wantsPreview (fst b) = true ->
    Forall (fun ev => ~ confirmation (fst b) ev) evs ->
    tracker_calls (snd (run b evs)) = tracker_calls (snd b) /\
    tracker_issues (snd (run b evs)) = tracker_issues (snd b).
Proof.
  intros b evs. revert b. induction evs as [|ev evs IH]; intros b Hpreview Hall.
  - split; reflexivity.
  - inversion Hall as [|? ? Hev Hrest]; subst.
    destruct (bundle_grows_dispatch ev b) as (Hinvoker & Hmode & _).
    change (fst (dispatch ev b)) with (step b ev) in Hinvoker, Hmode.
    destruct (preview_step_same_tracker b ev Hpreview Hev) as [Hcalls Hissues].
    unfold run in *. cbn [fold_left].
    destruct (IH (step b ev)) as [Hcalls' Hissues'].
    + rewrite Hmode. exact Hpreview.
    + eapply Forall_impl; [|exact Hrest]. intros ev' Hev'.
      destruct ev' as [|user pressed| | |]; cbn in *; try exact Hev'.
      rewrite Hinvoker. exact Hev'.
    + split; congruence.
Qed.

(** *** After the decision *)

(** What the listeners of edit requests guarantee of the review: its issues,
    its message and its decision flag stay as they are. *)
Definition review_kept : Guarantee Session.
Proof.
  refine {| holds := fun s s' =>
              collector_ended s' = collector_ended s /\
              option_map review_issues (review s') = option_map review_issues (review s) /\
              option_map previewMessage (review s') = option_map previewMessage (review s) /\
              option_map buttonCollector_ended (review s')
                = option_map buttonCollector_ended (review s) |}.
  - intros s. repeat split; reflexivity.
  - intros s1 s2 s3 (H1 & H2 & H3 & H4) (H1' & H2' & H3' & H4'). repeat split; congruence.
Defined.

Ltac review_update :=
  apply respects_modify_session_of_session;
  let s := fresh "s" in
  intros s; cbn; destruct (review s); repeat split; reflexivity.

#[local] Hint Extern 1 (respects (of_session review_kept) (modify_session _)) =>
  review_update : respects.

Lemma review_kept_editCollector_on_collect m :
  respects (of_session review_kept) (editCollector_on_collect m).
Proof. unfold_listeners. respects_tac. Qed.

#[local] Hint Resolve review_kept_editCollector_on_collect : respects.

Lemma review_kept_editCollectors_collect n m :
  respects (of_session review_kept) (editCollectors_collect n m).
Proof. induction n as [|n IH]; cbn [editCollectors_collect]; respects_tac. Qed.

#[local] Hint Resolve review_kept_editCollectors_collect : respects.

Lemma review_kept_clear_editCollectors keep :
  respects (of_session review_kept) (clear_editCollectors keep).
Proof. unfold_listeners. respects_tac. Qed.

#[local] Hint Resolve review_kept_clear_editCollectors : respects.

Lemma review_kept_review_message (s : Session) (m : Message) :
  respects (of_session review_kept)
    (match review s with
     | Some r =>
         if editCollector_filter s m
         then clear_editCollectors 0 ;;; editCollectors_collect (editCollectors r) m
         else ret tt
     | None => ret tt
     end).
Proof. respects_tac. Qed.

(** The decision has been taken, or the window of the review has expired:
    the collection window and the button collector of the review have both
    ended. *)
Definition DECIDED (s : Session) : Prop :=
  collector_ended s = true /\
  exists r, review s = Some r /\ buttonCollector_ended r = true.

Lemma decided_step (b : Bot) (ev : Event) :
  DECIDED (fst b) ->
  both (of_session review_kept) (of_world same_tracker) b (step b ev).
Proof.
  intros (Hended & r & Hr & Hdecided). destruct b as [s w]. cbn [fst] in *.
  unfold step, dispatch. unfold bind at 1, get_session. cbv beta iota. cbn [fst].
  rewrite Hended, Hr. destruct ev as [m|user pressed| | |].
  - cbn [negb andb]. apply bind_at; [apply holds_refl|]. intros _.
    respects_tac.
  - rewrite Hdecided. apply holds_refl.
  - unfold collector_stop, bind, get_session. cbn [fst]. rewrite Hended. apply holds_refl.
  - unfold buttonCollector_stop, bind, get_session. cbn [fst]. rewrite Hr, Hdecided.
    apply holds_refl.
  - at_state. respects_tac.
Qed.

Lemma decided_stays (s s' : Session) : DECIDED s -> review_kept s s' -> DECIDED s'.
Proof.
  intros (Hended & r & Hr & Hdecided) (Hended' & _ & _ & Hflag).
  split; [congruence|]. rewrite Hr in Hflag. cbn in Hflag.
  destruct (review s') as [r'|]; [|discriminate].
  exists r'. split; [reflexivity|]. cbn in Hflag. congruence.
Qed.

(** X12. Once the decision is taken nothing more is created. From a state in
    which the collection window and the button collector of the review have
    both ended (the invoking user has confirmed or cancelled, or the review
    has expired), no sequence of events, further presses and pending edit
    requests included, makes the bot call the tracker, and the issues of the
    review stay what they were. *)
Theorem decided_session_never_calls_the_tracker :
  forall (b : Bot) (evs : list Event),
    DECIDED (fst b) ->
    DECIDED (fst (run b evs)) /\
    tracker_calls (snd (run b evs)) = tracker_calls (snd b) /\
    tracker_issues (snd (run b evs)) = tracker_issues (snd b) /\
    option_map review_issues (review (fst (run b evs)))
      = option_map review_issues (review (fst b)).
Proof.
  intros b evs. revert b. induction evs as [|ev evs IH]; intros b Hdecided.
  - split; [exact Hdecided|]. repeat split; reflexivity.
  - destruct (decided_step b ev Hdecided) as [Hkept [Hcalls Hissues]].
    pose proof (decided_stays _ _ Hdecided Hkept) as Hdecided'.
    destruct Hkept as (_ & Hreview & _).
    unfold run in *. cbn [fold_left].
    destruct (IH (step b ev) Hdecided') as (Hd & Hc & Hi & Hr).
    split; [exact Hd|]. cbn in Hcalls, Hissues, Hreview. repeat split; congruence.
Qed.

(** *** Whose decisions and edit requests count *)

(** X13. Decisions and edit requests are taken from the invoking user only.
    A press of any button by another user has no effect, in any state; after
    the collection window has ended, a message of another user has no effect
    either, whatever edit requests are pending. *)
Theorem only_the_invoking_user_decides_and_edits :
  forall (b : Bot) (other : User),
    user_id other <> user_id (invoker (fst b)) ->
    (forall pressed, step b (ButtonPress other pressed) = b) /\
    (forall msg,
        collector_ended (fst b) = true -> author msg = other ->
        step b (MessageCreate msg) = b).
Proof.
  intros [s w] other Hother. cbn [fst] in Hother. apply String.eqb_neq in Hother. split.
  - intros pressed. unfold step, dispatch, bind, get_session, buttonCollector_filter.
    cbn [fst]. rewrite Hother. destruct (review s); [|reflexivity].
    rewrite andb_false_r. reflexivity.
  - intros msg Hended <-. cbn [fst] in Hended.
    unfold step, dispatch, bind, get_session, editCollector_filter. cbn [fst].
    rewrite Hended, Hother. cbn. destruct (review s); reflexivity.
Qed.

(** *** What a confirmation commits *)

(** The calls of a run of [createIssues]: the requests of a prefix of the
    batch, in order. *)
Lemma createIssues_from_calls (issues : list Issue) (a : Assets) :
  forall (acc : list CreatedIssue) (w : World),
    exists n, n <= List.length issues /\
      tracker_calls (fst (createIssues_from issues a acc w)) =
        tracker_calls w ++ batch_requests w (firstn n issues) a.
Proof.
  induction issues as [|issue rest IH]; intros acc w.
  - exists 0. cbn. rewrite app_nil_r. split; [lia|reflexivity].
  - destruct (tracker_answer w (List.length (tracker_calls w)) (issue_request w issue a))
      as [data|err] eqn:Hans.
    + rewrite (createIssues_from_step_ok _ _ _ _ _ _ Hans).
      destruct (IH (acc ++ [data])
                  (with_tracker w (tracker_calls w ++ [issue_request w issue a])
                     (tracker_issues w ++ [(issue_request w issue a, data)])))
        as (n & Hn & Hcalls).
      exists (S n). split; [cbn; lia|]. rewrite Hcalls. cbn. rewrite <- app_assoc. reflexivity.
    + rewrite (createIssues_from_step_fail _ _ _ _ _ _ Hans).
      exists 1. split; [cbn; lia|]. reflexivity.
Qed.

Lemma batch_requests_same_services (w w' : World) issues a :
  same_services w w' -> batch_requests w' issues a = batch_requests w issues a.
Proof.
  intros (_ & _ & _ & _ & Howner & Hrepo). unfold batch_requests, issue_request.
  rewrite Howner, Hrepo. reflexivity.
Qed.

(** The tracker and the services are as they were. *)
Definition tracker_untouched : Guarantee World := both same_tracker same_services.

Lemma chat_tracker_untouched op : respects tracker_untouched (chat op).
Proof. apply respects_both; auto with respects. Qed.

#[local] Hint Resolve chat_tracker_untouched : respects.

(** The handler of the listener of the buttons: it reports the error. *)
Lemma report_error_same_tracker (e : JsError) (b : Bot) :
  same_tracker (snd b)
    (snd (fst ((lift (channel_send (plain ("❌ Error: " ++ message e))) ;;; ret tt) b))).
Proof.
  change (of_world same_tracker b
            (fst ((lift (channel_send (plain ("❌ Error: " ++ message e))) ;;; ret tt) b))).
  at_state. respects_tac.
Qed.

(** The listener of the buttons, on a press of [confirm_issues]. *)
Lemma confirm_calls (s : Session) (w : World) (r : Review) :
  review s = Some r ->
  exists n, n <= List.length (review_issues r) /\
    tracker_calls (snd (fst (buttonCollector_on_collect "confirm_issues" (s, w)))) =
      tracker_calls w ++ batch_requests w (firstn n (review_issues r)) (assets s).
Proof.
  intros Hr.
  assert (Hnone : forall w', same_tracker w w' ->
            exists n, n <= List.length (review_issues r) /\
              tracker_calls w' =
                tracker_calls w ++ batch_requests w (firstn n (review_issues r)) (assets s)).
  { intros w' [Hcalls _]. exists 0. split; [lia|].
    cbn. rewrite app_nil_r. exact Hcalls. }
  unfold buttonCollector_on_collect. unfold bind at 1. unfold lift at 1. cbn [fst snd].
  pose proof (chat_tracker_untouched InteractionDeferUpdate w) as H1.
  destruct (chat InteractionDeferUpdate w) as [w1 [k|e]]; cbn [fst] in H1;
    [|apply Hnone, H1].
  cbv beta iota. unfold try_catch. unfold bind at 1, get_session. cbv beta iota. cbn [fst].
  rewrite Hr. cbn [String.eqb Ascii.eqb Bool.eqb andb]. unfold bind at 1.
  pose proof (of_world_buttonCollector_stop tracker_untouched chat_tracker_untouched (s, w1))
    as H2.
  destruct (buttonCollector_stop (s, w1)) as [[s2 w2] [[]|e2]]; cbn [fst snd of_world holds] in H2;
    assert (H12 : tracker_untouched w w2)
      by (eapply (holds_trans tracker_untouched); eassumption).
  - unfold bind at 1. unfold lift at 1. cbn [fst snd].
    destruct (createIssues_from_calls (review_issues r) (assets s) [] w2) as (n & Hn & Hcalls).
    fold (createIssues (review_issues r) (assets s)) in Hcalls.
    rewrite (batch_requests_same_services w w2 _ _ (proj2 H12)) in Hcalls.
    destruct H12 as [[Hsame _] _]. rewrite Hsame in Hcalls.
    exists n. split; [exact Hn|]. rewrite <- Hcalls.
    destruct (createIssues (review_issues r) (assets s) w2) as [w3 [created|e3]];
      cbn [fst]; cbv beta iota.
    + pose proof (of_world_report_created same_tracker chat_same_tracker created (s2, w3))
        as H4.
      destruct (report_created created (s2, w3)) as [[s4 w4] [[]|e4]];
        cbn [fst snd of_world holds] in H4.
      * apply H4.
      * destruct (report_error_same_tracker e4 (s4, w4)) as [-> _]. apply H4.
    + apply (report_error_same_tracker e3 (s2, w3)).
  - cbv beta iota. apply Hnone.
    eapply (holds_trans same_tracker); [apply H12|].
    apply (report_error_same_tracker e2 (s2, w2)).
Qed.

(** What every listener of the review guarantees: the collection window
    stays as it is, and the review keeps its issues. *)
Definition review_issues_kept : Guarantee Session.
Proof.
  refine {| holds := fun s s' =>
              collector_ended s' = collector_ended s /\
              option_map review_issues (review s') = option_map review_issues (review s) |}.
  - intros s. split; reflexivity.
  - intros s1 s2 s3 [H1 H2] [H1' H2']. split; congruence.
Defined.

Ltac review_issues_update :=
  apply respects_modify_session_of_session;
  let s := fresh "s" in
  intros s; cbn; destruct (review s); split; reflexivity.

#[local] Hint Extern 1 (respects (of_session review_issues_kept) (modify_session _)) =>
  review_issues_update : respects.

Lemma review_issues_kept_editCollectors_collect n m :
  respects (of_session review_issues_kept) (editCollectors_collect n m).
Proof.
  induction n as [|n IH]; cbn [editCollectors_collect]; [apply respects_ret|].
  unfold_listeners. respects_tac.
Qed.

#[local] Hint Resolve review_issues_kept_editCollectors_collect : respects.

Lemma ended_step_review_issues_kept (b : Bot) (ev : Event) :
  collector_ended (fst b) = true -> review_issues_kept (fst b) (fst (step b ev)).
Proof.
  intros Hended. destruct b as [s w]. cbn [fst] in Hended.
  change (of_session review_issues_kept (s, w) (step (s, w) ev)).
  unfold step, dispatch. unfold bind at 1, get_session. cbv beta iota. cbn [fst].
  rewrite Hended. destruct ev as [m|user pressed| | |].
  - cbn [negb andb]. at_state. unfold_listeners. respects_tac.
  - at_state. unfold_listeners. respects_tac.
  - unfold collector_stop, bind, get_session. cbn [fst]. rewrite Hended. apply holds_refl.
  - at_state. unfold_listeners. respects_tac.
  - at_state. unfold_listeners. respects_tac.
Qed.

Lemma ended_run_review_issues_kept (evs : list Event) :
  forall b, collector_ended (fst b) = true -> review_issues_kept (fst b) (fst (run b evs)).
Proof.
  induction evs as [|ev evs IH]; intros b Hended; [apply holds_refl|].
  pose proof (ended_step_review_issues_kept b ev Hended) as Hstep.
  unfold run in *. cbn [fold_left].
  eapply (holds_trans review_issues_kept); [exact Hstep|]. apply IH.
  destruct Hstep as [-> _]. exact Hended.
Qed.

(** X14. A confirmation commits the issues of the first generation. The
    review keeps the issues that were generated when the collection window
    ended; whatever happens afterwards (edit requests that regenerate the
    issues and replace the preview included), a press of [confirm_issues] by
    the invoking user makes creation calls for a prefix of those first
    issues, in order, and for nothing else. *)
Theorem confirmation_commits_the_first_generation :
  forall (b : Bot) (r : Review) (evs : list Event) (user : User),
    collector_ended (fst b) = true ->
    review (fst b) = Some r ->
    let b1 := run b evs in
    exists n, n <= List.length (review_issues r) /\
      tracker_calls (snd (step b1 (ButtonPress user "confirm_issues"))) =
        tracker_calls (snd b1)
        ++ batch_requests (snd b1) (firstn n (review_issues r)) (assets (fst b1)).
Proof.
  intros b r evs user Hended Hr b1.
  destruct (ended_run_review_issues_kept evs b Hended) as [_ Hkept]. fold b1 in Hkept.
  rewrite Hr in Hkept. cbn in Hkept.
  destruct b1 as [s1 w1]. cbn [fst snd] in *.
  destruct (review s1) as [r1|] eqn:Hr1; [|discriminate].
  cbn in Hkept. injection Hkept as Hkept. rewrite <- Hkept.
  unfold step, dispatch. unfold bind at 1, get_session. cbv beta iota. cbn [fst].
  rewrite Hr1.
  destruct (negb (buttonCollector_ended r1) && buttonCollector_filter s1 user).
  - apply (confirm_calls s1 w1 r1 Hr1).
  - exists 0. split; [lia|]. cbn. rewrite app_nil_r. reflexivity.
Qed.

(** *** How often the completion service is asked *)

Lemma Promise_all_map_length {A B} (when : World -> A -> nat) (f : A -> M B) (xs : list A) :
  forall (w w' : World) (ys : list B),
    Promise_all_map when f xs w = (w', Return ys) -> List.length ys <= List.length xs.
Proof.
  intros w w' ys. unfold Promise_all_map.
  destruct (run_callbacks f (settle_order (when w) xs) w) as [w1 outcomes].
  destruct (first_rejection outcomes); [discriminate|].
  intros [= _ <-]. apply fulfilled_length.
Qed.

Lemma filter_Boolean_length {A} (results : list (option A)) :
  List.length (filter_Boolean results) <= List.length results.
Proof.
  induction results as [|[x|] rest IH]; cbn; lia.
Qed.

(** One generation makes at most one request: the text of the bundle, and
    at most one image part for each image reference. *)
Lemma generateIssueContent_llm_calls (a : Assets) (w : World) :
  llm_calls (fst (generateIssueContent a w)) = llm_calls w \/
  exists imageContents,
    llm_calls (fst (generateIssueContent a w))
      = llm_calls w ++ [buildMessages (text a) imageContents] /\
    List.length imageContents <= List.length (images a).
Proof.
  destruct (generateIssueContent a w) as [w' res] eqn:Hgen. cbn [fst].
  unfold generateIssueContent, try_catch, bind, openai_chat_completions_create, throw in Hgen.
  cbv zeta in Hgen.
  pose proof (respects_processImages same_llm_calls chat_same_llm_calls (images a) w) as H1.
  destruct (processImages (images a) w) as [w1 [imageContents|e]] eqn:Himages; cbn in H1.
  - right. exists imageContents. split.
    + destruct (llm_answer w1 (List.length (llm_calls w1))
                  (buildMessages (text a) imageContents)) as [stream|e].
      * pose proof (respects_handleAIStream same_llm_calls chat_same_llm_calls stream
                      (with_llm_calls w1
                         (llm_calls w1 ++ [buildMessages (text a) imageContents]))) as H2.
        destruct (handleAIStream stream _) as [w2 [data|e]]; cbn in H2;
          injection Hgen as <- _; rewrite H2, H1; reflexivity.
      * injection Hgen as <- _. cbn. rewrite H1. reflexivity.
    + unfold processImages, bind in Himages.
      destruct (Promise_all_map settles_at processImage (images a) w)
        as [w0 [results|e]] eqn:Hall; [|discriminate].
      injection Himages as _ <-.
      eapply Nat.le_trans; [apply filter_Boolean_length|].
      apply (Promise_all_map_length _ _ _ _ _ _ Hall).
  - left. injection Hgen as <- _. exact H1.
Qed.

Lemma collector_on_end_llm_calls (b : Bot) :
  llm_calls (snd (fst (collector_on_end b))) = llm_calls (snd b) \/
  exists messages,
    llm_calls (snd (fst (collector_on_end b))) = llm_calls (snd b) ++ [messages].
Proof.
  destruct b as [s w]. destruct (collector_on_end (s, w)) as [[s' w'] res] eqn:Hend.
  cbn [fst snd]. unfold collector_on_end in Hend.
  unfold bind at 1, get_session in Hend. cbv beta iota in Hend. cbn [fst] in Hend.
  unfold bind at 1 in Hend. unfold lift at 1 in Hend. cbn [fst snd] in Hend.
  pose proof (generateIssueContent_llm_calls (assets s) w) as H1.
  destruct (generateIssueContent (assets s) w) as [w1 [generated|e]]; cbn [fst] in H1.
  - cbv beta iota in Hend.
    match type of Hend with
    | ?m ?b = _ => assert (H2 : of_world same_llm_calls b (fst (m b)))
    end.
    { at_state. respects_tac. }
    rewrite Hend in H2. cbn in H2. rewrite H2.
    destruct H1 as [H1|(imageContents & H1 & _)]; [left|right; eexists]; exact H1.
  - injection Hend as _ <- _.
    destruct H1 as [H1|(imageContents & H1 & _)]; [left|right; eexists]; exact H1.
Qed.

(** While the collection window is open, an event ends it or leaves the
    completion service and the tracker alone. *)
Lemma open_step (b : Bot) (ev : Event) :
  OPEN (fst b) ->
  ends_collection ev \/
  (OPEN (fst (step b ev)) /\
   wantsPreview (fst (step b ev)) = wantsPreview (fst b) /\
   llm_calls (snd (step b ev)) = llm_calls (snd b) /\
   tracker_calls (snd (step b ev)) = tracker_calls (snd b)).
Proof.
  intros Hopen.
  assert (Hsame : step b ev = b -> ends_collection ev \/
            (OPEN (fst (step b ev)) /\
             wantsPreview (fst (step b ev)) = wantsPreview (fst b) /\
             llm_calls (snd (step b ev)) = llm_calls (snd b) /\
             tracker_calls (snd (step b ev)) = tracker_calls (snd b))).
  { intros ->. right. auto. }
  destruct ev as [m|user pressed| | |].
  - destruct (user_bot (author m)) eqn:Hbot;
      [apply Hsame, bot_message_ignored; assumption|].
    destruct (String.eqb (toLowerCase (msg_content m)) "!done") eqn:Hdone.
    + left. right. exists m. split; [reflexivity|]. split; [exact Hbot|].
      apply String.eqb_eq, Hdone.
    + right. destruct b as [s w]. destruct Hopen as [Hended Hrev]. cbn [fst snd] in *.
      assert (Hstep : step (s, w) (MessageCreate m) = fst (collect_content m (s, w))).
      { unfold step, dispatch. unfold bind at 1, get_session. cbv beta iota. cbn [fst].
        rewrite Hended, Hrev. unfold collector_filter. rewrite Hbot. cbn [negb andb].
        rewrite (collector_on_collect_content m Hbot Hdone).
        unfold bind, detached, ret. destruct (collect_content m (s, w)). reflexivity. }
      rewrite Hstep.
      destruct (quiet_collect_content m (s, w)) as [Hended' Hnone]. cbn in Hended', Hnone.
      destruct (bundle_grows_dispatch (MessageCreate m) (s, w)) as (_ & Hmode & _).
      change (fst (dispatch (MessageCreate m) (s, w))) with (step (s, w) (MessageCreate m))
        in Hmode.
      rewrite Hstep in Hmode. cbn in Hmode.
      split; [split; [congruence|auto]|]. split; [exact Hmode|]. split.
      * apply (of_world_collect_content same_llm_calls chat_same_llm_calls m (s, w)).
      * apply (of_world_collect_content same_tracker chat_same_tracker m (s, w)).
  - apply Hsame. destruct b as [s w]. destruct Hopen as [_ Hrev]. cbn [fst] in Hrev.
    unfold step, dispatch, bind, get_session. cbn [fst]. rewrite Hrev. reflexivity.
  - left. left. reflexivity.
  - apply Hsame. destruct b as [s w]. destruct Hopen as [_ Hrev]. cbn [fst] in Hrev.
    unfold step, dispatch, buttonCollector_stop, bind, get_session. cbn [fst].
    rewrite Hrev. reflexivity.
  - apply Hsame. destruct b as [s w]. destruct Hopen as [_ Hrev]. cbn [fst] in Hrev.
    unfold step, dispatch, bind, get_session. cbn [fst]. rewrite Hrev. reflexivity.
Qed.

(** X15. A session without preview asks the completion service at most once,
    and only when its collection window ends. From an open window, after any
    sequence of events: no review has been opened; as long as the window is
    still open neither the completion service nor the tracker has been
    called; and over the whole session at most one request has gone to the
    completion service. *)
Theorem session_without_preview_generates_at_most_once :
  forall (b : Bot) (evs : list Event),
    OPEN (fst b) ->
    wantsPreview (fst b) = false ->
    review (fst (run b evs)) = None /\
    (collector_ended (fst (run b evs)) = false ->
       llm_calls (snd (run b evs)) = llm_calls (snd b) /\
       tracker_calls (snd (run b evs)) = tracker_calls (snd b)) /\
    List.length (llm_calls (snd (run b evs))) <= S (List.length (llm_calls (snd b))).
Proof.
  intros b evs. revert b. induction evs as [|ev evs IH]; intros b Hopen Hdirect.
  - split; [apply Hopen|]. split; [auto|]. cbn. lia.
  - destruct (open_step b ev Hopen) as [Hends|(Hopen' & Hmode & Hllm & Htracker)].
    + destruct b as [s w]. cbn [fst snd] in *.
      pose proof (direct_end_session s w ev Hopen Hdirect Hends) as Hsession.
      assert (Hrun : run (s, w) (ev :: evs) = step (s, w) ev).
      { unfold run. cbn [fold_left]. apply inert_run; rewrite Hsession; [reflexivity|].
        apply (proj2 Hopen). }
      rewrite Hrun, Hsession. cbn [collector_ended review with_collector_ended].
      split; [apply Hopen|]. split; [discriminate|].
      rewrite (step_ends_collection (s, w) ev Hopen Hends).
      rewrite (collector_stop_OPEN s w (proj1 Hopen)).
      destruct (collector_on_end_llm_calls (with_collector_ended s true, w))
        as [Hsame|[messages Hone]]; cbn [snd] in *.
      * rewrite Hsame. lia.
      * rewrite Hone, length_app. cbn. lia.
    + unfold run in *. cbn [fold_left].
      destruct (IH (step b ev) Hopen') as (Hrev & Hopen'' & Hcount); [congruence|].
      split; [exact Hrev|]. split.
      * intros Hstill. destruct (Hopen'' Hstill) as [H1 H2]. split; congruence.
      * rewrite Hllm in Hcount. exact Hcount.
Qed.

(** *** Edit requests *)

(** X16. An edit request regenerates, and leaves the issues of the review as
    they were. With one edit request pending, the next message of the
    invoking user is appended to the text of the bundle as
    [USER EDIT REQUEST: ...] and the issues are generated again from the
    whole bundle; when the generation returns, its issues are stored in the
    bundle ([assets.generatedIssues]), the pending request is consumed, and
    the issues that the review holds for the confirmation are still those of
    the first generation. *)
Theorem edit_request_regenerates_but_keeps_the_first_issues :
  forall (s : Session) (w w2 : World) (r : Review) (msg : Message)
         (regenerated : list Issue),
    collector_ended s = true ->
    review s = Some r ->
    editCollectors r = 1 ->
    user_id (author msg) = user_id (invoker s) ->
    chat_answer w (List.length (chat_log w)) = None ->
    let request := ("USER EDIT REQUEST: " ++ msg_content msg)%string in
    generateIssueContent
      {| text := text (assets s) ++ [request]; images := images (assets s);
         generatedIssues := generatedIssues (assets s) |}
      (with_chat_log w
         (chat_log w ++ [ChannelSend (plain "🔄 Regenerating issues with your feedback...")]))
    = (w2, Return regenerated) ->
    let b' := step (s, w) (MessageCreate msg) in
    text (assets (fst b')) = text (assets s) ++ [request] /\
    generatedIssues (assets (fst b')) = Some regenerated /\
    exists r', review (fst b') = Some r' /\
               review_issues r' = review_issues r /\
               editCollectors r' = 0.
Proof.
  intros s w w2 r msg regenerated Hended Hr Hone Huser Hchat request Hgen b'.
  apply String.eqb_eq in Huser.
  assert (Hstep : b' = fst (editCollector_on_collect msg
                              (with_review s (option_map
                                 (fun r0 => {| review_issues := review_issues r0;
                                               previewEmbeds := previewEmbeds r0;
                                               previewMessage := previewMessage r0;
                                               buttonCollector_ended := buttonCollector_ended r0;
                                               editCollectors := 0 |}) (review s)), w))).
  { subst b'. unfold step, dispatch. unfold bind at 1, get_session. cbv beta iota. cbn [fst].
    rewrite Hended, Hr, Hone. unfold editCollector_filter. rewrite Huser.
    cbn [negb andb editCollectors_collect].
    unfold clear_editCollectors, modify_review, modify_session, bind, detached, ret.
    cbn [fst snd]. rewrite Hr.
    destruct (editCollector_on_collect msg _). reflexivity. }
  rewrite Hstep. clear Hstep b'. rewrite Hr. cbn [option_map].
  match goal with
  | |- context [editCollector_on_collect msg ?b] =>
      destruct (editCollector_on_collect msg b) as [[s' w'] res] eqn:Hrun
  end.
  cbn [fst snd].
  unfold editCollector_on_collect, push_text, set_generatedIssues, channel_send, message_edit
    in Hrun.
  cbv beta iota zeta delta
    [bind ret throw try_catch lift detached get_session modify_session modify_review fst snd]
    in Hrun.
  cbn [option_map review assets with_review with_assets text images generatedIssues] in Hrun.
  unfold chat at 1 in Hrun. rewrite Hchat in Hrun. cbv beta iota zeta in Hrun.
  cbn [assets with_assets] in Hrun. fold request in Hrun. rewrite Hgen in Hrun. cbv beta iota in Hrun.
  unfold chat in Hrun.
  cbn [review with_review with_assets assets fst snd chat_log chat_answer with_chat_log] in Hrun.
  cbv beta iota in Hrun.
  cbn [review with_review with_assets assets fst snd chat_log chat_answer with_chat_log] in Hrun.
  destruct (chat_answer w2 (List.length (chat_log w2))); injection Hrun as <- <- _; cbn;
    (split; [reflexivity|]); (split; [reflexivity|]);
    eexists; repeat split; reflexivity.
Qed.

(** ** The stream of the completion ([handleAIStream]) *)

Lemma append_nil_r (s : string) : (s ++ "")%string = s.
Proof. induction s as [|c s IH]; cbn; [reflexivity|]. rewrite IH. reflexivity. Qed.

Lemma append_assoc (s1 s2 s3 : string) : ((s1 ++ s2) ++ s3 = s1 ++ (s2 ++ s3))%string.
Proof. induction s1 as [|c s1 IH]; cbn; [reflexivity|]. rewrite IH. reflexivity. Qed.

Lemma length_append (s1 s2 : string) :
  String.length (s1 ++ s2) = String.length s1 + String.length s2.
Proof. induction s1 as [|c s1 IH]; cbn; [reflexivity|]. rewrite IH. reflexivity. Qed.

(** The content that a stream delivers: its chunks, one after the other. *)
Fixpoint content_of (chunks : list string) : string :=
  match chunks with
  | [] => ""
  | chunk :: rest => chunk ++ content_of rest
  end.

(** The status messages. *)
Definition starting_generation : ChatOp := ChannelSend (plain "Starting generation...").

Definition progress_update (statusMessage : MessageId) (shown : string) : ChatOp :=
  MessageEdit statusMessage (plain ("🔄 Generating content..." ++ LF ++ json_block shown)).

Definition generation_complete (statusMessage : MessageId) (shown : string) : ChatOp :=
  MessageEdit statusMessage (plain ("✅ Generation complete!" ++ LF ++ json_block shown)).

Definition generation_failed (statusMessage : MessageId) : ChatOp :=
  MessageEdit statusMessage (plain "❌ Generation failed!").

(** A progress update of a stream that delivers [final]: it shows what has
    been received so far, a beginning of [final] whose length is a multiple
    of 15. *)
Definition progress_of (statusMessage : MessageId) (final : string) (op : ChatOp) : Prop :=
  exists shown rest,
    op = progress_update statusMessage shown /\
    String.length shown mod 15 = 0 /\
    final = (shown ++ rest)%string.

Lemma message_edit_accepting (target : MessageId) (p : Payload) (w : World) :
  accepting w ->
  message_edit target p w = (with_chat_log w (chat_log w ++ [MessageEdit target p]), Return tt).
Proof. intros Hchat. unfold message_edit, bind. rewrite (chat_accepting _ w Hchat). reflexivity. Qed.

Lemma consume_stream_accepting (chunks : list string) :
  forall (buffer : string) (statusMessage : MessageId) (w : World),
    accepting w ->
    exists updates,
      consume_stream chunks buffer statusMessage w =
        (with_chat_log w (chat_log w ++ updates), Return (buffer ++ content_of chunks)%string) /\
      Forall (progress_of statusMessage (buffer ++ content_of chunks)) updates /\
      List.length updates <= List.length chunks.
Proof.
  induction chunks as [|chunk rest IH]; intros buffer statusMessage w Hchat.
  - exists []. cbn [consume_stream content_of]. unfold ret.
    rewrite app_nil_r, with_chat_log_id, append_nil_r. split; [reflexivity|].
    split; [constructor|cbn; lia].
  - cbn [consume_stream content_of]. unfold bind at 1, updateStatusMessage.
    rewrite <- (append_assoc buffer chunk (content_of rest)).
    destruct (String.length (buffer ++ chunk) mod 15 =? 0)%nat eqn:Hmod.
    + rewrite (message_edit_accepting _ _ w Hchat).
      destruct (IH (buffer ++ chunk)%string statusMessage
                  (with_chat_log w (chat_log w ++
                     [progress_update statusMessage (buffer ++ chunk)])))
        as (updates & Hrun & Hall & Hlen); [apply accepting_with_chat_log, Hchat|].
      exists (progress_update statusMessage (buffer ++ chunk) :: updates).
      unfold progress_update in *. cbv beta iota. rewrite Hrun. cbn [chat_log with_chat_log].
      rewrite with_chat_log_twice, <- app_assoc. split; [reflexivity|]. split.
      * constructor; [|exact Hall].
        exists (buffer ++ chunk)%string, (content_of rest).
        split; [reflexivity|]. split; [apply Nat.eqb_eq, Hmod|reflexivity].
      * cbn. lia.
    + destruct (IH (buffer ++ chunk)%string statusMessage w Hchat)
        as (updates & Hrun & Hall & Hlen).
      exists updates. unfold ret. cbv beta iota. split; [exact Hrun|].
      split; [exact Hall|cbn; lia].
Qed.

(** X17. A stream that ends normally is validated as a whole. When the chat
    accepts the status messages, [handleAIStream] ends as the validator ends
    on the concatenation of all the chunks. On the chat it says that the
    generation starts, then edits that message: with progress updates, each
    showing a beginning of the content whose length is a multiple of 15, at
    most one per chunk; then with [Generation complete]; and then, when the
    validator refused the content, with [Generation failed]. *)
Theorem handleAIStream_validates_the_whole_stream :
  forall (w : World) (chunks : list string),
    accepting w ->
    let statusMessage := List.length (chat_log w) in
    exists (w' : World) (updates : list ChatOp),
      handleAIStream (chunks, None) w = (w', validateAIResponse (content_of chunks)) /\
      chat_log w' =
        chat_log w ++ [starting_generation] ++ updates
        ++ [generation_complete statusMessage (content_of chunks)]
        ++ match validateAIResponse (content_of chunks) with
           | Return _ => []
           | Throw _ => [generation_failed statusMessage]
           end /\
      Forall (progress_of statusMessage (content_of chunks)) updates /\
      List.length updates <= List.length chunks.
Proof.
  intros w chunks Hchat statusMessage.
  unfold handleAIStream, channel_send. unfold bind at 1.
  rewrite (chat_accepting _ w Hchat). cbv beta iota. fold statusMessage.
  set (w0 := with_chat_log w _).
  assert (Hchat0 : accepting w0) by (apply accepting_with_chat_log, Hchat).
  destruct (consume_stream_accepting chunks "" statusMessage w0 Hchat0)
    as (updates & Hrun & Hall & Hlen).
  cbn [append] in Hrun, Hall.
  unfold try_catch. unfold bind at 1. cbn [fst snd]. rewrite Hrun. cbv beta iota.
  unfold bind at 1. unfold ret at 1. cbv beta iota. unfold bind at 1.
  set (w1 := with_chat_log w0 _).
  assert (Hchat1 : accepting w1) by (apply accepting_with_chat_log, Hchat0).
  rewrite (message_edit_accepting _ _ w1 Hchat1). cbv beta iota.
  set (w2 := with_chat_log w1 _).
  assert (Hchat2 : accepting w2) by (apply accepting_with_chat_log, Hchat1).
  destruct (validateAIResponse (content_of chunks)) as [data|e].
  - exists w2, updates. split; [reflexivity|]. split; [|split; assumption].
    unfold w2, w1, w0, generation_complete, starting_generation.
    cbn [chat_log with_chat_log]. rewrite app_nil_r, <- !app_assoc. reflexivity.
  - unfold bind. rewrite (message_edit_accepting _ _ w2 Hchat2). unfold throw.
    eexists. exists updates. split; [reflexivity|]. split; [|split; assumption].
    unfold w2, w1, w0, generation_complete, generation_failed, starting_generation.
    cbn [chat_log with_chat_log]. rewrite <- !app_assoc. reflexivity.
Qed.

(** X18. A stream that breaks is never validated. When the stream ends with
    an error, [handleAIStream] throws that error, whatever content the chunks
    received so far make up (a complete and valid one included); on the chat
    the status message is edited to [Generation failed], and never to
    [Generation complete]. *)
Theorem handleAIStream_discards_a_broken_stream :
  forall (w : World) (chunks : list string) (err : JsError),
    accepting w ->
    let statusMessage := List.length (chat_log w) in
    exists (w' : World) (updates : list ChatOp),
      handleAIStream (chunks, Some err) w = (w', Throw err) /\
      chat_log w' =
        chat_log w ++ [starting_generation] ++ updates ++ [generation_failed statusMessage] /\
      Forall (progress_of statusMessage (content_of chunks)) updates.
Proof.
  intros w chunks err Hchat statusMessage.
  unfold handleAIStream, channel_send. unfold bind at 1.
  rewrite (chat_accepting _ w Hchat). cbv beta iota. fold statusMessage.
  set (w0 := with_chat_log w _).
  assert (Hchat0 : accepting w0) by (apply accepting_with_chat_log, Hchat).
  destruct (consume_stream_accepting chunks "" statusMessage w0 Hchat0)
    as (updates & Hrun & Hall & Hlen).
  cbn [append] in Hrun, Hall.
  unfold try_catch. unfold bind at 1. cbn [fst snd]. rewrite Hrun. cbv beta iota.
  unfold bind at 1. unfold throw at 1. cbv beta iota.
  set (w1 := with_chat_log w0 _).
  assert (Hchat1 : accepting w1) by (apply accepting_with_chat_log, Hchat0).
  unfold bind. rewrite (message_edit_accepting _ _ w1 Hchat1). unfold throw.
  eexists. exists updates. split; [reflexivity|]. split; [|exact Hall].
  unfold w1, w0, generation_failed, starting_generation.
  cbn [chat_log with_chat_log]. rewrite <- !app_assoc. reflexivity.
Qed.

(** A chat that rejects every request from now on, with [e]. *)
Definition rejecting (e : JsError) (w : World) : Prop :=
  forall n, List.length (chat_log w) <= n -> chat_answer w n = Some e.

Lemma message_edit_rejecting (e : JsError) (target : MessageId) (p : Payload) (w : World) :
  rejecting e w ->
  exists w', message_edit target p w = (w', Throw e) /\ rejecting e w'.
Proof.
  intros Hchat. unfold message_edit, bind, chat. rewrite (Hchat _ (Nat.le_refl _)).
  eexists. split; [reflexivity|]. intros n Hn. cbn in Hn |- *. apply Hchat.
  rewrite length_app in Hn. lia.
Qed.

Lemma consume_stream_rejecting (e : JsError) (chunks : list string) :
  forall (buffer : string) (statusMessage : MessageId) (w : World),
    rejecting e w ->
    exists w' r,
      consume_stream chunks buffer statusMessage w = (w', r) /\ rejecting e w' /\
      (r = Throw e \/ exists content, r = Return content).
Proof.
  induction chunks as [|chunk rest IH]; intros buffer statusMessage w Hchat.
  - exists w, (Return buffer). split; [reflexivity|]. split; [exact Hchat|]. right. eauto.
  - cbn [consume_stream]. unfold bind at 1, updateStatusMessage.
    destruct (String.length (buffer ++ chunk) mod 15 =? 0)%nat.
    + destruct (message_edit_rejecting e statusMessage
                  (plain ("🔄 Generating content..." ++ LF ++ json_block (buffer ++ chunk)))
                  w Hchat) as (w' & -> & Hchat').
      exists w', (Throw e). auto.
    + unfold ret. cbv beta iota. apply IH, Hchat.
Qed.

(** X19. A status message that cannot be edited fails the generation. When
    the chat accepts the first status message and rejects, with [e], every
    request after it, [handleAIStream] throws [e] whatever the completion
    service streamed: a complete and valid content is lost with the status
    message, because the edit to [Generation complete] is made before the
    content is validated, inside the same [try]. *)
Theorem handleAIStream_fails_when_the_status_cannot_be_edited :
  forall (w : World) (stream : list string * option JsError) (e : JsError),
    chat_answer w (List.length (chat_log w)) = None ->
    (forall n, List.length (chat_log w) < n -> chat_answer w n = Some e) ->
    exists w', handleAIStream stream w = (w', Throw e).
Proof.
  intros w stream e Hfirst Hlater.
  unfold handleAIStream, channel_send. unfold bind at 1. unfold chat. rewrite Hfirst.
  cbv beta iota zeta.
  set (w0 := with_chat_log w _).
  assert (Hchat0 : rejecting e w0).
  { intros n Hn. unfold w0 in *. cbn in Hn |- *. apply Hlater.
    rewrite length_app in Hn. cbn in Hn. lia. }
  unfold try_catch. unfold bind at 1.
  destruct (consume_stream_rejecting e (fst stream) "" (List.length (chat_log w)) w0 Hchat0)
    as (w1 & r & -> & Hchat1 & [->|[content ->]]).
  - unfold bind.
    destruct (message_edit_rejecting e (List.length (chat_log w))
                (plain "❌ Generation failed!") w1 Hchat1) as (w2 & -> & _).
    exists w2. reflexivity.
  - cbv beta iota. unfold bind at 1. destruct (snd stream) as [err|].
    + unfold throw at 1. cbv beta iota. unfold bind.
      destruct (message_edit_rejecting e (List.length (chat_log w))
                  (plain "❌ Generation failed!") w1 Hchat1) as (w2 & -> & _).
      exists w2. reflexivity.
    + unfold ret at 1. cbv beta iota. unfold bind at 1.
      destruct (message_edit_rejecting e (List.length (chat_log w))
                  (plain ("✅ Generation complete!" ++ LF ++ json_block content))
                  w1 Hchat1) as (w2 & -> & Hchat2).
      cbv beta iota. unfold bind.
      destruct (message_edit_rejecting e (List.length (chat_log w))
                  (plain "❌ Generation failed!") w2 Hchat2) as (w3 & -> & _).
      exists w3. reflexivity.
Qed.

(** ** Generation as a whole ([generateIssueContent]) *)

Lemma processImage_rejected (e : JsError) (url : string) (w : World) (err : JsError) :
  (forall n, chat_answer w n = Some e) ->
  image_data w url = Throw err ->
  snd (processImage url w) = Throw e.
Proof.
  intros Hchat Hdata. unfold processImage, try_catch, bind.
  rewrite fetchImageAsBase64_pure, Hdata. unfold channel_send, chat. rewrite Hchat.
  reflexivity.
Qed.

Lemma run_callbacks_rejected (e : JsError) (queue : list (nat * string)) :
  forall w : World,
    (forall n, chat_answer w n = Some e) ->
    Exists (fun url => exists err, image_data w url = Throw err) (map snd queue) ->
    first_rejection (snd (run_callbacks processImage queue w)) = Some e.
Proof.
  induction queue as [|[i url] rest IH]; intros w Hchat Hfails; [inversion Hfails|].
  cbn [run_callbacks map snd] in Hfails |- *.
  destruct (image_data w url) as [dataUrl|err] eqn:Hdata.
  - assert (Hrun : processImage url w = (w, Return (Some (ImageUrlPart dataUrl)))).
    { unfold processImage, try_catch, bind. rewrite fetchImageAsBase64_pure, Hdata.
      reflexivity. }
    rewrite Hrun.
    inversion Hfails as [? ? [err Herr]|? ? Hrest]; subst; [congruence|].
    specialize (IH w Hchat Hrest).
    destruct (run_callbacks processImage rest w) as [w2 outcomes]. exact IH.
  - pose proof (processImage_rejected e url w err Hchat Hdata) as Hthrow.
    destruct (processImage url w) as [w1 [y|e']]; cbn in Hthrow; [discriminate|].
    injection Hthrow as ->.
    destruct (run_callbacks processImage rest w1) as [w2 outcomes]. reflexivity.
Qed.

Lemma Promise_all_processImage_rejected (e : JsError) (imgs : list string) :
  forall w : World,
    (forall n, chat_answer w n = Some e) ->
    Exists (fun url => exists err, image_data w url = Throw err) imgs ->
    snd (Promise_all_map settles_at processImage imgs w) = Throw e.
Proof.
  intros w Hchat Hfails. unfold Promise_all_map.
  assert (Hqueue : Exists (fun url => exists err, image_data w url = Throw err)
                          (map snd (settle_order (settles_at w) imgs))).
  { apply Exists_exists in Hfails. destruct Hfails as (url & Hin & Hfail).
    apply Exists_exists. exists url. split; [|exact Hfail].
    apply (Permutation_in _ (Permutation_sym (settled_Permutation (settles_at w) imgs))).
    exact Hin. }
  pose proof (run_callbacks_rejected e _ w Hchat Hqueue) as Hfirst.
  destruct (run_callbacks processImage (settle_order (settles_at w) imgs) w)
    as [w1 outcomes].
  cbn [snd] in Hfirst |- *. rewrite Hfirst. reflexivity.
Qed.

(** X20. A warning that cannot be sent aborts the generation. The warning of
    a skipped image is awaited inside the handler that skips it: when the
    chat rejects every request with [e] and at least one image reference
    cannot be fetched, [generateIssueContent] throws [e], and no request is
    made to the completion service. *)
Theorem generation_aborts_when_a_warning_is_rejected :
  forall (w : World) (a : Assets) (e : JsError),
    (forall n, chat_answer w n = Some e) ->
    Exists (fun url => exists err, image_data w url = Throw err) (images a) ->
    exists w',
      generateIssueContent a w = (w', Throw e) /\
      llm_calls w' = llm_calls w.
Proof.
  intros w a e Hchat Hfails.
  pose proof (Promise_all_processImage_rejected e (images a) w Hchat Hfails) as Hall.
  pose proof (respects_Promise_all_map same_llm_calls settles_at processImage (images a))
    as Hllm.
  assert (Hone : forall url, respects same_llm_calls (processImage url)).
  { intros url. unfold processImage. respects_tac. }
  specialize (Hllm Hone w).
  unfold generateIssueContent, try_catch, processImages. unfold bind at 1. unfold bind at 1.
  destruct (Promise_all_map settles_at processImage (images a) w) as [w1 [results|e']];
    cbn in Hall, Hllm; [discriminate|].
  injection Hall as ->. exists w1. split; [reflexivity|exact Hllm].
Qed.

(** X21. What a generation does to the outside. Whatever the services
    answer, [generateIssueContent] never touches the tracker; what it says on
    the chat is added to what was said; and it makes at most one request to
    the completion service, whose user message is the text of the bundle and
    at most one image part for each image reference of the bundle. *)
Theorem generation_talks_and_asks_at_most_once :
  forall (a : Assets) (w : World),
    let w' := fst (generateIssueContent a w) in
    tracker_calls w' = tracker_calls w /\
    tracker_issues w' = tracker_issues w /\
    (exists said, chat_log w' = chat_log w ++ said) /\
    (llm_calls w' = llm_calls w \/
     exists imageContents,
       llm_calls w' = llm_calls w ++ [buildMessages (text a) imageContents] /\
       List.length imageContents <= List.length (images a)).
Proof.
  intros a w w'. subst w'.
  destruct (respects_generateIssueContent same_tracker a chat_same_tracker
              openai_chat_completions_create_same_tracker w) as [Hcalls Hissues].
  destruct (respects_generateIssueContent logs_grow a chat_logs_grow
              openai_chat_completions_create_logs_grow w) as [Hsaid _].
  split; [exact Hcalls|]. split; [exact Hissues|]. split; [exact Hsaid|].
  apply generateIssueContent_llm_calls.
Qed.

(** ** A batch that the tracker accepts *)

Lemma createIssues_from_accepted (issues : list Issue) (a : Assets) :
  forall (acc : list CreatedIssue) (w : World),
    (forall j issue, nth_error issues j = Some issue ->
       exists data, tracker_answer w (List.length (tracker_calls w) + j)
                      (issue_request w issue a) = Return data) ->
    exists w' created,
      createIssues_from issues a acc w = (w', Return (acc ++ created)) /\
      List.length created = List.length issues /\
      tracker_calls w' = tracker_calls w ++ batch_requests w issues a /\
      tracker_issues w' = tracker_issues w ++ combine (batch_requests w issues a) created /\
      same_chat_log w w' /\ same_llm_calls w w'.
Proof.
  induction issues as [|issue rest IH]; intros acc w Hok.
  - exists w, []. cbn. rewrite !app_nil_r. repeat split; reflexivity.
  - destruct (Hok 0 issue eq_refl) as [data Hdata]. rewrite Nat.add_0_r in Hdata.
    rewrite (createIssues_from_step_ok _ _ _ _ _ _ Hdata).
    set (w1 := with_tracker w _ _).
    destruct (IH (acc ++ [data]) w1) as (w' & created & Hrun & Hlen & Hcalls & Hissues & Hchat & Hllm).
    { intros j issue' Hj. destruct (Hok (S j) issue' Hj) as [d Hd]. exists d.
      unfold w1. rewrite issue_request_with_tracker.
      cbn [tracker_answer tracker_calls with_tracker]. rewrite length_app. cbn [List.length].
      rewrite <- Hd. f_equal. lia. }
    exists w', (data :: created). rewrite Hrun, <- app_assoc. split; [reflexivity|].
    split; [cbn; lia|]. split; [|split; [|split]].
    + rewrite Hcalls. unfold w1. cbn [tracker_calls with_tracker batch_requests map].
      rewrite <- app_assoc. reflexivity.
    + rewrite Hissues. unfold w1.
      cbn [tracker_issues with_tracker batch_requests map combine].
      rewrite <- app_assoc. reflexivity.
    + exact Hchat.
    + exact Hllm.
Qed.

(** X22. A batch that the tracker accepts is committed whole. When the
    tracker accepts the creation call of every issue of the batch,
    [createIssues] returns the tracker's answers, one per issue and in input
    order; the calls made are exactly the requests of the batch, in order;
    and [createIssues] says nothing on the chat and asks nothing of the
    completion service. An empty batch makes no call and returns the empty
    list. *)
Theorem createIssues_commits_an_accepted_batch :
  forall (w : World) (issues : list Issue) (a : Assets),
    (forall j issue, nth_error issues j = Some issue ->
       exists data, tracker_answer w (List.length (tracker_calls w) + j)
                      (issue_request w issue a) = Return data) ->
    exists (w' : World) (created : list CreatedIssue),
      createIssues issues a w = (w', Return created) /\
      List.length created = List.length issues /\
      tracker_calls w' = tracker_calls w ++ batch_requests w issues a /\
      tracker_issues w' = tracker_issues w ++ combine (batch_requests w issues a) created /\
      chat_log w' = chat_log w /\
      llm_calls w' = llm_calls w.
Proof.
  intros w issues a Hok.
  destruct (createIssues_from_accepted issues a [] w Hok)
    as (w' & created & Hrun & Hlen & Hcalls & Hissues & Hchat & Hllm).
  exists w', created. repeat split; assumption.
Qed.

(** X23. No review while the bot collects. In every state that a sequence of
    events reaches from a new session, the collection window has ended or
    no review exists: the review message and its collectors are only ever
    set up by the end of the collection window. *)
Theorem no_review_before_the_collection_ends :
  forall (user : User) (preview dm : bool) (w : World) (evs : list Event),
    let s := fst (run (new_session user preview dm, w) evs) in
    collector_ended s = true \/ review s = None.
Proof.
  intros user preview dm w evs s.
  pose proof (run_review_after_collection evs (new_session user preview dm, w)) as Hinv.
  fold s in Hinv. unfold review_after_collection in Hinv.
  destruct (collector_ended s); [left; reflexivity|right].
  apply Hinv; [intros _|]; reflexivity.
Qed.

(** ** Listing the board ([listOpenIssues], the [list-issues] command) *)

(** The three queries of a listing. *)
Definition project_query (d : Board) : GraphqlRequest :=
  getProjectNode (trim (env_GITHUB_REPO_OWNER d)) (parseInt (env_GITHUB_PROJECT_NUMBER d) 10).

Definition listing_queries (d : Board) (projectId : Maybe) : list GraphqlRequest :=
  [project_query d; getStatusField_query projectId; getProjectItems_query projectId].

(** The reply of the command to an error. *)
Definition error_reply (e : JsError) : Reply :=
  {| reply_content := "❌ Error: " ++ message e;
     reply_embeds := None; reply_components := None; reply_ephemeral := Some true |}.

Lemma getProjectDetails_run (d : Board) :
  getProjectDetails d =
  (with_graphql_calls d (graphql_calls d ++ [project_query d]),
   match getProjectNode_answer d (List.length (graphql_calls d)) (project_query d) with
   | Return response => Return (projectV2_id response)
   | Throw e => Throw e
   end).
Proof.
  unfold getProjectDetails, try_catch, bind, octokit_graphql, project_query, ret, throw.
  destruct (getProjectNode_answer d _ _); reflexivity.
Qed.

Lemma getStatusField_run (projectId : Maybe) (d : Board) :
  getStatusField projectId d =
  (with_graphql_calls d (graphql_calls d ++ [getStatusField_query projectId]),
   match getStatusField_answer d (List.length (graphql_calls d))
           (getStatusField_query projectId) with
   | Return response =>
       match connection_nodes "fields" response with
       | Return nodes => Return (find named_Status nodes)
       | Throw e => Throw e
       end
   | Throw e => Throw e
   end).
Proof.
  unfold getStatusField, try_catch, bind, octokit_graphql, ret, throw.
  destruct (getStatusField_answer d _ _) as [response|e]; [|reflexivity].
  destruct (connection_nodes "fields" response); reflexivity.
Qed.

Lemma getProjectItems_run (projectId : Maybe) (d : Board) :
  getProjectItems projectId d =
  (with_graphql_calls d (graphql_calls d ++ [getProjectItems_query projectId]),
   match getProjectItems_answer d (List.length (graphql_calls d))
           (getProjectItems_query projectId) with
   | Return response =>
       match connection_nodes "items" response with
       | Return nodes => Return (with_content nodes)
       | Throw e => Throw e
       end
   | Throw e => Throw e
   end).
Proof.
  unfold getProjectItems, try_catch, bind, octokit_graphql, ret, throw.
  destruct (getProjectItems_answer d _ _) as [response|e]; [|reflexivity].
  destruct (connection_nodes "items" response); reflexivity.
Qed.

(** The [k]-th query of a listing, counted from 0, is the first that fails,
    and it fails with [e]. *)
Definition first_failed_query (d : Board) (k : nat) (e : JsError) : Prop :=
  let n := List.length (graphql_calls d) in
  match k with
  | 0 => getProjectNode_answer d n (project_query d) = Throw e
  | S k' =>
      exists response,
        getProjectNode_answer d n (project_query d) = Return response /\
        let projectId := projectV2_id response in
        match k' with
        | 0 => getStatusField_answer d (n + 1) (getStatusField_query projectId) = Throw e
        | S k'' =>
            k'' = 0 /\
            exists fields,
              getStatusField_answer d (n + 1) (getStatusField_query projectId)
                = Return (ProjectNode fields) /\
              getProjectItems_answer d (n + 2) (getProjectItems_query projectId) = Throw e
        end
  end.

(** X24. A listing stops at the first query that fails. When the [k]-th of
    the three queries (project, status field, items) is the first to fail,
    [listOpenIssues] throws its error, and the queries made are the first
    [k+1]: none is sent after the failure, and nothing is listed. The
    command then replies once, with the error, to the invoking user only. *)
Theorem listing_stops_at_the_first_failed_query :
  forall (d : Board) (k : nat) (e : JsError),
    first_failed_query d k e ->
    exists (d' : Board) (projectId : Maybe),
      listOpenIssues d = (d', Throw e) /\
      graphql_calls d' = graphql_calls d ++ firstn (S k) (listing_queries d projectId) /\
      replies d' = replies d /\
      replies (fst (list_issues d)) = replies d ++ [error_reply e].
Proof.
  intros d k e Hfail.
  assert (Hlist : exists d' projectId,
             listOpenIssues d = (d', Throw e) /\
             graphql_calls d' = graphql_calls d ++ firstn (S k) (listing_queries d projectId) /\
             replies d' = replies d).
  { unfold listOpenIssues, try_catch. unfold bind at 1. rewrite getProjectDetails_run.
    destruct k as [|[|k]]; cbn [first_failed_query] in Hfail.
    - rewrite Hfail. eexists. exists undefined. cbn. repeat split; reflexivity.
    - destruct Hfail as (response & -> & Hfail). cbv beta iota zeta in Hfail |- *.
      unfold bind at 1. rewrite getStatusField_run.
      cbn [graphql_calls with_graphql_calls getStatusField_answer].
      rewrite length_app. cbn [List.length]. rewrite Hfail.
      eexists. exists (projectV2_id response). cbn. rewrite <- app_assoc.
      repeat split; reflexivity.
    - destruct Hfail as (response & -> & -> & fields & Hfields & Hfail).
      cbv beta iota zeta in Hfields, Hfail |- *.
      unfold bind at 1. rewrite getStatusField_run.
      cbn [graphql_calls with_graphql_calls getStatusField_answer].
      rewrite length_app. cbn [List.length]. rewrite Hfields.
      cbn [connection_nodes]. cbv beta iota. unfold bind at 1. rewrite getProjectItems_run.
      cbn [graphql_calls with_graphql_calls getProjectItems_answer].
      rewrite !length_app. cbn [List.length].
      replace (List.length (graphql_calls d) + 1 + 1) with (List.length (graphql_calls d) + 2)
        by lia.
      rewrite Hfail.
      eexists. exists (projectV2_id response). cbn. rewrite <- !app_assoc.
      repeat split; reflexivity. }
  destruct Hlist as (d' & projectId & Hrun & Hcalls & Hreplies).
  exists d', projectId. split; [exact Hrun|]. split; [exact Hcalls|]. split; [exact Hreplies|].
  unfold list_issues, try_catch. unfold bind at 1. rewrite Hrun.
  unfold interaction_reply. cbn [fst replies with_replies]. rewrite Hreplies. reflexivity.
Qed.

(** X25. A board without a field named [Status] cannot be listed. When the
    three queries succeed but none of the project's fields is a
    single-select field named [Status], [listOpenIssues] throws the
    [TypeError] of reading [options] of [undefined], after the three queries
    have been made; what the invoking user is told is that message. *)
Theorem listing_needs_a_field_named_Status :
  forall (d : Board) (response : ProjectNodeData) (fields : list FieldNode)
         (nodes : list ItemNode),
    let n := List.length (graphql_calls d) in
    let projectId := projectV2_id response in
    getProjectNode_answer d n (project_query d) = Return response ->
    getStatusField_answer d (n + 1) (getStatusField_query projectId)
      = Return (ProjectNode fields) ->
    find named_Status fields = None ->
    getProjectItems_answer d (n + 2) (getProjectItems_query projectId)
      = Return (ProjectNode nodes) ->
    exists d',
      listOpenIssues d = (d', Throw (cannot_read "undefined" "options")) /\
      graphql_calls d' = graphql_calls d ++ listing_queries d projectId /\
      replies (fst (list_issues d)) =
        replies d ++
        [ {| reply_content :=
               "❌ Error: Cannot read properties of undefined (reading 'options')";
             reply_embeds := None; reply_components := None;
             reply_ephemeral := Some true |} ].
Proof.
  intros d response fields nodes n projectId Hproject Hfields Hnone Hitems.
  assert (Hrun : listOpenIssues d =
                 (with_graphql_calls d (graphql_calls d ++ listing_queries d projectId),
                  Throw (cannot_read "undefined" "options"))).
  { unfold listOpenIssues, try_catch. unfold bind at 1. rewrite getProjectDetails_run.
    fold n. rewrite Hproject. cbv beta iota. fold projectId.
    unfold bind at 1. rewrite getStatusField_run.
    cbn [graphql_calls with_graphql_calls getStatusField_answer].
    rewrite length_app. cbn [List.length]. fold n. rewrite Hfields.
    cbn [connection_nodes]. rewrite Hnone. cbv beta iota.
    unfold bind at 1. rewrite getProjectItems_run.
    cbn [graphql_calls with_graphql_calls getProjectItems_answer].
    rewrite !length_app. cbn [List.length]. fold n.
    replace (n + 1 + 1) with (n + 2) by lia. rewrite Hitems.
    cbn. rewrite <- !app_assoc. reflexivity. }
  eexists. split; [exact Hrun|]. split; [reflexivity|].
  unfold list_issues, try_catch. unfold bind at 1. rewrite Hrun. reflexivity.
Qed.

(** X26. What a listing returns. When [listOpenIssues] returns, the three
    queries were made, in order, the last two with the id that the first
    returned ([undefined] when the organization or the project is unknown);
    the project has a single-select field named [Status]; and the result is
    [processProjectItems] of the items that have a content and of that
    field. *)
Theorem listOpenIssues_returns_the_processed_board :
  forall (d d' : Board) (sortedItems : list ProjectItem),
    listOpenIssues d = (d', Return sortedItems) ->
    let n := List.length (graphql_calls d) in
    exists (response : ProjectNodeData) (fields : list FieldNode) (field : StatusField)
           (nodes : list ItemNode),
      let projectId := projectV2_id response in
      getProjectNode_answer d n (project_query d) = Return response /\
      getStatusField_answer d (n + 1) (getStatusField_query projectId)
        = Return (ProjectNode fields) /\
      find named_Status fields = Some (SingleSelectField field) /\
      field_name_ field = "Status" /\
      getProjectItems_answer d (n + 2) (getProjectItems_query projectId)
        = Return (ProjectNode nodes) /\
      sortedItems = processProjectItems (with_content nodes) field /\
      graphql_calls d' = graphql_calls d ++ listing_queries d projectId.
Proof.
  intros d d' sortedItems Hrun n.
  unfold listOpenIssues, try_catch in Hrun. unfold bind at 1 in Hrun.
  rewrite getProjectDetails_run in Hrun. fold n in Hrun.
  destruct (getProjectNode_answer d n (project_query d)) as [response|e] eqn:Hproject;
    [|discriminate].
  cbv beta iota in Hrun. unfold bind at 1 in Hrun. rewrite getStatusField_run in Hrun.
  cbn [graphql_calls with_graphql_calls getStatusField_answer] in Hrun.
  rewrite length_app in Hrun. cbn [List.length] in Hrun. fold n in Hrun.
  destruct (getStatusField_answer d (n + 1) _) as [[| |fields]|e] eqn:Hfields;
    try discriminate.
  cbn [connection_nodes] in Hrun. cbv beta iota in Hrun.
  unfold bind at 1 in Hrun. rewrite getProjectItems_run in Hrun.
  cbn [graphql_calls with_graphql_calls getProjectItems_answer] in Hrun.
  rewrite !length_app in Hrun. cbn [List.length] in Hrun. fold n in Hrun.
  replace (n + 1 + 1) with (n + 2) in Hrun by lia.
  destruct (getProjectItems_answer d (n + 2) _) as [[| |nodes]|e] eqn:Hitems;
    try discriminate.
  cbn [connection_nodes] in Hrun. cbv beta iota in Hrun.
  destruct (find named_Status fields) as [[| |field]|] eqn:Hfind; try discriminate.
  cbn in Hrun. injection Hrun as <- <-.
  exists response, fields, field, nodes. cbv zeta.
  split; [reflexivity|]. split; [exact Hfields|]. split; [exact Hfind|]. split.
  - apply find_some in Hfind. destruct Hfind as [_ Hname]. cbn in Hname.
    apply String.eqb_eq, Hname.
  - split; [exact Hitems|]. split; [reflexivity|].
    cbn. rewrite <- !app_assoc. reflexivity.
Qed.

(** *** The embeds of the reply *)

(** Arithmetic of the groups of four. *)
Ltac note_div_mod a :=
  lazymatch goal with
  | H : a = 4 * (a / 4) + a mod 4 |- _ => fail
  | _ => pose proof (Nat.div_mod_eq a 4);
         pose proof (Nat.mod_upper_bound a 4 ltac:(lia))
  end.

Ltac divmod :=
  repeat match goal with
         | |- context [?a mod 4] => note_div_mod a
         | H : context [?a mod 4] |- _ => note_div_mod a
         | |- context [?a / 4] => note_div_mod a
         | H : context [?a / 4] |- _ => note_div_mod a
         end;
  lia.

Lemma length_substring_le (n : nat) (s : string) : String.length (substring 0 n s) <= n.
Proof.
  revert s. induction n as [|n IH]; intros [|c s]; cbn; try lia.
  specialize (IH s). lia.
Qed.

(** The item fits in a field: its title is not empty, and what is shown of
    it is within the limit that the builder sets on a value. *)
Definition fits (item : ProjectItem) : Prop :=
  content_title (item_content item) <> "" /\
  String.length (field_value (issue_field item)) <= 1024.

Lemma addFields_fits (embed : ListEmbed) (item : ProjectItem) :
  fits item ->
  List.length (le_fields embed) < 25 ->
  addFields embed (issue_field item) =
  Return {| le_title := le_title embed; le_color := le_color embed;
            le_footer_text := le_footer_text embed;
            le_footer_iconURL := le_footer_iconURL embed;
            le_timestamp := le_timestamp embed;
            le_fields := le_fields embed ++ [issue_field item] |}.
Proof.
  intros [Htitle Hvalue] Hcount. unfold addFields.
  set (f := issue_field item) in *.
  assert (Hname : 1 <= String.length (field_name f) <= 256).
  { unfold f, issue_field. cbn [field_name]. rewrite length_append.
    pose proof (length_substring_le 50 (content_title (item_content item))) as Hle.
    split.
    - destruct (content_title (item_content item)); [contradiction|]. cbn. lia.
    - destruct (50 <? String.length (content_title (item_content item)))%nat; cbn; lia. }
  assert (Hvalue1 : 1 <= String.length (field_value f)).
  { unfold f, issue_field. cbn. lia. }
  replace (25 <? List.length (le_fields embed) + 1)%nat with false
    by (symmetry; apply Nat.ltb_ge; lia).
  replace (String.length (field_name f) <? 1)%nat with false
    by (symmetry; apply Nat.ltb_ge; lia).
  replace (256 <? String.length (field_name f))%nat with false
    by (symmetry; apply Nat.ltb_ge; lia).
  replace (String.length (field_value f) <? 1)%nat with false
    by (symmetry; apply Nat.ltb_ge; lia).
  replace (1024 <? String.length (field_value f))%nat with false
    by (symmetry; apply Nat.ltb_ge; lia).
  reflexivity.
Qed.

(** The loop changes the clock only. *)
Definition later_clock (d d' : Board) : Prop :=
  exists reads, d' = with_clock_reads d reads.

Lemma later_clock_refl (d : Board) : later_clock d d.
Proof. exists (clock_reads d). destruct d. reflexivity. Qed.

Lemma later_clock_trans (d1 d2 d3 : Board) :
  later_clock d1 d2 -> later_clock d2 d3 -> later_clock d1 d3.
Proof. intros [r1 ->] [r2 ->]. exists r2. reflexivity. Qed.

Definition four (embed : ListEmbed) : Prop := List.length (le_fields embed) = 4.

Lemma forEach_item_groups (items : list ProjectItem) :
  forall (index total : nat) (issueEmbeds : list ListEmbed) (currentEmbed : ListEmbed)
         (d : Board),
    Forall fits items ->
    items <> [] ->
    index + List.length items = total ->
    List.length (le_fields currentEmbed) = index mod 4 ->
    exists (d' : Board) (full : list ListEmbed) (last : ListEmbed),
      forEach_item items index total issueEmbeds currentEmbed d
        = (d', Return (issueEmbeds ++ full, last)) /\
      later_clock d d' /\
      List.concat (map le_fields (full ++ [last]))
        = le_fields currentEmbed ++ map issue_field items /\
      Forall four full /\
      1 <= List.length (le_fields last) <= 4 /\
      map le_title (full ++ [last])
        = le_title currentEmbed :: repeat None (List.length full).
Proof.
  induction items as [|item rest IH];
    intros index total issueEmbeds currentEmbed d Hfits Hnonempty Htotal Hfields;
    [contradiction|].
  inversion Hfits as [|? ? Hitem Hrest]; subst.
  cbn [forEach_item]. unfold bind at 1.
  rewrite (addFields_fits currentEmbed item Hitem) by divmod.
  cbv beta iota.
  set (currentEmbed' := {| le_title := le_title currentEmbed;
                           le_fields := le_fields currentEmbed ++ [issue_field item] |}).
  assert (Hfields' : List.length (le_fields currentEmbed') = index mod 4 + 1).
  { unfold currentEmbed'. cbn [le_fields]. rewrite length_app. cbn [List.length]. lia. }
  destruct rest as [|item' rest'].
  - (* the last item: it never closes its embed *)
    replace (index =? index + List.length [item] - 1)%nat with true
      by (symmetry; apply Nat.eqb_eq; cbn [List.length]; lia).
    rewrite andb_false_r. cbn [forEach_item]. unfold ret.
    exists d, [], currentEmbed'. rewrite app_nil_r. split; [reflexivity|].
    split; [apply later_clock_refl|]. cbn [app map List.concat repeat List.length].
    rewrite app_nil_r. split; [reflexivity|]. split; [constructor|].
    split; [divmod|reflexivity].
  - replace (index =? index + List.length (item :: item' :: rest') - 1)%nat with false
      by (symmetry; apply Nat.eqb_neq; cbn [List.length]; lia).
    cbn [negb]. rewrite andb_true_r.
    destruct ((index + 1) mod 4 =? 0)%nat eqn:Hfull.
    + (* the embed is full: it is closed, and a new one is opened *)
      apply Nat.eqb_eq in Hfull. unfold bind at 1, new_list_embed. unfold bind at 1.
      unfold Date_now at 1. cbv beta iota. unfold ret at 1. cbv beta iota.
      match goal with
      | |- context [forEach_item _ _ _ _ ?fresh ?d1] =>
          destruct (IH (S index) (index + List.length (item :: item' :: rest'))
                      (issueEmbeds ++ [currentEmbed']) fresh d1)
            as (d' & full & last & Hrun & Hclock & Hconcat & Hfour & Hlast & Htitles)
      end; [exact Hrest|discriminate|cbn [List.length]; lia
           |cbn [le_fields List.length]; replace (S index) with (index + 1) by lia; divmod|].
      exists d', (currentEmbed' :: full), last.
      rewrite Hrun, <- app_assoc. split; [reflexivity|]. split.
      * eapply later_clock_trans; [|exact Hclock]. eexists. reflexivity.
      * cbn [app map List.concat]. rewrite Hconcat. cbn [le_fields app].
        split; [unfold currentEmbed'; cbn; rewrite <- app_assoc; reflexivity|].
        split; [constructor; [unfold four; divmod|exact Hfour]|].
        split; [exact Hlast|]. cbn [le_title] in Htitles. rewrite Htitles. reflexivity.
    + (* the embed has room left *)
      apply Nat.eqb_neq in Hfull.
      destruct (IH (S index) (index + List.length (item :: item' :: rest'))
                  issueEmbeds currentEmbed' d)
        as (d' & full & last & Hrun & Hclock & Hconcat & Hfour & Hlast & Htitles);
        [exact Hrest|discriminate|cbn [List.length]; lia
        |replace (S index) with (index + 1) by lia; divmod|].
      exists d', full, last. split; [exact Hrun|]. split; [exact Hclock|].
      rewrite Hconcat. unfold currentEmbed'. cbn [le_fields].
      rewrite <- app_assoc. split; [reflexivity|]. split; [exact Hfour|].
      split; [exact Hlast|exact Htitles].
Qed.

(** A listing changes the log of the queries only. *)
Lemma listOpenIssues_board (d : Board) :
  exists calls, fst (listOpenIssues d) = with_graphql_calls d calls.
Proof.
  unfold listOpenIssues, try_catch. unfold bind at 1. rewrite getProjectDetails_run.
  destruct (getProjectNode_answer d _ _) as [response|e]; [|eexists; reflexivity].
  cbv beta iota. unfold bind at 1. rewrite getStatusField_run.
  destruct (getStatusField_answer _ _ _) as [fields|e]; [|eexists; reflexivity].
  destruct (connection_nodes "fields" fields); [|eexists; reflexivity].
  cbv beta iota. unfold bind at 1. rewrite getProjectItems_run.
  destruct (getProjectItems_answer _ _ _) as [nodes|e]; [|eexists; reflexivity].
  destruct (connection_nodes "items" nodes); [|eexists; reflexivity].
  cbv beta iota. destruct (processProjectItems_of _ _); eexists; reflexivity.
Qed.

(** The reply that lists the issues. *)
Definition listing_reply (d : Board) (total : nat) (embeds : list ListEmbed) : Reply :=
  {| reply_content := "**Issues in Project** (" ++ string_of_nat total ++ " total)";
     reply_embeds := Some embeds;
     reply_components :=
       Some [[ {| link_label := "View Project Board";
                  link_url := "https://github.com/orgs/" ++ env_GITHUB_REPO_OWNER d
                              ++ "/projects/" ++ to_template (env_GITHUB_PROJECT_NUMBER d)
                              ++ "/views/1";
                  link_style := Link |} ]];
     reply_ephemeral := None |}.

(** X27. The command lists the issues in embeds of four. When the listing
    returns and every item fits in a field, the command replies with the
    count of the items and with embeds that hold one field per item, in the
    order of the listing: every embed but the last holds four fields, the
    last holds one to four (none when nothing is listed), so there are
    [ceil(n / 4)] embeds, and one for an empty listing; the first embed
    carries the title, the others none. When the gateway rejects that reply,
    the command replies again, with the error. *)
Theorem list_issues_replies_in_embeds_of_four :
  forall (d d1 : Board) (sortedItems : list ProjectItem),
    listOpenIssues d = (d1, Return sortedItems) ->
    Forall fits sortedItems ->
    let total := List.length sortedItems in
    exists (full : list ListEmbed) (last : ListEmbed),
      replies (fst (list_issues d)) =
        replies d ++ listing_reply d total (full ++ [last])
        :: match reply_answer d (List.length (replies d)) with
           | None => []
           | Some e => [error_reply e]
           end /\
      List.concat (map le_fields (full ++ [last])) = map issue_field sortedItems /\
      Forall four full /\
      List.length (le_fields last) <= 4 /\
      (sortedItems <> [] -> 1 <= List.length (le_fields last)) /\
      List.length (full ++ [last]) = (if total =? 0 then 1 else (total + 3) / 4)%nat /\
      map le_title (full ++ [last]) =
        Some ("📝 Open Issues (" ++ string_of_nat total ++ ")")%string
        :: repeat None (List.length full).
Proof.
  intros d d1 sortedItems Hrun Hfits total.
  destruct (listOpenIssues_board d) as [calls Hboard]. rewrite Hrun in Hboard.
  cbn [fst] in Hboard. subst d1.
  set (d1 := with_graphql_calls d calls) in *.
  set (first := {| le_title := Some ("📝 Open Issues (" ++ string_of_nat total ++ ")")%string;
                   le_color := "#7289DA"; le_footer_text := "GitHub Issues";
                   le_footer_iconURL := "https://github.githubassets.com/favicons/favicon.png";
                   le_timestamp := clock d1 (clock_reads d1); le_fields := [] |}).
  assert (Hloop : exists d2 full last,
             forEach_item sortedItems 0 total [] first (with_clock_reads d1 (S (clock_reads d1)))
               = (d2, Return (full, last)) /\
             later_clock d1 d2 /\
             List.concat (map le_fields (full ++ [last])) = map issue_field sortedItems /\
             Forall four full /\
             List.length (le_fields last) <= 4 /\
             (sortedItems <> [] -> 1 <= List.length (le_fields last)) /\
             map le_title (full ++ [last]) = le_title first :: repeat None (List.length full)).
  { destruct sortedItems as [|item rest].
    - eexists. exists [], first. cbn. split; [reflexivity|]. split; [eexists; reflexivity|].
      repeat split; try reflexivity; try constructor; try lia. intros H. contradiction.
    - destruct (forEach_item_groups (item :: rest) 0 total [] first
                  (with_clock_reads d1 (S (clock_reads d1))))
        as (d2 & full & last & Hloop & Hclock & Hconcat & Hfour & Hlast & Htitles);
        [exact Hfits|discriminate|reflexivity|reflexivity|].
      exists d2, full, last. cbn [app] in Hloop. split; [exact Hloop|].
      split; [eapply later_clock_trans; [eexists; reflexivity|exact Hclock]|].
      split; [exact Hconcat|]. split; [exact Hfour|]. split; [lia|]. split; [lia|].
      exact Htitles. }
  destruct Hloop as (d2 & full & last & Hloop & [reads Hclock] & Hconcat & Hfour & Hle & Hge
                     & Htitles).
  exists full, last. split; [|split; [exact Hconcat|split; [exact Hfour|split; [exact Hle|
    split; [exact Hge|split; [|exact Htitles]]]]]].
  - unfold list_issues, try_catch. unfold bind at 1. rewrite Hrun. cbv beta iota zeta.
    fold total. unfold bind at 1, new_list_embed. unfold bind at 1. unfold Date_now at 1.
    cbv beta iota. unfold ret at 1. cbv beta iota. fold first. unfold bind at 1.
    rewrite Hloop. cbv beta iota. cbn [fst snd]. subst d2.
    unfold interaction_reply. cbn [replies with_clock_reads with_graphql_calls d1
      reply_answer env_GITHUB_REPO_OWNER env_GITHUB_PROJECT_NUMBER with_replies].
    unfold listing_reply, error_reply.
    destruct (reply_answer d (List.length (replies d))); cbn; [|reflexivity].
    rewrite <- app_assoc. reflexivity.
  - assert (Hcount : List.length (List.concat (map le_fields (full ++ [last])))
                     = 4 * List.length full + List.length (le_fields last)).
    { clear - Hfour. induction Hfour as [|e full He _ IH]; cbn.
      - rewrite app_nil_r. lia.
      - rewrite length_app. unfold four in He. cbn in IH. lia. }
    rewrite Hconcat, length_map in Hcount. fold total in Hcount.
    rewrite length_app. cbn [List.length].
    destruct (total =? 0)%nat eqn:Hzero.
    + apply Nat.eqb_eq in Hzero. lia.
    + apply Nat.eqb_neq in Hzero.
      assert (1 <= List.length (le_fields last)).
      { apply Hge. intros ->. apply Hzero. reflexivity. }
      divmod.
Qed.

(** *** What the listing shows of a status *)

(** X28. A listed item is shown with its own status. Every item of the
    listing has a status name that is not empty and is not the name of the
    board's [Done] option, and that name is what the command shows: the
    text [No status], that the command has ready for an item without status,
    is shown for no item of the listing, since the listing has dropped the
    items without status. *)
Theorem listed_items_show_their_own_status :
  forall (items : list ProjectItem) (statusField : StatusField) (item : ProjectItem),
    In item (processProjectItems items statusField) ->
    exists s : string,
      status_name item = str s /\
      s <> "" /\
      shown_status item = s /\
      (forall done, find_option "Done" statusField = Some done -> s <> option_name done).
Proof.
  intros items statusField item Hin.
  apply (Permutation_in _ (processProjectItems_Permutation items statusField)) in Hin.
  unfold kept_items in Hin. apply filter_In in Hin. destruct Hin as [_ Hkeep].
  unfold keep_item in Hkeep. cbv zeta in Hkeep. apply andb_true_iff in Hkeep.
  destruct Hkeep as [Htruthy Hother].
  apply truthy_spec in Htruthy. destruct Htruthy as (s & Hs & Hnonempty).
  exists s. split; [exact Hs|]. split; [exact Hnonempty|]. split.
  - unfold shown_status, or_else. rewrite Hs.
    apply String.eqb_neq in Hnonempty. rewrite Hnonempty. reflexivity.
  - intros done Hdone. rewrite Hs, Hdone in Hother. cbn in Hother.
    apply negb_true_iff, String.eqb_neq in Hother. exact Hother.
Qed.

End Platform.

Arguments NullNode {A}.
Arguments OtherNode {A}.
Arguments ProjectNode {A} nodes.

(* ===================================================================== *)
(** * Part III: the properties at concrete sessions                       *)
(* ===================================================================== *)

(** ** A concrete platform and world *)

Definition quote : string := String (ascii_of_nat 34) EmptyString.

(** A JSON string literal and a member [key: value] of an object. *)
Definition lit (s : string) : string := quote ++ s ++ quote.

Definition member (key value : string) : string := lit key ++ ":" ++ value.

Definition sample_issue : Issue :=
  {| title := "Login button does nothing";
     body := "## Description" ++ LF ++ LF
             ++ "Pressing the login button on the start page has no visible effect; "
             ++ "no request is sent and no error is shown to the user.";
     labels := ["bug"] |}.

Definition second_issue : Issue :=
  {| title := "Add a dark colour scheme";
     body := "## Problem Statement" ++ LF
             ++ "The application is hard to read at night. A dark colour scheme that "
             ++ "follows the setting of the operating system would help.";
     labels := ["enhancement"; "ui"] |}.

Definition third_issue : Issue :=
  {| title := "Listing is slow on big boards";
     body := "## Affected Component" ++ LF
             ++ "The listing command takes several seconds on boards with many items; "
             ++ "the items are fetched one page at a time without any caching.";
     labels := ["performance"] |}.

(** A completion with one well-formed issue. *)
Definition sample_completion : string :=
  "{" ++ member "issues"
    ("[{" ++ member "title" (lit sample_issue.(title)) ++ ","
          ++ member "body" (lit "...") ++ ","
          ++ member "labels" ("[" ++ lit "bug" ++ "]") ++ "}]") ++ "}".

(** A completion whose only issue has a title of nine characters. *)
Definition short_title_item : json :=
  JObject [ ("title", JString "Too short");
            ("body", JString sample_issue.(body));
            ("labels", JArray [JString "bug"]) ].

Definition short_title_completion : string :=
  "{" ++ member "issues"
    ("[{" ++ member "title" (lit "Too short") ++ ","
          ++ member "body" (lit "...") ++ ","
          ++ member "labels" ("[" ++ lit "bug" ++ "]") ++ "}]") ++ "}".

(** The part of [JSON.parse] that the sessions below use: the two
    completions (their bodies abridged in the text), a syntax error on
    anything else. *)
Definition sample_JSON_parse (content : string) : completion json :=
  if String.eqb content sample_completion
  then Return (JObject [("issues", JArray [issue_to_json sample_issue])])
  else if String.eqb content short_title_completion
  then Return (JObject [("issues", JArray [short_title_item])])
  else Throw {| name := "SyntaxError"; message := "Unexpected token in JSON" |}.

Definition sample_instruction : string :=
  "Analyze input to identify multiple distinct issues.".

Definition good_image : string := "https://cdn.example/screenshot.png".
Definition missing_image : string := "https://cdn.example/deleted.png".

(** A world in which the chat and the tracker accept everything, one image
    exists, and the completion service streams [sample_completion] in two
    chunks. *)
Definition calm_world : World :=
  {| GITHUB_REPO_OWNER := "acme"; GITHUB_REPO_NAME := "app";
     chat_log := []; chat_answer := fun _ => None;
     tracker_calls := []; tracker_issues := [];
     tracker_answer := fun n req =>
       Return {| number := S n;
                 html_url := "https://tracker.example/acme/app/issues/" ++ string_of_nat (S n);
                 created_title := req.(req_title) |};
     http := fun url =>
       if String.eqb url good_image
       then Return {| ok := true; status := 200; content_type := "image/png";
                      arrayBuffer := Return [137; 80; 78; 71] |}
       else Return {| ok := false; status := 404; content_type := "text/plain";
                      arrayBuffer := Return [] |};
     settles_at := fun _ => 0;
     llm_calls := [];
     llm_answer := fun _ _ =>
       Return ([substring 0 10 sample_completion;
                substring 10 (String.length sample_completion) sample_completion], None) |}.

(** The same world with a tracker that refuses its second call. *)
Definition second_call_fails : World :=
  {| GITHUB_REPO_OWNER := "acme"; GITHUB_REPO_NAME := "app";
     chat_log := []; chat_answer := fun _ => None;
     tracker_calls := []; tracker_issues := [];
     tracker_answer := fun n req =>
       if Nat.eqb n 1
       then Throw {| name := "HttpError"; message := "Validation Failed" |}
       else Return {| number := S n;
                      html_url := "https://tracker.example/acme/app/issues/"
                                  ++ string_of_nat (S n);
                      created_title := req.(req_title) |};
     http := calm_world.(http); settles_at := calm_world.(settles_at);
     llm_calls := []; llm_answer := calm_world.(llm_answer) |}.

Definition alice : User := {| user_id := "1001"; user_bot := false; user_tag := "alice#0001" |}.
Definition bob : User := {| user_id := "2002"; user_bot := false; user_tag := "bob#0002" |}.

Definition says (user : User) (s : string) : Message :=
  {| author := user; msg_content := s; attachments := [] |}.

Definition two_images : Assets :=
  {| text := ["The login button does nothing"];
     images := [missing_image; good_image];
     generatedIssues := None |}.

(** ** The listing *)

Definition board_status : StatusField :=
  {| field_name_ := "Status";
     options := [ {| option_id := "opt-backlog"; option_name := "Backlog" |};
                  {| option_id := "opt-progress"; option_name := "In Progress" |};
                  {| option_id := "opt-done"; option_name := "Done" |} ] |}.

Definition board_item (id : string) (fv : option FieldValue) : ProjectItem :=
  {| item_id := id; fieldValueByName := fv;
     item_content := {| content_number := 1; content_title := id; content_url := "";
                        content_body := None; content_assignees := [] |} |}.

Definition with_status (name0 optionId0 : string) : option FieldValue :=
  Some {| fv_name := Some name0; fv_optionId := Some optionId0 |}.

Definition item_in_progress := board_item "I1" (with_status "In Progress" "opt-progress").
Definition item_backlog := board_item "I2" (with_status "Backlog" "opt-backlog").
Definition item_done := board_item "I3" (with_status "Done" "opt-done").
Definition item_without_status := board_item "I4" None.

(** The example of the specification: the Done item is left out and the
    Backlog item comes first, and the item without a status is left out too. *)
Example listing_example :
  processProjectItems [item_in_progress; item_backlog; item_done; item_without_status]
                      board_status
  = [item_backlog; item_in_progress].
Proof. vm_compute. reflexivity. Qed.

(** C1, the claim at a concrete board: an item that lacks a status value is an
    input of the listing and is not in its output. *)
Lemma listing_drops_item_without_status :
  In item_without_status [item_in_progress; item_without_status] /\
  fieldValueByName item_without_status = None /\
  processProjectItems [item_in_progress; item_without_status] board_status
    = [item_in_progress] /\
  ~ In item_without_status
       (processProjectItems [item_in_progress; item_without_status] board_status).
Proof.
  split; [right; left; reflexivity|]. split; [reflexivity|].
  assert (Hout : processProjectItems [item_in_progress; item_without_status] board_status
                 = [item_in_progress]) by (vm_compute; reflexivity).
  split; [exact Hout|]. rewrite Hout. intros [H|[]]. discriminate H.
Qed.

(** ** The collection window *)

Definition open_session : Bot := (new_session alice false false, calm_world).

(** C2, the claim at a concrete session: during the [OPEN] window of a session
    that [alice] started, a message of [bob], who is no bot, is appended to
    the bundle. *)
Lemma message_of_another_user_is_collected :
  OPEN (fst open_session) /\
  user_bot (author (says bob "It also fails on mobile")) = false /\
  user_id (author (says bob "It also fails on mobile")) <> user_id (invoker (fst open_session)) /\
  assets (fst (step sample_JSON_parse sample_instruction open_session
                 (MessageCreate (says bob "It also fails on mobile"))))
    = {| text := ["It also fails on mobile"]; images := []; generatedIssues := None |} /\
  assets (fst (step sample_JSON_parse sample_instruction open_session
                 (MessageCreate (says bob "It also fails on mobile"))))
    <> assets (fst open_session).
Proof.
  split; [split; reflexivity|]. split; [reflexivity|]. split; [discriminate|].
  split; [vm_compute; reflexivity|]. vm_compute. discriminate.
Qed.

Lemma collection_window_ignores_bots_only_witness :
  (forall msg, user_bot (author msg) = true ->
     step sample_JSON_parse sample_instruction open_session (MessageCreate msg) = open_session) /\
  (forall msg msg',
      user_bot (author msg) = false -> user_bot (author msg') = false ->
      msg_content msg = msg_content msg' ->
      attachments msg = attachments msg' ->
      step sample_JSON_parse sample_instruction open_session (MessageCreate msg)
      = step sample_JSON_parse sample_instruction open_session (MessageCreate msg')).
Proof.
  apply (collection_window_ignores_bots_only sample_JSON_parse sample_instruction open_session).
  split; reflexivity.
Defined.

(** ** The review window *)

(** The custom ids of every button that a logged send or edit carries. *)
Definition offered_decisions (log : list ChatOp) : list string :=
  flat_map (fun op =>
              match op with
              | ChannelSend p | MessageEdit _ p =>
                  match p.(components) with
                  | Some rows => map customId (List.concat rows)
                  | None => []
                  end
              | _ => []
              end) log.

(** A preview-mode session of [alice]: one message, then [!done]; generation
    succeeds and the review message is sent. *)
Definition review_session : Bot :=
  run sample_JSON_parse sample_instruction
      (new_session alice true false, calm_world)
      [ MessageCreate (says alice "The login button does nothing");
        MessageCreate (says alice "!done") ].

Definition review_of (b : Bot) : Review :=
  match review (fst b) with
  | Some r => r
  | None => {| review_issues := []; previewEmbeds := []; previewMessage := 0;
               buttonCollector_ended := true; editCollectors := 0 |}
  end.

(** C3, the code at a preview-mode session: once the review is set up for the
    generated issue, the buttons the bot has offered are [confirm_issues] and
    [cancel_issues], two decisions; [edit] is not among them, though the
    listener has a case for it and the unused row [buttons] holds it. *)
Theorem review_offers_confirm_and_cancel_only :
  option_map review_issues (review (fst review_session)) = Some [sample_issue] /\
  offered_decisions (chat_log (snd review_session)) = ["confirm_issues"; "cancel_issues"] /\
  ~ In "edit" (offered_decisions (chat_log (snd review_session))) /\
  In "edit" (map customId buttons).
Proof.
  assert (Hoffered : offered_decisions (chat_log (snd review_session))
                     = ["confirm_issues"; "cancel_issues"]) by (vm_compute; reflexivity).
  split; [vm_compute; reflexivity|]. split; [exact Hoffered|]. split.
  - rewrite Hoffered. intros [H|[H|[]]]; discriminate H.
  - right. left. reflexivity.
Qed.

Lemma review_expiry_never_commits_witness :
  chat_log (snd (run sample_JSON_parse sample_instruction review_session
                   ([ButtonPress bob "confirm_issues";
                     MessageCreate (says bob "ship it")] ++ [ReviewWindowExpired])))
    = chat_log (snd review_session) ++
      [MessageEdit (previewMessage (review_of review_session))
         {| content := None; embeds := None; components := Some [] |}] /\
  option_map buttonCollector_ended
    (review (fst (run sample_JSON_parse sample_instruction review_session
                    ([ButtonPress bob "confirm_issues";
                      MessageCreate (says bob "ship it")] ++ [ReviewWindowExpired]))))
    = Some true /\
  tracker_calls (snd (run sample_JSON_parse sample_instruction review_session
                        ([ButtonPress bob "confirm_issues";
                          MessageCreate (says bob "ship it")]
                         ++ [ReviewWindowExpired]
                         ++ [ButtonPress alice "confirm_issues"])))
    = tracker_calls (snd review_session) /\
  tracker_issues (snd (run sample_JSON_parse sample_instruction review_session
                         ([ButtonPress bob "confirm_issues";
                           MessageCreate (says bob "ship it")]
                          ++ [ReviewWindowExpired]
                          ++ [ButtonPress alice "confirm_issues"])))
    = tracker_issues (snd review_session).
Proof.
  apply (review_expiry_never_commits sample_JSON_parse sample_instruction review_session
           (review_of review_session)
           [ButtonPress bob "confirm_issues"; MessageCreate (says bob "ship it")]
           [ButtonPress alice "confirm_issues"]).
  - repeat split; vm_compute; reflexivity.
  - repeat constructor. vm_compute. discriminate.
Defined.

(** The same session when [alice] confirms in time: the issue is created. *)
Example confirmed_review_commits :
  map req_title
      (tracker_calls (snd (run sample_JSON_parse sample_instruction review_session
                             [ButtonPress alice "confirm_issues"])))
  = [sample_issue.(title)].
Proof. vm_compute. reflexivity. Qed.

(** ** The content validator *)

Lemma validateAIResponse_rejects_whole_batch_witness :
  exists errors : list ZodIssue,
    errors <> [] /\
    IssueSchema_safeParse (Some (JArray [short_title_item])) = Invalid errors /\
    validateAIResponse sample_JSON_parse short_title_completion
      = Throw (validation_error errors) /\
    (forall data, validateAIResponse sample_JSON_parse short_title_completion <> Return data).
Proof.
  apply (validateAIResponse_rejects_whole_batch sample_JSON_parse short_title_completion
           (JObject [("issues", JArray [short_title_item])]) [short_title_item] 0
           short_title_item).
  - vm_compute. reflexivity.
  - reflexivity.
  - reflexivity.
  - apply (short_title_violates_schema _ "Too short"); [reflexivity|cbn; lia].
Defined.

(** The example of the specification, evaluated: the one error of the batch
    names the title of the first candidate. *)
Example short_title_is_refused :
  validateAIResponse sample_JSON_parse short_title_completion
  = Throw (new_Error
             "Validation failed: 0,title: String must contain at least 10 character(s)").
Proof. vm_compute. reflexivity. Qed.

Lemma validateAIResponse_idempotent_witness :
  IssueSchema_safeParse (Some (JArray (map issue_to_json [sample_issue])))
    = Valid [sample_issue] /\
  (forall content',
      sample_JSON_parse content' = Return (revalidation_input [sample_issue]) ->
      validateAIResponse sample_JSON_parse content' = Return [sample_issue]).
Proof.
  apply (validateAIResponse_idempotent sample_JSON_parse sample_completion [sample_issue]).
  vm_compute. reflexivity.
Defined.

(** ** Images *)

Definition forbidden_image : string := "https://cdn.example/private.png".

(** The world of [calm_world] with a third reference, that the HTTP service
    refuses; the refusal comes first, the answer for [missing_image] last. *)
Definition slow_network : World :=
  {| GITHUB_REPO_OWNER := "acme"; GITHUB_REPO_NAME := "app";
     chat_log := []; chat_answer := fun _ => None;
     tracker_calls := []; tracker_issues := [];
     tracker_answer := calm_world.(tracker_answer);
     http := fun url =>
       if String.eqb url forbidden_image
       then Return {| ok := false; status := 403; content_type := "text/plain";
                      arrayBuffer := Return [] |}
       else calm_world.(http) url;
     settles_at := fun url =>
       if String.eqb url forbidden_image then 10
       else if String.eqb url good_image then 20 else 30;
     llm_calls := []; llm_answer := calm_world.(llm_answer) |}.

Definition three_images : Assets :=
  {| text := ["The login button does nothing"; "It also fails on mobile"];
     images := [missing_image; good_image; forbidden_image];
     generatedIssues := None |}.

Lemma processImages_drops_failed_images_witness :
  (exists (w1 : World) (settled : list string),
      processImages three_images.(images) slow_network
        = (w1, Return (fetched_images slow_network three_images.(images))) /\
      Permutation settled three_images.(images) /\
      StronglySorted (fun url url' => settles_at slow_network url <= settles_at slow_network url')
        settled /\
      chat_log w1 = chat_log slow_network ++ skip_warnings slow_network settled) /\
  (exists w2 r,
      generateIssueContent sample_JSON_parse sample_instruction three_images slow_network
        = (w2, r) /\
      llm_calls w2 =
        llm_calls slow_network
        ++ [[ {| role := "system"; parts := [TextPart sample_instruction] |};
              {| role := "user";
                 parts := TextPart (join (LF ++ LF) three_images.(text))
                          :: fetched_images slow_network three_images.(images) |} ]]).
Proof.
  apply (processImages_drops_failed_images sample_JSON_parse sample_instruction
           slow_network three_images).
  intros j _. reflexivity.
Defined.

(** The three references, evaluated: the image that is fetched goes to the
    completion service as a data URL, after the text; the two others are
    announced in the order in which their fetches fail, the refused one
    before the missing one, and the generation goes on to its end. *)
Example one_image_of_three_is_kept :
  let b := generateIssueContent sample_JSON_parse sample_instruction three_images
             slow_network in
  snd b = Return [sample_issue] /\
  llm_calls (fst b) =
    [[ {| role := "system"; parts := [TextPart sample_instruction] |};
       {| role := "user";
          parts := [ TextPart ("The login button does nothing" ++ LF ++ LF
                               ++ "It also fails on mobile");
                     ImageUrlPart "data:image/png;base64,iVBORw==" ] |} ]] /\
  firstn 3 (chat_log (fst b)) =
    [ ChannelSend (plain "⚠️ Skipping image: HTTP 403");
      ChannelSend (plain "⚠️ Skipping image: HTTP 404");
      ChannelSend (plain "Starting generation...") ].
Proof. vm_compute. repeat split; reflexivity. Qed.

Definition gateway_error : JsError :=
  {| name := "DiscordAPIError"; message := "Missing Permissions" |}.

(** The world of [calm_world] with a chat that rejects its first request. *)
Definition warning_rejected : World :=
  {| GITHUB_REPO_OWNER := "acme"; GITHUB_REPO_NAME := "app";
     chat_log := [];
     chat_answer := fun n => if Nat.eqb n 0 then Some gateway_error else None;
     tracker_calls := []; tracker_issues := [];
     tracker_answer := calm_world.(tracker_answer);
     http := calm_world.(http); settles_at := calm_world.(settles_at);
     llm_calls := []; llm_answer := calm_world.(llm_answer) |}.

(** C6, the claim at a chat that rejects the warning: the image that exists
    is fetched when it is alone, and with the missing reference beside it
    the whole batch is lost. [processImages] rejects with the error of the
    chat, [generateIssueContent] throws it, and no request is made to the
    completion service: the failing reference has aborted the generation. *)
Lemma rejected_warning_aborts_the_batch :
  fetch_succeeds warning_rejected missing_image = None /\
  processImages [good_image] warning_rejected
    = (warning_rejected, Return [ImageUrlPart "data:image/png;base64,iVBORw=="]) /\
  snd (processImages two_images.(images) warning_rejected) = Throw gateway_error /\
  snd (generateIssueContent sample_JSON_parse sample_instruction two_images warning_rejected)
    = Throw gateway_error /\
  llm_calls (fst (generateIssueContent sample_JSON_parse sample_instruction two_images
                    warning_rejected)) = [].
Proof. repeat split; vm_compute; reflexivity. Qed.

(** The two references of the bundle, evaluated: the missing image is
    announced and dropped, the other one is kept as a data URL. *)
Example one_image_of_two_is_kept :
  fetched_images calm_world two_images.(images)
    = [ImageUrlPart "data:image/png;base64,iVBORw=="] /\
  skip_warnings calm_world two_images.(images)
    = [ChannelSend (plain "⚠️ Skipping image: HTTP 404")].
Proof. split; vm_compute; reflexivity. Qed.

(** ** Committing a batch *)

Definition no_images : Assets :=
  {| text := ["three things"]; images := []; generatedIssues := None |}.

Definition one_image : Assets :=
  {| text := ["three things"]; images := [good_image]; generatedIssues := None |}.

Lemma createIssues_first_failure_witness :
  exists w',
    createIssues [sample_issue; second_issue; third_issue] no_images second_call_fails
      = (w', Throw {| name := "HttpError"; message := "Validation Failed" |}) /\
    tracker_calls w' =
      tracker_calls second_call_fails
      ++ batch_requests second_call_fails
           (firstn 2 [sample_issue; second_issue; third_issue]) no_images /\
    map fst (tracker_issues w') =
      map fst (tracker_issues second_call_fails)
      ++ batch_requests second_call_fails
           (firstn 1 [sample_issue; second_issue; third_issue]) no_images /\
    List.length (tracker_issues w') = List.length (tracker_issues second_call_fails) + 1.
Proof.
  apply (createIssues_first_failure second_call_fails
           [sample_issue; second_issue; third_issue] no_images 1 second_issue).
  - reflexivity.
  - intros [|j] issue Hj Hnth; [|lia]. injection Hnth as <-. eexists. reflexivity.
  - reflexivity.
Defined.

(** The example of the specification, evaluated: of three issues whose second
    creation fails, one exists afterwards and two calls were made. *)
Example second_of_three_fails :
  let '(w', r) := createIssues [sample_issue; second_issue; third_issue] no_images
                    second_call_fails in
  r = Throw {| name := "HttpError"; message := "Validation Failed" |} /\
  map req_title (tracker_calls w') = [sample_issue.(title); second_issue.(title)] /\
  map (fun entry => req_title (fst entry)) (tracker_issues w') = [sample_issue.(title)].
Proof. vm_compute. repeat split. Qed.

Lemma createIssues_appends_every_image_witness :
  exists new : list (IssueRequest * CreatedIssue),
    tracker_issues (fst (createIssues [sample_issue; second_issue] one_image calm_world))
      = tracker_issues calm_world ++ new /\
    map snd new =
      [ {| number := 1; html_url := "https://tracker.example/acme/app/issues/1";
           created_title := sample_issue.(title) |};
        {| number := 2; html_url := "https://tracker.example/acme/app/issues/2";
           created_title := second_issue.(title) |} ] /\
    Forall2 (fun (issue : Issue) (entry : IssueRequest * CreatedIssue) =>
               req_title (fst entry) = title issue /\
               req_labels (fst entry) = labels issue /\
               req_body (fst entry) =
                 (body issue ++ LF ++ LF ++
                  join LF (map (fun url => "![image](" ++ url ++ ")") (images one_image)))%string)
            [sample_issue; second_issue] new.
Proof.
  apply (createIssues_appends_every_image_to_every_issue calm_world
           (fst (createIssues [sample_issue; second_issue] one_image calm_world))
           [sample_issue; second_issue] one_image).
  vm_compute. reflexivity.
Defined.

(** ** More of the content validator *)

(** A [JSON.parse] given by a table: the value of each text of the table, a
    syntax error on anything else. *)
Definition JSON_parse_of (table : list (string * json)) (content : string) : completion json :=
  match find (fun entry => String.eqb (fst entry) content) table with
  | Some entry => Return (snd entry)
  | None => Throw {| name := "SyntaxError"; message := "Unexpected token in JSON" |}
  end.

(** A candidate without labels, with a key that the schema does not name. *)
Definition terse_item : json :=
  JObject [ ("title", JString second_issue.(title));
            ("priority", JString "high");
            ("body", JString second_issue.(body)) ].

Definition terse_issue : Issue :=
  {| title := second_issue.(title); body := second_issue.(body); labels := [] |}.

Definition terse_completion : string :=
  "{" ++ member "issues"
    ("[{" ++ member "title" (lit second_issue.(title)) ++ ","
          ++ member "priority" (lit "high") ++ ","
          ++ member "body" (lit "...") ++ "}]") ++ "}".

(** A completion that is a bare array of issues. *)
Definition bare_array_completion : string :=
  "[{" ++ member "title" (lit sample_issue.(title)) ++ ","
       ++ member "body" (lit "...") ++ ","
       ++ member "labels" ("[" ++ lit "bug" ++ "]") ++ "}]".

(** A completion with a conforming candidate between two violating ones. *)
Definition no_body_item : json := JObject [ ("title", JString third_issue.(title)) ].

Definition mixed_items : list json :=
  [short_title_item; issue_to_json sample_issue; no_body_item].

Definition mixed_completion : string := "{" ++ member "issues" "[ three candidates ]" ++ "}".

Definition table_JSON_parse : string -> completion json :=
  JSON_parse_of
    [ (sample_completion, JObject [("issues", JArray [issue_to_json sample_issue])]);
      (terse_completion, JObject [("issues", JArray [terse_item])]);
      (bare_array_completion, JArray [issue_to_json sample_issue]);
      (mixed_completion, JObject [("issues", JArray mixed_items)]) ].

Lemma validateAIResponse_returns_conforming_issues_witness :
  exists (members : list (string * json)) (items : list json),
    table_JSON_parse terse_completion = Return (JObject members) /\
    lookup "issues" members = Some (JArray items) /\
    Forall2 (fun item issue => carries item issue /\ conforms issue) items [terse_issue].
Proof.
  apply (validateAIResponse_returns_conforming_issues table_JSON_parse terse_completion
           [terse_issue]).
  vm_compute. reflexivity.
Defined.

Lemma validateAIResponse_accepts_conforming_issues_witness :
  validateAIResponse table_JSON_parse terse_completion = Return [terse_issue].
Proof.
  apply (validateAIResponse_accepts_conforming_issues table_JSON_parse terse_completion
           [("issues", JArray [terse_item])] [terse_item] [terse_issue]).
  - vm_compute. reflexivity.
  - reflexivity.
  - constructor; [|constructor]. split.
    + eexists. split; [reflexivity|]. split; [reflexivity|]. split; [reflexivity|].
      right. split; reflexivity.
    + split; [vm_compute; lia|]. split; [vm_compute; lia|constructor].
Defined.

Lemma validateAIResponse_requires_an_array_of_issues_witness :
  validateAIResponse table_JSON_parse bare_array_completion
  = Throw (new_Error "Validation failed: : Required").
Proof.
  destruct (validateAIResponse_requires_an_array_of_issues table_JSON_parse
              bare_array_completion (JArray [issue_to_json sample_issue]))
    as (e & Hthrow & _ & Hrequired & _).
  - vm_compute. reflexivity.
  - intros items. discriminate.
  - rewrite Hthrow, (Hrequired I). reflexivity.
Defined.

Lemma validation_errors_name_the_violating_candidates_witness :
  exists errors,
    validateAIResponse table_JSON_parse mixed_completion = Throw (validation_error errors) /\
    (forall k item, nth_error mixed_items k = Some item -> violates_schema item ->
       exists e, In e errors /\ hd_error (issue_path e) = Some (Index k)) /\
    (forall e, In e errors ->
       exists k item, hd_error (issue_path e) = Some (Index k) /\
                      nth_error mixed_items k = Some item /\ violates_schema item).
Proof.
  apply (validation_errors_name_the_violating_candidates table_JSON_parse mixed_completion
           [("issues", JArray mixed_items)] mixed_items).
  - vm_compute. reflexivity.
  - reflexivity.
  - exists 2, no_body_item. split; [reflexivity|]. eexists. vm_compute. reflexivity.
Defined.

(** The three candidates, evaluated: the error names the first and the
    third, and says nothing of the second. *)
Example mixed_batch_is_refused :
  validateAIResponse table_JSON_parse mixed_completion
  = Throw (new_Error
             ("Validation failed: "
              ++ "0,title: String must contain at least 10 character(s), "
              ++ "2,body: Required")).
Proof. vm_compute. reflexivity. Qed.

(** ** The stream of the completion *)

Definition sample_chunks : list string :=
  [ substring 0 15 sample_completion;
    substring 15 30 sample_completion;
    substring 45 (String.length sample_completion) sample_completion ].

Definition connection_lost : JsError :=
  {| name := "APIConnectionError"; message := "Connection error." |}.

Definition chat_down : JsError :=
  {| name := "DiscordAPIError"; message := "Missing Access" |}.

(** The world of [calm_world] with a chat that accepts its first request
    only. *)
Definition chat_accepts_once : World :=
  {| GITHUB_REPO_OWNER := "acme"; GITHUB_REPO_NAME := "app";
     chat_log := [];
     chat_answer := fun n => if Nat.eqb n 0 then None else Some chat_down;
     tracker_calls := []; tracker_issues := [];
     tracker_answer := calm_world.(tracker_answer);
     http := calm_world.(http); settles_at := calm_world.(settles_at);
     llm_calls := []; llm_answer := calm_world.(llm_answer) |}.

(** The same with a chat that accepts nothing. *)
Definition chat_rejects : World :=
  {| GITHUB_REPO_OWNER := "acme"; GITHUB_REPO_NAME := "app";
     chat_log := []; chat_answer := fun _ => Some chat_down;
     tracker_calls := []; tracker_issues := [];
     tracker_answer := calm_world.(tracker_answer);
     http := calm_world.(http); settles_at := calm_world.(settles_at);
     llm_calls := []; llm_answer := calm_world.(llm_answer) |}.

Lemma handleAIStream_validates_the_whole_stream_witness :
  exists (w' : World) (updates : list ChatOp),
    handleAIStream table_JSON_parse (sample_chunks, None) calm_world
      = (w', Return [sample_issue]) /\
    chat_log w' =
      [starting_generation] ++ updates
      ++ [generation_complete 0 sample_completion] /\
    List.length updates <= 3.
Proof.
  destruct (handleAIStream_validates_the_whole_stream table_JSON_parse calm_world sample_chunks)
    as (w' & updates & Hrun & Hlog & _ & Hlen); [intros n; reflexivity|].
  exists w', updates.
  assert (Hcontent : content_of sample_chunks = sample_completion)
    by (vm_compute; reflexivity).
  assert (Hvalid : validateAIResponse table_JSON_parse sample_completion
                   = Return [sample_issue]) by (vm_compute; reflexivity).
  rewrite Hcontent, Hvalid in Hrun, Hlog. rewrite app_nil_r in Hlog.
  split; [exact Hrun|]. split; [exact Hlog|exact Hlen].
Defined.

Lemma handleAIStream_discards_a_broken_stream_witness :
  validateAIResponse table_JSON_parse (content_of sample_chunks) = Return [sample_issue] /\
  exists (w' : World) (updates : list ChatOp),
    handleAIStream table_JSON_parse (sample_chunks, Some connection_lost) calm_world
      = (w', Throw connection_lost) /\
    chat_log w' = [starting_generation] ++ updates ++ [generation_failed 0].
Proof.
  split; [vm_compute; reflexivity|].
  destruct (handleAIStream_discards_a_broken_stream table_JSON_parse calm_world sample_chunks
              connection_lost) as (w' & updates & Hrun & Hlog & _); [intros n; reflexivity|].
  exists w', updates. split; [exact Hrun|exact Hlog].
Defined.

Lemma handleAIStream_fails_when_the_status_cannot_be_edited_witness :
  validateAIResponse table_JSON_parse (content_of sample_chunks) = Return [sample_issue] /\
  exists w',
    handleAIStream table_JSON_parse (sample_chunks, None) chat_accepts_once
      = (w', Throw chat_down).
Proof.
  split; [vm_compute; reflexivity|].
  apply (handleAIStream_fails_when_the_status_cannot_be_edited table_JSON_parse
           chat_accepts_once (sample_chunks, None) chat_down).
  - reflexivity.
  - intros [|n] Hn; [cbn in Hn; lia|reflexivity].
Defined.

(** The broken stream, evaluated: with a chat that accepts its first request
    only, the status message is never edited and the content is lost. *)
Example status_message_is_never_edited :
  map (fun op => match op with
                 | ChannelSend _ => "send"
                 | MessageEdit _ _ => "edit"
                 | _ => "other"
                 end)
      (chat_log (fst (handleAIStream table_JSON_parse (sample_chunks, None)
                        chat_accepts_once)))
  = ["send"; "edit"; "edit"].
Proof. vm_compute. reflexivity. Qed.

(** ** Generation *)

Lemma generation_aborts_when_a_warning_is_rejected_witness :
  exists w',
    generateIssueContent table_JSON_parse sample_instruction two_images chat_rejects
      = (w', Throw chat_down) /\
    llm_calls w' = llm_calls chat_rejects.
Proof.
  apply (generation_aborts_when_a_warning_is_rejected table_JSON_parse sample_instruction
           chat_rejects two_images chat_down).
  - intros n. reflexivity.
  - apply Exists_cons_hd. eexists. vm_compute. reflexivity.
Defined.

(** ** More of the session *)

Definition screenshot : Attachment :=
  {| att_url := good_image; att_name := "screenshot.png" |}.

Definition deleted_screenshot : Attachment :=
  {| att_url := missing_image; att_name := "deleted.png" |}.

Definition shouted_done : Message :=
  {| author := bob; msg_content := "!DoNe"; attachments := [screenshot] |}.

Definition report_with_screenshots : Message :=
  {| author := bob; msg_content := "It also fails on mobile";
     attachments := [screenshot; deleted_screenshot] |}.

Definition service_unavailable : JsError :=
  {| name := "APIError"; message := "503 Service Unavailable" |}.

(** The world of [calm_world] with a completion service that is down. *)
Definition llm_down : World :=
  {| GITHUB_REPO_OWNER := "acme"; GITHUB_REPO_NAME := "app";
     chat_log := []; chat_answer := fun _ => None;
     tracker_calls := []; tracker_issues := [];
     tracker_answer := calm_world.(tracker_answer);
     http := calm_world.(http); settles_at := calm_world.(settles_at);
     llm_calls := []; llm_answer := fun _ _ => Throw service_unavailable |}.

Definition late_events : list Event :=
  [ MessageCreate (says alice "One more thing");
    MessageCreate (says alice "!done");
    ButtonPress alice "confirm_issues";
    ReviewWindowExpired;
    EditWindowExpired ].

Lemma done_ends_the_collection_in_any_case_witness :
  let b' := step sample_JSON_parse sample_instruction open_session
              (MessageCreate shouted_done) in
  collector_ended (fst b') = true /\
  text (assets (fst b')) = [] /\
  images (assets (fst b')) = [].
Proof.
  apply (done_ends_the_collection_in_any_case sample_JSON_parse sample_instruction
           open_session shouted_done).
  - split; reflexivity.
  - reflexivity.
  - reflexivity.
Defined.

Lemma session_without_preview_ends_with_its_collection_witness :
  run sample_JSON_parse sample_instruction open_session
      (CollectionWindowExpired :: late_events)
  = step sample_JSON_parse sample_instruction open_session CollectionWindowExpired.
Proof.
  apply (session_without_preview_ends_with_its_collection sample_JSON_parse
           sample_instruction (new_session alice false false) calm_world
           CollectionWindowExpired late_events).
  - split; reflexivity.
  - reflexivity.
  - left. reflexivity.
Defined.

Lemma failed_generation_ends_the_session_witness :
  exists w1,
    run sample_JSON_parse sample_instruction (new_session alice true false, llm_down)
        (MessageCreate (says bob "!done") :: late_events)
    = (with_collector_ended (new_session alice true false) true, w1) /\
    tracker_calls w1 = [] /\ tracker_issues w1 = [].
Proof.
  exists (fst (generateIssueContent sample_JSON_parse sample_instruction
                 (assets (new_session alice true false)) llm_down)).
  apply (failed_generation_ends_the_session sample_JSON_parse sample_instruction
           (new_session alice true false) llm_down _ service_unavailable
           (MessageCreate (says bob "!done")) late_events).
  - split; reflexivity.
  - right. exists (says bob "!done"). split; [reflexivity|]. split; reflexivity.
  - vm_compute. reflexivity.
Defined.

Lemma open_window_collects_attachments_then_text_witness :
  let b' := step sample_JSON_parse sample_instruction open_session
              (MessageCreate report_with_screenshots) in
  OPEN (fst b') /\
  images (assets (fst b')) = [good_image; missing_image] /\
  text (assets (fst b')) = ["It also fails on mobile"] /\
  chat_log (snd b') =
    [added_image screenshot; added_image deleted_screenshot;
     added_text "It also fails on mobile"] /\
  llm_calls (snd b') = [] /\
  tracker_calls (snd b') = [].
Proof.
  apply (open_window_collects_attachments_then_text sample_JSON_parse sample_instruction
           open_session report_with_screenshots).
  - split; reflexivity.
  - intros n. reflexivity.
  - reflexivity.
  - vm_compute. discriminate.
Defined.

Lemma unacknowledged_attachment_stays_in_the_bundle_witness :
  let b' := fst (collect_attachment screenshot (new_session alice false false, chat_rejects)) in
  images (assets (fst b')) = [good_image] /\
  chat_log (snd b') = [added_image screenshot; failed_attachment screenshot].
Proof.
  apply (unacknowledged_attachment_stays_in_the_bundle (new_session alice false false)
           chat_rejects screenshot chat_down).
  reflexivity.
Defined.

(** ** More of the review *)

Definition preview_events : list Event :=
  [ MessageCreate (says alice "The login button does nothing");
    MessageCreate (says alice "!done");
    ButtonPress bob "confirm_issues";
    ButtonPress alice "edit";
    MessageCreate (says alice "Mention the browser");
    ButtonPress alice "cancel_issues";
    ReviewWindowExpired ].

Lemma preview_creates_nothing_without_confirmation_witness :
  let b := (new_session alice true false, calm_world) in
  tracker_calls (snd (run sample_JSON_parse sample_instruction b preview_events)) = [] /\
  tracker_issues (snd (run sample_JSON_parse sample_instruction b preview_events)) = [].
Proof.
  apply (preview_creates_nothing_without_confirmation sample_JSON_parse sample_instruction
           (new_session alice true false, calm_world) preview_events).
  - reflexivity.
  - unfold preview_events.
    repeat (apply Forall_cons;
            [cbn; first [intros [H _]; discriminate H | intros [_ H]; discriminate H | intros []]|]).
    apply Forall_nil.
Defined.

(** The review of [review_session], cancelled. *)
Definition cancelled_session : Bot :=
  step sample_JSON_parse sample_instruction review_session
       (ButtonPress alice "cancel_issues").

Lemma decided_session_never_calls_the_tracker_witness :
  let b' := run sample_JSON_parse sample_instruction cancelled_session late_events in
  DECIDED (fst b') /\
  tracker_calls (snd b') = tracker_calls (snd cancelled_session) /\
  tracker_issues (snd b') = tracker_issues (snd cancelled_session) /\
  option_map review_issues (review (fst b'))
    = option_map review_issues (review (fst cancelled_session)).
Proof.
  apply (decided_session_never_calls_the_tracker sample_JSON_parse sample_instruction
           cancelled_session late_events).
  split; [vm_compute; reflexivity|].
  exists (review_of cancelled_session). split; vm_compute; reflexivity.
Defined.

Lemma only_the_invoking_user_decides_and_edits_witness :
  (forall pressed,
      step sample_JSON_parse sample_instruction review_session (ButtonPress bob pressed)
      = review_session) /\
  (forall msg,
      collector_ended (fst review_session) = true -> author msg = bob ->
      step sample_JSON_parse sample_instruction review_session (MessageCreate msg)
      = review_session).
Proof.
  apply (only_the_invoking_user_decides_and_edits sample_JSON_parse sample_instruction
           review_session bob).
  vm_compute. discriminate.
Defined.

Definition edit_events : list Event :=
  [ ButtonPress alice "edit"; MessageCreate (says alice "Mention the browser") ].

Lemma confirmation_commits_the_first_generation_witness :
  let b1 := run sample_JSON_parse sample_instruction review_session edit_events in
  exists n, n <= List.length (review_issues (review_of review_session)) /\
    tracker_calls (snd (step sample_JSON_parse sample_instruction b1
                          (ButtonPress alice "confirm_issues"))) =
      tracker_calls (snd b1)
      ++ batch_requests (snd b1) (firstn n (review_issues (review_of review_session)))
           (assets (fst b1)).
Proof.
  apply (confirmation_commits_the_first_generation sample_JSON_parse sample_instruction
           review_session (review_of review_session) edit_events alice).
  - vm_compute. reflexivity.
  - vm_compute. reflexivity.
Defined.

Lemma session_without_preview_generates_at_most_once_witness :
  let b' := run sample_JSON_parse sample_instruction open_session
              (MessageCreate (says bob "It also fails on mobile")
               :: CollectionWindowExpired :: late_events) in
  review (fst b') = None /\
  (collector_ended (fst b') = false ->
     llm_calls (snd b') = llm_calls (snd open_session) /\
     tracker_calls (snd b') = tracker_calls (snd open_session)) /\
  List.length (llm_calls (snd b')) <= S (List.length (llm_calls (snd open_session))).
Proof.
  apply (session_without_preview_generates_at_most_once sample_JSON_parse sample_instruction
           open_session).
  - split; reflexivity.
  - reflexivity.
Defined.

(** The review of [review_session] with one edit request pending. *)
Definition editing_session : Bot :=
  step sample_JSON_parse sample_instruction review_session (ButtonPress alice "edit").

Definition edit_message : Message := says alice "Mention the browser".

(** The world in which the bot regenerates, and the world after. *)
Definition regenerating_world : World :=
  with_chat_log (snd editing_session)
    (chat_log (snd editing_session)
     ++ [ChannelSend (plain "🔄 Regenerating issues with your feedback...")]).

Definition edited_assets : Assets :=
  {| text := text (assets (fst editing_session))
             ++ [("USER EDIT REQUEST: " ++ msg_content edit_message)%string];
     images := images (assets (fst editing_session));
     generatedIssues := generatedIssues (assets (fst editing_session)) |}.

Definition regenerated_world : World :=
  fst (generateIssueContent sample_JSON_parse sample_instruction edited_assets
         regenerating_world).

Lemma edit_request_regenerates_but_keeps_the_first_issues_witness :
  let s := fst editing_session in
  let b' := step sample_JSON_parse sample_instruction (s, snd editing_session)
              (MessageCreate edit_message) in
  text (assets (fst b'))
    = text (assets s) ++ [("USER EDIT REQUEST: " ++ msg_content edit_message)%string] /\
  generatedIssues (assets (fst b')) = Some [sample_issue] /\
  exists r', review (fst b') = Some r' /\
             review_issues r' = review_issues (review_of editing_session) /\
             editCollectors r' = 0.
Proof.
  assert (Hended : collector_ended (fst editing_session) = true)
    by (vm_compute; reflexivity).
  assert (Hreview : review (fst editing_session) = Some (review_of editing_session))
    by (vm_compute; reflexivity).
  assert (Hpending : editCollectors (review_of editing_session) = 1)
    by (vm_compute; reflexivity).
  assert (Hauthor : user_id (author edit_message) = user_id (invoker (fst editing_session)))
    by (vm_compute; reflexivity).
  assert (Hchat : chat_answer (snd editing_session)
                    (List.length (chat_log (snd editing_session))) = None)
    by (vm_compute; reflexivity).
  assert (Hgen : generateIssueContent sample_JSON_parse sample_instruction edited_assets
                   regenerating_world
                 = (regenerated_world, Return [sample_issue]))
    by (vm_compute; reflexivity).
  exact (edit_request_regenerates_but_keeps_the_first_issues sample_JSON_parse
           sample_instruction (fst editing_session) (snd editing_session) regenerated_world
           (review_of editing_session) edit_message [sample_issue]
           Hended Hreview Hpending Hauthor Hchat Hgen).
Defined.

(** ** More of the batch *)

Lemma createIssues_commits_an_accepted_batch_witness :
  exists (w' : World) (created : list CreatedIssue),
    createIssues [sample_issue; second_issue] one_image calm_world = (w', Return created) /\
    List.length created = 2 /\
    tracker_calls w' = batch_requests calm_world [sample_issue; second_issue] one_image /\
    tracker_issues w'
      = combine (batch_requests calm_world [sample_issue; second_issue] one_image) created /\
    chat_log w' = [] /\
    llm_calls w' = [].
Proof.
  apply (createIssues_commits_an_accepted_batch calm_world [sample_issue; second_issue]
           one_image).
  intros j issue _. eexists. reflexivity.
Defined.

(** ** The board and the [list-issues] command *)

(** [parseInt] on the project numbers used below: the binary64 pattern of 7,
    and that of [NaN] for anything else. *)
Definition sample_parseInt (x : Maybe) (radix : nat) : N :=
  match x with
  | str "7" => 0x401C000000000000%N
  | _ => 0x7FF8000000000000%N
  end.

Definition sample_addFields_error (embed : ListEmbed) (field : EmbedField) : JsError :=
  {| name := "CombinedPropertyError"; message := "Received one or more errors" |}.

Definition node_of (item : ProjectItem) : ItemNode :=
  {| node_id := item.(item_id);
     node_fieldValueByName := item.(fieldValueByName);
     node_content := Some item.(item_content) |}.

(** An item that wraps nothing the token may read. *)
Definition hidden_node : ItemNode :=
  {| node_id := "I9"; node_fieldValueByName := with_status "Backlog" "opt-backlog";
     node_content := None |}.

Definition item_in_review := board_item "I5" (with_status "In Review" "opt-review").
Definition item_blocked := board_item "I6" (with_status "Blocked" "opt-blocked").
Definition item_ready := board_item "I7" (with_status "Ready" "opt-ready").

Definition board_nodes : list ItemNode :=
  [ node_of item_in_progress; hidden_node; node_of item_done; node_of item_in_review;
    node_of item_without_status; node_of item_blocked; node_of item_backlog;
    node_of item_ready ].

Definition priority_field : StatusField :=
  {| field_name_ := "Priority";
     options := [ {| option_id := "opt-high"; option_name := "High" |} ] |}.

Definition sample_project : ProjectNodeData :=
  {| organization := Some {| projectV2 := Some {| project_id := "PVT_kwDOB" |} |} |}.

(** A board with eight items, five of them listed. *)
Definition sample_board : Board :=
  {| env_GITHUB_REPO_OWNER := " acme ";
     env_GITHUB_PROJECT_NUMBER := str "7";
     graphql_calls := [];
     getProjectNode_answer := fun _ _ => Return sample_project;
     getStatusField_answer := fun _ _ =>
       Return (ProjectNode [NullField; SingleSelectField priority_field; OtherField;
                            SingleSelectField board_status]);
     getProjectItems_answer := fun _ _ => Return (ProjectNode board_nodes);
     replies := []; reply_answer := fun _ => None;
     clock_reads := 0; clock := fun n => (Z.of_nat n + 1700000000000)%Z |}.

Definition bad_credentials : JsError :=
  {| name := "HttpError"; message := "Bad credentials" |}.

(** The same board with a status query that is refused. *)
Definition status_query_fails : Board :=
  {| env_GITHUB_REPO_OWNER := " acme ";
     env_GITHUB_PROJECT_NUMBER := str "7";
     graphql_calls := [];
     getProjectNode_answer := fun _ _ => Return sample_project;
     getStatusField_answer := fun _ _ => Throw bad_credentials;
     getProjectItems_answer := fun _ _ => Return (ProjectNode board_nodes);
     replies := []; reply_answer := fun _ => None;
     clock_reads := 0; clock := fun n => (Z.of_nat n + 1700000000000)%Z |}.

(** The same board without a field named [Status]. *)
Definition board_without_status : Board :=
  {| env_GITHUB_REPO_OWNER := " acme ";
     env_GITHUB_PROJECT_NUMBER := str "7";
     graphql_calls := [];
     getProjectNode_answer := fun _ _ => Return sample_project;
     getStatusField_answer := fun _ _ =>
       Return (ProjectNode [NullField; SingleSelectField priority_field; OtherField]);
     getProjectItems_answer := fun _ _ => Return (ProjectNode board_nodes);
     replies := []; reply_answer := fun _ => None;
     clock_reads := 0; clock := fun n => (Z.of_nat n + 1700000000000)%Z |}.

Definition listed_items : list ProjectItem :=
  [item_backlog; item_in_progress; item_in_review; item_blocked; item_ready].

Lemma listing_stops_at_the_first_failed_query_witness :
  exists (d' : Board) (projectId : Maybe),
    listOpenIssues sample_parseInt status_query_fails = (d', Throw bad_credentials) /\
    graphql_calls d'
      = firstn 2 (listing_queries sample_parseInt status_query_fails projectId) /\
    replies d' = [] /\
    replies (fst (list_issues sample_parseInt sample_addFields_error status_query_fails))
      = [error_reply bad_credentials].
Proof.
  apply (listing_stops_at_the_first_failed_query sample_parseInt sample_addFields_error
           status_query_fails 1 bad_credentials).
  exists sample_project. split; reflexivity.
Defined.

Lemma listing_needs_a_field_named_Status_witness :
  exists d',
    listOpenIssues sample_parseInt board_without_status
      = (d', Throw (cannot_read "undefined" "options")) /\
    graphql_calls d'
      = listing_queries sample_parseInt board_without_status (str "PVT_kwDOB") /\
    replies (fst (list_issues sample_parseInt sample_addFields_error board_without_status)) =
      [ {| reply_content :=
             "❌ Error: Cannot read properties of undefined (reading 'options')";
           reply_embeds := None; reply_components := None;
           reply_ephemeral := Some true |} ].
Proof.
  apply (listing_needs_a_field_named_Status sample_parseInt sample_addFields_error
           board_without_status sample_project
           [NullField; SingleSelectField priority_field; OtherField] board_nodes);
    reflexivity.
Defined.

Lemma listOpenIssues_returns_the_processed_board_witness :
  exists (response : ProjectNodeData) (fields : list FieldNode) (field : StatusField)
         (nodes : list ItemNode),
    getProjectNode_answer sample_board 0 (project_query sample_parseInt sample_board)
      = Return response /\
    getStatusField_answer sample_board 1 (getStatusField_query (projectV2_id response))
      = Return (ProjectNode fields) /\
    find named_Status fields = Some (SingleSelectField field) /\
    field_name_ field = "Status" /\
    getProjectItems_answer sample_board 2 (getProjectItems_query (projectV2_id response))
      = Return (ProjectNode nodes) /\
    listed_items = processProjectItems (with_content nodes) field /\
    graphql_calls (fst (listOpenIssues sample_parseInt sample_board))
      = listing_queries sample_parseInt sample_board (projectV2_id response).
Proof.
  apply (listOpenIssues_returns_the_processed_board sample_parseInt sample_board
           (fst (listOpenIssues sample_parseInt sample_board)) listed_items).
  vm_compute. reflexivity.
Defined.

Lemma list_issues_replies_in_embeds_of_four_witness :
  exists (full : list ListEmbed) (last : ListEmbed),
    replies (fst (list_issues sample_parseInt sample_addFields_error sample_board)) =
      [listing_reply sample_board 5 (full ++ [last])] /\
    List.concat (map le_fields (full ++ [last])) = map issue_field listed_items /\
    Forall four full /\
    List.length (le_fields last) <= 4 /\
    (listed_items <> [] -> 1 <= List.length (le_fields last)) /\
    List.length (full ++ [last]) = 2 /\
    map le_title (full ++ [last]) =
      Some "📝 Open Issues (5)" :: repeat None (List.length full).
Proof.
  apply (list_issues_replies_in_embeds_of_four sample_parseInt sample_addFields_error
           sample_board (fst (listOpenIssues sample_parseInt sample_board)) listed_items).
  - vm_compute. reflexivity.
  - unfold listed_items.
    repeat (apply Forall_cons;
            [split; [discriminate | apply Nat.leb_le; vm_compute; reflexivity]|]).
    apply Forall_nil.
Defined.

(** The listing of [sample_board], evaluated: two embeds, of four fields and
    of one. *)
Example sample_board_is_listed_in_two_embeds :
  map (fun r => (reply_content r,
                 option_map (map (fun embed => map field_name (le_fields embed)))
                            (reply_embeds r)))
      (replies (fst (list_issues sample_parseInt sample_addFields_error sample_board)))
  = [("**Issues in Project** (5 total)", Some [["I2"; "I1"; "I5"; "I6"]; ["I7"]])].
Proof. vm_compute. reflexivity. Qed.

Lemma listed_items_show_their_own_status_witness :
  exists s : string,
    status_name item_in_review = str s /\
    s <> "" /\
    shown_status item_in_review = s /\
    (forall done, find_option "Done" board_status = Some done -> s <> option_name done).
Proof.
  apply (listed_items_show_their_own_status
           (with_content board_nodes) board_status item_in_review).
  vm_compute. right. right. left. reflexivity.
Defined.
